(** * A shallow embedding of the ProseMirror document core

    The development follows the TypeScript sources of the repository:
    the document model (comparedeep, mark, schema, content, fragment, node,
    resolvedpos, replace) and the transform layer (map, step, replace_step,
    attr_step).

    Conventions of the embedding.
    - JavaScript numbers that hold positions, sizes, ranks and indices are
      integers ([Z]); array reads outside the array give [None] (the
      JavaScript [undefined]).
    - Exceptions are values of [Exn]; code that may throw returns [Res].
    - Attribute values and JSON documents are values of [JsValue].
    - Node types and mark types are created once per schema and compared by
      reference in the source; a schema gives every type a distinct name, so
      the embedding compares types by name.
    - Objects are immutable in the source; "return this" shortcuts guarded by
      a reference comparison ([content == this.content], [current == node])
      return a value that is structurally the one built by the other branch,
      so only the building branch is kept. *)

From Stdlib Require Import ZArith List String Ascii Bool Lia Arith DecimalString Btauto
  Permutation.
Import ListNotations.
Open Scope string_scope.
Open Scope list_scope.
Open Scope Z_scope.

Set Warnings "-register-all".

(** ** Exceptions and results *)

Inductive Exn : Type :=
| RangeError (msg : string)
| ReplaceError (msg : string)
| SyntaxError (msg : string)
| TypeError (msg : string)
| Error (msg : string).

Inductive Res (A : Type) : Type :=
| Ok (a : A)
| Throw (e : Exn).

Arguments Ok {A} a.
Arguments Throw {A} e.

Definition bind {A B : Type} (m : Res A) (k : A -> Res B) : Res B :=
  match m with
  | Ok a => k a
  | Throw e => Throw e
  end.

Notation "x <- m ;; k" := (bind m (fun x => k))
  (at level 61, m at next level, right associativity).
Notation "' pat <- m ;; k" := (bind m (fun x => match x with pat => k end))
  (at level 61, pat pattern, m at next level, right associativity).

Definition isOk {A : Type} (r : Res A) : bool :=
  match r with Ok _ => true | Throw _ => false end.

(** Reading [arr[i]]: [undefined] below zero and past the end. *)
Definition arr_get {A : Type} (l : list A) (i : Z) : option A :=
  if i <? 0 then None else nth_error l (Z.to_nat i).

(** Writing [copy[i] = x] on an index that is inside the array. *)
Fixpoint arr_set {A : Type} (l : list A) (i : nat) (x : A) : list A :=
  match l, i with
  | [], _ => []
  | _ :: t, O => x :: t
  | h :: t, S i' => h :: arr_set t i' x
  end.

Definition len {A : Type} (l : list A) : Z := Z.of_nat (List.length l).

(** [arr.slice(from, to)] for [0 <= from]. *)
Definition arr_slice {A : Type} (l : list A) (from to : Z) : list A :=
  firstn (Z.to_nat (to - from)) (skipn (Z.to_nat from) l).

(** ** JavaScript values (attribute values and JSON) *)

Inductive JsValue : Type :=
| JUndefined
| JNull
| JBool (b : bool)
| JNum (n : Z)
| JStr (s : string)
| JArr (items : list JsValue)
| JObj (fields : list (string * JsValue)).

Definition Attrs := list (string * JsValue).

Fixpoint lookup {A : Type} (k : string) (l : list (string * A)) : option A :=
  match l with
  | [] => None
  | (k', v) :: t => if String.eqb k k' then Some v else lookup k t
  end.

Definition hasKey {A : Type} (k : string) (l : list (string * A)) : bool :=
  match lookup k l with Some _ => true | None => false end.

(** [obj[k]] *)
Definition getProp (v : JsValue) (k : string) : JsValue :=
  match v with
  | JObj fields => match lookup k fields with Some x => x | None => JUndefined end
  | _ => JUndefined
  end.

Definition truthy (v : JsValue) : bool :=
  match v with
  | JUndefined | JNull => false
  | JBool b => b
  | JNum n => negb (n =? 0)
  | JStr s => negb (String.eqb s "")
  | JArr _ | JObj _ => true
  end.

(** comparedeep.ts, [compareDeep]. The first test [a === b] decides the
    primitive values; on two objects it is a reference comparison, and two
    references to one object also pass the structural comparison below. *)
Fixpoint compareDeep (a b : JsValue) {struct a} : bool :=
  match a, b with
  | JUndefined, JUndefined => true
  | JNull, JNull => true
  | JBool x, JBool y => Bool.eqb x y
  | JNum x, JNum y => x =? y
  | JStr x, JStr y => String.eqb x y
  | JArr la, JArr lb =>
      (fix each (la lb : list JsValue) {struct la} : bool :=
         match la, lb with
         | [], [] => true
         | x :: la', y :: lb' => compareDeep x y && each la' lb'
         | _, _ => false
         end) la lb
  | JObj fa, JObj fb =>
      (fix props (fa : list (string * JsValue)) {struct fa} : bool :=
         match fa with
         | [] => true
         | (p, x) :: fa' =>
             match lookup p fb with
             | Some y => compareDeep x y && props fa'
             | None => false
             end
         end) fa
      && forallb (fun q => hasKey (fst q) fa) fb
  | _, _ => false
  end.

Definition compareAttrs (a b : Attrs) : bool := compareDeep (JObj a) (JObj b).

(** ** Attribute descriptors (schema.ts) *)

Inductive Validator : Type :=
| ValidateType (types : list string)
| ValidateFn (accepts : JsValue -> bool).

(** [AttributeSpec]: [as_default] is [None] when the spec has no property
    [default]; [validate] is a type string or a function. *)
Inductive ValidateSpec : Type :=
| ValidateString (type : string)
| ValidateFunction (accepts : JsValue -> bool).

Record AttributeSpec : Type := mkAttributeSpec {
  as_default : option JsValue;
  as_validate : option ValidateSpec
}.

Record Attribute : Type := mkAttribute {
  hasDefault : bool;
  default : JsValue;
  validate : option Validator
}.

(** [str.split(sep)] for a separator of one character. *)
Fixpoint splitOn (sep : Ascii.ascii) (s : string) : list string :=
  match s with
  | EmptyString => [EmptyString]
  | String c rest =>
      if Ascii.eqb c sep then EmptyString :: splitOn sep rest
      else match splitOn sep rest with
           | first :: others => String c first :: others
           | [] => [String c EmptyString]
           end
  end.

(** [new Attribute(typeName, attrName, options)] *)
Definition Attribute_new (options : AttributeSpec) : Attribute :=
  mkAttribute
    (match as_default options with Some _ => true | None => false end)
    (match as_default options with Some v => v | None => JUndefined end)
    (match as_validate options with
     | Some (ValidateString type) => Some (ValidateType (splitOn "|"%char type))
     | Some (ValidateFunction f) => Some (ValidateFn f)
     | None => None
     end).

(** [initAttrs] *)
Definition initAttrs (attrs : list (string * AttributeSpec)) : list (string * Attribute) :=
  map (fun na => (fst na, Attribute_new (snd na))) attrs.

Definition isRequired (a : Attribute) : bool := negb (hasDefault a).

Definition AttrTable := list (string * Attribute).

(** [defaultAttrs]: [null] as soon as one attribute has no default. *)
Fixpoint defaultAttrs (attrs : AttrTable) : option Attrs :=
  match attrs with
  | [] => Some []
  | (attrName, attr) :: rest =>
      if hasDefault attr then
        match defaultAttrs rest with
        | Some defaults => Some ((attrName, default attr) :: defaults)
        | None => None
        end
      else None
  end.

(** [computeAttrs(attrs, value)]. [value && value[name]] is [value] itself
    when [value] is [null] or another value that counts as false. *)
Fixpoint computeAttrs (attrs : AttrTable) (value : JsValue) : Res Attrs :=
  match attrs with
  | [] => Ok []
  | (name, attr) :: rest =>
      let given := if truthy value then getProp value name else value in
      given' <- (match given with
                 | JUndefined =>
                     if hasDefault attr then Ok (default attr)
                     else Throw (RangeError (String.append "No value supplied for attribute " name))
                 | _ => Ok given
                 end) ;;
      built <- computeAttrs rest value ;;
      Ok ((name, given') :: built)
  end.

Definition typeofName (v : JsValue) : string :=
  match v with
  | JUndefined => "undefined"
  | JNull => "null"
  | JBool _ => "boolean"
  | JNum _ => "number"
  | JStr _ => "string"
  | JArr _ | JObj _ => "object"
  end.

Definition runValidator (v : Validator) (value : JsValue) : bool :=
  match v with
  | ValidateType types => existsb (String.eqb (typeofName value)) types
  | ValidateFn accepts => accepts value
  end.

(** [checkAttrs(attrs, values, type, name)] *)
Definition checkAttrs (attrs : AttrTable) (values : Attrs) : Res unit :=
  if forallb (fun kv => hasKey (fst kv) attrs) values then
    if forallb (fun na =>
                  match validate (snd na) with
                  | Some v => runValidator v (getProp (JObj values) (fst na))
                  | None => true
                  end) attrs
    then Ok tt
    else Throw (RangeError "Invalid attribute value")
  else Throw (RangeError "Unsupported attribute")
.

(** ** Marks (mark.ts, and MarkType of schema.ts) *)

Record MarkType : Type := mkMarkType {
  mt_name : string;
  mt_rank : Z;
  mt_attrs : AttrTable;
  mt_excluded : list string;
  mt_group : option string
}.

Record Mark : Type := mkMark {
  m_type : MarkType;
  m_attrs : Attrs
}.

Definition MarkType_same (a b : MarkType) : bool := String.eqb (mt_name a) (mt_name b).

(** [MarkType.excludes]: [this.excluded.indexOf(other) > -1] *)
Definition excludes (this other : MarkType) : bool :=
  existsb (String.eqb (mt_name other)) (mt_excluded this).

Definition Mark_eq (this other : Mark) : bool :=
  MarkType_same (m_type this) (m_type other) && compareAttrs (m_attrs this) (m_attrs other).

Definition Mark_none : list Mark := [].

Definition orSlice (copy : option (list Mark)) (set : list Mark) (i : nat) : list Mark :=
  match copy with
  | Some c => c
  | None => firstn i set
  end.

(** The loop of [Mark.addToSet]; [rest] is [set] from index [i] on. *)
Fixpoint addToSet_loop (this : Mark) (set : list Mark) (i : nat) (rest : list Mark)
    (copy : option (list Mark)) (placed : bool) : list Mark :=
  match rest with
  | [] =>
      let copy' := match copy with Some c => c | None => set end in
      if placed then copy' else copy' ++ [this]
  | other :: rest' =>
      if Mark_eq this other then set
      else if excludes (m_type this) (m_type other) then
        addToSet_loop this set (S i) rest' (Some (orSlice copy set i)) placed
      else if excludes (m_type other) (m_type this) then set
      else
        if negb placed && (mt_rank (m_type other) >? mt_rank (m_type this)) then
          addToSet_loop this set (S i) rest'
            (Some ((orSlice copy set i ++ [this]) ++ [other])) true
        else
          addToSet_loop this set (S i) rest'
            (match copy with Some c => Some (c ++ [other]) | None => None end) placed
  end.

Definition addToSet (this : Mark) (set : list Mark) : list Mark :=
  addToSet_loop this set 0 set None false.

Definition Mark_removeFromSet (this : Mark) (set : list Mark) : list Mark :=
  (fix go (pre rest : list Mark) : list Mark :=
     match rest with
     | [] => set
     | x :: rest' => if Mark_eq this x then pre ++ rest' else go (pre ++ [x]) rest'
     end) [] set.

Definition Mark_isInSet (this : Mark) (set : list Mark) : bool :=
  existsb (Mark_eq this) set.

(** [Mark.sameSet] *)
Fixpoint sameSet (a b : list Mark) : bool :=
  match a, b with
  | [], [] => true
  | x :: a', y :: b' => Mark_eq x y && sameSet a' b'
  | _, _ => false
  end.

(** [copy.sort((a, b) => a.type.rank - b.type.rank)]: the sort of the
    language is stable, so it is the stable insertion sort by rank. *)
Fixpoint insertByRank (m : Mark) (sorted : list Mark) : list Mark :=
  match sorted with
  | [] => [m]
  | x :: rest =>
      if mt_rank (m_type m) <? mt_rank (m_type x) then m :: sorted
      else x :: insertByRank m rest
  end.

Definition sortByRank (marks : list Mark) : list Mark :=
  fold_left (fun acc m => insertByRank m acc) marks [].

(** [Mark.setFrom] on an array or [null]. *)
Definition setFrom (marks : option (list Mark)) : list Mark :=
  match marks with
  | None => Mark_none
  | Some [] => Mark_none
  | Some l => sortByRank l
  end.

(** [MarkType.create(attrs)]: [this.instance] is the mark with the default
    attributes, when every attribute has a default. *)
Definition MarkType_create (t : MarkType) (attrs : JsValue) : Res Mark :=
  match truthy attrs, defaultAttrs (mt_attrs t) with
  | false, Some defaults => Ok (mkMark t defaults)
  | _, _ =>
      built <- computeAttrs (mt_attrs t) (match attrs with JUndefined => JNull | v => v end) ;;
      Ok (mkMark t built)
  end.

(** ** Node types, as the [NodeType] constructor leaves them (schema.ts)

    The part of a node type that exists before its content expression is
    compiled: the content automaton refers to node types through it. *)

Record NodeSpec : Type := mkNodeSpec {
  spec_content : option string;
  spec_marks : option string;
  spec_group : option string;
  spec_inline : bool;
  spec_attrs : list (string * AttributeSpec);
  spec_linebreakReplacement : bool
}.

Record NodeTypeBase : Type := mkNodeTypeBase {
  nt_name : string;
  nt_groups : list string;
  nt_attrs : AttrTable;
  nt_isBlock : bool
}.

(** [this.isText = name == "text"] *)
Definition nt_isText (t : NodeTypeBase) : bool := String.eqb (nt_name t) "text".

(** The [NodeType] constructor. *)
Definition NodeTypeBase_new (name : string) (spec : NodeSpec) : NodeTypeBase :=
  mkNodeTypeBase name
    (match spec_group spec with
     | Some g => if String.eqb g "" then [] else splitOn " "%char g
     | None => []
     end)
    (initAttrs (spec_attrs spec))
    (negb (spec_inline spec || String.eqb name "text")).

Definition NodeTypeBase_same (a b : NodeTypeBase) : bool :=
  String.eqb (nt_name a) (nt_name b).

Definition nt_isInline (t : NodeTypeBase) : bool := negb (nt_isBlock t).

Definition isInGroup (t : NodeTypeBase) (group : string) : bool :=
  existsb (String.eqb group) (nt_groups t).

Definition hasRequiredAttrs (t : NodeTypeBase) : bool :=
  existsb (fun na => isRequired (snd na)) (nt_attrs t).

(** ** Content expressions (content.ts) *)

(** *** The compiled automaton

    A [ContentMatch] object is one state of a deterministic automaton; the
    objects of one automaton refer to each other through their [next] edges.
    The embedding keeps the states of one automaton in a table and a
    [ContentMatch] is the table with the index of a state. [cm_empty] is true
    for the one shared object [ContentMatch.empty], which the source
    recognises by reference ([contentMatch == ContentMatch.empty]). *)

Record DState : Type := mkDState {
  validEndOf : bool;
  nextOf : list (NodeTypeBase * nat)
}.

Record ContentMatch : Type := mkContentMatch {
  cm_states : list DState;
  cm_cur : nat;
  cm_empty : bool
}.

Definition ContentMatch_empty : ContentMatch :=
  mkContentMatch [mkDState true []] 0 true.

Definition cm_state (m : ContentMatch) : DState :=
  nth (cm_cur m) (cm_states m) (mkDState false []).

Definition validEnd (m : ContentMatch) : bool := validEndOf (cm_state m).

Definition cm_next (m : ContentMatch) : list (NodeTypeBase * nat) := nextOf (cm_state m).

(** [matchType]: the first edge whose type is [type]. *)
Definition matchType (m : ContentMatch) (type : NodeTypeBase) : option ContentMatch :=
  match find (fun e => NodeTypeBase_same (fst e) type) (cm_next m) with
  | Some (_, n) => Some (mkContentMatch (cm_states m) n false)
  | None => None
  end.

(** [matchFragment] on the node types of the children [start .. end). *)
Fixpoint matchTypes (m : ContentMatch) (types : list NodeTypeBase) : option ContentMatch :=
  match types with
  | [] => Some m
  | t :: rest =>
      match matchType m t with
      | Some m' => matchTypes m' rest
      | None => None
      end
  end.

Definition inlineContent (m : ContentMatch) : bool :=
  match cm_next m with
  | [] => false
  | (t, _) :: _ => nt_isInline t
  end.

(** [compatible] *)
Definition compatible (m other : ContentMatch) : bool :=
  existsb (fun e => existsb (fun e' => NodeTypeBase_same (fst e) (fst e')) (cm_next other))
          (cm_next m).

(** *** Token stream *)

Definition isWordChar (c : Ascii.ascii) : bool :=
  let n := Ascii.nat_of_ascii c in
  ((48 <=? n) && (n <=? 57) || (65 <=? n) && (n <=? 90)
   || (97 <=? n) && (n <=? 122) || (n =? 95))%nat.

Definition isDigitChar (c : Ascii.ascii) : bool :=
  let n := Ascii.nat_of_ascii c in ((48 <=? n) && (n <=? 57))%nat.

(** The white space of [\s] among the one-byte characters. *)
Definition isSpaceChar (c : Ascii.ascii) : bool :=
  let n := Ascii.nat_of_ascii c in ((9 <=? n) && (n <=? 13) || (n =? 32))%nat.

Definition charAt (s : list Ascii.ascii) (i : nat) : option Ascii.ascii := nth_error s i.

Definition wordAt (s : list Ascii.ascii) (i : nat) : bool :=
  match charAt s i with Some c => isWordChar c | None => false end.

(** The lookahead [(?=\b|\W|$)] at position [pos]. *)
Definition lookaheadAt (s : list Ascii.ascii) (pos : nat) : bool :=
  let before := match pos with O => false | S p => wordAt s p end in
  let wordBoundary := xorb before (wordAt s pos) in
  let nonWord := match charAt s pos with Some c => negb (isWordChar c) | None => false end in
  let atEnd := (List.length s <=? pos)%nat in
  wordBoundary || nonWord || atEnd.

Fixpoint spaceRun (s : list Ascii.ascii) : nat :=
  match s with
  | c :: rest => if isSpaceChar c then S (spaceRun rest) else O
  | [] => O
  end.

(** A match of [\s*(?=\b|\W|$)] that starts at [q]: the end of the longest
    run of white space after which the lookahead holds. *)
Fixpoint matchSeparator (s : list Ascii.ascii) (q : nat) (run : nat) : option nat :=
  if lookaheadAt s (q + run) then Some (q + run)%nat
  else match run with
       | O => None
       | S run' => matchSeparator s q run'
       end.

Definition substring (s : list Ascii.ascii) (from to : nat) : string :=
  string_of_list_ascii (firstn (to - from) (skipn from s)).

(** [String.prototype.split] with the separator above: [p] is the end of
    the previous separator, [q] the position tried next. A turn either moves
    [q] forward or records a separator, after which the next turn moves [q]
    forward, so twice the length of the string bounds the turns. *)
Fixpoint splitLoop (s : list Ascii.ascii) (steps p q : nat) : list string :=
  match steps with
  | O => [substring s p (List.length s)]
  | S steps' =>
      if (List.length s <=? q)%nat then [substring s p (List.length s)]
      else
        match matchSeparator s q (spaceRun (skipn q s)) with
        | None => splitLoop s steps' p (S q)
        | Some e =>
            if (e =? p)%nat then splitLoop s steps' p (S q)
            else substring s p q :: splitLoop s steps' e e
        end
  end.

Definition splitTokens (str : string) : list string :=
  let s := list_ascii_of_string str in
  match s with
  | [] => match matchSeparator s 0 0 with Some _ => [] | None => [str] end
  | _ => splitLoop s (2 * S (List.length s)) 0 0
  end.

Definition dropLastEmpty (tokens : list string) : list string :=
  match rev tokens with
  | "" :: rest => rev rest
  | _ => tokens
  end.

Definition dropFirstEmpty (tokens : list string) : list string :=
  match tokens with
  | "" :: rest => rest
  | _ => tokens
  end.

Record TokenStream : Type := mkTokenStream {
  ts_string : string;
  ts_nodeTypes : list (string * NodeTypeBase);
  ts_inline : option bool;
  ts_pos : nat;
  ts_tokens : list string
}.

Definition TokenStream_new (str : string) (nodeTypes : list (string * NodeTypeBase)) : TokenStream :=
  mkTokenStream str nodeTypes None 0 (dropFirstEmpty (dropLastEmpty (splitTokens str))).

Definition ts_next (st : TokenStream) : option string := nth_error (ts_tokens st) (ts_pos st).

Definition ts_advance (st : TokenStream) : TokenStream :=
  mkTokenStream (ts_string st) (ts_nodeTypes st) (ts_inline st) (S (ts_pos st)) (ts_tokens st).

Definition ts_setInline (st : TokenStream) (b : bool) : TokenStream :=
  mkTokenStream (ts_string st) (ts_nodeTypes st) (Some b) (ts_pos st) (ts_tokens st).

Definition nextIs (st : TokenStream) (tok : string) : bool :=
  match ts_next st with Some t => String.eqb t tok | None => false end.

(** [eat(tok)] *)
Definition eat (st : TokenStream) (tok : string) : bool * TokenStream :=
  if nextIs st tok then (true, ts_advance st) else (false, st).

Definition ts_err {A : Type} (st : TokenStream) (msg : string) : Res A :=
  Throw (SyntaxError (String.append msg
           (String.append " (in content expression '" (String.append (ts_string st) "')")))).

(** *** Expressions *)

Inductive Expr : Type :=
| Choice (exprs : list Expr)
| Seq (exprs : list Expr)
| Plus (expr : Expr)
| Star (expr : Expr)
| Opt (expr : Expr)
| Range (min max : Z) (expr : Expr)
| Name (value : NodeTypeBase).

Definition allChars (f : Ascii.ascii -> bool) (s : string) : bool :=
  forallb f (list_ascii_of_string s).

(** The text of the next token as the tests [/\D/.test] and [/\W/.test] see
    it: a missing token reads as ["undefined"]. *)
Definition nextText (st : TokenStream) : string :=
  match ts_next st with Some t => t | None => "undefined" end.

Fixpoint digitsValue (acc : Z) (s : list Ascii.ascii) : Z :=
  match s with
  | [] => acc
  | c :: rest => digitsValue (10 * acc + Z.of_nat (Ascii.nat_of_ascii c - 48)) rest
  end.

(** [parseNum] *)
Definition parseNum (st : TokenStream) : Res (Z * TokenStream) :=
  if allChars isDigitChar (nextText st) then
    match ts_next st with
    | Some t => Ok (digitsValue 0 (list_ascii_of_string t), ts_advance st)
    | None => ts_err st "Expected number"
    end
  else ts_err st (String.append "Expected number, got '" (String.append (nextText st) "'")).

(** [parseExprRange] *)
Definition parseExprRange (st : TokenStream) (expr : Expr) : Res (Expr * TokenStream) :=
  '(min, st) <- parseNum st ;;
  '(max, st) <- (let (comma, st1) := eat st "," in
                 if comma then
                   if negb (nextIs st1 "}") then parseNum st1 else Ok (-1, st1)
                 else Ok (min, st1)) ;;
  let (closed, st) := eat st "}" in
  if closed then Ok (Range min max expr, st) else ts_err st "Unclosed braced range".

(** [resolveName]: the type of that name, or the types of that group in
    the order of the table. *)
Definition resolveName (st : TokenStream) (name : option string) : Res (list NodeTypeBase) :=
  let types := ts_nodeTypes st in
  let key := match name with Some n => n | None => "undefined" end in
  match lookup key types with
  | Some type => Ok [type]
  | None =>
      let result := match name with
                    | Some n => filter (fun type => isInGroup type n) (map snd types)
                    | None => []
                    end in
      match result with
      | [] => ts_err st (String.append "No node type or group '" (String.append key "' found"))
      | _ => Ok result
      end
  end.

(** The [map] callback of [parseExprAtom]: the stream remembers whether
    the content is inline and refuses a mix. *)
Fixpoint namesOf (st : TokenStream) (types : list NodeTypeBase) : Res (list Expr * TokenStream) :=
  match types with
  | [] => Ok ([], st)
  | type :: rest =>
      st1 <- (match ts_inline st with
              | None => Ok (ts_setInline st (nt_isInline type))
              | Some b =>
                  if Bool.eqb b (nt_isInline type) then Ok st
                  else ts_err st "Mixing inline and block content"
              end) ;;
      '(exprs, st2) <- namesOf st1 rest ;;
      Ok (Name type :: exprs, st2)
  end.

(** The loop of [parseExprSubscript]. *)
Fixpoint subscripts (n : nat) (expr : Expr) (st : TokenStream) : Res (Expr * TokenStream) :=
  match n with
  | O => Throw (Error "token stream exhausted")
  | S n' =>
      let (plus, st1) := eat st "+" in
      if plus then subscripts n' (Plus expr) st1 else
      let (star, st2) := eat st1 "*" in
      if star then subscripts n' (Star expr) st2 else
      let (opt, st3) := eat st2 "?" in
      if opt then subscripts n' (Opt expr) st3 else
      let (brace, st4) := eat st3 "{" in
      if brace then
        '(expr', st5) <- parseExprRange st4 expr ;; subscripts n' expr' st5
      else Ok (expr, st4)
  end.

Definition single (mk : list Expr -> Expr) (exprs : list Expr) : Expr :=
  match exprs with
  | [e] => e
  | _ => mk exprs
  end.

(** [parseExpr], [parseExprSeq], [parseExprSubscript] and [parseExprAtom].
    Every call of [parseExpr] below the first follows an opening
    parenthesis, and every turn of the two [do ... while] loops reads at
    least one token, so the number of tokens bounds the depth [fuel] and the
    number of turns. *)
Fixpoint parseExpr (fuel : nat) (st : TokenStream) : Res (Expr * TokenStream) :=
  match fuel with
  | O => Throw (Error "token stream exhausted")
  | S fuel' =>
      let turns := S (List.length (ts_tokens st)) in
      let parseExprAtom (st : TokenStream) : Res (Expr * TokenStream) :=
        let (paren, st1) := eat st "(" in
        if paren then
          '(expr, st2) <- parseExpr fuel' st1 ;;
          let (closed, st3) := eat st2 ")" in
          if closed then Ok (expr, st3) else ts_err st3 "Missing closing paren"
        else if allChars isWordChar (nextText st) then
          types <- resolveName st (ts_next st) ;;
          '(exprs, st2) <- namesOf st types ;;
          Ok (single Choice exprs, ts_advance st2)
        else ts_err st (String.append "Unexpected token '" (String.append (nextText st) "'")) in
      let parseExprSubscript (st : TokenStream) : Res (Expr * TokenStream) :=
        '(expr, st1) <- parseExprAtom st ;; subscripts turns expr st1 in
      let parseExprSeq (st : TokenStream) : Res (Expr * TokenStream) :=
        '(exprs, st1) <-
          (fix loop (n : nat) (st : TokenStream) : Res (list Expr * TokenStream) :=
             match n with
             | O => Throw (Error "token stream exhausted")
             | S n' =>
                 '(expr, st1) <- parseExprSubscript st ;;
                 match ts_next st1 with
                 | Some tok =>
                     if negb (String.eqb tok "") && negb (String.eqb tok ")")
                        && negb (String.eqb tok "|")
                     then '(rest, st2) <- loop n' st1 ;; Ok (expr :: rest, st2)
                     else Ok ([expr], st1)
                 | None => Ok ([expr], st1)
                 end
             end) turns st ;;
        Ok (single Seq exprs, st1) in
      '(exprs, st1) <-
        (fix loop (n : nat) (st : TokenStream) : Res (list Expr * TokenStream) :=
           match n with
           | O => Throw (Error "token stream exhausted")
           | S n' =>
               '(expr, st1) <- parseExprSeq st ;;
               let (bar, st2) := eat st1 "|" in
               if bar then '(rest, st3) <- loop n' st2 ;; Ok (expr :: rest, st3)
               else Ok ([expr], st2)
           end) turns st ;;
      Ok (single Choice exprs, st1)
  end.


(** *** The non-deterministic automaton

    [nfa] builds an array of states, each an array of edges [{term, to}].
    The edge objects are shared: [compile] returns the edges that still
    have to be connected and [connect] writes their [to] field later. An
    edge is referred to by its state and its place in that state. *)

Record Edge : Type := mkEdge {
  term : option NodeTypeBase;
  to : option nat
}.

Definition NFA := list (list Edge).

Definition EdgeRef := (nat * nat)%type.

(** [node()]: [nfa.push([]) - 1] *)
Definition node (nfa : NFA) : nat * NFA := (List.length nfa, nfa ++ [[]]).

(** [edge(from, to, term)] *)
Definition edge (nfa : NFA) (from : nat) (to : option nat) (term : option NodeTypeBase)
  : EdgeRef * NFA :=
  let edges := nth from nfa [] in
  ((from, List.length edges), arr_set nfa from (edges ++ [mkEdge term to])).

Definition setTo (nfa : NFA) (r : EdgeRef) (to : nat) : NFA :=
  let edges := nth (fst r) nfa [] in
  match nth_error edges (snd r) with
  | Some e => arr_set nfa (fst r) (arr_set edges (snd r) (mkEdge (term e) (Some to)))
  | None => nfa
  end.

(** [connect(edges, to)] *)
Definition connect (nfa : NFA) (edges : list EdgeRef) (to : nat) : NFA :=
  fold_left (fun nfa r => setTo nfa r to) edges nfa.

Fixpoint compile (expr : Expr) (from : nat) (nfa : NFA) {struct expr}
  : Res (list EdgeRef * NFA) :=
  match expr with
  | Choice exprs =>
      (fix each (exprs : list Expr) (out : list EdgeRef) (nfa : NFA) {struct exprs}
         : Res (list EdgeRef * NFA) :=
         match exprs with
         | [] => Ok (out, nfa)
         | e :: rest => '(found, nfa1) <- compile e from nfa ;; each rest (out ++ found) nfa1
         end) exprs [] nfa
  | Seq exprs =>
      (fix each (exprs : list Expr) (from : nat) (nfa : NFA) {struct exprs}
         : Res (list EdgeRef * NFA) :=
         match exprs with
         | [] => Throw (TypeError "Cannot read properties of undefined (reading 'type')")
         | e :: rest =>
             '(next, nfa1) <- compile e from nfa ;;
             match rest with
             | [] => Ok (next, nfa1)
             | _ => let (from', nfa2) := node nfa1 in each rest from' (connect nfa2 next from')
             end
         end) exprs from nfa
  | Star inner =>
      let (loop, nfa1) := node nfa in
      let (_, nfa2) := edge nfa1 from (Some loop) None in
      '(found, nfa3) <- compile inner loop nfa2 ;;
      let (out, nfa4) := edge (connect nfa3 found loop) loop None None in
      Ok ([out], nfa4)
  | Plus inner =>
      let (loop, nfa1) := node nfa in
      '(first, nfa2) <- compile inner from nfa1 ;;
      '(again, nfa3) <- compile inner loop (connect nfa2 first loop) ;;
      let (out, nfa4) := edge (connect nfa3 again loop) loop None None in
      Ok ([out], nfa4)
  | Opt inner =>
      let (skip, nfa1) := edge nfa from None None in
      '(found, nfa2) <- compile inner from nfa1 ;;
      Ok (skip :: found, nfa2)
  | Range min max inner =>
      '(cur, nfa1) <-
        (fix required (n : nat) (cur : nat) (nfa : NFA) {struct n} : Res (nat * NFA) :=
           match n with
           | O => Ok (cur, nfa)
           | S n' =>
               let (next, nfa1) := node nfa in
               '(found, nfa2) <- compile inner cur nfa1 ;;
               required n' next (connect nfa2 found next)
           end) (Z.to_nat min) from nfa ;;
      '(cur', nfa2) <-
        (if max =? -1 then
           '(found, nfa2) <- compile inner cur nfa1 ;; Ok (cur, connect nfa2 found cur)
         else
           (fix optional (n : nat) (cur : nat) (nfa : NFA) {struct n} : Res (nat * NFA) :=
              match n with
              | O => Ok (cur, nfa)
              | S n' =>
                  let (next, nfa1) := node nfa in
                  let (_, nfa2) := edge nfa1 cur (Some next) None in
                  '(found, nfa3) <- compile inner cur nfa2 ;;
                  optional n' next (connect nfa3 found next)
              end) (Z.to_nat (max - min)) cur nfa1) ;;
      let (out, nfa3) := edge nfa2 cur' None None in
      Ok ([out], nfa3)
  | Name value =>
      let (out, nfa1) := edge nfa from None (Some value) in
      Ok ([out], nfa1)
  end.

(** [nfa(expr)]: the first state is the entry, the last one the success
    state. *)
Definition nfa (expr : Expr) : Res NFA :=
  '(found, nfa1) <- compile expr 0%nat [[]] ;;
  let (last, nfa2) := node nfa1 in
  Ok (connect nfa2 found last).

(** [result.sort(cmp)] with [cmp(a, b) = b - a]: decreasing. *)
Fixpoint insertDesc (x : nat) (sorted : list nat) : list nat :=
  match sorted with
  | [] => [x]
  | y :: rest => if (y <? x)%nat then x :: sorted else y :: insertDesc x rest
  end.

Definition sortDesc (l : list nat) : list nat :=
  fold_left (fun acc x => insertDesc x acc) l [].

Definition indexOfNat (l : list nat) (x : nat) : bool := existsb (Nat.eqb x) l.

(** The recursive [scan] of [nullFrom]. [depth] bounds the depth of the
    recursion; the source has no bound of its own and overflows the stack
    on a cycle of states that are skipped. *)
Fixpoint scan (depth : nat) (nfa : NFA) (node : nat) (result : list nat) : Res (list nat) :=
  match depth with
  | O => Throw (RangeError "Maximum call stack size exceeded")
  | S depth' =>
      match nth_error nfa node with
      | None => Throw (TypeError "Cannot read properties of undefined (reading 'length')")
      | Some edges =>
          let skipTo := match edges with
                        | [e] => match term e with None => Some (to e) | Some _ => None end
                        | _ => None
                        end in
          match skipTo with
          | Some (Some target) => scan depth' nfa target result
          | Some None => Throw (TypeError "Cannot read properties of undefined (reading 'length')")
          | None =>
              (fix each (edges : list Edge) (result : list nat) : Res (list nat) :=
                 match edges with
                 | [] => Ok result
                 | e :: rest =>
                     match term e, to e with
                     | None, Some target =>
                         if indexOfNat result target then each rest result
                         else result' <- scan depth' nfa target result ;; each rest result'
                     | None, None =>
                         Throw (TypeError "Cannot read properties of undefined (reading 'length')")
                     | Some _, _ => each rest result
                     end
                 end) edges (result ++ [node])
          end
      end
  end.

Definition edgeCount (nfa : NFA) : nat := fold_left (fun n edges => (n + List.length edges)%nat) nfa O.

(** [nullFrom(nfa, node)] *)
Definition nullFrom (nfa : NFA) (node : nat) : Res (list nat) :=
  result <- scan (S (List.length nfa) * S (edgeCount nfa)) nfa node [] ;;
  Ok (sortDesc result).

(** *** The deterministic automaton *)

(** The store of [dfa]: the states created so far, and [labeled], which
    maps the key of a set of states ([states.join(",")]) to its state. *)
Record DfaStore : Type := mkDfaStore {
  ds_states : list DState;
  ds_labeled : list (list nat * nat)
}.

Definition sameKey (a b : list nat) : bool :=
  if list_eq_dec Nat.eq_dec a b then true else false.

Definition labeledFind (labeled : list (list nat * nat)) (key : list nat) : option nat :=
  match find (fun kv => sameKey (fst kv) key) labeled with
  | Some (_, s) => Some s
  | None => None
  end.

Definition OutTable := list (NodeTypeBase * list nat).

(** The body of the innermost [forEach] of [explore], for every state of
    [nullFrom(nfa, to)]: the set of [term] is created when it is missing. *)
Fixpoint addTargets (out : OutTable) (term : NodeTypeBase) (targets : list nat) : OutTable :=
  match targets with
  | [] => out
  | target :: rest =>
      let out1 :=
        if existsb (fun entry => NodeTypeBase_same (fst entry) term) out then out
        else out ++ [(term, [])] in
      let out2 :=
        map (fun entry =>
               if NodeTypeBase_same (fst entry) term then
                 (fst entry, if indexOfNat (snd entry) target then snd entry
                             else snd entry ++ [target])
               else entry) out1 in
      addTargets out2 term rest
  end.

Fixpoint outOfEdges (nfa : NFA) (edges : list Edge) (out : OutTable) : Res OutTable :=
  match edges with
  | [] => Ok out
  | e :: rest =>
      match term e with
      | None => outOfEdges nfa rest out
      | Some t =>
          match to e with
          | None => Throw (TypeError "Cannot read properties of undefined (reading 'length')")
          | Some target =>
              targets <- nullFrom nfa target ;;
              outOfEdges nfa rest (addTargets out t targets)
          end
      end
  end.

Fixpoint outOfStates (nfa : NFA) (states : list nat) (out : OutTable) : Res OutTable :=
  match states with
  | [] => Ok out
  | s :: rest =>
      match nth_error nfa s with
      | None => Throw (TypeError "Cannot read properties of undefined (reading 'forEach')")
      | Some edges => out1 <- outOfEdges nfa edges out ;; outOfStates nfa rest out1
      end
  end.

Definition pushEdge (store : DfaStore) (state : nat) (type : NodeTypeBase) (next : nat) : DfaStore :=
  let s := nth state (ds_states store) (mkDState false []) in
  mkDfaStore (arr_set (ds_states store) state (mkDState (validEndOf s) (nextOf s ++ [(type, next)])))
             (ds_labeled store).

(** [explore(states)]. A call labels a new set of states before it explores
    the sets it leads to, so the depth of the recursion is bounded by the
    number of sets of states. *)
Fixpoint explore (depth : nat) (nfa : NFA) (states : list nat) (store : DfaStore)
  : Res (nat * DfaStore) :=
  match depth with
  | O => Throw (RangeError "Maximum call stack size exceeded")
  | S depth' =>
      out <- outOfStates nfa states [] ;;
      let state := List.length (ds_states store) in
      let store1 :=
        mkDfaStore (ds_states store ++ [mkDState (indexOfNat states (List.length nfa - 1)) []])
                   ((states, state) :: ds_labeled store) in
      store2 <-
        (fix each (out : OutTable) (store : DfaStore) : Res DfaStore :=
           match out with
           | [] => Ok store
           | (type, set) :: rest =>
               let states' := sortDesc set in
               '(next, store1) <-
                 (match labeledFind (ds_labeled store) states' with
                  | Some s => Ok (s, store)
                  | None => explore depth' nfa states' store
                  end) ;;
               each rest (pushEdge store1 state type next)
           end) out store1 ;;
      Ok (state, store2)
  end.

(** [dfa(nfa)] *)
Definition dfa (nfa : NFA) : Res ContentMatch :=
  start <- nullFrom nfa 0%nat ;;
  '(state, store) <- explore (S (Nat.pow 2 (List.length nfa))) nfa start (mkDfaStore [] []) ;;
  Ok (mkContentMatch (ds_states store) state false).

Definition generatable (type : NodeTypeBase) : bool :=
  negb (nt_isText type || hasRequiredAttrs type).

(** [checkForDeadEnds]: [work] lists the states reached so far. *)
Fixpoint checkForDeadEnds (steps : nat) (states : list DState) (work : list nat) (i : nat)
    (stream : TokenStream) : Res unit :=
  match steps with
  | O => Ok tt
  | S steps' =>
      match nth_error work i with
      | None => Ok tt
      | Some s =>
          let state := nth s states (mkDState false []) in
          let dead := negb (validEndOf state)
                      && negb (existsb (fun e => generatable (fst e)) (nextOf state)) in
          let work' := fold_left (fun w e => if indexOfNat w (snd e) then w else w ++ [snd e])
                                 (nextOf state) work in
          if dead then ts_err stream "Only non-generatable nodes in a required position"
          else checkForDeadEnds steps' states work' (S i) stream
      end
  end.

(** [ContentMatch.parse(string, nodeTypes)] *)
Definition ContentMatch_parse (str : string) (nodeTypes : list (string * NodeTypeBase))
  : Res ContentMatch :=
  let stream := TokenStream_new str nodeTypes in
  match ts_next stream with
  | None => Ok ContentMatch_empty
  | Some _ =>
      '(expr, stream1) <- parseExpr (S (List.length (ts_tokens stream))) stream ;;
      let trailing := match ts_next stream1 with
                      | Some tok => negb (String.eqb tok "")
                      | None => false
                      end in
      if trailing then ts_err stream1 "Unexpected trailing text"
      else
        states <- nfa expr ;;
        automaton <- dfa states ;;
        _ <- checkForDeadEnds (S (List.length (cm_states automaton))) (cm_states automaton)
               [cm_cur automaton] 0 stream1 ;;
        Ok automaton
  end.

(** ** Node types as a schema holds them (schema.ts)

    [ty_contentMatch] and [ty_markSet] are the fields that the [Schema]
    constructor fills in; [ty_markSet] lists the names of the allowed mark
    types, [None] when every mark is allowed. *)

Record NodeType : Type := mkNodeType {
  ty_base : NodeTypeBase;
  ty_contentMatch : ContentMatch;
  ty_markSet : option (list string)
}.

Definition ty_name (t : NodeType) : string := nt_name (ty_base t).

Definition NodeType_same (a b : NodeType) : bool := String.eqb (ty_name a) (ty_name b).

Definition ty_isText (t : NodeType) : bool := nt_isText (ty_base t).

(** [get isLeaf() { return this.contentMatch == ContentMatch.empty }] *)
Definition ty_isLeaf (t : NodeType) : bool := cm_empty (ty_contentMatch t).

Definition ty_inlineContent (t : NodeType) : bool := inlineContent (ty_contentMatch t).

Definition ty_defaultAttrs (t : NodeType) : option Attrs := defaultAttrs (nt_attrs (ty_base t)).

(** [compatibleContent] *)
Definition compatibleContent (this other : NodeType) : bool :=
  NodeType_same this other || compatible (ty_contentMatch this) (ty_contentMatch other).

Definition allowsMarkType (t : NodeType) (markType : MarkType) : bool :=
  match ty_markSet t with
  | None => true
  | Some set => existsb (String.eqb (mt_name markType)) set
  end.

Definition allowsMarks (t : NodeType) (marks : list Mark) : bool :=
  match ty_markSet t with
  | None => true
  | Some _ => forallb (fun m => allowsMarkType t (m_type m)) marks
  end.

(** ** Nodes and fragments (node.ts, fragment.ts)

    A [Fragment] holds the array of its children and the size it was given
    or has computed. A [TextNode] is a node with a [text]; its [content] is
    the empty fragment. *)

Record Frag (A : Type) : Type := mkFrag {
  frag_content : list A;
  frag_size : Z
}.

Arguments mkFrag {A} frag_content frag_size.
Arguments frag_content {A} f.
Arguments frag_size {A} f.

Inductive Node : Type :=
| mkNode (type : NodeType) (attrs : Attrs) (content : Frag Node) (marks : list Mark)
| mkTextNode (type : NodeType) (attrs : Attrs) (text : string) (marks : list Mark).

Definition Fragment := Frag Node.

Definition Fragment_empty : Fragment := mkFrag [] 0.

Definition n_type (n : Node) : NodeType :=
  match n with mkNode t _ _ _ => t | mkTextNode t _ _ _ => t end.

Definition n_attrs (n : Node) : Attrs :=
  match n with mkNode _ a _ _ => a | mkTextNode _ a _ _ => a end.

Definition n_content (n : Node) : Fragment :=
  match n with mkNode _ _ c _ => c | mkTextNode _ _ _ _ => Fragment_empty end.

Definition n_marks (n : Node) : list Mark :=
  match n with mkNode _ _ _ m => m | mkTextNode _ _ _ m => m end.

(** [node.text]: [undefined] on a node that is not a [TextNode]. *)
Definition n_text (n : Node) : option string :=
  match n with mkNode _ _ _ _ => None | mkTextNode _ _ t _ => Some t end.

Definition isText (n : Node) : bool := ty_isText (n_type n).
Definition isLeaf (n : Node) : bool := ty_isLeaf (n_type n).

Definition strlen (s : string) : Z := Z.of_nat (String.length s).

(** [Node.nodeSize] and its override [TextNode.nodeSize]. *)
Definition nodeSize (n : Node) : Z :=
  match n with
  | mkNode _ _ content _ => if isLeaf n then 1 else 2 + frag_size content
  | mkTextNode _ _ text _ => strlen text
  end.

Definition sumSizes (content : list Node) : Z :=
  fold_left (fun size child => size + nodeSize child) content 0.

(** [new Fragment(content, size)]: the size is computed when none is given. *)
Definition Fragment_new (content : list Node) (size : option Z) : Fragment :=
  match size with
  | Some z => mkFrag content z
  | None => mkFrag content (sumSizes content)
  end.

Definition childCount (f : Fragment) : Z := len (frag_content f).

Definition firstChild (f : Fragment) : option Node := hd_error (frag_content f).

Definition lastChild (f : Fragment) : option Node := hd_error (rev (frag_content f)).

Definition maybeChild (f : Fragment) (index : Z) : option Node := arr_get (frag_content f) index.

(** [Fragment.child] *)
Definition child (f : Fragment) (index : Z) : Res Node :=
  match arr_get (frag_content f) index with
  | Some found => Ok found
  | None => Throw (RangeError "Index out of range")
  end.

(** [Node.sameMarkup], through [hasMarkup] with the three fields of [other]. *)
Definition sameMarkup (this other : Node) : bool :=
  NodeType_same (n_type this) (n_type other)
  && compareAttrs (n_attrs this) (n_attrs other)
  && sameSet (n_marks this) (n_marks other).

(** [Node.eq] and its override [TextNode.eq], with [Fragment.eq] inside. *)
Fixpoint Node_eq (this other : Node) {struct this} : bool :=
  match this with
  | mkNode _ _ content _ =>
      sameMarkup this other
      && (fix each (a b : list Node) {struct a} : bool :=
            match a, b with
            | [], [] => true
            | x :: a', y :: b' => Node_eq x y && each a' b'
            | _, _ => false
            end) (frag_content content) (frag_content (n_content other))
  | mkTextNode _ _ text _ =>
      sameMarkup this other
      && match n_text other with Some t => String.eqb text t | None => false end
  end.

Fixpoint eachEq (a b : list Node) : bool :=
  match a, b with
  | [], [] => true
  | x :: a', y :: b' => Node_eq x y && eachEq a' b'
  | _, _ => false
  end.

Definition Fragment_eq (this other : Fragment) : bool :=
  eachEq (frag_content this) (frag_content other).

(** [new TextNode(type, attrs, content, marks)] *)
Definition TextNode_new (type : NodeType) (attrs : Attrs) (content : string) (marks : list Mark)
  : Res Node :=
  if String.eqb content "" then Throw (RangeError "Empty text nodes are not allowed")
  else Ok (mkTextNode type attrs content marks).

(** [Node.copy(content)]; on a [TextNode] the inherited method makes a
    plain node. *)
Definition copy (n : Node) (content : Fragment) : Node :=
  mkNode (n_type n) (n_attrs n) content (n_marks n).

(** [TextNode.withText]; a node that is not a [TextNode] has no such
    method. *)
Definition withText (n : Node) (text : string) : Res Node :=
  match n with
  | mkTextNode type attrs old marks =>
      if String.eqb text old then Ok n else TextNode_new type attrs text marks
  | mkNode _ _ _ _ => Throw (TypeError "withText is not a function")
  end.

(** The text of a node inside a string concatenation. *)
Definition textOf (n : Node) : string :=
  match n_text n with Some t => t | None => "undefined" end.

(** [str.slice(from, to)] *)
Definition str_slice (s : string) (from to : Z) : string :=
  let size := strlen s in
  let clamp := fun i => if i <? 0 then Z.max (size + i) 0 else Z.min i size in
  let from' := clamp from in
  let to' := clamp to in
  String.substring (Z.to_nat from') (Z.to_nat (to' - from')) s.

(** The loop of [Fragment.cut]; [childCut] is the [cut] method of a child. *)
Definition cutLoop (childCut : Node -> Z -> Z -> Res Node) (from to : Z) :=
  fix loop (children : list Node) (pos : Z) (result : list Node) (size : Z) {struct children}
    : Res (list Node * Z) :=
    if pos <? to then
      match children with
      | [] => Throw (TypeError "Cannot read properties of undefined (reading 'nodeSize')")
      | child :: rest =>
          let stop := pos + nodeSize child in
          if stop >? from then
            cut <- (if (pos <? from) || (stop >? to) then
                      if isText child then
                        match n_text child with
                        | Some text =>
                            childCut child (Z.max 0 (from - pos)) (Z.min (strlen text) (to - pos))
                        | None =>
                            Throw (TypeError "Cannot read properties of undefined (reading 'length')")
                        end
                      else
                        childCut child (Z.max 0 (from - pos - 1))
                                 (Z.min (frag_size (n_content child)) (to - pos - 1))
                    else Ok child) ;;
            loop rest stop (result ++ [cut]) (size + nodeSize cut)
          else loop rest stop result size
      end
    else Ok (result, size).

Definition Fragment_cut_with (childCut : Node -> Z -> Z -> Res Node)
    (f : Fragment) (from to : Z) : Res Fragment :=
  if (from =? 0) && (to =? frag_size f) then Ok f
  else
    '(result, size) <- (if to >? from then cutLoop childCut from to (frag_content f) 0 [] 0
                        else Ok ([], 0)) ;;
    Ok (Fragment_new result (Some size)).

(** [Node.cut(from, to)] and its override [TextNode.cut(from, to)]. *)
Fixpoint Node_cut (n : Node) (from to : Z) {struct n} : Res Node :=
  match n with
  | mkNode type attrs (mkFrag children size) marks =>
      if (from =? 0) && (to =? size) then Ok n
      else
        '(result, size') <- (if to >? from then cutLoop Node_cut from to children 0 [] 0
                             else Ok ([], 0)) ;;
        Ok (mkNode type attrs (Fragment_new result (Some size')) marks)
  | mkTextNode _ _ text _ =>
      if (from =? 0) && (to =? strlen text) then Ok n
      else withText n (str_slice text from to)
  end.

(** [Fragment.cut(from, to)] *)
Definition Fragment_cut (f : Fragment) (from to : Z) : Res Fragment :=
  Fragment_cut_with Node_cut f from to.

(** [node.cut(from)] with the default [to]. *)
Definition Node_cutFrom (n : Node) (from : Z) : Res Node :=
  match n with
  | mkNode _ _ content _ => Node_cut n from (frag_size content)
  | mkTextNode _ _ text _ => Node_cut n from (strlen text)
  end.

(** [Fragment.append] *)
Definition append (this other : Fragment) : Res Fragment :=
  if frag_size other =? 0 then Ok this
  else if frag_size this =? 0 then Ok other
  else
    match lastChild this, firstChild other with
    | Some last, Some first =>
        if isText last && sameMarkup last first then
          joined <- withText last (String.append (textOf last) (textOf first)) ;;
          Ok (Fragment_new (removelast (frag_content this) ++ [joined] ++ tl (frag_content other))
                           (Some (frag_size this + frag_size other)))
        else
          Ok (Fragment_new (frag_content this ++ frag_content other)
                           (Some (frag_size this + frag_size other)))
    | _, _ => Throw (TypeError "Cannot read properties of null")
    end.

(** [Fragment.cutByIndex] *)
Definition cutByIndex (f : Fragment) (from to : Z) : Fragment :=
  if from =? to then Fragment_empty
  else if (from =? 0) && (to =? childCount f) then f
  else Fragment_new (arr_slice (frag_content f) from to) None.

(** [Fragment.replaceChild] *)
Definition replaceChild (f : Fragment) (index : Z) (node : Node) : Res Fragment :=
  match arr_get (frag_content f) index with
  | Some current =>
      Ok (Fragment_new (arr_set (frag_content f) (Z.to_nat index) node)
                       (Some (frag_size f + nodeSize node - nodeSize current)))
  | None => Throw (TypeError "Cannot read properties of undefined (reading 'nodeSize')")
  end.

Definition addToStart (f : Fragment) (node : Node) : Fragment :=
  Fragment_new (node :: frag_content f) (Some (frag_size f + nodeSize node)).

Definition addToEnd (f : Fragment) (node : Node) : Fragment :=
  Fragment_new (frag_content f ++ [node]) (Some (frag_size f + nodeSize node)).

(** The loop of [Fragment.findIndex] from child [i] at position [curPos]. *)
Fixpoint findIndex_loop (children : list Node) (i curPos pos round : Z) : Res (Z * Z) :=
  match children with
  | [] => Throw (RangeError "Index out of range")
  | cur :: rest =>
      let stop := curPos + nodeSize cur in
      if stop >=? pos then
        if (stop =? pos) || (round >? 0) then Ok (i + 1, stop) else Ok (i, curPos)
      else findIndex_loop rest (i + 1) stop pos round
  end.

(** [Fragment.findIndex(pos, round)]: the index and the offset found. *)
Definition findIndex (f : Fragment) (pos round : Z) : Res (Z * Z) :=
  if pos =? 0 then Ok (0, pos)
  else if pos =? frag_size f then Ok (childCount f, pos)
  else if (pos >? frag_size f) || (pos <? 0) then
    Throw (RangeError "Position outside of fragment")
  else findIndex_loop (frag_content f) 0 0 pos round.

(** The loop of [Fragment.fromArray]: [prev] is [array[i - 1]]. *)
Fixpoint fromArray_loop (array : list Node) (i : nat) (prev : option Node) (rest : list Node)
    (joined : option (list Node)) (size : Z) : Res (option (list Node) * Z) :=
  match rest with
  | [] => Ok (joined, size)
  | node :: rest' =>
      let size' := size + nodeSize node in
      let merge := match prev with
                   | Some before => isText node && sameMarkup before node
                   | None => false
                   end in
      if merge then
        let joined' := match joined with Some j => j | None => firstn i array end in
        match rev joined' with
        | last :: _ =>
            merged <- withText node (String.append (textOf last) (textOf node)) ;;
            fromArray_loop array (S i) (Some node) rest'
                           (Some (removelast joined' ++ [merged])) size'
        | [] => Throw (TypeError "Cannot read properties of undefined (reading 'text')")
        end
      else
        fromArray_loop array (S i) (Some node) rest'
                       (match joined with Some j => Some (j ++ [node]) | None => None end) size'
  end.

(** [Fragment.fromArray] *)
Definition fromArray (array : list Node) : Res Fragment :=
  match array with
  | [] => Ok Fragment_empty
  | _ =>
      '(joined, size) <- fromArray_loop array 0 None array None 0 ;;
      Ok (Fragment_new (match joined with Some j => j | None => array end) (Some size))
  end.

(** The argument of [Fragment.from]. *)
Inductive FragmentSource : Type :=
| NoNodes
| OfFragment (f : Fragment)
| OfArray (nodes : list Node)
| OfNode (n : Node).

(** [Fragment.from] *)
Definition Fragment_from (nodes : FragmentSource) : Res Fragment :=
  match nodes with
  | NoNodes => Ok Fragment_empty
  | OfFragment f => Ok f
  | OfArray array => fromArray array
  | OfNode n => Ok (Fragment_new [n] (Some (nodeSize n)))
  end.

(** [matchFragment(frag, start, end)]: the turns of its loop. *)
Fixpoint matchFragment_loop (turns : nat) (cur : option ContentMatch) (f : Fragment) (i : Z)
  : Res (option ContentMatch) :=
  match turns, cur with
  | S turns', Some m =>
      c <- child f i ;;
      matchFragment_loop turns' (matchType m (ty_base (n_type c))) f (i + 1)
  | _, _ => Ok cur
  end.

Definition matchFragment (m : ContentMatch) (f : Fragment) (start stop : Z)
  : Res (option ContentMatch) :=
  matchFragment_loop (Z.to_nat (stop - start)) (Some m) f start.

(** [NodeType.validContent] and [checkContent] *)
Definition validContent (t : NodeType) (content : Fragment) : Res bool :=
  result <- matchFragment (ty_contentMatch t) content 0 (childCount content) ;;
  match result with
  | Some reached =>
      Ok (validEnd reached && forallb (fun c => allowsMarks t (n_marks c)) (frag_content content))
  | None => Ok false
  end.

Definition checkContent (t : NodeType) (content : Fragment) : Res unit :=
  valid <- validContent t content ;;
  if valid then Ok tt
  else Throw (RangeError (String.append "Invalid content for node " (ty_name t))).

(** ** Resolved positions (resolvedpos.ts)

    [path] is the flat array of the source: for every depth the node, the
    index into it and the position before the child. *)

Inductive PathElem : Type :=
| PNode (n : Node)
| PNum (z : Z).

Record ResolvedPos : Type := mkResolvedPos {
  rp_pos : Z;
  rp_path : list PathElem;
  rp_parentOffset : Z;
  rp_depth : Z
}.

(** The constructor: [this.depth = path.length / 3 - 1]. *)
Definition ResolvedPos_new (pos : Z) (path : list PathElem) (parentOffset : Z) : ResolvedPos :=
  mkResolvedPos pos path parentOffset (len path / 3 - 1).

Definition resolveDepth (rp : ResolvedPos) (val : Z) : Z :=
  if val <? 0 then rp_depth rp + val else val.

(** [$pos.node(depth)]: [undefined] when the path has no node there. *)
Definition rp_node (rp : ResolvedPos) (depth : Z) : option Node :=
  match arr_get (rp_path rp) (resolveDepth rp depth * 3) with
  | Some (PNode n) => Some n
  | _ => None
  end.

(** [$pos.index(depth)] *)
Definition rp_index (rp : ResolvedPos) (depth : Z) : option Z :=
  match arr_get (rp_path rp) (resolveDepth rp depth * 3 + 1) with
  | Some (PNum i) => Some i
  | _ => None
  end.

Definition needNode (n : option Node) : Res Node :=
  match n with
  | Some x => Ok x
  | None => Throw (TypeError "Cannot read properties of undefined")
  end.

(** [$pos.textOffset]: [pos - path[path.length - 1]]. Without a number at
    the end of the path the difference is [NaN], which every use tests for
    truth like 0. *)
Definition textOffset (rp : ResolvedPos) : Z :=
  match arr_get (rp_path rp) (len (rp_path rp) - 1) with
  | Some (PNum z) => rp_pos rp - z
  | _ => 0
  end.

(** [$pos.nodeAfter] *)
Definition nodeAfter (rp : ResolvedPos) : Res (option Node) :=
  parent <- needNode (rp_node rp (rp_depth rp)) ;;
  let at_end := match rp_index rp (rp_depth rp) with
                | Some index => index =? childCount (n_content parent)
                | None => false
                end in
  if at_end then Ok None
  else
    let index := match rp_index rp (rp_depth rp) with Some i => i | None => -1 end in
    let dOff := textOffset rp in
    found <- child (n_content parent) index ;;
    if negb (dOff =? 0) then cut <- Node_cutFrom found dOff ;; Ok (Some cut)
    else Ok (Some found).

(** [$pos.nodeBefore] *)
Definition nodeBefore (rp : ResolvedPos) : Res (option Node) :=
  let index := match rp_index rp (rp_depth rp) with Some i => i | None => -1 end in
  let dOff := textOffset rp in
  if negb (dOff =? 0) then
    parent <- needNode (rp_node rp (rp_depth rp)) ;;
    found <- child (n_content parent) index ;;
    cut <- Node_cut found 0 dOff ;; Ok (Some cut)
  else
    match rp_index rp (rp_depth rp) with
    | Some 0 => Ok None
    | _ =>
        parent <- needNode (rp_node rp (rp_depth rp)) ;;
        found <- child (n_content parent) (index - 1) ;; Ok (Some found)
    end.

(** [$pos.indexAfter(depth)] for a depth that is not negative. *)
Definition indexAfter (rp : ResolvedPos) (depth : Z) : option Z :=
  match rp_index rp depth with
  | Some i => Some (i + (if (depth =? rp_depth rp) && (textOffset rp =? 0) then 0 else 1))
  | None => None
  end.

Fixpoint height (n : Node) : nat :=
  match n with
  | mkNode _ _ content _ =>
      S ((fix most (children : list Node) : nat :=
            match children with
            | [] => O
            | c :: rest => Nat.max (height c) (most rest)
            end) (frag_content content))
  | mkTextNode _ _ _ _ => 1%nat
  end.

(** The loop of [ResolvedPos.resolve]. Every turn goes from a node to one
    of its children; [turns] is given as the height of the document. *)
Fixpoint resolve_loop (turns : nat) (node : Node) (start parentOffset : Z)
    (path : list PathElem) : Res (list PathElem * Z) :=
  match turns with
  | O => Throw (Error "resolve: below the leaves of the document")
  | S turns' =>
      '(index, offset) <- findIndex (n_content node) parentOffset (-1) ;;
      let rem := parentOffset - offset in
      let path' := path ++ [PNode node; PNum index; PNum (start + offset)] in
      if rem =? 0 then Ok (path', parentOffset)
      else
        node' <- child (n_content node) index ;;
        if isText node' then Ok (path', parentOffset)
        else resolve_loop turns' node' (start + offset + 1) (rem - 1) path'
  end.

(** [ResolvedPos.resolve(doc, pos)] *)
Definition resolve (doc : Node) (pos : Z) : Res ResolvedPos :=
  if negb ((pos >=? 0) && (pos <=? frag_size (n_content doc))) then
    Throw (RangeError "Position out of range")
  else
    '(path, parentOffset) <- resolve_loop (height doc) doc 0 pos [] ;;
    Ok (ResolvedPos_new pos path parentOffset).

(** ** Slices and the replace algorithm (replace.ts) *)

Record Slice : Type := mkSlice {
  sl_content : Fragment;
  openStart : Z;
  openEnd : Z
}.

Definition Slice_empty : Slice := mkSlice Fragment_empty 0 0.

Definition Slice_size (s : Slice) : Z := frag_size (sl_content s) - openStart s - openEnd s.

(** [checkJoin(main, sub)] *)
Definition checkJoin (main sub : Node) : Res unit :=
  if compatibleContent (n_type sub) (n_type main) then Ok tt
  else Throw (ReplaceError
                (String.append "Cannot join "
                   (String.append (ty_name (n_type sub))
                      (String.append " onto " (ty_name (n_type main)))))).

(** [joinable($before, $after, depth)] *)
Definition joinable (before after : ResolvedPos) (depth : Z) : Res Node :=
  match rp_node before depth with
  | Some node =>
      sub <- needNode (rp_node after depth) ;;
      _ <- checkJoin node sub ;; Ok node
  | None =>
      _ <- needNode (rp_node after depth) ;;
      Throw (TypeError "Cannot read properties of undefined (reading 'type')")
  end.

(** [addNode(child, target)] *)
Definition addNode (child : Node) (target : list Node) : Res (list Node) :=
  match rev target with
  | last :: _ =>
      if isText child && sameMarkup child last then
        merged <- withText child (String.append (textOf last) (textOf child)) ;;
        Ok (removelast target ++ [merged])
      else Ok (target ++ [child])
  | [] => Ok (target ++ [child])
  end.

(** [for (let i = startIndex; i < endIndex; i++) addNode(node.child(i), target)] *)
Fixpoint addChildren (node : option Node) (i : Z) (count : nat) (target : list Node)
  : Res (list Node) :=
  match count with
  | O => Ok target
  | S count' =>
      parent <- needNode node ;;
      c <- child (n_content parent) i ;;
      target' <- addNode c target ;;
      addChildren node (i + 1) count' target'
  end.

(** [addRange($start, $end, depth, target)] *)
Definition addRange (start stop : option ResolvedPos) (depth : Z) (target : list Node)
  : Res (list Node) :=
  node <- (match stop, start with
           | Some e, _ => Ok (rp_node e depth)
           | None, Some s => Ok (rp_node s depth)
           | None, None => Throw (TypeError "Cannot read properties of null (reading 'node')")
           end) ;;
  endIndex <- (match stop with
               | Some e => Ok (rp_index e depth)
               | None => parent <- needNode node ;; Ok (Some (childCount (n_content parent)))
               end) ;;
  '(startIndex, target1) <-
    (match start with
     | Some s =>
         let startIndex := rp_index s depth in
         if rp_depth s >? depth then Ok (option_map (Z.add 1) startIndex, target)
         else if negb (textOffset s =? 0) then
           after <- nodeAfter s ;;
           after' <- needNode after ;;
           target' <- addNode after' target ;;
           Ok (option_map (Z.add 1) startIndex, target')
         else Ok (startIndex, target)
     | None => Ok (Some 0, target)
     end) ;;
  target2 <-
    (match startIndex, endIndex with
     | Some i, Some j => addChildren node i (Z.to_nat (j - i)) target1
     | _, _ => Ok target1
     end) ;;
  match stop with
  | Some e =>
      if (rp_depth e =? depth) && negb (textOffset e =? 0) then
        before <- nodeBefore e ;;
        before' <- needNode before ;;
        addNode before' target2
      else Ok target2
  | None => Ok target2
  end.

(** [close(node, content)] *)
Definition close (node : Node) (content : Fragment) : Res Node :=
  _ <- checkContent (n_type node) content ;;
  Ok (copy node content).

(** [replaceTwoWay($from, $to, depth)]: it calls itself one level deeper
    while [$from.depth > depth]; [levels] counts the levels left. *)
Fixpoint replaceTwoWay_levels (levels : nat) (from to : ResolvedPos) (depth : Z)
  : Res Fragment :=
  content <- addRange None (Some from) depth [] ;;
  content1 <-
    (if rp_depth from >? depth then
       match levels with
       | O => Throw (Error "replaceTwoWay: below the depth of the position")
       | S levels' =>
           type <- joinable from to (depth + 1) ;;
           inner <- replaceTwoWay_levels levels' from to (depth + 1) ;;
           closed <- close type inner ;;
           addNode closed content
       end
     else Ok content) ;;
  content2 <- addRange (Some to) None depth content1 ;;
  Ok (Fragment_new content2 None).

Definition replaceTwoWay (from to : ResolvedPos) (depth : Z) : Res Fragment :=
  replaceTwoWay_levels (Z.to_nat (rp_depth from - depth)) from to depth.

Definition sameIndex (a b : option Z) : bool :=
  match a, b with
  | Some x, Some y => x =? y
  | None, None => true
  | _, _ => false
  end.

(** [replaceThreeWay($from, $start, $end, $to, depth)]; [levels] as in
    [replaceTwoWay_levels]. *)
Fixpoint replaceThreeWay_levels (levels : nat) (from start stop to : ResolvedPos) (depth : Z)
  : Res Fragment :=
  openStart <- (if rp_depth from >? depth then
                  n <- joinable from start (depth + 1) ;; Ok (Some n)
                else Ok None) ;;
  openEnd <- (if rp_depth to >? depth then
                n <- joinable stop to (depth + 1) ;; Ok (Some n)
              else Ok None) ;;
  content <- addRange None (Some from) depth [] ;;
  content1 <-
    (match openStart, openEnd, sameIndex (rp_index start depth) (rp_index stop depth) with
     | Some os, Some oe, true =>
         _ <- checkJoin os oe ;;
         match levels with
         | O => Throw (Error "replaceThreeWay: below the depth of the position")
         | S levels' =>
             inner <- replaceThreeWay_levels levels' from start stop to (depth + 1) ;;
             closed <- close os inner ;;
             addNode closed content
         end
     | _, _, _ =>
         content1 <- (match openStart with
                      | Some os =>
                          inner <- replaceTwoWay from start (depth + 1) ;;
                          closed <- close os inner ;;
                          addNode closed content
                      | None => Ok content
                      end) ;;
         content2 <- addRange (Some start) (Some stop) depth content1 ;;
         match openEnd with
         | Some oe =>
             inner <- replaceTwoWay stop to (depth + 1) ;;
             closed <- close oe inner ;;
             addNode closed content2
         | None => Ok content2
         end
     end) ;;
  content2 <- addRange (Some to) None depth content1 ;;
  Ok (Fragment_new content2 None).

Definition replaceThreeWay (from start stop to : ResolvedPos) (depth : Z) : Res Fragment :=
  replaceThreeWay_levels (Z.to_nat (rp_depth from - depth)) from start stop to depth.

(** The loop of [prepareSliceForReplace], from [i] down to 0. *)
Fixpoint wrapAlong (along : ResolvedPos) (count : nat) (i : Z) (node : Node) : Res Node :=
  match count with
  | O => Ok node
  | S count' =>
      outer <- needNode (rp_node along i) ;;
      wrapAlong along count' (i - 1) (copy outer (Fragment_new [node] (Some (nodeSize node))))
  end.

(** [prepareSliceForReplace(slice, $along)] *)
Definition prepareSliceForReplace (slice : Slice) (along : ResolvedPos)
  : Res (ResolvedPos * ResolvedPos) :=
  let extra := rp_depth along - openStart slice in
  parent <- needNode (rp_node along extra) ;;
  node <- wrapAlong along (Z.to_nat extra) (extra - 1) (copy parent (sl_content slice)) ;;
  start <- resolve node (openStart slice + extra) ;;
  stop <- resolve node (frag_size (n_content node) - openEnd slice - extra) ;;
  Ok (start, stop).

(** [content.cut(from)] with the default [to]. *)
Definition Fragment_cutFrom (f : Fragment) (from : Z) : Res Fragment :=
  Fragment_cut f from (frag_size f).

(** [replaceOuter($from, $to, slice, depth)]: it calls itself one level
    deeper while [depth < $from.depth - slice.openStart]. *)
Fixpoint replaceOuter_levels (levels : nat) (from to : ResolvedPos) (slice : Slice) (depth : Z)
  : Res Node :=
  let index := rp_index from depth in
  let node := rp_node from depth in
  if sameIndex index (rp_index to depth) && (depth <? rp_depth from - openStart slice) then
    match levels with
    | O => Throw (Error "replaceOuter: below the depth of the position")
    | S levels' =>
        inner <- replaceOuter_levels levels' from to slice (depth + 1) ;;
        node' <- needNode node ;;
        content <- replaceChild (n_content node')
                     (match index with Some i => i | None => -1 end) inner ;;
        Ok (copy node' content)
    end
  else if frag_size (sl_content slice) =? 0 then
    content <- replaceTwoWay from to depth ;;
    node' <- needNode node ;;
    close node' content
  else if (openStart slice =? 0) && (openEnd slice =? 0)
          && (rp_depth from =? depth) && (rp_depth to =? depth) then
    parent <- needNode (rp_node from (rp_depth from)) ;;
    let content := n_content parent in
    before <- Fragment_cut content 0 (rp_parentOffset from) ;;
    middle <- append before (sl_content slice) ;;
    after <- Fragment_cutFrom content (rp_parentOffset to) ;;
    whole <- append middle after ;;
    close parent whole
  else
    '(start, stop) <- prepareSliceForReplace slice from ;;
    content <- replaceThreeWay from start stop to depth ;;
    node' <- needNode node ;;
    close node' content.

Definition replaceOuter (from to : ResolvedPos) (slice : Slice) (depth : Z) : Res Node :=
  replaceOuter_levels (Z.to_nat (rp_depth from - openStart slice - depth)) from to slice depth.

(** [replace($from, $to, slice)] *)
Definition replace (from to : ResolvedPos) (slice : Slice) : Res Node :=
  if openStart slice >? rp_depth from then
    Throw (ReplaceError "Inserted content deeper than insertion position")
  else if negb (rp_depth from - openStart slice =? rp_depth to - openEnd slice) then
    Throw (ReplaceError "Inconsistent open depths")
  else replaceOuter from to slice 0.

(** [Node.replace(from, to, slice)]. [Node.resolve] looks the position up
    in a cache of earlier results for the same document and otherwise calls
    [ResolvedPos.resolve], so it returns what [resolve] returns. *)
Definition Node_replace (doc : Node) (from to : Z) (slice : Slice) : Res Node :=
  rfrom <- resolve doc from ;;
  rto <- resolve doc to ;;
  replace rfrom rto slice.

(** ** Steps (step.ts, replace_step.ts) *)

Record StepResult : Type := mkStepResult {
  sr_doc : option Node;
  sr_failed : option string
}.

Definition StepResult_ok (doc : Node) : StepResult := mkStepResult (Some doc) None.
Definition StepResult_fail (message : string) : StepResult := mkStepResult None (Some message).

(** [StepResult.fromReplace]: a [ReplaceError] becomes a failed result, any
    other exception is thrown again. *)
Definition fromReplace (doc : Node) (from to : Z) (slice : Slice) : Res StepResult :=
  match Node_replace doc from to slice with
  | Ok result => Ok (StepResult_ok result)
  | Throw (ReplaceError message) => Ok (StepResult_fail message)
  | Throw e => Throw e
  end.

Record ReplaceStep : Type := mkReplaceStep {
  rs_from : Z;
  rs_to : Z;
  rs_slice : Slice;
  rs_structure : bool
}.

(** The first loop of [contentBetween]. *)
Fixpoint climb (turns : nat) (from : ResolvedPos) (dist depth : Z) : Res (Z * Z) :=
  match turns with
  | O => Ok (dist, depth)
  | S turns' =>
      if (dist >? 0) && (depth >? 0) then
        parent <- needNode (rp_node from depth) ;;
        if sameIndex (indexAfter from depth) (Some (childCount (n_content parent)))
        then climb turns' from (dist - 1) (depth - 1)
        else Ok (dist, depth)
      else Ok (dist, depth)
  end.

(** The second loop of [contentBetween]. *)
Fixpoint descend (turns : nat) (next : option Node) : bool :=
  match turns with
  | O => false
  | S turns' =>
      match next with
      | None => true
      | Some n => if isLeaf n then true else descend turns' (firstChild (n_content n))
      end
  end.

(** [contentBetween(doc, from, to)] *)
Definition contentBetween (doc : Node) (from to : Z) : Res bool :=
  rfrom <- resolve doc from ;;
  '(dist, depth) <- climb (Z.to_nat (rp_depth rfrom)) rfrom (to - from) (rp_depth rfrom) ;;
  if dist >? 0 then
    parent <- needNode (rp_node rfrom depth) ;;
    let next := match indexAfter rfrom depth with
                | Some i => maybeChild (n_content parent) i
                | None => None
                end in
    Ok (descend (Z.to_nat dist) next)
  else Ok false.

(** [ReplaceStep.apply(doc)] *)
Definition ReplaceStep_apply (step : ReplaceStep) (doc : Node) : Res StepResult :=
  blocked <- (if rs_structure step then contentBetween doc (rs_from step) (rs_to step)
              else Ok false) ;;
  if blocked then Ok (StepResult_fail "Structure replace would overwrite content")
  else fromReplace doc (rs_from step) (rs_to step) (rs_slice step).

(** ** Position maps (map.ts) *)

Definition lower16 : Z := 65535.
Definition factor16 : Z := 65536.

Definition makeRecover (index offset : Z) : Z := index + offset * factor16.
Definition recoverIndex (value : Z) : Z := Z.land value lower16.
Definition recoverOffset (value : Z) : Z := (value - Z.land value lower16) / factor16.

Definition DEL_BEFORE : Z := 1.
Definition DEL_AFTER : Z := 2.
Definition DEL_ACROSS : Z := 4.
Definition DEL_SIDE : Z := 8.

Record MapResult : Type := mkMapResult {
  mr_pos : Z;
  mr_delInfo : Z;
  mr_recover : option Z
}.

Definition deleted (r : MapResult) : bool := Z.land (mr_delInfo r) DEL_SIDE >? 0.
Definition deletedBefore (r : MapResult) : bool :=
  Z.land (mr_delInfo r) (Z.lor DEL_BEFORE DEL_ACROSS) >? 0.
Definition deletedAfter (r : MapResult) : bool :=
  Z.land (mr_delInfo r) (Z.lor DEL_AFTER DEL_ACROSS) >? 0.
Definition deletedAcross (r : MapResult) : bool := Z.land (mr_delInfo r) DEL_ACROSS >? 0.

(** [ranges] is the flat array of the source, three numbers
    [start, oldSize, newSize] for every replaced range. *)
Record StepMap : Type := mkStepMap {
  ranges : list Z;
  inverted : bool
}.

Definition StepMap_empty : StepMap := mkStepMap [] false.

(** The constructor gives the shared empty map for an empty array. *)
Definition StepMap_new (ranges : list Z) (inverted : bool) : StepMap :=
  match ranges with
  | [] => StepMap_empty
  | _ => mkStepMap ranges inverted
  end.

(** What [_map] returns: a position when [simple], else a [MapResult]. *)
Inductive Mapped : Type :=
| Position (pos : Z)
| Result (r : MapResult).

(** The loop of [StepMap._map] over the ranges from index [i] on. The
    arrays the source builds are made of whole triples, and the model is
    the source on those. On an array that ends inside a triple the source
    reads [undefined] sizes and computes with [NaN]; the model ends the loop
    there, so what is proved of it is stated for whole triples. *)
Fixpoint map_loop (inverted : bool) (rest : list Z) (i diff pos assoc : Z) (simple : bool)
  : Mapped :=
  match rest with
  | r0 :: r1 :: r2 :: rest' =>
      let start := r0 - (if inverted then diff else 0) in
      if start >? pos then
        if simple then Position (pos + diff) else Result (mkMapResult (pos + diff) 0 None)
      else
        let oldSize := if inverted then r2 else r1 in
        let newSize := if inverted then r1 else r2 in
        let stop := start + oldSize in
        if pos <=? stop then
          let side := if oldSize =? 0 then assoc
                      else if pos =? start then -1
                      else if pos =? stop then 1 else assoc in
          let result := start + diff + (if side <? 0 then 0 else newSize) in
          if simple then Position result
          else
            let recover := if pos =? (if assoc <? 0 then start else stop) then None
                           else Some (makeRecover (i / 3) (pos - start)) in
            let del := if pos =? start then DEL_AFTER
                       else if pos =? stop then DEL_BEFORE else DEL_ACROSS in
            let del' := if (if assoc <? 0 then negb (pos =? start) else negb (pos =? stop))
                        then Z.lor del DEL_SIDE else del in
            Result (mkMapResult result del' recover)
        else map_loop inverted rest' (i + 3) (diff + (newSize - oldSize)) pos assoc simple
  | _ =>
      if simple then Position (pos + diff) else Result (mkMapResult (pos + diff) 0 None)
  end.

(** [StepMap._map(pos, assoc, simple)] *)
Definition StepMap__map (m : StepMap) (pos assoc : Z) (simple : bool) : Mapped :=
  map_loop (inverted m) (ranges m) 0 0 pos assoc simple.

(** [StepMap.map(pos, assoc)] *)
Definition StepMap_map (m : StepMap) (pos assoc : Z) : Z :=
  match StepMap__map m pos assoc true with
  | Position p => p
  | Result r => mr_pos r
  end.

(** [StepMap.mapResult(pos, assoc)] *)
Definition StepMap_mapResult (m : StepMap) (pos assoc : Z) : MapResult :=
  match StepMap__map m pos assoc false with
  | Position p => mkMapResult p 0 None
  | Result r => r
  end.

(** [StepMap.invert()] *)
Definition StepMap_invert (m : StepMap) : StepMap :=
  StepMap_new (ranges m) (negb (inverted m)).

(** ** The position maps of the steps (step.ts, replace_step.ts, attr_step.ts) *)

Record ReplaceAroundStep : Type := mkReplaceAroundStep {
  ra_from : Z;
  ra_to : Z;
  ra_gapFrom : Z;
  ra_gapTo : Z;
  ra_slice : Slice;
  ra_insert : Z;
  ra_structure : bool
}.

Inductive Step : Type :=
| StepReplace (s : ReplaceStep)
| StepReplaceAround (s : ReplaceAroundStep)
| StepAttr (pos : Z) (attr : string) (value : JsValue)
| StepDocAttr (attr : string) (value : JsValue).

(** [getMap()] of the four step classes. *)
Definition getMap (step : Step) : StepMap :=
  match step with
  | StepReplace s =>
      StepMap_new [rs_from s; rs_to s - rs_from s; Slice_size (rs_slice s)] false
  | StepReplaceAround s =>
      StepMap_new [ra_from s; ra_gapFrom s - ra_from s; ra_insert s;
                   ra_gapTo s; ra_to s - ra_gapTo s; Slice_size (ra_slice s) - ra_insert s] false
  | StepAttr _ _ _ => StepMap_empty
  | StepDocAttr _ _ => StepMap_empty
  end.

(** ** Schemas (schema.ts) *)

Record MarkSpec : Type := mkMarkSpec {
  ms_attrs : list (string * AttributeSpec);
  ms_excludes : option string;
  ms_group : option string
}.

Record SchemaSpec : Type := mkSchemaSpec {
  ss_nodes : list (string * NodeSpec);
  ss_marks : list (string * MarkSpec);
  ss_topNode : option string
}.

Record Schema : Type := mkSchema {
  sch_spec : SchemaSpec;
  sch_nodes : list (string * NodeType);
  sch_marks : list (string * MarkType);
  sch_topNodeType : option NodeType
}.

(** [gatherMarks(schema, marks)]: the names of the mark types found; the
    table [marks] holds, for every mark type, its name and its groups. *)
Fixpoint gatherMarks (table : list (string * option string)) (marks : list string)
  : Res (list string) :=
  match marks with
  | [] => Ok []
  | name :: rest =>
      found <- (if hasKey name table then Ok [name]
                else
                  let hits :=
                    filter (fun entry =>
                              String.eqb name "_"
                              || match snd entry with
                                 | Some g =>
                                     negb (String.eqb g "")
                                     && existsb (String.eqb name) (splitOn " "%char g)
                                 | None => false
                                 end) table in
                  match hits with
                  | [] => Throw (SyntaxError
                                   (String.append "Unknown mark type: '" (String.append name "'")))
                  | _ => Ok (map fst hits)
                  end) ;;
      others <- gatherMarks table rest ;;
      Ok (found ++ others)
  end.

(** [MarkType.compile]: the rank of a mark type is its place in the spec. *)
Fixpoint compileMarks (marks : list (string * MarkSpec)) (rank : Z)
  : list (string * (MarkSpec * Z)) :=
  match marks with
  | [] => []
  | (name, spec) :: rest => (name, (spec, rank)) :: compileMarks rest (rank + 1)
  end.

(** The loop of the [Schema] constructor over the node types. *)
Fixpoint finishNodes (bases : list (string * NodeTypeBase)) (markTable : list (string * option string))
    (seenLinebreak : bool) (todo : list (string * NodeSpec)) : Res (list (string * NodeType)) :=
  match todo with
  | [] => Ok []
  | (prop, spec) :: rest =>
      if hasKey prop markTable then
        Throw (RangeError (String.append prop " can not be both a node and a mark"))
      else
        let base := NodeTypeBase_new prop spec in
        let contentExpr := match spec_content spec with Some c => c | None => "" end in
        contentMatch <- ContentMatch_parse contentExpr bases ;;
        let leaf := cm_empty contentMatch in
        _ <- (if spec_linebreakReplacement spec then
                if seenLinebreak then Throw (RangeError "Multiple linebreak nodes defined")
                else if negb (nt_isInline base) || negb leaf then
                  Throw (RangeError "Linebreak replacement nodes must be inline leaf nodes")
                else Ok tt
              else Ok tt) ;;
        markSet <- (match spec_marks spec with
                    | Some markExpr =>
                        if String.eqb markExpr "_" then Ok None
                        else if negb (String.eqb markExpr "") then
                          found <- gatherMarks markTable (splitOn " "%char markExpr) ;;
                          Ok (Some found)
                        else Ok (Some [])
                    | None =>
                        if negb (inlineContent contentMatch) then Ok (Some []) else Ok None
                    end) ;;
        others <- finishNodes bases markTable
                    (seenLinebreak || spec_linebreakReplacement spec) rest ;;
        Ok ((prop, mkNodeType base contentMatch markSet) :: others)
  end.

(** The loop of the [Schema] constructor over the mark types. *)
Fixpoint finishMarks (markTable : list (string * option string))
    (todo : list (string * (MarkSpec * Z))) : Res (list (string * MarkType)) :=
  match todo with
  | [] => Ok []
  | (prop, (spec, rank)) :: rest =>
      excluded <- (match ms_excludes spec with
                   | None => Ok [prop]
                   | Some excl =>
                       if String.eqb excl "" then Ok []
                       else gatherMarks markTable (splitOn " "%char excl)
                   end) ;;
      others <- finishMarks markTable rest ;;
      Ok ((prop, mkMarkType prop rank (initAttrs (ms_attrs spec)) excluded (ms_group spec))
            :: others)
  end.

(** [new Schema(spec)], with [NodeType.compile] and [MarkType.compile]. *)
Definition Schema_new (spec : SchemaSpec) : Res Schema :=
  let bases := map (fun ns => (fst ns, NodeTypeBase_new (fst ns) (snd ns))) (ss_nodes spec) in
  let topType := match ss_topNode spec with
                 | Some t => if String.eqb t "" then "doc" else t
                 | None => "doc"
                 end in
  if negb (hasKey topType bases) then
    Throw (RangeError (String.append "Schema is missing its top node type ('"
                         (String.append topType "')")))
  else
    match lookup "text" bases with
    | None => Throw (RangeError "Every schema needs a 'text' type")
    | Some text =>
        match nt_attrs text with
        | _ :: _ => Throw (RangeError "The text node type should not have attributes")
        | [] =>
            let markTable := map (fun ms => (fst ms, ms_group (snd ms))) (ss_marks spec) in
            nodes <- finishNodes bases markTable false (ss_nodes spec) ;;
            marks <- finishMarks markTable (compileMarks (ss_marks spec) 0) ;;
            Ok (mkSchema spec nodes marks (lookup topType nodes))
        end
    end.

(** [NodeType.computeAttrs(attrs)] *)
Definition NodeType_computeAttrs (t : NodeType) (attrs : JsValue) : Res Attrs :=
  match truthy attrs, ty_defaultAttrs t with
  | false, Some defaults => Ok defaults
  | _, _ => computeAttrs (nt_attrs (ty_base t)) attrs
  end.

(** [NodeType.create(attrs, content, marks)]: a missing [attrs] is [null]. *)
Definition NodeType_create (t : NodeType) (attrs : JsValue) (content : FragmentSource)
    (marks : option (list Mark)) : Res Node :=
  if ty_isText t then Throw (Error "NodeType.create can't construct text nodes")
  else
    built <- NodeType_computeAttrs t (match attrs with JUndefined => JNull | v => v end) ;;
    fragment <- Fragment_from content ;;
    Ok (mkNode t built fragment (setFrom marks)).

(** [NodeType.createChecked(attrs, content, marks)] *)
Definition NodeType_createChecked (t : NodeType) (attrs : JsValue) (content : FragmentSource)
    (marks : option (list Mark)) : Res Node :=
  fragment <- Fragment_from content ;;
  _ <- checkContent t fragment ;;
  built <- NodeType_computeAttrs t (match attrs with JUndefined => JNull | v => v end) ;;
  Ok (mkNode t built fragment (setFrom marks)).

(** [schema.nodeType(name)] *)
Definition Schema_nodeType (schema : Schema) (name : string) : Res NodeType :=
  match lookup name (sch_nodes schema) with
  | Some found => Ok found
  | None => Throw (RangeError (String.append "Unknown node type: " name))
  end.

(** [schema.text(text, marks)] *)
Definition Schema_text (schema : Schema) (text : string) (marks : option (list Mark)) : Res Node :=
  match lookup "text" (sch_nodes schema) with
  | Some type =>
      TextNode_new type (match ty_defaultAttrs type with Some a => a | None => [] end)
                   text (setFrom marks)
  | None => Throw (TypeError "Cannot read properties of undefined (reading 'defaultAttrs')")
  end.

(** [schema.node(type, attrs, content, marks)] with the name of a type. *)
Definition Schema_node (schema : Schema) (type : string) (attrs : JsValue)
    (content : FragmentSource) (marks : option (list Mark)) : Res Node :=
  t <- Schema_nodeType schema type ;;
  NodeType_createChecked t attrs content marks.

(** [schema.mark(type, attrs)] with the name of a type. *)
Definition Schema_mark (schema : Schema) (type : string) (attrs : JsValue) : Res Mark :=
  match lookup type (sch_marks schema) with
  | Some t => MarkType_create t attrs
  | None => Throw (TypeError "Cannot read properties of undefined (reading 'create')")
  end.

(** [Node.check()] *)
Fixpoint Node_check (n : Node) {struct n} : Res unit :=
  _ <- checkContent (n_type n) (n_content n) ;;
  _ <- checkAttrs (nt_attrs (ty_base (n_type n))) (n_attrs n) ;;
  copy <- (fix each (marks : list Mark) (copy : list Mark) : Res (list Mark) :=
             match marks with
             | [] => Ok copy
             | mark :: rest =>
                 _ <- checkAttrs (mt_attrs (m_type mark)) (m_attrs mark) ;;
                 each rest (addToSet mark copy)
             end) (n_marks n) Mark_none ;;
  if negb (sameSet copy (n_marks n)) then
    Throw (RangeError (String.append "Invalid collection of marks for node "
                         (ty_name (n_type n))))
  else
    match n with
    | mkNode _ _ content _ =>
        (fix each (children : list Node) : Res unit :=
           match children with
           | [] => Ok tt
           | c :: rest => _ <- Node_check c ;; each rest
           end) (frag_content content)
    | mkTextNode _ _ _ _ => Ok tt
    end.

(** ** JSON (mark.ts, fragment.ts, node.ts) *)

(** [String(v)], which a property name and the comparison with a string
    apply to a value that is not a string. *)
Fixpoint toStr (v : JsValue) : string :=
  match v with
  | JUndefined => "undefined"
  | JNull => "null"
  | JBool true => "true"
  | JBool false => "false"
  | JNum n => NilZero.string_of_int (Z.to_int n)
  | JStr s => s
  | JArr items =>
      String.concat ","
        (map (fun x => match x with JUndefined | JNull => "" | _ => toStr x end) items)
  | JObj _ => "[object Object]"
  end.

(** [v == str] for a string [str] that is not the text of a number. *)
Definition looseEqString (v : JsValue) (str : string) : bool :=
  match v with
  | JStr s => String.eqb s str
  | JArr _ | JObj _ => String.eqb (toStr v) str
  | _ => false
  end.

(** [Mark.toJSON] *)
Definition Mark_toJSON (m : Mark) : JsValue :=
  JObj (("type", JStr (mt_name (m_type m)))
          :: match m_attrs m with
             | [] => []
             | attrs => [("attrs", JObj attrs)]
             end).

(** [Mark.fromJSON(schema, json)] *)
Definition Mark_fromJSON (schema : Schema) (json : JsValue) : Res Mark :=
  if negb (truthy json) then Throw (RangeError "Invalid input for Mark.fromJSON")
  else
    match lookup (toStr (getProp json "type")) (sch_marks schema) with
    | None => Throw (RangeError "There is no mark type in this schema")
    | Some type =>
        mark <- MarkType_create type (getProp json "attrs") ;;
        _ <- checkAttrs (mt_attrs type) (m_attrs mark) ;;
        Ok mark
    end.

(** [Node.toJSON], its override [TextNode.toJSON] and [Fragment.toJSON]. *)
Fixpoint Node_toJSON (n : Node) {struct n} : JsValue :=
  let attrs := match n_attrs n with
               | [] => []
               | a => [("attrs", JObj a)]
               end in
  let marks := match n_marks n with
               | [] => []
               | ms => [("marks", JArr (map Mark_toJSON ms))]
               end in
  match n with
  | mkNode type _ content _ =>
      let children :=
        if negb (frag_size content =? 0) then
          [("content",
            match frag_content content with
            | [] => JNull
            | cs => JArr ((fix each (cs : list Node) : list JsValue :=
                             match cs with
                             | [] => []
                             | c :: rest => Node_toJSON c :: each rest
                             end) cs)
            end)]
        else [] in
      JObj ((("type", JStr (ty_name type)) :: attrs) ++ children ++ marks)
  | mkTextNode type _ text _ =>
      JObj ((("type", JStr (ty_name type)) :: attrs) ++ marks ++ [("text", JStr text)])
  end.

Definition Fragment_toJSON (f : Fragment) : JsValue :=
  match frag_content f with
  | [] => JNull
  | cs => JArr (map Node_toJSON cs)
  end.

(** [arr.map(f)] for an [f] that may throw. *)
Fixpoint mapRes {A B : Type} (f : A -> Res B) (l : list A) : Res (list B) :=
  match l with
  | [] => Ok []
  | x :: rest => y <- f x ;; ys <- mapRes f rest ;; Ok (y :: ys)
  end.

(** How deep the arrays and objects of a value nest. *)
Fixpoint nesting (v : JsValue) : nat :=
  match v with
  | JArr items =>
      S ((fix most (l : list JsValue) : nat :=
            match l with
            | [] => O
            | x :: rest => Nat.max (nesting x) (most rest)
            end) items)
  | JObj fields =>
      S ((fix most (l : list (string * JsValue)) : nat :=
            match l with
            | [] => O
            | (_, x) :: rest => Nat.max (nesting x) (most rest)
            end) fields)
  | _ => O
  end.

(** [Node.fromJSON(schema, json)] with [Fragment.fromJSON] inside. Every
    call below the first is on an element of the [content] array of the
    value, so the nesting of the value bounds the depth [levels]. *)
Fixpoint Node_fromJSON_levels (levels : nat) (schema : Schema) (json : JsValue) : Res Node :=
  if negb (truthy json) then Throw (RangeError "Invalid input for Node.fromJSON")
  else
    marks <- (if truthy (getProp json "marks") then
                match getProp json "marks" with
                | JArr items => ms <- mapRes (Mark_fromJSON schema) items ;; Ok (Some ms)
                | _ => Throw (RangeError "Invalid mark data for Node.fromJSON")
                end
              else Ok None) ;;
    if looseEqString (getProp json "type") "text" then
      match getProp json "text" with
      | JStr text => Schema_text schema text marks
      | _ => Throw (RangeError "Invalid text node in JSON")
      end
    else
      content <- (let value := getProp json "content" in
                  if negb (truthy value) then Ok Fragment_empty
                  else
                    match value with
                    | JArr items =>
                        match levels with
                        | O => Throw (Error "Node.fromJSON: below the nesting of the value")
                        | S levels' =>
                            children <- mapRes (Node_fromJSON_levels levels' schema) items ;;
                            Ok (Fragment_new children None)
                        end
                    | _ => Throw (RangeError "Invalid input for Fragment.fromJSON")
                    end) ;;
      type <- Schema_nodeType schema (toStr (getProp json "type")) ;;
      node <- NodeType_create type (getProp json "attrs") (OfFragment content) marks ;;
      _ <- checkAttrs (nt_attrs (ty_base (n_type node))) (n_attrs node) ;;
      Ok node.

Definition Node_fromJSON (schema : Schema) (json : JsValue) : Res Node :=
  Node_fromJSON_levels (nesting json) schema json.

(** [Fragment.fromJSON(schema, value)] *)
Definition Fragment_fromJSON (schema : Schema) (value : JsValue) : Res Fragment :=
  if negb (truthy value) then Ok Fragment_empty
  else
    match value with
    | JArr items =>
        children <- mapRes (Node_fromJSON schema) items ;;
        Ok (Fragment_new children None)
    | _ => Throw (RangeError "Invalid input for Fragment.fromJSON")
    end.

(** ** Recovering positions, offsets and mappings (map.ts) *)

(** A number that may be [NaN]: arithmetic on [undefined], which an array
    read outside the array gives, is [NaN], and so is arithmetic on [NaN]. *)
Definition Num := option Z.

Definition num_add (a b : Num) : Num :=
  match a, b with
  | Some x, Some y => Some (x + y)
  | _, _ => None
  end.

Definition num_sub (a b : Num) : Num :=
  match a, b with
  | Some x, Some y => Some (x - y)
  | _, _ => None
  end.

(** The loop of [StepMap.recover]:
    [for (let i = 0; i < index; i++) diff += ranges[i * 3 + 2] - ranges[i * 3 + 1]]. *)
Fixpoint recover_loop (ranges : list Z) (i : Z) (count : nat) (diff : Num) : Num :=
  match count with
  | O => diff
  | S count' =>
      recover_loop ranges (i + 1) count'
        (num_add diff (num_sub (arr_get ranges (i * 3 + 2)) (arr_get ranges (i * 3 + 1))))
  end.

(** [StepMap.recover(value)] *)
Definition StepMap_recover (m : StepMap) (value : Z) : Num :=
  let index := recoverIndex value in
  let diff := if negb (inverted m) then recover_loop (ranges m) 0 (Z.to_nat index) (Some 0)
              else Some 0 in
  num_add (num_add (arr_get (ranges m) (index * 3)) diff) (Some (recoverOffset value)).

(** [StepMap.offset(n)] *)
Definition StepMap_offset (n : Z) : StepMap :=
  if n =? 0 then StepMap_empty
  else StepMap_new (if n <? 0 then [0; - n; 0] else [0; 0; n]) false.

(** [Mapping]: the maps, the mirror array (pairs of indices, [None] when
    the field is not set) and the part [from, to) of the maps in use. *)
Record Mapping : Type := mkMapping {
  mp_maps : list StepMap;
  mp_mirror : option (list Z);
  mp_from : Z;
  mp_to : Z
}.

(** [new Mapping(maps, mirror, from, to)] with the default [from] and [to]. *)
Definition Mapping_new (maps : option (list StepMap)) (mirror : option (list Z)) : Mapping :=
  match maps with
  | Some l => mkMapping l mirror 0 (len l)
  | None => mkMapping [] mirror 0 0
  end.

(** [Mapping.slice(from, to)] *)
Definition Mapping_slice (m : Mapping) (from to : Z) : Mapping :=
  mkMapping (mp_maps m) (mp_mirror m) from to.

(** The loop of [getMirror] over the mirror array from index [i]. *)
Fixpoint getMirror_loop (mirror rest : list Z) (i n : Z) : option Z :=
  match rest with
  | [] => None
  | x :: rest' =>
      if x =? n then arr_get mirror (i + (if negb (i mod 2 =? 0) then -1 else 1))
      else getMirror_loop mirror rest' (i + 1) n
  end.

(** [Mapping.getMirror(n)] *)
Definition Mapping_getMirror (m : Mapping) (n : Z) : option Z :=
  match mp_mirror m with
  | Some mirror => getMirror_loop mirror mirror 0 n
  | None => None
  end.

(** [Mapping.setMirror(n, m)] *)
Definition Mapping_setMirror (m : Mapping) (n partner : Z) : Mapping :=
  mkMapping (mp_maps m)
            (Some (match mp_mirror m with Some mirror => mirror | None => [] end ++ [n; partner]))
            (mp_from m) (mp_to m).

(** [Mapping.appendMap(map, mirrors)]: [to] becomes the new number of maps. *)
Definition Mapping_appendMap (m : Mapping) (map : StepMap) (mirrors : option Z) : Mapping :=
  let appended := mkMapping (mp_maps m ++ [map]) (mp_mirror m) (mp_from m)
                            (len (mp_maps m ++ [map])) in
  match mirrors with
  | Some partner => Mapping_setMirror appended (len (mp_maps appended) - 1) partner
  | None => appended
  end.

(** [StepMap.mapResult] at a position that may be [NaN]: every comparison
    with [NaN] is false, so the loop passes all ranges and the result is
    [NaN] with no deletion and nothing to recover. *)
Definition mapResult_num (map : StepMap) (pos : Num) (assoc : Z) : Num * Z * option Z :=
  match pos with
  | Some p =>
      let r := StepMap_mapResult map p assoc in (Some (mr_pos r), mr_delInfo r, mr_recover r)
  | None => (None, 0, None)
  end.

(** The loop of [Mapping._map] from index [i]; a turn that recovers through
    a mirror continues after the mirror, so [to - from] turns are enough. *)
Fixpoint Mapping_loop (m : Mapping) (turns : nat) (i : Z) (pos : Num) (assoc delInfo : Z)
  : Res (Num * Z) :=
  match turns with
  | O => Ok (pos, delInfo)
  | S turns' =>
      if i <? mp_to m then
        match arr_get (mp_maps m) i with
        | None => Throw (TypeError "Cannot read properties of undefined (reading 'mapResult')")
        | Some map =>
            let '(mapped, del, recover) := mapResult_num map pos assoc in
            let mirror := match recover with
                          | Some value =>
                              match Mapping_getMirror m i with
                              | Some corr =>
                                  if (corr >? i) && (corr <? mp_to m) then Some (corr, value)
                                  else None
                              | None => None
                              end
                          | None => None
                          end in
            match mirror with
            | Some (corr, value) =>
                match arr_get (mp_maps m) corr with
                | None =>
                    Throw (TypeError "Cannot read properties of undefined (reading 'recover')")
                | Some other =>
                    Mapping_loop m turns' (corr + 1) (StepMap_recover other value) assoc delInfo
                end
            | None => Mapping_loop m turns' (i + 1) mapped assoc (Z.lor delInfo del)
            end
        end
      else Ok (pos, delInfo)
  end.

(** [Mapping._map(pos, assoc, simple)]: the position and the deletion
    info of the result. *)
Definition Mapping__map (m : Mapping) (pos assoc : Z) : Res (Num * Z) :=
  Mapping_loop m (Z.to_nat (mp_to m - mp_from m)) (mp_from m) (Some pos) assoc 0.

(** The loop [for (let i = this.from; i < this.to; i++) pos = this._maps[i].map(pos, assoc)]. *)
Fixpoint Mapping_plain (m : Mapping) (turns : nat) (i pos assoc : Z) : Res Z :=
  match turns with
  | O => Ok pos
  | S turns' =>
      match arr_get (mp_maps m) i with
      | None => Throw (TypeError "Cannot read properties of undefined (reading 'map')")
      | Some map => Mapping_plain m turns' (i + 1) (StepMap_map map pos assoc) assoc
      end
  end.

(** [Mapping.map(pos, assoc)] *)
Definition Mapping_map (m : Mapping) (pos assoc : Z) : Res Num :=
  match mp_mirror m with
  | Some _ => r <- Mapping__map m pos assoc ;; Ok (fst r)
  | None =>
      r <- Mapping_plain m (Z.to_nat (mp_to m - mp_from m)) (mp_from m) pos assoc ;;
      Ok (Some r)
  end.

(** ** Children around a position (node.ts) *)

(** [Node.childAfter(pos)]: the node found, its index and its offset. *)
Definition childAfter (n : Node) (pos : Z) : Res (option Node * Z * Z) :=
  '(index, offset) <- findIndex (n_content n) pos (-1) ;;
  Ok (maybeChild (n_content n) index, index, offset).

(** [Node.childBefore(pos)] *)
Definition childBefore (n : Node) (pos : Z) : Res (option Node * Z * Z) :=
  if pos =? 0 then Ok (None, 0, 0)
  else
    '(index, offset) <- findIndex (n_content n) pos (-1) ;;
    if offset <? pos then
      found <- child (n_content n) index ;;
      Ok (Some found, index, offset)
    else
      found <- child (n_content n) (index - 1) ;;
      Ok (Some found, index - 1, offset - nodeSize found).

(** The loop of [Node.nodeAt]. Every turn goes from a node to one of its
    children; [turns] is given as the height of the node. *)
Fixpoint nodeAt_loop (turns : nat) (node : Node) (pos : Z) : Res (option Node) :=
  match turns with
  | O => Throw (Error "nodeAt: below the leaves of the document")
  | S turns' =>
      '(index, offset) <- findIndex (n_content node) pos (-1) ;;
      match maybeChild (n_content node) index with
      | None => Ok None
      | Some found =>
          if (offset =? pos) || isText found then Ok (Some found)
          else nodeAt_loop turns' found (pos - (offset + 1))
      end
  end.

(** [Node.nodeAt(pos)] *)
Definition nodeAt (n : Node) (pos : Z) : Res (option Node) :=
  nodeAt_loop (height n) n pos.

(** ** The positions a resolved position knows (resolvedpos.ts)

    The methods read the path at places computed from the depth. Where the
    path holds no number at such a place the source computes with
    [undefined] or with a node, and the result is no position: [None]. *)

Definition path_num (rp : ResolvedPos) (i : Z) : Num :=
  match arr_get (rp_path rp) i with
  | Some (PNum z) => Some z
  | _ => None
  end.

(** [$pos.start(depth)] *)
Definition rp_start (rp : ResolvedPos) (depth : Z) : Num :=
  let depth := resolveDepth rp depth in
  if depth =? 0 then Some 0 else num_add (path_num rp (depth * 3 - 1)) (Some 1).

(** [$pos.end(depth)] *)
Definition rp_end (rp : ResolvedPos) (depth : Z) : Res Num :=
  let depth := resolveDepth rp depth in
  node <- needNode (rp_node rp depth) ;;
  Ok (num_add (rp_start rp depth) (Some (frag_size (n_content node)))).

(** [$pos.before(depth)] *)
Definition rp_before (rp : ResolvedPos) (depth : Z) : Res Num :=
  let depth := resolveDepth rp depth in
  if depth =? 0 then Throw (RangeError "There is no position before the top-level node")
  else if depth =? rp_depth rp + 1 then Ok (Some (rp_pos rp))
  else Ok (path_num rp (depth * 3 - 1)).

(** [$pos.after(depth)]: [path[depth * 3].nodeSize] throws on [undefined]
    and is [undefined] on a number. *)
Definition rp_after (rp : ResolvedPos) (depth : Z) : Res Num :=
  let depth := resolveDepth rp depth in
  if depth =? 0 then Throw (RangeError "There is no position after the top-level node")
  else if depth =? rp_depth rp + 1 then Ok (Some (rp_pos rp))
  else
    match arr_get (rp_path rp) (depth * 3) with
    | Some (PNode node) => Ok (num_add (path_num rp (depth * 3 - 1)) (Some (nodeSize node)))
    | Some (PNum _) => Ok None
    | None => Throw (TypeError "Cannot read properties of undefined (reading 'nodeSize')")
    end.

(** The loop of [$pos.posAtIndex]:
    [for (let i = 0; i < index; i++) pos += node.child(i).nodeSize]. *)
Fixpoint posAtIndex_loop (node : option Node) (turns : nat) (i : Z) (pos : Num) : Res Num :=
  match turns with
  | O => Ok pos
  | S turns' =>
      parent <- needNode node ;;
      found <- child (n_content parent) i ;;
      posAtIndex_loop node turns' (i + 1) (num_add pos (Some (nodeSize found)))
  end.

(** [$pos.posAtIndex(index, depth)] *)
Definition posAtIndex (rp : ResolvedPos) (index depth : Z) : Res Num :=
  let depth := resolveDepth rp depth in
  posAtIndex_loop
    (match arr_get (rp_path rp) (depth * 3) with Some (PNode n) => Some n | _ => None end)
    (Z.to_nat index) 0
    (if depth =? 0 then Some 0 else num_add (path_num rp (depth * 3 - 1)) (Some 1)).




(** [$pos.sameParent(other)] *)
Definition sameParent (rp other : ResolvedPos) : bool :=
  rp_pos rp - rp_parentOffset rp =? rp_pos other - rp_parentOffset other.

(** ** Slices through JSON (replace.ts) *)

(** [Slice.toJSON] *)
Definition Slice_toJSON (s : Slice) : JsValue :=
  if frag_size (sl_content s) =? 0 then JNull
  else
    JObj ([("content", Fragment_toJSON (sl_content s))]
            ++ (if openStart s >? 0 then [("openStart", JNum (openStart s))] else [])
            ++ (if openEnd s >? 0 then [("openEnd", JNum (openEnd s))] else [])).

(** [Slice.fromJSON(schema, json)]; [json.openStart || 0] is 0 for a value
    that counts as false. *)
Definition Slice_fromJSON (schema : Schema) (json : JsValue) : Res Slice :=
  if negb (truthy json) then Ok Slice_empty
  else
    let orZero := fun v => if truthy v then v else JNum 0 in
    match orZero (getProp json "openStart"), orZero (getProp json "openEnd") with
    | JNum start, JNum stop =>
        content <- Fragment_fromJSON schema (getProp json "content") ;;
        Ok (mkSlice content start stop)
    | _, _ => Throw (RangeError "Invalid input for Slice.fromJSON")
    end.

(** ** Attribute steps on the document (attr_step.ts) *)

(** [attrs[name] = value] on the copy of an object: a key the object has
    keeps its place, a new key comes last. *)
Fixpoint setAttr (attrs : Attrs) (name : string) (value : JsValue) : Attrs :=
  match attrs with
  | [] => [(name, value)]
  | (k, v) :: rest =>
      if String.eqb k name then (k, value) :: rest else (k, v) :: setAttr rest name value
  end.

Record DocAttrStep : Type := mkDocAttrStep {
  da_attr : string;
  da_value : JsValue
}.

(** [DocAttrStep.apply(doc)] *)
Definition DocAttrStep_apply (step : DocAttrStep) (doc : Node) : Res StepResult :=
  updated <- NodeType_create (n_type doc)
               (JObj (setAttr (n_attrs doc) (da_attr step) (da_value step)))
               (OfFragment (n_content doc)) (Some (n_marks doc)) ;;
  Ok (StepResult_ok updated).

(** [DocAttrStep.invert(doc)] *)
Definition DocAttrStep_invert (step : DocAttrStep) (doc : Node) : DocAttrStep :=
  mkDocAttrStep (da_attr step) (getProp (JObj (n_attrs doc)) (da_attr step)).

(** * Specification vocabulary *)

(** ** Well-formed values: the keys of an object are distinct *)

Fixpoint distinctKeys (ks : list string) : bool :=
  match ks with
  | [] => true
  | k :: rest => negb (existsb (String.eqb k) rest) && distinctKeys rest
  end.

Fixpoint JsValue_ok (v : JsValue) : bool :=
  match v with
  | JArr items => forallb JsValue_ok items
  | JObj fields =>
      distinctKeys (map fst fields)
      && forallb (fun kv => match kv with (_, x) => JsValue_ok x end) fields
  | _ => true
  end.

Section JsValueInduction.
Variable P : JsValue -> Prop.
Hypothesis Hundef : P JUndefined.
Hypothesis Hnull : P JNull.
Hypothesis Hbool : forall b, P (JBool b).
Hypothesis Hnum : forall n, P (JNum n).
Hypothesis Hstr : forall s, P (JStr s).
Hypothesis Harr : forall items, Forall P items -> P (JArr items).
Hypothesis Hobj : forall fields, Forall (fun kv => P (snd kv)) fields -> P (JObj fields).

Fixpoint JsValue_nested_ind (v : JsValue) : P v :=
  match v with
  | JUndefined => Hundef
  | JNull => Hnull
  | JBool b => Hbool b
  | JNum n => Hnum n
  | JStr s => Hstr s
  | JArr items =>
      Harr items ((fix all (l : list JsValue) : Forall P l :=
               match l with
               | [] => Forall_nil P
               | x :: l' => Forall_cons x (JsValue_nested_ind x) (all l')
               end) items)
  | JObj fields =>
      Hobj fields ((fix all (l : list (string * JsValue)) : Forall (fun kv => P (snd kv)) l :=
               match l with
               | [] => Forall_nil _
               | kv :: l' =>
                   Forall_cons (P := fun kv => P (snd kv)) kv
                     (JsValue_nested_ind (snd kv)) (all l')
               end) fields)
  end.
End JsValueInduction.

Definition propsEach (fb : list (string * JsValue)) :=
  fix props (fa : list (string * JsValue)) {struct fa} : bool :=
    match fa with
    | [] => true
    | (p, x) :: fa' =>
        match lookup p fb with
        | Some y => compareDeep x y && props fa'
        | None => false
        end
    end.

(** ** Mark sets: [Mark.addToSet] *)

Definition rank (m : Mark) : Z := mt_rank (m_type m).

Definition Mark_ok (m : Mark) : bool := JsValue_ok (JObj (m_attrs m)).

(** Ranks do not decrease along the set. *)
Fixpoint rankSorted (set : list Mark) : bool :=
  match set with
  | [] => true
  | a :: rest => forallb (fun b => rank a <=? rank b) rest && rankSorted rest
  end.

(** No member is equal (same type, same attributes) to another member. *)
Fixpoint deduplicated (set : list Mark) : bool :=
  match set with
  | [] => true
  | a :: rest =>
      forallb (fun b => negb (Mark_eq a b) && negb (Mark_eq b a)) rest && deduplicated rest
  end.

(** A member [o] makes [m.addToSet] give the set back: it is equal to [m],
    or its type excludes the type of [m] while the type of [m] does not
    exclude it. *)
Definition blocks (m o : Mark) : bool :=
  Mark_eq m o
  || (negb (excludes (m_type m) (m_type o)) && excludes (m_type o) (m_type m)).

(** The members that the type of [m] does not exclude. *)
Definition withoutExcluded (m : Mark) (set : list Mark) : list Mark :=
  filter (fun o => negb (excludes (m_type m) (m_type o))) set.

(** [m] put before the first member of strictly greater rank, at the end
    when there is none. *)
Fixpoint insertBeforeGreater (m : Mark) (set : list Mark) : list Mark :=
  match set with
  | [] => [m]
  | o :: rest =>
      if rank o >? rank m then m :: o :: rest
      else o :: insertBeforeGreater m rest
  end.

Definition noGreater (m : Mark) (set : list Mark) : bool :=
  forallb (fun o => negb (rank o >? rank m)) set.

(** What the loop has built after the members [pre]. *)
Definition loopState (m : Mark) (set pre : list Mark)
    (copy : option (list Mark)) (placed : bool) : Prop :=
  if placed then
    exists l1 o l2,
      copy = Some (l1 ++ m :: o :: l2)
      /\ withoutExcluded m pre = l1 ++ o :: l2
      /\ noGreater m l1 = true /\ (rank o >? rank m) = true
  else
    orSlice copy set (List.length pre) = withoutExcluded m pre
    /\ noGreater m (withoutExcluded m pre) = true.

(** The words of an expression under the usual semantics of regular
    expressions, over the names of the node types. A group name has been
    replaced by the choice of its member types when the expression was read
    ([resolveName]). [Range min max] with [max = -1] has no upper bound. *)
Inductive Accepts : Expr -> list string -> Prop :=
| AcceptsName (t : NodeTypeBase) : Accepts (Name t) [nt_name t]
| AcceptsChoice (exprs : list Expr) (e : Expr) (w : list string) :
    In e exprs -> Accepts e w -> Accepts (Choice exprs) w
| AcceptsSeqNil : Accepts (Seq []) []
| AcceptsSeqCons (e : Expr) (rest : list Expr) (w1 w2 : list string) :
    Accepts e w1 -> Accepts (Seq rest) w2 -> Accepts (Seq (e :: rest)) (w1 ++ w2)
| AcceptsOptNone (e : Expr) : Accepts (Opt e) []
| AcceptsOptSome (e : Expr) (w : list string) : Accepts e w -> Accepts (Opt e) w
| AcceptsStar (e : Expr) (ws : list (list string)) :
    Forall (Accepts e) ws -> Accepts (Star e) (List.concat ws)
| AcceptsPlus (e : Expr) (w : list string) (ws : list (list string)) :
    Accepts e w -> Forall (Accepts e) ws -> Accepts (Plus e) (w ++ List.concat ws)
| AcceptsRange (min max : Z) (e : Expr) (ws : list (list string)) :
    min <= len ws -> (max = -1 \/ len ws <= max) ->
    Forall (Accepts e) ws -> Accepts (Range min max e) (List.concat ws).

Definition blockType (name : string) : NodeTypeBase :=
  NodeTypeBase_new name (mkNodeSpec None None None false [] false).

Definition typeA : NodeTypeBase := blockType "a".
Definition typeB : NodeTypeBase := blockType "b".
Definition typesAB : list (string * NodeTypeBase) := [("a", typeA); ("b", typeB)].

(** ** Position maps *)

(** [p] lies inside the range of [oldSize] tokens that starts at [start]:
    after its start and before its end. *)
Definition insideRange (start oldSize p : Z) : bool :=
  (start <? p) && (p <? start + oldSize).

(** The range [start, oldSize, newSize] does not lose the position [p]:
    [p] is not inside the range and, when the range is deleted and nothing
    is put in its place, so that both of its ends become one position, [p]
    is not the end that the way back leaves: the start for [assoc >= 0], the
    end for [assoc < 0], and the end as well when the range starts where the
    range before it ends ([touching]). *)
Definition keptByRange (touching : bool) (start oldSize newSize p assoc : Z) : bool :=
  negb (insideRange start oldSize p)
  && (if (0 <? oldSize) && (newSize =? 0) then
        negb (p =? (if assoc <? 0 then start + oldSize else start))
        && negb (touching && (p =? start + oldSize))
      else true).

(** No range of the array loses [p]; [prevEnd] is the end of the range
    before the first of [ranges]. *)
Fixpoint keptFrom (prevEnd : option Z) (ranges : list Z) (p assoc : Z) : bool :=
  match ranges with
  | start :: oldSize :: newSize :: rest =>
      keptByRange (match prevEnd with Some e => e =? start | None => false end)
                  start oldSize newSize p assoc
      && keptFrom (Some (start + oldSize)) rest p assoc
  | _ => true
  end.

Definition keptByMap (m : StepMap) (p assoc : Z) : bool := keptFrom None (ranges m) p assoc.

(** The shape of a step: a slice does not have a negative size, the gap of
    a [ReplaceAroundStep] lies inside its range and the place where the gap
    is inserted lies inside its slice. *)
Definition wellFormedStep (step : Step) : bool :=
  match step with
  | StepReplace s => 0 <=? Slice_size (rs_slice s)
  | StepReplaceAround s =>
      (ra_from s <=? ra_gapFrom s) && (ra_gapFrom s <=? ra_gapTo s)
      && (ra_gapTo s <=? ra_to s)
      && (0 <=? ra_insert s) && (ra_insert s <=? Slice_size (ra_slice s))
  | StepAttr _ _ _ => true
  | StepDocAttr _ _ => true
  end.

(** ** A small schema and document for the examples

    The node types [doc] (content ["block+"]), [paragraph] (content
    ["inline*"]), [horizontal_rule] and [text]; the mark types [em], [strong]
    and [link], which has the attributes [href] (required) and [title]. *)

Definition plainNode (content group : option string) (inline : bool) : NodeSpec :=
  mkNodeSpec content None group inline [] false.

Definition exampleSpec : SchemaSpec :=
  mkSchemaSpec
    [("doc", plainNode (Some "block+") None false);
     ("paragraph", plainNode (Some "inline*") (Some "block") false);
     ("horizontal_rule", plainNode None (Some "block") false);
     ("text", plainNode None (Some "inline") false)]
    [("em", mkMarkSpec [] None None);
     ("strong", mkMarkSpec [] None None);
     ("link", mkMarkSpec [("href", mkAttributeSpec None None);
                          ("title", mkAttributeSpec (Some JNull) None)] None None)]
    None.

Definition noSchema : Schema := mkSchema exampleSpec [] [] None.

Definition exampleSchema : Schema :=
  Eval vm_compute in
    match Schema_new exampleSpec with
    | Ok schema => schema
    | Throw _ => noSchema
    end.

Definition noType : NodeType :=
  mkNodeType (NodeTypeBase_new "" (plainNode None None false)) ContentMatch_empty None.

Definition typeNamed (name : string) : NodeType :=
  match lookup name (sch_nodes exampleSchema) with
  | Some t => t
  | None => noType
  end.

Definition markNamed (name : string) : MarkType :=
  match lookup name (sch_marks exampleSchema) with
  | Some t => t
  | None => mkMarkType "" 0 [] [] None
  end.

Definition docType : NodeType := Eval vm_compute in typeNamed "doc".
Definition paragraphType : NodeType := Eval vm_compute in typeNamed "paragraph".
Definition ruleType : NodeType := Eval vm_compute in typeNamed "horizontal_rule".
Definition textType : NodeType := Eval vm_compute in typeNamed "text".

Definition emMark : Mark := mkMark (markNamed "em") [].
Definition strongMark : Mark := mkMark (markNamed "strong") [].
Definition linkMark : Mark :=
  mkMark (markNamed "link") [("href", JStr "https://example.org"); ("title", JNull)].

Definition textOf_ (s : string) (marks : list Mark) : Node := mkTextNode textType [] s marks.

Definition paragraphOf (children : list Node) : Node :=
  mkNode paragraphType [] (Fragment_new children None) [].

Definition ruleNode : Node := mkNode ruleType [] Fragment_empty [].

(** [doc(paragraph("ab"), horizontal_rule, paragraph(em("c"), "d"))] *)
Definition exampleDoc : Node :=
  mkNode docType []
    (Fragment_new [paragraphOf [textOf_ "ab" []]; ruleNode;
                   paragraphOf [textOf_ "c" [emMark]; textOf_ "d" []]] None) [].

(** ** Well-formed nodes

    A node is a [TextNode] exactly when its type is the text type, and the
    size a fragment holds is the sum of the sizes of its children: what the
    constructors of the source keep. *)
Fixpoint wellFormedNode (n : Node) : bool :=
  match n with
  | mkNode type _ content _ =>
      negb (ty_isText type)
      && (frag_size content =? sumSizes (frag_content content))
      && forallb wellFormedNode (frag_content content)
  | mkTextNode type _ _ _ => ty_isText type
  end.

Definition wellFormedFragment (f : Fragment) : bool :=
  (frag_size f =? sumSizes (frag_content f)) && forallb wellFormedNode (frag_content f).

Section NodeInduction.
Variable P : Node -> Prop.
Hypothesis Hnode : forall type attrs content marks,
    Forall P (frag_content content) -> P (mkNode type attrs content marks).
Hypothesis Htext : forall type attrs text marks, P (mkTextNode type attrs text marks).

Fixpoint Node_nested_ind (n : Node) : P n :=
  match n with
  | mkNode type attrs content marks =>
      Hnode type attrs content marks
        ((fix all (l : list Node) : Forall P l :=
            match l with
            | [] => Forall_nil P
            | c :: l' => Forall_cons c (Node_nested_ind c) (all l')
            end) (frag_content content))
  | mkTextNode type attrs text marks => Htext type attrs text marks
  end.
End NodeInduction.

(** [doc(paragraph("a"))], and the step that deletes its only paragraph. *)
Definition oneParagraphDoc : Node :=
  mkNode docType [] (Fragment_new [paragraphOf [textOf_ "a" []]] None) [].

Definition deleteParagraph : ReplaceStep := mkReplaceStep 0 3 Slice_empty false.

Definition notReplaceError (e : Exn) : Prop :=
  match e with
  | ReplaceError _ => False
  | _ => True
  end.

(** ** Fragments without adjacent text nodes of one markup *)

(** Two neighbours that should have been one node: text nodes with the
    same type, attributes and marks. *)
Definition sameMarkupText (a b : Node) : bool := isText a && isText b && sameMarkup a b.

Fixpoint noAdjacentText (children : list Node) : bool :=
  match children with
  | [] => true
  | a :: rest =>
      match rest with
      | b :: _ => negb (sameMarkupText a b)
      | [] => true
      end && noAdjacentText rest
  end.

(** The values a node holds are well formed, and a node of the text type
    is a [TextNode]. *)
Definition valuesOk (n : Node) : bool :=
  JsValue_ok (JObj (n_attrs n)) && forallb Mark_ok (n_marks n).

Definition textIsTextNode (n : Node) : bool :=
  if isText n then match n_text n with Some _ => true | None => false end else true.

Definition nodeOk (n : Node) : bool := valuesOk n && textIsTextNode n.

Definition sizeHeld (f : Fragment) : bool := frag_size f =? sumSizes (frag_content f).

(** The entry points that build a fragment from nodes or fragments. *)
Inductive Construction : Type :=
| ByFromArray (array : list Node)
| ByFrom (nodes : FragmentSource)
| ByAppend (this other : Fragment).

Definition construct (c : Construction) : Res Fragment :=
  match c with
  | ByFromArray array => fromArray array
  | ByFrom nodes => Fragment_from nodes
  | ByAppend this other => append this other
  end.

(** What the entry points are given: nodes with well-formed values; a
    fragment that is passed on or appended to holds its size and has itself
    no adjacent text nodes of one markup. *)
Definition fragmentOk (f : Fragment) : bool :=
  sizeHeld f && forallb nodeOk (frag_content f) && noAdjacentText (frag_content f).

Definition inputsOk (c : Construction) : bool :=
  match c with
  | ByFromArray array => forallb nodeOk array
  | ByFrom NoNodes => true
  | ByFrom (OfFragment f) => noAdjacentText (frag_content f)
  | ByFrom (OfArray array) => forallb nodeOk array
  | ByFrom (OfNode _) => true
  | ByAppend this other => fragmentOk this && fragmentOk other
  end.

(** The text node [n] holding another text. *)
Definition textNodeWith (n : Node) (text : string) : Node :=
  match n with
  | mkTextNode type attrs _ marks => mkTextNode type attrs text marks
  | mkNode _ _ _ _ => n
  end.

(** The nodes [cur :: rest] with every run of neighbouring text nodes of one
    markup made one text node: it holds the texts of the run in their order
    and has the type, attributes and marks of the last node of the run. *)
Fixpoint joinFrom (cur : Node) (rest : list Node) : list Node :=
  match rest with
  | [] => [cur]
  | next :: rest' =>
      if sameMarkupText cur next then
        joinFrom (textNodeWith next (String.append (textOf cur) (textOf next))) rest'
      else cur :: joinFrom next rest'
  end.

Definition joinNeighbours (nodes : list Node) : list Node :=
  match nodes with
  | [] => []
  | first :: rest => joinFrom first rest
  end.

(** The nodes of two fragments in a row, the last of the one and the first
    of the other made one text node when they are text nodes of one markup:
    it has the type, attributes and marks of the former. *)
Definition joinAtEnds (before after : list Node) : list Node :=
  match rev before, after with
  | last :: init, first :: rest =>
      if sameMarkupText last first then
        rev init ++ textNodeWith last (String.append (textOf last) (textOf first)) :: rest
      else before ++ after
  | _, _ => before ++ after
  end.

(** The children of the fragment that an entry point is to return. A
    fragment of size 0 is appended to, or is appended, as nothing. *)
Definition joinedContent (c : Construction) : list Node :=
  match c with
  | ByFromArray array => joinNeighbours array
  | ByFrom NoNodes => []
  | ByFrom (OfFragment f) => frag_content f
  | ByFrom (OfArray array) => joinNeighbours array
  | ByFrom (OfNode n) => [n]
  | ByAppend this other =>
      if frag_size other =? 0 then frag_content this
      else if frag_size this =? 0 then frag_content other
      else joinAtEnds (frag_content this) (frag_content other)
  end.

(** Two nodes with the same type, attributes and marks. *)
Definition sameFields (a b : Node) : Prop :=
  n_type a = n_type b /\ n_attrs a = n_attrs b /\ n_marks a = n_marks b.

(** The JSON array of the text nodes ["a"] and ["b"], without marks. *)
Definition twoTextsJSON : JsValue :=
  JArr [JObj [("type", JStr "text"); ("text", JStr "a")];
        JObj [("type", JStr "text"); ("text", JStr "b")]].

(** The last node of [l1] and the first of [l2] are not text nodes of one
    markup. *)
Definition apartAtJoint (l1 l2 : list Node) : bool :=
  match rev l1, l2 with
  | o :: _, b :: _ => negb (sameMarkupText o b)
  | _, _ => true
  end.

(** What [fromArray] has built after the nodes [pre]: a list without
    adjacent text nodes of one markup, whose last node has the type,
    attributes and marks of the last of [pre]. *)
Definition joinedSoFar (pre out : list Node) : Prop :=
  noAdjacentText out = true
  /\ match rev pre with
     | [] => out = []
     | p :: _ => exists init o, out = init ++ [o] /\ sameFields o p
     end.

(** ** Positions and steps of the example document *)

(** The position [resolve] gives for an offset of the example document
    (the start of the document where [resolve] throws). *)
Definition posAt (t : Node) (p : Z) : ResolvedPos :=
  match resolve t p with
  | Ok rp => rp
  | Throw _ => ResolvedPos_new 0 [PNode t; PNum 0; PNum 0] 0
  end.

(** A slice holding the paragraph ["x"], open by two levels at both ends. *)
Definition deepSlice : Slice :=
  mkSlice (Fragment_new [paragraphOf [textOf_ "x" []]] None) 2 2.

(** The step that replaces the offsets 2 to 4 by the text ["xyz"]. *)
Definition replaceByText : Step :=
  StepReplace (mkReplaceStep 2 4 (mkSlice (Fragment_new [textOf_ "xyz" []] None) 0 0) false).

(** The step that deletes the offsets 1 to 3: the text ["ab"] of the first
    paragraph of the example document. *)
Definition deleteText : ReplaceStep := mkReplaceStep 1 3 Slice_empty false.

(** ** Documents built from a schema *)

(** Attributes as [computeAttrs] builds them from some given value. *)
Definition attrsFrom (table : AttrTable) (attrs : Attrs) : Prop :=
  exists value, computeAttrs table value = Ok attrs.

(** A mark of a type of the schema, with attributes built by that type. *)
Definition markFrom (schema : Schema) (m : Mark) : Prop :=
  lookup (mt_name (m_type m)) (sch_marks schema) = Some (m_type m)
  /\ attrsFrom (mt_attrs (m_type m)) (m_attrs m)
  /\ Mark_ok m = true.

(** A mark set as [Mark.setFrom] leaves it: marks of the schema, sorted by
    rank. *)
Definition marksFrom (schema : Schema) (marks : list Mark) : Prop :=
  Forall (markFrom schema) marks /\ rankSorted marks = true.

(** A node as the schema builds it when every node of the text type is a
    [TextNode]: [schema.text] makes the text nodes, with a text that is not
    empty and the default attributes of the text type; [NodeType.create], or
    [schema.node] on a type that is not the text type, makes the other
    nodes, with a type of the schema, the attributes that type computes, a
    mark set and a fragment of such nodes that holds its size. The plain
    node of the text type that [schema.node("text")] returns is not among
    them. *)
Fixpoint builtFromSchema (schema : Schema) (n : Node) : Prop :=
  match n with
  | mkNode type attrs content marks =>
      lookup (ty_name type) (sch_nodes schema) = Some type
      /\ ty_isText type = false
      /\ attrsFrom (nt_attrs (ty_base type)) attrs
      /\ JsValue_ok (JObj attrs) = true
      /\ marksFrom schema marks
      /\ frag_size content = sumSizes (frag_content content)
      /\ (fix each (children : list Node) : Prop :=
            match children with
            | [] => True
            | c :: rest => builtFromSchema schema c /\ each rest
            end) (frag_content content)
  | mkTextNode type attrs text marks =>
      lookup (ty_name type) (sch_nodes schema) = Some type
      /\ ty_isText type = true
      /\ attrs = match ty_defaultAttrs type with Some a => a | None => [] end
      /\ JsValue_ok (JObj attrs) = true
      /\ text <> ""
      /\ marksFrom schema marks
  end.

(** [doc(paragraph(link("a"), "b"))] *)
Definition linkDoc : Node :=
  mkNode docType []
    (Fragment_new [paragraphOf [textOf_ "a" [linkMark]; textOf_ "b" []]] None) [].

(** ** Trees whose neighbouring text nodes are joined *)

(** A test that holds at a node and at every node below it. *)
Fixpoint allNodes (test : Node -> bool) (n : Node) {struct n} : bool :=
  test n
  && match n with
     | mkNode _ _ content _ => forallb (allNodes test) (frag_content content)
     | mkTextNode _ _ _ _ => true
     end.

(** No fragment of the tree has two adjacent text nodes of one markup. *)
Definition textJoined (n : Node) : bool :=
  allNodes (fun x => noAdjacentText (frag_content (n_content x))) n.

(** The way [resolve] goes down from a node to the position at offset
    [parentOffset] of its content: the triples it adds to the path. *)
Inductive Descent : Node -> Z -> Z -> list PathElem -> Prop :=
| Descent_stop (node : Node) (start parentOffset index offset : Z) :
    findIndex (n_content node) parentOffset (-1) = Ok (index, offset) ->
    (parentOffset - offset = 0
     \/ exists c, child (n_content node) index = Ok c /\ isText c = true) ->
    Descent node start parentOffset [PNode node; PNum index; PNum (start + offset)]
| Descent_enter (node : Node) (start parentOffset index offset : Z) (c : Node)
    (rest : list PathElem) :
    findIndex (n_content node) parentOffset (-1) = Ok (index, offset) ->
    parentOffset - offset <> 0 ->
    child (n_content node) index = Ok c ->
    isText c = false ->
    Descent c (start + offset + 1) (parentOffset - offset - 1) rest ->
    Descent node start parentOffset
            ([PNode node; PNum index; PNum (start + offset)] ++ rest).

(** *** A tree read from JSON

    [doc(paragraph("a", "b"))] as [Node.fromJSON] reads it: two text nodes
    of one markup side by side. *)
Definition twoTextsDocJSON : JsValue :=
  JObj [("type", JStr "doc");
        ("content", JArr [JObj [("type", JStr "paragraph"); ("content", twoTextsJSON)]])].

Definition twoTextsDoc : Node :=
  mkNode docType [] (Fragment_new [paragraphOf [textOf_ "a" []; textOf_ "b" []]] None) [].


(** ** Maps with ordered ranges *)

(** The array is made of whole triples [start, oldSize, newSize], as every
    array is that the source builds a map from. *)
Fixpoint triples (ranges : list Z) : bool :=
  match ranges with
  | [] => true
  | _ :: _ :: _ :: rest => triples rest
  | _ => false
  end.

(** The ranges of a map are triples, lie one after the other from [low] on
    and have sizes that are not negative. *)
Fixpoint rangesOk (low : Z) (ranges : list Z) : bool :=
  match ranges with
  | [] => true
  | start :: oldSize :: newSize :: rest =>
      (low <=? start) && (0 <=? oldSize) && (0 <=? newSize) && rangesOk (start + oldSize) rest
  | _ => false
  end.

(** The ranges of the inverse change: every range with its sizes swapped,
    at the place it has in the new document. *)
Fixpoint inverseRanges (shift : Z) (ranges : list Z) : list Z :=
  match ranges with
  | start :: oldSize :: newSize :: rest =>
      (start + shift) :: newSize :: oldSize :: inverseRanges (shift + (newSize - oldSize)) rest
  | _ => []
  end.

(** ** The path of a resolved position *)

(** The triples that lead from [node], whose content starts at [start],
    down to the position [pos]: every triple holds a well-formed node that
    contains the position, the index of a child and the position before
    that child; [parentOffset] is the offset of the position into the node
    of the last triple. The child of a triple that is not the last is the node of
    the next one, it is not a text node and the position is strictly inside
    it; at the last triple the position is before the child or inside the
    text node at the index. *)
Inductive PathFrom (pos parentOffset : Z) : Node -> Z -> list PathElem -> Prop :=
| PathFrom_last (node : Node) (start index : Z) :
    wellFormedNode node = true ->
    start <= pos <= start + frag_size (n_content node) ->
    parentOffset = pos - start ->
    0 <= index <= childCount (n_content node) ->
    (pos = start + sumSizes (firstn (Z.to_nat index) (frag_content (n_content node)))
     \/ exists c, child (n_content node) index = Ok c /\ isText c = true
                  /\ start + sumSizes (firstn (Z.to_nat index) (frag_content (n_content node)))
                     < pos
                     < start + sumSizes (firstn (Z.to_nat index) (frag_content (n_content node)))
                       + nodeSize c) ->
    PathFrom pos parentOffset node start
             [PNode node; PNum index;
              PNum (start + sumSizes (firstn (Z.to_nat index) (frag_content (n_content node))))]
| PathFrom_enter (node : Node) (start index : Z) (c : Node) (rest : list PathElem) :
    wellFormedNode node = true ->
    start <= pos <= start + frag_size (n_content node) ->
    0 <= index <= childCount (n_content node) ->
    child (n_content node) index = Ok c ->
    isText c = false ->
    nodeSize c = 2 + frag_size (n_content c) ->
    PathFrom pos parentOffset c
             (start + sumSizes (firstn (Z.to_nat index) (frag_content (n_content node))) + 1)
             rest ->
    PathFrom pos parentOffset node start
             ([PNode node; PNum index;
               PNum (start + sumSizes (firstn (Z.to_nat index) (frag_content (n_content node))))]
                ++ rest).


(** ** A document with an attribute

    The type [doc] with the attribute [title], whose default is the empty
    string, and a document of that type. *)
Definition titledDocType : NodeType :=
  mkNodeType
    (NodeTypeBase_new "doc"
       (mkNodeSpec (Some "block+") None None false
                   [("title", mkAttributeSpec (Some (JStr "")) None)] false))
    (ty_contentMatch docType) (ty_markSet docType).

Definition titledDoc : Node :=
  mkNode titledDocType [("title", JStr "Draft")] (n_content exampleDoc) [].

(** ** Flat positions of a fragment *)

(** The offset [p] into the children [cs] lies between two children, or
    inside a child that is a text node: cutting there opens no node. *)
Fixpoint flatIn (cs : list Node) (p : Z) : bool :=
  match cs with
  | [] => true
  | c :: rest =>
      if (0 <? p) && (p <? nodeSize c) then isText c else flatIn rest (p - nodeSize c)
  end.

(** * Properties *)

Lemma lookup_In {A : Type} (k : string) (l : list (string * A)) (v : A) :
  lookup k l = Some v -> In (k, v) l.
Proof.
  induction l as [|[k' v'] l IH]; simpl; [discriminate|].
  destruct (String.eqb k k') eqn:E.
  - intros [= ->]. apply String.eqb_eq in E. subst. now left.
  - intros H. right. auto.
Qed.

Lemma existsb_eqb_In (k : string) (ks : list string) :
  existsb (String.eqb k) ks = true <-> In k ks.
Proof.
  rewrite existsb_exists. split.
  - intros [x [Hin E]]. apply String.eqb_eq in E. now subst.
  - intros H. exists k. split; [assumption | apply String.eqb_refl].
Qed.

Lemma In_lookup {A : Type} (k : string) (l : list (string * A)) (v : A) :
  distinctKeys (map fst l) = true -> In (k, v) l -> lookup k l = Some v.
Proof.
  induction l as [|[k' v'] l IH]; simpl; [contradiction|].
  intros Hd [H | H].
  - inversion H; subst. now rewrite String.eqb_refl.
  - apply andb_prop in Hd as [Hn Hd].
    destruct (String.eqb k k') eqn:E.
    + apply String.eqb_eq in E. subst k'.
      apply negb_true_iff in Hn.
      assert (Hex : existsb (String.eqb k) (map fst l) = true).
      { apply existsb_eqb_In. change k with (fst (k, v)). now apply in_map. }
      congruence.
    + auto.
Qed.

Lemma compareDeep_obj (fa fb : list (string * JsValue)) :
  compareDeep (JObj fa) (JObj fb)
  = propsEach fb fa && forallb (fun q => hasKey (fst q) fa) fb.
Proof. reflexivity. Qed.

Lemma propsEach_true (fb fa : list (string * JsValue)) :
  propsEach fb fa = true <->
  (forall p x, In (p, x) fa -> exists y, lookup p fb = Some y /\ compareDeep x y = true).
Proof.
  induction fa as [|[p x] fa IH]; simpl.
  - split; [intros _ ? ? [] | reflexivity].
  - destruct (lookup p fb) as [y|] eqn:L.
    + rewrite andb_true_iff, IH. split.
      * intros [Hc Hall] p' x' [H | H]; [inversion H; subst; eauto | auto].
      * intros H. split.
        -- destruct (H p x (or_introl eq_refl)) as [y' [Hy Hc]]. congruence.
        -- intros p' x' Hin. apply H. now right.
    + split; [discriminate|].
      intros H. destruct (H p x (or_introl eq_refl)) as [y' [Hy _]]. congruence.
Qed.

Lemma compareDeep_sym_true (a : JsValue) :
  forall b, JsValue_ok a = true -> JsValue_ok b = true ->
            compareDeep a b = true -> compareDeep b a = true.
Proof.
  induction a as [| | x | x | x | la IH | fa IH] using JsValue_nested_ind;
    intros b Ha Hb; destruct b as [| | y | y | y | lb | fb]; simpl; try discriminate; auto.
  - intros H. apply Bool.eqb_prop in H. subst. apply Bool.eqb_reflx.
  - rewrite !Z.eqb_eq. auto.
  - rewrite !String.eqb_eq. auto.
  - simpl in Ha, Hb. revert lb Hb.
    induction IH as [|x la Hx _ IHla]; intros [|y lb] Hb; try discriminate; auto.
    simpl in Ha, Hb. apply andb_prop in Ha as [Hax Ha], Hb as [Hby Hb].
    rewrite !andb_true_iff. intros [H1 H2]. split; [apply Hx; assumption|].
    apply IHla; assumption.
  - fold (propsEach fb fa). fold (propsEach fa fb).
    simpl in Ha, Hb. apply andb_prop in Ha as [Hda Ha], Hb as [Hdb Hb].
    rewrite !andb_true_iff, !propsEach_true, !forallb_forall.
    intros [H1 H2]. split.
    + intros q y Hin.
      specialize (H2 (q, y) Hin). simpl in H2. unfold hasKey in H2.
      destruct (lookup q fa) as [x|] eqn:L; [|discriminate].
      exists x. split; [reflexivity|].
      pose proof (lookup_In _ _ _ L) as Hina.
      destruct (H1 q x Hina) as [y' [Ly Hc]].
      rewrite (In_lookup _ _ _ Hdb Hin) in Ly. inversion Ly; subst y'.
      rewrite Forall_forall in IH. apply (IH (q, x) Hina); try assumption.
      * rewrite forallb_forall in Ha. apply (Ha (q, x) Hina).
      * rewrite forallb_forall in Hb. apply (Hb (q, y) Hin).
    + intros [p x] Hin. simpl. unfold hasKey.
      destruct (H1 p x Hin) as [y [Ly _]]. now rewrite Ly.
Qed.

Lemma compareDeep_sym (a b : JsValue) :
  JsValue_ok a = true -> JsValue_ok b = true -> compareDeep a b = compareDeep b a.
Proof.
  intros Ha Hb.
  destruct (compareDeep a b) eqn:E1, (compareDeep b a) eqn:E2; auto.
  - apply compareDeep_sym_true in E1; auto. congruence.
  - apply compareDeep_sym_true in E2; auto. congruence.
Qed.

Lemma Mark_eq_sym (a b : Mark) :
  Mark_ok a = true -> Mark_ok b = true -> Mark_eq a b = Mark_eq b a.
Proof.
  intros Ha Hb. unfold Mark_eq, MarkType_same, compareAttrs.
  rewrite String.eqb_sym. f_equal. now apply compareDeep_sym.
Qed.

Lemma insertBeforeGreater_app (m : Mark) (l x : list Mark) :
  noGreater m l = true ->
  insertBeforeGreater m (l ++ x) = l ++ insertBeforeGreater m x.
Proof.
  induction l as [|o l IH]; simpl; [reflexivity|].
  intros H. apply andb_prop in H as [Ho Hl].
  apply negb_true_iff in Ho. rewrite Ho. now rewrite IH.
Qed.

Lemma addToSet_loop_blocked (m : Mark) (set rest : list Mark) :
  forall i copy placed,
    existsb (blocks m) rest = true ->
    addToSet_loop m set i rest copy placed = set.
Proof.
  induction rest as [|o rest IH]; intros i copy placed; simpl; [discriminate|].
  unfold blocks at 1.
  destruct (Mark_eq m o); [reflexivity|].
  destruct (excludes (m_type m) (m_type o)); simpl.
  - apply IH.
  - destruct (excludes (m_type o) (m_type m)); simpl; [reflexivity|].
    intros H. destruct (negb placed && (mt_rank (m_type o) >? mt_rank (m_type m))); now apply IH.
Qed.

Lemma firstn_length_app {A : Type} (pre rest : list A) :
  firstn (List.length pre) (pre ++ rest) = pre.
Proof.
  rewrite firstn_app, Nat.sub_diag, firstn_all. simpl. apply app_nil_r.
Qed.

Lemma addToSet_loop_free (m : Mark) (set rest : list Mark) :
  forall pre copy placed,
    set = pre ++ rest ->
    existsb (blocks m) rest = false ->
    loopState m set pre copy placed ->
    addToSet_loop m set (List.length pre) rest copy placed
    = insertBeforeGreater m (withoutExcluded m set).
Proof.
  induction rest as [|o rest IH]; intros pre copy placed Hset Hfree Hst.
  - rewrite app_nil_r in Hset. subst pre. simpl.
    destruct placed; simpl in Hst.
    + destruct Hst as (l1 & o & l2 & -> & -> & Hng & Hgt).
      rewrite insertBeforeGreater_app by assumption. simpl. now rewrite Hgt.
    + destruct Hst as [Hc Hng].
      assert (Hcopy : match copy with Some c => c | None => set end = withoutExcluded m set).
      { destruct copy; simpl in Hc; [assumption|]. now rewrite firstn_all in Hc. }
      rewrite Hcopy.
      rewrite <- (app_nil_r (withoutExcluded m set)) at 2.
      now rewrite insertBeforeGreater_app.
  - simpl in Hfree. apply orb_false_elim in Hfree as [Ho Hfree].
    unfold blocks in Ho. apply orb_false_elim in Ho as [Heq Hex].
    assert (Hpre : set = (pre ++ [o]) ++ rest) by (now rewrite <- app_assoc).
    assert (Hlen : S (List.length pre) = List.length (pre ++ [o]))
      by (rewrite length_app; simpl; lia).
    simpl. rewrite Heq.
    destruct (excludes (m_type m) (m_type o)) eqn:Em.
    + rewrite Hlen. apply IH; try assumption.
      unfold loopState, withoutExcluded in *. rewrite filter_app. simpl.
      rewrite Em. simpl. rewrite app_nil_r.
      destruct placed.
      * destruct Hst as (l1 & o' & l2 & -> & Hf & Hng & Hgt).
        exists l1, o', l2. simpl. auto.
      * destruct Hst as [Hc Hng]. simpl. auto.
    + simpl in Hex. rewrite Hex.
      assert (Hf : withoutExcluded m (pre ++ [o]) = withoutExcluded m pre ++ [o]).
      { unfold withoutExcluded. rewrite filter_app. simpl. now rewrite Em. }
      destruct placed; simpl.
      * destruct Hst as (l1 & o' & l2 & -> & Hf' & Hng & Hgt).
        rewrite Hlen. apply IH; try assumption.
        unfold loopState. exists l1, o', (l2 ++ [o]). rewrite Hf, Hf'.
        repeat split; try assumption; now rewrite <- app_assoc.
      * destruct Hst as [Hc Hng].
        fold (rank o). fold (rank m).
        destruct (rank o >? rank m) eqn:Hgt.
        -- rewrite Hlen. apply IH; try assumption.
           unfold loopState. exists (withoutExcluded m pre), o, [].
           rewrite Hc, Hf. repeat split; try assumption. now rewrite <- app_assoc.
        -- rewrite Hlen. apply IH; try assumption.
           unfold loopState. rewrite Hf. split.
           ++ destruct copy as [c|]; simpl in *.
              ** now rewrite Hc.
              ** rewrite <- Hc. subst set. rewrite firstn_length_app.
                 rewrite <- Hlen. replace (pre ++ o :: rest) with ((pre ++ [o]) ++ rest)
                   by (now rewrite <- app_assoc).
                 rewrite Hlen. apply firstn_length_app.
           ++ unfold noGreater in *. rewrite forallb_app, Hng. simpl. now rewrite Hgt.
Qed.

Lemma rankSorted_filter (f : Mark -> bool) (set : list Mark) :
  rankSorted set = true -> rankSorted (filter f set) = true.
Proof.
  induction set as [|a set IH]; simpl; [reflexivity|].
  intros H. apply andb_prop in H as [Ha Hs].
  destruct (f a); simpl; [|auto].
  rewrite IH by assumption. rewrite andb_true_r.
  rewrite forallb_forall in *. intros b Hb. apply Ha.
  apply filter_In in Hb. tauto.
Qed.

Lemma rankSorted_insert (m : Mark) (set : list Mark) :
  rankSorted set = true -> rankSorted (insertBeforeGreater m set) = true.
Proof.
  induction set as [|a set IH]; simpl; [reflexivity|].
  intros H. apply andb_prop in H as [Ha Hs].
  destruct (rank a >? rank m) eqn:Hgt; simpl.
  - rewrite Ha, Hs. rewrite !andb_true_r.
    apply andb_true_intro. split; [apply Z.leb_le; lia|].
    rewrite forallb_forall in *. intros b Hb. specialize (Ha b Hb).
    apply Z.leb_le. apply Z.leb_le in Ha. lia.
  - rewrite IH by assumption. rewrite andb_true_r.
    rewrite forallb_forall in *. intros b Hb.
    assert (Hin : b = m \/ In b set).
    { clear - Hb. induction set as [|c set IH]; simpl in *.
      - destruct Hb as [Hb|[]]; auto.
      - destruct (rank c >? rank m); simpl in Hb.
        + destruct Hb as [Hb|[Hb|Hb]]; auto.
        + destruct Hb as [Hb|Hb]; auto. destruct (IH Hb); auto. }
    destruct Hin as [-> | Hin]; [apply Z.leb_le; lia | auto].
Qed.

Lemma deduplicated_filter (f : Mark -> bool) (set : list Mark) :
  deduplicated set = true -> deduplicated (filter f set) = true.
Proof.
  induction set as [|a set IH]; simpl; [reflexivity|].
  intros H. apply andb_prop in H as [Ha Hs].
  destruct (f a); simpl; [|auto].
  rewrite IH by assumption. rewrite andb_true_r.
  rewrite forallb_forall in *. intros b Hb. apply Ha.
  apply filter_In in Hb. tauto.
Qed.

Lemma deduplicated_insert (m : Mark) (set : list Mark) :
  forallb (fun o => negb (Mark_eq m o) && negb (Mark_eq o m)) set = true ->
  deduplicated set = true -> deduplicated (insertBeforeGreater m set) = true.
Proof.
  induction set as [|a set IH]; simpl; [reflexivity|].
  intros Hm H. apply andb_prop in H as [Ha Hs]. apply andb_prop in Hm as [Hma Hm].
  destruct (rank a >? rank m); simpl.
  - now rewrite Hma, Hm, Ha, Hs.
  - rewrite IH by assumption. rewrite andb_true_r.
    rewrite forallb_forall in *. intros b Hb.
    assert (Hin : b = m \/ In b set).
    { clear - Hb. induction set as [|c set IH]; simpl in *.
      - destruct Hb as [Hb|[]]; auto.
      - destruct (rank c >? rank m); simpl in Hb.
        + destruct Hb as [Hb|[Hb|Hb]]; auto.
        + destruct Hb as [Hb|Hb]; auto. destruct (IH Hb); auto. }
    destruct Hin as [-> | Hin]; [|auto].
    apply andb_prop in Hma as [H1 H2]. now rewrite H1, H2.
Qed.

(** C10. [m.addToSet(S)] on a rank-sorted, deduplicated set [S]: when a
    member is equal to [m], or the type of a member excludes the type of [m]
    and is not itself excluded by it, the result is [S]. Otherwise the
    result is [S] without the members whose type the type of [m] excludes,
    with [m] put before the first remaining member of strictly greater rank;
    it is again rank-sorted and deduplicated. *)
Theorem addToSet_behaviour (m : Mark) (set : list Mark) :
  forallb Mark_ok (m :: set) = true ->
  rankSorted set = true ->
  deduplicated set = true ->
  if existsb (blocks m) set then addToSet m set = set
  else addToSet m set = insertBeforeGreater m (withoutExcluded m set)
       /\ rankSorted (addToSet m set) = true
       /\ deduplicated (addToSet m set) = true.
Proof.
  intros Hok Hsorted Hdedup.
  destruct (existsb (blocks m) set) eqn:Hb.
  - now apply addToSet_loop_blocked.
  - assert (Heq : addToSet m set = insertBeforeGreater m (withoutExcluded m set)).
    { unfold addToSet. apply (addToSet_loop_free m set set [] None false); auto.
      unfold loopState. simpl. auto. }
    rewrite Heq. split; [reflexivity|]. split.
    + apply rankSorted_insert. now apply rankSorted_filter.
    + apply deduplicated_insert; [|now apply deduplicated_filter].
      simpl in Hok. apply andb_prop in Hok as [Hm Hs].
      rewrite forallb_forall in *. intros o Ho.
      apply filter_In in Ho as [Ho _].
      assert (Hmo : Mark_eq m o = false).
      { destruct (Mark_eq m o) eqn:E; [|reflexivity].
        assert (existsb (blocks m) set = true); [|congruence].
        apply existsb_exists. exists o. split; [assumption|].
        unfold blocks. now rewrite E. }
      rewrite <- (Mark_eq_sym m o) by auto. now rewrite Hmo.
Qed.

Lemma addToSet_behaviour_witness :
  forallb Mark_ok [strongMark; emMark] = true
  /\ rankSorted [emMark] = true
  /\ deduplicated [emMark] = true
  /\ if existsb (blocks strongMark) [emMark] then addToSet strongMark [emMark] = [emMark]
     else addToSet strongMark [emMark]
          = insertBeforeGreater strongMark (withoutExcluded strongMark [emMark])
          /\ rankSorted (addToSet strongMark [emMark]) = true
          /\ deduplicated (addToSet strongMark [emMark]) = true.
Proof.
  assert (Hok : forallb Mark_ok [strongMark; emMark] = true) by (vm_compute; reflexivity).
  assert (Hsorted : rankSorted [emMark] = true) by (vm_compute; reflexivity).
  assert (Hdedup : deduplicated [emMark] = true) by (vm_compute; reflexivity).
  exact (conj Hok (conj Hsorted (conj Hdedup
           (addToSet_behaviour strongMark [emMark] Hok Hsorted Hdedup)))).
Defined.

(** ** Content expressions against regular-expression semantics *)

Lemma repeated_name_words (t : NodeTypeBase) (ws : list (list string)) :
  Forall (Accepts (Name t)) ws -> Forall (eq (nt_name t)) (List.concat ws).
Proof.
  induction 1 as [|w ws Hw _ IH]; simpl; [constructor|].
  inversion Hw; subst. simpl. now constructor.
Qed.

(** C1, at the content expression ["a{0,} | b"]. The expression is accepted
    by [ContentMatch.parse]; it reads as the choice between an unbounded
    repetition of [a] and one [b], whose words are the repetitions of [a] and
    the single [b]. The compiled automaton matches the children [a b] as
    well and ends in a state with [validEnd]: for a range without required
    repetitions and without upper bound, [compile] loops on the state it
    started from, which the other branch of the choice also leaves, where
    the [star] case makes a state of its own for the loop. *)
Theorem open_range_beside_alternative :
  exists (expr : Expr) (stream : TokenStream) (entry reached : ContentMatch),
    parseExpr 8 (TokenStream_new "a{0,} | b" typesAB) = Ok (expr, stream)
    /\ expr = Choice [Range 0 (-1) (Name typeA); Name typeB]
    /\ ContentMatch_parse "a{0,} | b" typesAB = Ok entry
    /\ matchTypes entry [typeA; typeB] = Some reached
    /\ validEnd reached = true
    /\ ~ Accepts expr ["a"; "b"].
Proof.
  eexists. eexists. eexists. eexists.
  split; [vm_compute; reflexivity|].
  split; [reflexivity|].
  split; [vm_compute; reflexivity|].
  split; [vm_compute; reflexivity|].
  split; [vm_compute; reflexivity|].
  intros H. inversion H as [| exprs e w Hin He | | | | | | |]; subst.
  destruct Hin as [<- | [<- | []]].
  - inversion He; subst.
    match goal with
    | Hall : Forall (Accepts _) ?ws, Hw : List.concat ?ws = _ |- _ =>
        apply repeated_name_words in Hall; rewrite Hw in Hall;
        inversion Hall as [|x l _ Hrest]; subst;
        inversion Hrest as [|y l' Hb _]; subst; discriminate Hb
    end.
  - inversion He.
Qed.

(** ** Position maps: a map and its inverse *)

(** Case analysis on the innermost test of the goal. *)
Ltac case_test :=
  match goal with
  | |- context [if ?c then _ else _] =>
      lazymatch c with
      | context [if _ then _ else _] => fail
      | _ => idtac
      end;
      match c with
      | ?a >? ?b => destruct (Z.gtb_spec a b)
      | ?a <=? ?b => destruct (Z.leb_spec a b)
      | ?a <? ?b => destruct (Z.ltb_spec a b)
      | ?a =? ?b => destruct (Z.eqb_spec a b)
      end
  end.

Ltac tests_in H :=
  repeat match type of H with
         | context [?a <=? ?b] => destruct (Z.leb_spec a b); simpl in H
         | context [?a <? ?b] => destruct (Z.ltb_spec a b); simpl in H
         | context [?a =? ?b] => destruct (Z.eqb_spec a b); simpl in H
         end.

Ltac round_trip_cases H :=
  unfold keptByMap, keptFrom, keptByRange, insideRange in H;
  unfold StepMap_map, StepMap__map, StepMap_invert, StepMap_new; simpl in *;
  tests_in H; try discriminate; repeat (case_test; simpl); lia.

Lemma one_range_round_trip (f o n p assoc : Z) :
  0 <= n ->
  keptByMap (mkStepMap [f; o; n] false) p assoc = true ->
  StepMap_map (StepMap_invert (mkStepMap [f; o; n] false))
              (StepMap_map (mkStepMap [f; o; n] false) p assoc) assoc = p.
Proof. intros Hn Hp. round_trip_cases Hp. Qed.

Lemma one_range_lost (f o n p assoc : Z) :
  0 <= n ->
  keptByMap (mkStepMap [f; o; n] false) p assoc = false ->
  StepMap_map (StepMap_invert (mkStepMap [f; o; n] false))
              (StepMap_map (mkStepMap [f; o; n] false) p assoc) assoc <> p.
Proof. intros Hn Hp. round_trip_cases Hp. Qed.

Lemma two_ranges_round_trip (f a i g b j p assoc : Z) :
  0 <= a -> f + a <= g -> 0 <= b -> 0 <= i -> 0 <= j ->
  keptByMap (mkStepMap [f; a; i; g; b; j] false) p assoc = true ->
  StepMap_map (StepMap_invert (mkStepMap [f; a; i; g; b; j] false))
              (StepMap_map (mkStepMap [f; a; i; g; b; j] false) p assoc) assoc = p.
Proof. intros Ha Hg Hb Hi Hj Hp. round_trip_cases Hp. Qed.

(** C5, as stated, at the step that deletes the offsets 1 to 3 of
    [doc(paragraph("ab"), horizontal_rule, paragraph(em("c"), "d"))]. The
    step applies, the position 1 is a position of the document and is not
    inside the deleted range: it is its start. The map sends it to 1, where
    both ends of the range now are, and the inverted map, with the same
    side [assoc = 1] that [map] takes when none is given, sends 1 to the
    end of the range, 3. *)
Lemma start_of_deleted_range_returns_as_end :
  (exists newDoc, ReplaceStep_apply deleteText exampleDoc = Ok (StepResult_ok newDoc))
  /\ ranges (getMap (StepReplace deleteText)) = [1; 2; 0]
  /\ (exists rp, resolve exampleDoc 1 = Ok rp)
  /\ insideRange 1 2 1 = false
  /\ StepMap_map (getMap (StepReplace deleteText)) 1 1 = 1
  /\ StepMap_map (StepMap_invert (getMap (StepReplace deleteText)))
                 (StepMap_map (getMap (StepReplace deleteText)) 1 1) 1 = 3
  /\ StepMap_map (StepMap_invert (getMap (StepReplace deleteText)))
                 (StepMap_map (getMap (StepReplace deleteText)) 1 1) 1 <> 1.
Proof.
  split; [eexists; vm_compute; reflexivity|].
  split; [reflexivity|].
  split; [eexists; vm_compute; reflexivity|].
  split; [reflexivity|].
  split; [reflexivity|].
  split; [reflexivity|].
  vm_compute. discriminate.
Qed.

(** C5, amended. Mapping a position forward through the map of a step and
    back through the inverted map, with the same side [assoc] both ways,
    gives the position again when no range of the map loses it
    ([keptByMap]): the position is not inside a replaced range (both ends of
    a range are kept), except that at a range which is deleted with nothing
    put in its place only one end is kept, the end for [assoc >= 0] and the
    start for [assoc < 0], and not the end when the range starts where the
    range before it ends (a [ReplaceAroundStep] with an empty gap). For a
    [ReplaceStep] these are all the positions that come back: every other
    position comes back as another one. *)
Theorem mapping_round_trip (step : Step) (p assoc : Z) :
  wellFormedStep step = true ->
  (keptByMap (getMap step) p assoc = true ->
   StepMap_map (StepMap_invert (getMap step)) (StepMap_map (getMap step) p assoc) assoc = p)
  /\ (forall s : ReplaceStep,
        step = StepReplace s ->
        keptByMap (getMap step) p assoc = false ->
        StepMap_map (StepMap_invert (getMap step)) (StepMap_map (getMap step) p assoc) assoc
        <> p).
Proof.
  intros Hwf. split.
  - intros Hp. destruct step as [s | s | pos attr value | attr value]; simpl in *.
    + apply one_range_round_trip; [|assumption].
      now apply Z.leb_le.
    + repeat (apply andb_prop in Hwf as [Hwf ?]).
      repeat match goal with H : (_ <=? _) = true |- _ => apply Z.leb_le in H end.
      apply two_ranges_round_trip; try assumption; lia.
    + unfold StepMap_map. simpl. lia.
    + unfold StepMap_map. simpl. lia.
  - intros s -> Hp. simpl in *. apply one_range_lost; [|assumption].
    now apply Z.leb_le.
Qed.

Lemma mapping_round_trip_witness :
  wellFormedStep (StepReplace deleteText) = true
  /\ keptByMap (getMap (StepReplace deleteText)) 3 1 = true
  /\ StepMap_map (StepMap_invert (getMap (StepReplace deleteText)))
                 (StepMap_map (getMap (StepReplace deleteText)) 3 1) 1 = 3.
Proof.
  assert (Hwf : wellFormedStep (StepReplace deleteText) = true) by (vm_compute; reflexivity).
  assert (Hp : keptByMap (getMap (StepReplace deleteText)) 3 1 = true)
    by (vm_compute; reflexivity).
  exact (conj Hwf (conj Hp
           (proj1 (mapping_round_trip (StepReplace deleteText) 3 1 Hwf) Hp))).
Defined.

(** ** Sizes of nodes *)




(** ** The open depths of a replacement *)

(** C3. [replace($from, $to, slice)] throws a [ReplaceError] when the slice
    is open deeper at its start than [$from] is deep, and when the depths
    left after opening disagree at the two ends; the tests come before
    anything is read from the positions, so nothing is built. *)
Theorem replace_checks_open_depths (from to : ResolvedPos) (slice : Slice) :
  openStart slice > rp_depth from
  \/ rp_depth from - openStart slice <> rp_depth to - openEnd slice ->
  exists message,
    replace from to slice = Throw (ReplaceError message)
    /\ (message = "Inserted content deeper than insertion position"
        \/ message = "Inconsistent open depths").
Proof.
  intros H. unfold replace.
  destruct (Z.gtb_spec (openStart slice) (rp_depth from)) as [Hdeep | Hfits].
  - eexists. split; [reflexivity | now left].
  - destruct H as [H | H]; [lia|].
    apply Z.eqb_neq in H. rewrite H. simpl.
    eexists. split; [reflexivity | now right].
Qed.

Lemma replace_checks_open_depths_witness :
  (openStart deepSlice > rp_depth (posAt exampleDoc 2)
   \/ rp_depth (posAt exampleDoc 2) - openStart deepSlice
      <> rp_depth (posAt exampleDoc 2) - openEnd deepSlice)
  /\ exists message,
      replace (posAt exampleDoc 2) (posAt exampleDoc 2) deepSlice
      = Throw (ReplaceError message)
      /\ (message = "Inserted content deeper than insertion position"
          \/ message = "Inconsistent open depths").
Proof.
  assert (Hdeep : openStart deepSlice > rp_depth (posAt exampleDoc 2)
                  \/ rp_depth (posAt exampleDoc 2) - openStart deepSlice
                     <> rp_depth (posAt exampleDoc 2) - openEnd deepSlice)
    by (left; vm_compute; reflexivity).
  exact (conj Hdeep
           (replace_checks_open_depths (posAt exampleDoc 2) (posAt exampleDoc 2) deepSlice Hdeep)).
Defined.

(** ** Resolving a position *)

Lemma sumSizes_from (cs : list Node) (a : Z) :
  fold_left (fun size child => size + nodeSize child) cs a = a + sumSizes cs.
Proof.
  unfold sumSizes. revert a. induction cs as [|c cs IH]; intros a; simpl; [lia|].
  rewrite (IH (a + nodeSize c)), (IH (nodeSize c)). lia.
Qed.

Lemma sumSizes_cons (c : Node) (cs : list Node) :
  sumSizes (c :: cs) = nodeSize c + sumSizes cs.
Proof. unfold sumSizes at 1. simpl. rewrite sumSizes_from. lia. Qed.

Lemma sumSizes_app (a b : list Node) : sumSizes (a ++ b) = sumSizes a + sumSizes b.
Proof.
  induction a as [|c a IH]; simpl; [reflexivity|].
  rewrite !sumSizes_cons, IH. lia.
Qed.

Lemma sumSizes_nonneg (cs : list Node) :
  Forall (fun c => 0 <= nodeSize c) cs -> 0 <= sumSizes cs.
Proof.
  induction 1 as [|c cs Hc _ IH]; [reflexivity|]. rewrite sumSizes_cons. lia.
Qed.

Lemma strlen_nonneg (s : string) : 0 <= strlen s.
Proof. unfold strlen. lia. Qed.

Lemma wellFormed_children (type : NodeType) (attrs : Attrs) (content : Fragment)
    (marks : list Mark) :
  wellFormedNode (mkNode type attrs content marks) = true ->
  ty_isText type = false
  /\ frag_size content = sumSizes (frag_content content)
  /\ Forall (fun c => wellFormedNode c = true) (frag_content content).
Proof.
  simpl. intros H. apply andb_prop in H as [H Hall]. apply andb_prop in H as [Ht Hs].
  apply negb_true_iff in Ht. apply Z.eqb_eq in Hs.
  rewrite forallb_forall in Hall. rewrite Forall_forall. auto.
Qed.

Lemma nodeSize_nonneg (n : Node) : wellFormedNode n = true -> 0 <= nodeSize n.
Proof.
  induction n as [type attrs content marks IH | type attrs text marks]
    using Node_nested_ind; intros Hwf.
  - apply wellFormed_children in Hwf as (_ & Hs & Hall).
    assert (Hsum : 0 <= sumSizes (frag_content content)).
    { apply sumSizes_nonneg. rewrite Forall_forall in *. auto. }
    unfold nodeSize. destruct (isLeaf _); lia.
  - apply strlen_nonneg.
Qed.

Lemma wellFormed_content (n : Node) :
  wellFormedNode n = true ->
  frag_size (n_content n) = sumSizes (frag_content (n_content n))
  /\ Forall (fun c => wellFormedNode c = true) (frag_content (n_content n)).
Proof.
  destruct n as [type attrs content marks | type attrs text marks]; intros Hwf.
  - apply wellFormed_children in Hwf. tauto.
  - simpl. split; [reflexivity | constructor].
Qed.

Lemma findIndex_loop_inside (cs : list Node) :
  forall i curPos pos,
    Forall (fun c => 0 <= nodeSize c) cs ->
    curPos < pos -> pos <= curPos + sumSizes cs ->
    exists index offset,
      findIndex_loop cs i curPos pos (-1) = Ok (index, offset)
      /\ i <= index /\ curPos <= offset <= pos
      /\ (offset = pos
          \/ exists c, nth_error cs (Z.to_nat (index - i)) = Some c
                       /\ offset < pos < offset + nodeSize c).
Proof.
  induction cs as [|c cs IH]; intros i curPos pos Hall Hlo Hhi.
  - unfold sumSizes in Hhi. simpl in Hhi. lia.
  - inversion Hall as [|? ? Hc Hcs]; subst. rewrite sumSizes_cons in Hhi. simpl.
    destruct (Z.geb_spec (curPos + nodeSize c) pos) as [Hge | Hlt].
    + destruct (Z.eqb_spec (curPos + nodeSize c) pos) as [Heq | Hne]; simpl.
      * exists (i + 1), (curPos + nodeSize c). repeat split; try lia. all: now left.
      * exists i, curPos. split; [reflexivity|]. split; [lia|]. split; [lia|].
        right. exists c. rewrite Z.sub_diag. simpl. split; [reflexivity | lia].
    + destruct (IH (i + 1) (curPos + nodeSize c) pos Hcs) as (index & offset & Hf & Hi & Ho & Hcase);
        try lia.
      exists index, offset. split; [assumption|]. split; [lia|]. split; [lia|].
      destruct Hcase as [-> | (c' & Hn & Hin)]; [now left | right].
      exists c'. split; [|assumption].
      replace (Z.to_nat (index - i)) with (S (Z.to_nat (index - (i + 1)))) by lia.
      exact Hn.
Qed.

(** [findIndex] on a fragment that holds its size, for a position inside. *)
Lemma findIndex_inside (f : Fragment) (pos : Z) :
  frag_size f = sumSizes (frag_content f) ->
  Forall (fun c => 0 <= nodeSize c) (frag_content f) ->
  0 <= pos <= frag_size f ->
  exists index offset,
    findIndex f pos (-1) = Ok (index, offset)
    /\ 0 <= index /\ 0 <= offset <= pos
    /\ (offset = pos
        \/ exists c, arr_get (frag_content f) index = Some c
                     /\ offset < pos < offset + nodeSize c).
Proof.
  intros Hsize Hall Hpos. unfold findIndex.
  destruct (Z.eqb_spec pos 0) as [-> | Hnz].
  - exists 0, 0. split; [reflexivity|]. split; [lia|]. split; [lia|]. now left.
  - destruct (Z.eqb_spec pos (frag_size f)) as [-> | Hns].
    + exists (childCount f), (frag_size f). split; [reflexivity|].
      split; [unfold childCount, len; lia|]. split; [lia|]. now left.
    + destruct (Z.gtb_spec pos (frag_size f)); [lia|].
      destruct (Z.ltb_spec pos 0); [lia|]. simpl.
      destruct (findIndex_loop_inside (frag_content f) 0 0 pos Hall) as
        (index & offset & Hf & Hi & Ho & Hcase); try lia.
      exists index, offset. split; [assumption|]. split; [lia|]. split; [lia|].
      destruct Hcase as [-> | (c & Hn & Hin)]; [now left | right].
      exists c. split; [|assumption].
      unfold arr_get. destruct (Z.ltb_spec index 0); [lia|].
      now rewrite Z.sub_0_r in Hn.
Qed.

Lemma height_child (n c : Node) :
  In c (frag_content (n_content n)) -> (height c < height n)%nat.
Proof.
  destruct n as [type attrs content marks | type attrs text marks]; simpl; [|contradiction].
  intros Hin. apply Nat.lt_succ_r.
  induction (frag_content content) as [|x l IH]; simpl in *; [contradiction|].
  destruct Hin as [-> | Hin]; [apply Nat.le_max_l|].
  etransitivity; [now apply IH | apply Nat.le_max_r].
Qed.

Lemma arr_get_In {A : Type} (l : list A) (i : Z) (x : A) : arr_get l i = Some x -> In x l.
Proof.
  unfold arr_get. destruct (i <? 0); [discriminate|]. apply nth_error_In.
Qed.

Lemma len_app {A : Type} (a b : list A) : len (a ++ b) = len a + len b.
Proof. unfold len. rewrite length_app. lia. Qed.

Lemma len_triple {A : Type} (a b c : A) : len [a; b; c] = 3.
Proof. reflexivity. Qed.

(** The loop of [resolve] ends, and adds whole triples to the path. *)
Lemma resolve_loop_inside (turns : nat) :
  forall node start parentOffset path,
    wellFormedNode node = true ->
    (height node <= turns)%nat ->
    0 <= parentOffset <= frag_size (n_content node) ->
    exists path' parentOffset' k,
      resolve_loop turns node start parentOffset path = Ok (path', parentOffset')
      /\ len path' = len path + 3 * k /\ 1 <= k.
Proof.
  induction turns as [|turns IH]; intros node start po path Hwf Hh Hpo.
  - destruct node; simpl in Hh; lia.
  - cbn [resolve_loop].
    destruct (wellFormed_content node Hwf) as [Hsize Hall].
    assert (Hnn : Forall (fun c => 0 <= nodeSize c) (frag_content (n_content node))).
    { rewrite Forall_forall in *. intros c Hc. apply nodeSize_nonneg. auto. }
    destruct (findIndex_inside (n_content node) po Hsize Hnn Hpo) as
      (index & offset & Hf & Hi & Ho & Hcase).
    rewrite Hf. cbn [bind].
    destruct (Z.eqb_spec (po - offset) 0) as [Hz | Hnz].
    + exists (path ++ [PNode node; PNum index; PNum (start + offset)]), po, 1.
      split; [reflexivity|]. rewrite len_app, len_triple. lia.
    + destruct Hcase as [-> | (c & Hget & Hin)]; [lia|].
      unfold child. rewrite Hget. cbn [bind].
      destruct (isText c) eqn:Htext.
      * exists (path ++ [PNode node; PNum index; PNum (start + offset)]), po, 1.
        split; [reflexivity|]. rewrite len_app, len_triple. lia.
      * pose proof (arr_get_In _ _ _ Hget) as Hc.
        assert (Hcwf : wellFormedNode c = true) by (rewrite Forall_forall in Hall; auto).
        destruct c as [type attrs content marks | type attrs text marks];
          [|simpl in Hcwf; unfold isText in Htext; simpl in Htext; congruence].
        destruct (wellFormed_children _ _ _ _ Hcwf) as (_ & Hcs & Hcall).
        assert (Hinner : 0 <= po - offset - 1 <= frag_size content).
        { unfold nodeSize in Hin.
          destruct (isLeaf (mkNode type attrs content marks)); lia. }
        destruct (IH (mkNode type attrs content marks) (start + offset + 1)
                     (po - offset - 1)
                     (path ++ [PNode node; PNum index; PNum (start + offset)]) Hcwf)
          as (path' & po' & k & Hr & Hlen & Hk).
        { pose proof (height_child node _ Hc). lia. }
        { exact Hinner. }
        exists path', po', (k + 1). split; [exact Hr|].
        rewrite Hlen, len_app, len_triple. lia.
Qed.

(** C9. Resolving an offset against a tree throws a [RangeError] exactly
    when the offset is outside [0, content size]; for an offset inside it
    returns a resolved position for that offset, whose depth is the length of
    its path divided by three, minus one, the path being made of triples. *)
Theorem resolve_exactly_in_range (t : Node) (p : Z) :
  wellFormedNode t = true ->
  if (0 <=? p) && (p <=? frag_size (n_content t)) then
    exists rp,
      resolve t p = Ok rp
      /\ rp_pos rp = p
      /\ rp_depth rp = len (rp_path rp) / 3 - 1
      /\ len (rp_path rp) = 3 * (rp_depth rp + 1)
      /\ 0 <= rp_depth rp
  else exists message, resolve t p = Throw (RangeError message).
Proof.
  intros Hwf. unfold resolve.
  replace (p >=? 0) with (0 <=? p) by (now rewrite Z.geb_leb).
  destruct ((0 <=? p) && (p <=? frag_size (n_content t))) eqn:Hin; cbn [negb].
  - apply andb_prop in Hin as [H0 H1]. apply Z.leb_le in H0, H1.
    destruct (resolve_loop_inside (height t) t 0 p [] Hwf (Nat.le_refl _)) as
      (path & po & k & Hr & Hlen & Hk); [lia|].
    rewrite Hr. cbn [bind]. eexists. split; [reflexivity|].
    unfold ResolvedPos_new. cbn [rp_pos rp_depth rp_path].
    change (len (@nil PathElem)) with 0 in Hlen.
    assert (Hdiv : len path / 3 = k).
    { rewrite Hlen, Z.add_0_l, Z.mul_comm. apply Z.div_mul. lia. }
    rewrite Hdiv. repeat split; lia.
  - eexists. reflexivity.
Qed.

Lemma resolve_exactly_in_range_witness :
  wellFormedNode exampleDoc = true
  /\ if (0 <=? 2) && (2 <=? frag_size (n_content exampleDoc)) then
       exists rp,
         resolve exampleDoc 2 = Ok rp
         /\ rp_pos rp = 2
         /\ rp_depth rp = len (rp_path rp) / 3 - 1
         /\ len (rp_path rp) = 3 * (rp_depth rp + 1)
         /\ 0 <= rp_depth rp
     else exists message, resolve exampleDoc 2 = Throw (RangeError message).
Proof.
  assert (Hwf : wellFormedNode exampleDoc = true) by (vm_compute; reflexivity).
  exact (conj Hwf (resolve_exactly_in_range exampleDoc 2 Hwf)).
Defined.

(** ** Applying a replace step *)

(** C2, at [doc(paragraph("a"))] and the step that replaces [0, 3) by the
    empty slice. The document conforms to the schema and the splice leaves
    [doc] without the paragraph its content expression requires. The
    documentation of [Node.replace] says that content which is not valid
    for the node it is placed into raises a [ReplaceError], the exception
    that [StepResult.fromReplace] turns into a failed result. [close]
    reports it through [checkContent], which throws a [RangeError]:
    [replace] throws that [RangeError], [fromReplace] throws it again, and
    it leaves [apply], which returns no result. *)
Theorem apply_throws_on_invalid_content :
  wellFormedNode oneParagraphDoc = true
  /\ Node_check oneParagraphDoc = Ok tt
  /\ Node_replace oneParagraphDoc (rs_from deleteParagraph) (rs_to deleteParagraph)
                  (rs_slice deleteParagraph)
     = Throw (RangeError "Invalid content for node doc")
  /\ ReplaceStep_apply deleteParagraph oneParagraphDoc
     = Throw (RangeError "Invalid content for node doc")
  /\ ~ (exists result, ReplaceStep_apply deleteParagraph oneParagraphDoc = Ok result).
Proof.
  split; [reflexivity|]. split; [vm_compute; reflexivity|].
  split; [vm_compute; reflexivity|].
  assert (H : ReplaceStep_apply deleteParagraph oneParagraphDoc
              = Throw (RangeError "Invalid content for node doc"))
    by (vm_compute; reflexivity).
  split; [exact H|]. intros [result Hr]. rewrite H in Hr. discriminate.
Qed.

Lemma bind_throw {A B : Type} (m : Res A) (k : A -> Res B) (e : Exn) :
  bind m k = Throw e -> m = Throw e \/ exists a, m = Ok a /\ k a = Throw e.
Proof. destruct m as [a | e']; simpl; [eauto | intros [= ->]; now left]. Qed.

Lemma findIndex_loop_throws (cs : list Node) :
  forall i curPos pos round e,
    findIndex_loop cs i curPos pos round = Throw e -> notReplaceError e.
Proof.
  induction cs as [|c cs IH]; intros i curPos pos round e; simpl.
  - intros [= <-]. exact I.
  - destruct (_ >=? _); [destruct (_ || _); discriminate | apply IH].
Qed.

Lemma findIndex_throws (f : Fragment) (pos round : Z) (e : Exn) :
  findIndex f pos round = Throw e -> notReplaceError e.
Proof.
  unfold findIndex. destruct (pos =? 0); [discriminate|].
  destruct (pos =? frag_size f); [discriminate|].
  destruct (_ || _); [intros [= <-]; exact I | apply findIndex_loop_throws].
Qed.

Lemma child_throws (f : Fragment) (i : Z) (e : Exn) :
  child f i = Throw e -> notReplaceError e.
Proof. unfold child. destruct (arr_get _ _); [discriminate | intros [= <-]; exact I]. Qed.

Lemma resolve_loop_throws (turns : nat) :
  forall node start parentOffset path e,
    resolve_loop turns node start parentOffset path = Throw e -> notReplaceError e.
Proof.
  induction turns as [|turns IH]; intros node start po path e; simpl.
  - intros [= <-]. exact I.
  - intros H. apply bind_throw in H as [H | ([index offset] & Hf & H)].
    + now apply findIndex_throws in H.
    + destruct (_ =? 0); [discriminate|].
      apply bind_throw in H as [H | (c & Hc & H)].
      * now apply child_throws in H.
      * destruct (isText c); [discriminate | now apply IH in H].
Qed.

Lemma resolve_throws (doc : Node) (pos : Z) (e : Exn) :
  resolve doc pos = Throw e -> notReplaceError e.
Proof.
  unfold resolve. destruct (negb _); [intros [= <-]; exact I|].
  intros H. apply bind_throw in H as [H | ([path po] & _ & H)]; [|discriminate].
  now apply resolve_loop_throws in H.
Qed.

Lemma needNode_throws (n : option Node) (e : Exn) :
  needNode n = Throw e -> notReplaceError e.
Proof. destruct n; simpl; [discriminate | intros [= <-]; exact I]. Qed.

Lemma climb_throws (turns : nat) :
  forall from dist depth e, climb turns from dist depth = Throw e -> notReplaceError e.
Proof.
  induction turns as [|turns IH]; intros from dist depth e; simpl; [discriminate|].
  destruct (_ && _); [|discriminate].
  intros H. apply bind_throw in H as [H | (parent & _ & H)].
  - now apply needNode_throws in H.
  - destruct (sameIndex _ _); [now apply IH in H | discriminate].
Qed.

Lemma contentBetween_throws (doc : Node) (from to : Z) (e : Exn) :
  contentBetween doc from to = Throw e -> notReplaceError e.
Proof.
  unfold contentBetween. intros H.
  apply bind_throw in H as [H | (rfrom & _ & H)]; [now apply resolve_throws in H|].
  apply bind_throw in H as [H | ([dist depth] & _ & H)]; [now apply climb_throws in H|].
  destruct (dist >? 0); [|discriminate].
  apply bind_throw in H as [H | (parent & _ & H)]; [now apply needNode_throws in H|].
  discriminate.
Qed.

(** What [apply] of a replace step does on every input. It returns a
    success result with the new tree, or a failed result, or throws an
    exception that is not a [ReplaceError]. With the structure flag it first
    looks for content between the two positions ([contentBetween]): content
    there gives the failed result of the structure guard, and an exception
    of the search leaves [apply]. Otherwise the outcome is that of
    [replace]: its tree in a success result, its [ReplaceError] in a failed
    result, and any other exception thrown again. *)
Lemma apply_returns_or_rethrows (step : ReplaceStep) (doc : Node) :
  match ReplaceStep_apply step doc with
  | Ok result =>
      (exists newDoc, result = StepResult_ok newDoc)
      \/ (exists message, result = StepResult_fail message)
  | Throw e => notReplaceError e
  end
  /\ match (if rs_structure step then contentBetween doc (rs_from step) (rs_to step)
            else Ok false) with
     | Ok true =>
         ReplaceStep_apply step doc
         = Ok (StepResult_fail "Structure replace would overwrite content")
     | Ok false =>
         match Node_replace doc (rs_from step) (rs_to step) (rs_slice step) with
         | Ok newDoc => ReplaceStep_apply step doc = Ok (StepResult_ok newDoc)
         | Throw (ReplaceError message) =>
             ReplaceStep_apply step doc = Ok (StepResult_fail message)
         | Throw e => ReplaceStep_apply step doc = Throw e
         end
     | Throw e => ReplaceStep_apply step doc = Throw e
     end.
Proof.
  unfold ReplaceStep_apply, fromReplace. split.
  - destruct (rs_structure step).
    + destruct (contentBetween doc (rs_from step) (rs_to step)) as [blocked | e] eqn:Hb; simpl.
      * destruct blocked; [right; eauto|].
        destruct (Node_replace _ _ _ _) as [newDoc | []]; simpl; eauto; exact I.
      * now apply contentBetween_throws in Hb.
    + simpl. destruct (Node_replace _ _ _ _) as [newDoc | []]; simpl; eauto; exact I.
  - destruct (if rs_structure step then contentBetween doc (rs_from step) (rs_to step)
              else Ok false) as [[|] | e]; simpl; try reflexivity.
    destruct (Node_replace _ _ _ _) as [newDoc | []]; reflexivity.
Qed.

(** ** Equality of values, marks and markup is an equivalence *)

Lemma compareDeep_trans (a : JsValue) :
  forall b c, compareDeep a b = true -> compareDeep b c = true -> compareDeep a c = true.
Proof.
  induction a as [| | x | x | x | la IH | fa IH] using JsValue_nested_ind;
    intros b c; destruct b as [| | y | y | y | lb | fb]; simpl; try discriminate;
    destruct c as [| | z | z | z | lc | fc]; simpl; try discriminate; auto.
  - intros H1 H2. apply Bool.eqb_prop in H1, H2. subst. apply Bool.eqb_reflx.
  - rewrite !Z.eqb_eq. congruence.
  - rewrite !String.eqb_eq. congruence.
  - revert lb lc. induction IH as [|x la Hx _ IHla]; intros [|y lb] [|z lc];
      try discriminate; auto.
    rewrite !andb_true_iff. intros [H1 H2] [H3 H4]. split; eauto.
  - fold (propsEach fb fa). fold (propsEach fc fb). fold (propsEach fc fa).
    rewrite !andb_true_iff, !propsEach_true, !forallb_forall.
    intros [H1 H2] [H3 H4]. split.
    + intros p x Hin. destruct (H1 p x Hin) as [y [Ly Hxy]].
      destruct (H3 p y (lookup_In _ _ _ Ly)) as [z [Lz Hyz]].
      exists z. split; [assumption|].
      rewrite Forall_forall in IH. exact (IH (p, x) Hin y z Hxy Hyz).
    + intros q Hq. specialize (H4 q Hq). unfold hasKey in *.
      destruct (lookup (fst q) fb) as [y|] eqn:Ly; [|discriminate].
      specialize (H2 (fst q, y) (lookup_In _ _ _ Ly)). exact H2.
Qed.

Lemma Mark_eq_trans (a b c : Mark) :
  Mark_eq a b = true -> Mark_eq b c = true -> Mark_eq a c = true.
Proof.
  unfold Mark_eq, MarkType_same, compareAttrs. rewrite !andb_true_iff, !String.eqb_eq.
  intros [H1 H2] [H3 H4]. split; [congruence|]. eapply compareDeep_trans; eauto.
Qed.

Lemma sameSet_trans (a : list Mark) :
  forall b c, sameSet a b = true -> sameSet b c = true -> sameSet a c = true.
Proof.
  induction a as [|x a IH]; intros [|y b] [|z c]; simpl; try discriminate; auto.
  rewrite !andb_true_iff. intros [H1 H2] [H3 H4]. split; [|eauto].
  eapply Mark_eq_trans; eauto.
Qed.

Lemma sameSet_sym (a : list Mark) :
  forall b, forallb Mark_ok a = true -> forallb Mark_ok b = true ->
            sameSet a b = sameSet b a.
Proof.
  induction a as [|x a IH]; intros [|y b]; simpl; auto.
  intros Ha Hb. apply andb_prop in Ha as [Hx Ha], Hb as [Hy Hb].
  now rewrite (Mark_eq_sym x y), (IH b).
Qed.

Lemma sameMarkup_sym (a b : Node) :
  valuesOk a = true -> valuesOk b = true -> sameMarkup a b = sameMarkup b a.
Proof.
  unfold valuesOk, sameMarkup, NodeType_same, compareAttrs.
  intros Ha Hb. apply andb_prop in Ha as [Ha1 Ha2], Hb as [Hb1 Hb2].
  rewrite String.eqb_sym, (compareDeep_sym _ _ Ha1 Hb1), (sameSet_sym _ _ Ha2 Hb2).
  reflexivity.
Qed.

Lemma sameMarkup_trans (a b c : Node) :
  sameMarkup a b = true -> sameMarkup b c = true -> sameMarkup a c = true.
Proof.
  unfold sameMarkup, NodeType_same, compareAttrs.
  rewrite !andb_true_iff, !String.eqb_eq.
  intros [[H1 H2] H3] [[H4 H5] H6]. repeat split; [congruence | |].
  - eapply compareDeep_trans; eauto.
  - eapply sameSet_trans; eauto.
Qed.

Lemma sameMarkup_isText (a b : Node) : sameMarkup a b = true -> isText a = isText b.
Proof.
  unfold sameMarkup, NodeType_same, isText, ty_isText, nt_isText, ty_name.
  rewrite !andb_true_iff, String.eqb_eq. intros [[H _] _]. now rewrite H.
Qed.

Lemma sameFields_markup (a a' b b' : Node) :
  sameFields a a' -> sameFields b b' -> sameMarkup a b = sameMarkup a' b'.
Proof.
  unfold sameFields, sameMarkup. intros (H1 & H2 & H3) (H4 & H5 & H6).
  now rewrite H1, H2, H3, H4, H5, H6.
Qed.

Lemma sameFields_isText (a a' : Node) : sameFields a a' -> isText a = isText a'.
Proof. unfold sameFields, isText. intros (H & _). now rewrite H. Qed.

Lemma sameFields_text (a a' b b' : Node) :
  sameFields a a' -> sameFields b b' -> sameMarkupText a b = sameMarkupText a' b'.
Proof.
  intros Ha Hb. unfold sameMarkupText.
  now rewrite (sameFields_isText _ _ Ha), (sameFields_isText _ _ Hb),
    (sameFields_markup _ _ _ _ Ha Hb).
Qed.

Lemma sameFields_valuesOk (a a' : Node) : sameFields a a' -> valuesOk a = valuesOk a'.
Proof. unfold sameFields, valuesOk. intros (_ & H2 & H3). now rewrite H2, H3. Qed.

Lemma sameFields_refl (a : Node) : sameFields a a.
Proof. unfold sameFields. auto. Qed.

(** A text node that is joined to the node after it keeps the pairs before
    it apart: when [x] and [o] are apart and [o] has the markup of [n], then
    [x] and [n] are apart. *)
Lemma apart_from_joined (x o n : Node) :
  valuesOk o = true -> valuesOk n = true ->
  sameMarkup o n = true ->
  sameMarkupText x o = false -> sameMarkupText x n = false.
Proof.
  intros Ho Hn Hon Hxo. unfold sameMarkupText in *.
  destruct (isText x) eqn:Tx; [|reflexivity].
  destruct (isText n) eqn:Tn; [|reflexivity].
  destruct (sameMarkup x n) eqn:Hxn; [|reflexivity].
  rewrite (sameMarkup_isText _ _ Hon), Tn in Hxo. simpl in Hxo.
  rewrite (sameMarkup_sym o n Ho Hn) in Hon.
  now rewrite (sameMarkup_trans _ _ _ Hxn Hon) in Hxo.
Qed.

(** ** Fragments are built without adjacent text nodes of one markup *)

Lemma rev_cons_head {A : Type} (a b : A) (l : list A) :
  exists o r, rev (a :: b :: l) = o :: r /\ rev (b :: l) = o :: removelast r.
Proof.
  simpl. destruct (rev l ++ [b]) as [|o r] eqn:Hr.
  - destruct (rev l); discriminate.
  - exists o, (r ++ [a]). split; [reflexivity|]. now rewrite removelast_last.
Qed.

Lemma apartAtJoint_cons (a b : Node) (l l2 : list Node) :
  apartAtJoint (a :: b :: l) l2 = apartAtJoint (b :: l) l2.
Proof.
  unfold apartAtJoint. destruct (rev_cons_head a b l) as (o & r & -> & ->). reflexivity.
Qed.

Lemma noAdjacentText_app (l1 l2 : list Node) :
  noAdjacentText (l1 ++ l2)
  = noAdjacentText l1 && noAdjacentText l2 && apartAtJoint l1 l2.
Proof.
  induction l1 as [|a l1 IH].
  - unfold apartAtJoint. simpl. now rewrite andb_true_r.
  - destruct l1 as [|b l1].
    + unfold apartAtJoint. simpl. destruct l2 as [|c l2]; simpl; [reflexivity|].
      btauto.
    + rewrite apartAtJoint_cons.
      change (noAdjacentText ((a :: b :: l1) ++ l2))
        with (negb (sameMarkupText a b) && noAdjacentText ((b :: l1) ++ l2)).
      change (noAdjacentText (a :: b :: l1))
        with (negb (sameMarkupText a b) && noAdjacentText (b :: l1)).
      rewrite IH. btauto.
Qed.

Lemma rev_last_split {A : Type} (l : list A) (o : A) (r : list A) :
  rev l = o :: r -> l = rev r ++ [o] /\ removelast l = rev r.
Proof.
  intros H. assert (Hl : l = rev r ++ [o]).
  { rewrite <- (rev_involutive l), H. reflexivity. }
  split; [assumption|]. rewrite Hl. apply removelast_last.
Qed.

Lemma append_empty_right (a b : string) : String.append a b = "" -> b = "".
Proof. destruct a; simpl; [auto | discriminate]. Qed.

(** Joining a text in front of the text of a [TextNode] succeeds and keeps
    its type, attributes and marks. *)
Lemma withText_joined (n : Node) (before : string) :
  isText n = true -> textIsTextNode n = true ->
  exists joined,
    withText n (String.append before (textOf n)) = Ok joined /\ sameFields joined n.
Proof.
  unfold textIsTextNode. intros Ht Hn. rewrite Ht in Hn.
  destruct n as [type attrs content marks | type attrs text marks]; [discriminate|].
  unfold textOf. simpl.
  destruct (String.eqb (String.append before text) text) eqn:Hsame.
  - eexists. split; [reflexivity | apply sameFields_refl].
  - unfold TextNode_new.
    destruct (String.eqb (String.append before text) "") eqn:Hempty.
    + apply String.eqb_eq in Hempty.
      pose proof (append_empty_right _ _ Hempty) as Htext. subst text.
      rewrite Hempty in Hsame. discriminate.
    + eexists. split; [reflexivity|]. unfold sameFields. auto.
Qed.

Lemma nodeOk_parts (n : Node) :
  nodeOk n = true -> valuesOk n = true /\ textIsTextNode n = true.
Proof. unfold nodeOk. apply andb_prop. Qed.

Lemma fromArray_loop_merges (array rest : list Node) :
  forall pre joined size,
    array = pre ++ rest ->
    forallb nodeOk array = true ->
    joinedSoFar pre (match joined with Some j => j | None => pre end) ->
    exists joined' size',
      fromArray_loop array (List.length pre) (hd_error (rev pre)) rest joined size
      = Ok (joined', size')
      /\ noAdjacentText (match joined' with Some j => j | None => array end) = true.
Proof.
  induction rest as [|node rest IH]; intros pre joined size Harr Hok [Hno Hlast].
  - rewrite app_nil_r in Harr. subst pre. simpl.
    exists joined, size. split; [reflexivity | exact Hno].
  - assert (Hnode : nodeOk node = true).
    { rewrite forallb_forall in Hok. apply Hok. subst array.
      apply in_or_app. right. now left. }
    destruct (nodeOk_parts _ Hnode) as [Hvals Htyped].
    assert (Harr' : array = (pre ++ [node]) ++ rest) by (now rewrite <- app_assoc).
    assert (Hlen : S (List.length pre) = List.length (pre ++ [node]))
      by (rewrite length_app; simpl; lia).
    assert (Hrev : rev (pre ++ [node]) = node :: rev pre) by (now rewrite rev_app_distr).
    assert (Hfirst : firstn (List.length pre) array = pre)
      by (subst array; apply firstn_length_app).
    cbn [fromArray_loop].
    destruct (rev pre) as [|p r] eqn:Hpre.
    + (* the first node of the array *)
      cbn [hd_error]. subst.
      assert (Hout : match joined with Some j => j | None => pre end = []) by exact Hlast.
      rewrite Hlen.
      replace (Some node) with (hd_error (rev (pre ++ [node]))) by (now rewrite Hrev).
      apply IH; auto.
      split.
      * destruct joined as [j|]; [subst j | rewrite Hout]; reflexivity.
      * rewrite Hrev. destruct joined as [j|]; [subst j | rewrite Hout];
          exists [], node; split; try reflexivity; apply sameFields_refl.
    + cbn [hd_error].
      destruct Hlast as (init & o & Hout & Hop).
      assert (Hp : nodeOk p = true).
      { rewrite forallb_forall in Hok. apply Hok. subst array.
        apply in_or_app. left. apply in_rev. rewrite Hpre. now left. }
      destruct (nodeOk_parts _ Hp) as [Hpvals _].
      assert (Hovals : valuesOk o = true) by (now rewrite (sameFields_valuesOk _ _ Hop)).
      destruct (isText node && sameMarkup p node) eqn:Hmerge.
      * (* the node is joined to the last node built *)
        apply andb_prop in Hmerge as [Htext Hsame].
        assert (Hjoined : match joined with Some j => j | None => firstn (List.length pre) array end
                          = init ++ [o]).
        { destruct joined; [exact Hout | now rewrite Hfirst]. }
        rewrite Hjoined, rev_app_distr. cbn [rev app].
        destruct (withText_joined node (textOf o) Htext Htyped) as (merged & Hw & Hmn).
        rewrite Hw. cbn [bind]. rewrite removelast_last, Hlen.
        replace (Some node) with (hd_error (rev (pre ++ [node]))) by (now rewrite Hrev).
        apply IH; auto. split.
        -- rewrite Hout in Hno. rewrite noAdjacentText_app in *.
           apply andb_prop in Hno as [Hno Hjoint]. apply andb_prop in Hno as [Hinit _].
           rewrite Hinit. simpl. unfold apartAtJoint in *.
           destruct (rev init) as [|x ri]; [reflexivity|].
           apply negb_true_iff in Hjoint. apply negb_true_iff.
           rewrite (sameFields_text x x merged node (sameFields_refl x) Hmn).
           apply (apart_from_joined x o node); auto.
           now rewrite (sameFields_markup o p node node Hop (sameFields_refl node)).
        -- rewrite Hrev. exists init, merged. split; [reflexivity | exact Hmn].
      * (* the node is pushed *)
        rewrite Hlen.
        replace (Some node) with (hd_error (rev (pre ++ [node]))) by (now rewrite Hrev).
        assert (Hnext : match (match joined with Some j => Some (j ++ [node]) | None => None end)
                        with Some j => j | None => pre ++ [node] end
                        = (init ++ [o]) ++ [node]).
        { destruct joined; now rewrite Hout. }
        apply IH; auto. rewrite Hnext. split.
        -- rewrite noAdjacentText_app. rewrite Hout in Hno. rewrite Hno. simpl.
           unfold apartAtJoint. rewrite rev_app_distr. simpl.
           apply negb_true_iff.
           rewrite (sameFields_text o p node node Hop (sameFields_refl node)).
           unfold sameMarkupText. destruct (isText p); [exact Hmerge | reflexivity].
        -- rewrite Hrev. exists (init ++ [o]), node. split; [reflexivity|].
           apply sameFields_refl.
Qed.

Lemma fromArray_merges (array : list Node) :
  forallb nodeOk array = true ->
  exists f, fromArray array = Ok f /\ noAdjacentText (frag_content f) = true.
Proof.
  intros Hok. unfold fromArray. destruct array as [|n array].
  - exists Fragment_empty. split; reflexivity.
  - destruct (fromArray_loop_merges (n :: array) (n :: array) [] None 0 eq_refl Hok)
      as (joined & size & Hloop & Hno); auto.
    { split; reflexivity. }
    cbn [List.length rev hd_error] in Hloop. rewrite Hloop. cbn [bind].
    eexists. split; [reflexivity | exact Hno].
Qed.

Lemma append_empty_left (a b : string) : String.append a b = "" -> a = "".
Proof. destruct a; simpl; [auto | discriminate]. Qed.

Lemma append_empty_r (a : string) : String.append a "" = a.
Proof. induction a as [|c a IH]; simpl; [reflexivity | now rewrite IH]. Qed.

(** Joining a text after the text of a [TextNode] succeeds and keeps its
    type, attributes and marks. *)
Lemma withText_joined_after (n : Node) (after : string) :
  isText n = true -> textIsTextNode n = true ->
  exists joined,
    withText n (String.append (textOf n) after) = Ok joined /\ sameFields joined n.
Proof.
  unfold textIsTextNode. intros Ht Hn. rewrite Ht in Hn.
  destruct n as [type attrs content marks | type attrs text marks]; [discriminate|].
  unfold textOf. simpl.
  destruct (String.eqb (String.append text after) text) eqn:Hsame.
  - eexists. split; [reflexivity | apply sameFields_refl].
  - unfold TextNode_new.
    destruct (String.eqb (String.append text after) "") eqn:Hempty.
    + apply String.eqb_eq in Hempty.
      pose proof (append_empty_left _ _ Hempty) as Htext.
      pose proof (append_empty_right _ _ Hempty) as Hafter. subst text after.
      discriminate.
    + eexists. split; [reflexivity|]. unfold sameFields. auto.
Qed.

Lemma apart_after_joined (o n y : Node) :
  valuesOk o = true -> valuesOk n = true ->
  sameMarkup o n = true ->
  sameMarkupText n y = false -> sameMarkupText o y = false.
Proof.
  intros Ho Hn Hon Hny. unfold sameMarkupText in *.
  destruct (isText o) eqn:To; [|reflexivity].
  destruct (isText y) eqn:Ty; [|reflexivity].
  destruct (sameMarkup o y) eqn:Hoy; [|reflexivity].
  rewrite <- (sameMarkup_isText _ _ Hon), To in Hny. simpl in Hny.
  rewrite (sameMarkup_sym o n Ho Hn) in Hon.
  now rewrite (sameMarkup_trans _ _ _ Hon Hoy) in Hny.
Qed.

Lemma fragmentOk_parts (f : Fragment) :
  fragmentOk f = true ->
  frag_size f = sumSizes (frag_content f)
  /\ forallb nodeOk (frag_content f) = true
  /\ noAdjacentText (frag_content f) = true.
Proof.
  unfold fragmentOk, sizeHeld. intros H.
  apply andb_prop in H as [H Hno]. apply andb_prop in H as [Hs Hok].
  apply Z.eqb_eq in Hs. auto.
Qed.

Lemma append_merges (this other : Fragment) :
  fragmentOk this = true -> fragmentOk other = true ->
  exists f, append this other = Ok f /\ noAdjacentText (frag_content f) = true.
Proof.
  intros Hthis Hother.
  destruct (fragmentOk_parts _ Hthis) as (Hs1 & Hok1 & Hno1).
  destruct (fragmentOk_parts _ Hother) as (Hs2 & Hok2 & Hno2).
  unfold append.
  destruct (Z.eqb_spec (frag_size other) 0) as [_ | Hn2]; [eauto|].
  destruct (Z.eqb_spec (frag_size this) 0) as [_ | Hn1]; [eauto|].
  unfold lastChild, firstChild.
  destruct (rev (frag_content this)) as [|last r] eqn:Hrev.
  { destruct (frag_content this) as [|x l]; [now elim Hn1|].
    simpl in Hrev. destruct (rev l); discriminate. }
  destruct (frag_content other) as [|first rest] eqn:Hsecond.
  { now elim Hn2. }
  destruct (rev_last_split _ _ _ Hrev) as [Hsplit Hinit].
  cbn [hd_error].
  assert (Hlast : nodeOk last = true).
  { rewrite forallb_forall in Hok1. apply Hok1. rewrite Hsplit.
    apply in_or_app. right. now left. }
  assert (Hfirst : nodeOk first = true).
  { rewrite forallb_forall in Hok2. apply Hok2. now left. }
  destruct (nodeOk_parts _ Hlast) as [Hlvals Hltyped].
  destruct (nodeOk_parts _ Hfirst) as [Hfvals _].
  rewrite Hsplit in Hno1. rewrite noAdjacentText_app in Hno1.
  apply andb_prop in Hno1 as [Hno1 Hjoint]. apply andb_prop in Hno1 as [Hinitno _].
  destruct (isText last && sameMarkup last first) eqn:Hmerge.
  - apply andb_prop in Hmerge as [Htext Hsame].
    destruct (withText_joined_after last (textOf first) Htext Hltyped) as (joined & Hw & Hj).
    rewrite Hw. cbn [bind]. eexists. split; [reflexivity|].
    cbn [Fragment_new frag_content tl]. rewrite Hinit.
    change ([joined] ++ rest) with (joined :: rest).
    rewrite noAdjacentText_app, Hinitno. cbn [andb].
    apply andb_true_intro. split.
    + simpl in Hno2. simpl.
      destruct rest as [|y rest]; [reflexivity|].
      apply andb_prop in Hno2 as [Hfy Hrest]. rewrite Hrest, andb_true_r.
      apply negb_true_iff in Hfy. apply negb_true_iff.
      rewrite (sameFields_text joined last y y Hj (sameFields_refl y)).
      apply (apart_after_joined last first y); auto.
    + unfold apartAtJoint in *. destruct (rev (rev r)) as [|x rr]; [reflexivity|].
      apply negb_true_iff in Hjoint. apply negb_true_iff.
      now rewrite (sameFields_text x x joined last (sameFields_refl x) Hj).
  - eexists. split; [reflexivity|].
    cbn [Fragment_new frag_content].
    rewrite noAdjacentText_app, Hno2, Hsplit, noAdjacentText_app, Hinitno.
    rewrite Hjoint. cbn [andb noAdjacentText].
    unfold apartAtJoint. rewrite rev_app_distr. cbn [rev app].
    apply negb_true_iff. unfold sameMarkupText.
    destruct (isText last); [|reflexivity]. simpl in Hmerge. rewrite Hmerge.
    apply andb_false_r.
Qed.

(** C8, as stated, at [Fragment.fromJSON]: the array of the two text nodes
    ["a"] and ["b"] without marks is deserialized into a fragment with two
    adjacent text nodes of the same markup. *)
Lemma fromJSON_keeps_adjacent_text :
  exists f,
    Fragment_fromJSON exampleSchema twoTextsJSON = Ok f
    /\ frag_content f = [textOf_ "a" []; textOf_ "b" []]
    /\ noAdjacentText (frag_content f) = false.
Proof. eexists. split; [vm_compute; reflexivity|]. split; reflexivity. Qed.

(** *** What the entry points return *)

Lemma withText_joins (n : Node) (before : string) :
  isText n = true -> textIsTextNode n = true ->
  withText n (String.append before (textOf n))
  = Ok (textNodeWith n (String.append before (textOf n))).
Proof.
  unfold textIsTextNode. intros Ht Hn. rewrite Ht in Hn.
  destruct n as [type attrs content marks | type attrs text marks]; [discriminate|].
  unfold textOf. simpl.
  destruct (String.eqb_spec (String.append before text) text) as [Hsame | Hother].
  - now rewrite Hsame.
  - unfold TextNode_new.
    destruct (String.eqb_spec (String.append before text) "") as [Hempty | _]; [|reflexivity].
    pose proof (append_empty_right _ _ Hempty) as Htext. subst text.
    now elim Hother.
Qed.

Lemma withText_joins_after (n : Node) (after : string) :
  isText n = true -> textIsTextNode n = true ->
  withText n (String.append (textOf n) after)
  = Ok (textNodeWith n (String.append (textOf n) after)).
Proof.
  unfold textIsTextNode. intros Ht Hn. rewrite Ht in Hn.
  destruct n as [type attrs content marks | type attrs text marks]; [discriminate|].
  unfold textOf. simpl.
  destruct (String.eqb_spec (String.append text after) text) as [Hsame | Hother].
  - now rewrite Hsame.
  - unfold TextNode_new.
    destruct (String.eqb_spec (String.append text after) "") as [Hempty | _]; [|reflexivity].
    pose proof (append_empty_left _ _ Hempty) as Htext.
    pose proof (append_empty_right _ _ Hempty) as Hafter. subst text after.
    now elim Hother.
Qed.

Lemma textNodeWith_fields (n : Node) (text : string) :
  isText n = true -> textIsTextNode n = true -> sameFields (textNodeWith n text) n.
Proof.
  unfold textIsTextNode. intros Ht Hn. rewrite Ht in Hn.
  destruct n; [discriminate|]. unfold sameFields. simpl. auto.
Qed.

(** The test the loop makes on the node before, and the test on the node
    built so far, agree. *)
Lemma merge_test (o p node : Node) :
  sameFields o p ->
  sameMarkupText o node = isText node && sameMarkup p node.
Proof.
  intros Hop. unfold sameMarkupText.
  rewrite (sameFields_markup o p node node Hop (sameFields_refl node)).
  destruct (sameMarkup p node) eqn:Hsame.
  - rewrite (sameFields_isText _ _ Hop), (sameMarkup_isText _ _ Hsame).
    destruct (isText node); reflexivity.
  - now rewrite !andb_false_r.
Qed.

Lemma fromArray_loop_joins (array rest : list Node) :
  forall pre joined size p init o,
    array = pre ++ rest ->
    forallb nodeOk array = true ->
    hd_error (rev pre) = Some p ->
    match joined with Some j => j | None => pre end = init ++ [o] ->
    sameFields o p ->
    exists joined' size',
      fromArray_loop array (List.length pre) (Some p) rest joined size = Ok (joined', size')
      /\ match joined' with Some j => j | None => array end = init ++ joinFrom o rest.
Proof.
  induction rest as [|node rest IH]; intros pre joined size p init o Harr Hok Hp Hout Hop.
  - rewrite app_nil_r in Harr. subst pre. simpl.
    exists joined, size. split; [reflexivity | exact Hout].
  - assert (Hnode : nodeOk node = true).
    { rewrite forallb_forall in Hok. apply Hok. subst array.
      apply in_or_app. right. now left. }
    destruct (nodeOk_parts _ Hnode) as [_ Htyped].
    assert (Harr' : array = (pre ++ [node]) ++ rest) by (now rewrite <- app_assoc).
    assert (Hlen : S (List.length pre) = List.length (pre ++ [node]))
      by (rewrite length_app; simpl; lia).
    assert (Hrev : hd_error (rev (pre ++ [node])) = Some node)
      by (now rewrite rev_app_distr).
    assert (Hfirst : firstn (List.length pre) array = pre)
      by (subst array; apply firstn_length_app).
    cbn [fromArray_loop joinFrom]. rewrite (merge_test o p node Hop).
    destruct (isText node && sameMarkup p node) eqn:Hmerge.
    + apply andb_prop in Hmerge as [Htext Hsame].
      assert (Hjoined : match joined with Some j => j | None => firstn (List.length pre) array end
                        = init ++ [o]).
      { destruct joined; [exact Hout | now rewrite Hfirst]. }
      rewrite Hjoined, rev_app_distr. cbn [rev app].
      rewrite (withText_joins node (textOf o) Htext Htyped). cbn [bind].
      rewrite removelast_last, Hlen.
      apply IH; auto. now apply textNodeWith_fields.
    + rewrite Hlen.
      destruct (IH (pre ++ [node])
                   (match joined with Some j => Some (j ++ [node]) | None => None end)
                   (size + nodeSize node) node (init ++ [o]) node Harr' Hok Hrev)
        as (joined' & size' & Hloop & Hres).
      * destruct joined; now rewrite Hout.
      * apply sameFields_refl.
      * exists joined', size'. split; [exact Hloop|].
        rewrite Hres, <- app_assoc. reflexivity.
Qed.

Lemma fromArray_joins (array : list Node) :
  forallb nodeOk array = true ->
  exists f, fromArray array = Ok f /\ frag_content f = joinNeighbours array.
Proof.
  intros Hok. unfold fromArray. destruct array as [|n array].
  - exists Fragment_empty. split; reflexivity.
  - cbn [fromArray_loop].
    destruct (fromArray_loop_joins (n :: array) array [n] None (0 + nodeSize n) n [] n
                eq_refl Hok eq_refl eq_refl (sameFields_refl n))
      as (joined & size & Hloop & Hres).
    cbn [List.length] in Hloop. rewrite Hloop. cbn [bind].
    eexists. split; [reflexivity | exact Hres].
Qed.

Lemma append_joins (this other : Fragment) :
  fragmentOk this = true -> fragmentOk other = true ->
  exists f,
    append this other = Ok f
    /\ frag_content f
       = if frag_size other =? 0 then frag_content this
         else if frag_size this =? 0 then frag_content other
         else joinAtEnds (frag_content this) (frag_content other).
Proof.
  intros Hthis Hother.
  destruct (fragmentOk_parts _ Hthis) as (Hs1 & Hok1 & _).
  destruct (fragmentOk_parts _ Hother) as (Hs2 & Hok2 & _).
  unfold append, joinAtEnds.
  destruct (Z.eqb_spec (frag_size other) 0) as [_ | Hn2]; [eauto|].
  destruct (Z.eqb_spec (frag_size this) 0) as [_ | Hn1]; [eauto|].
  unfold lastChild, firstChild.
  destruct (rev (frag_content this)) as [|last r] eqn:Hrev.
  { destruct (frag_content this) as [|x l]; [now elim Hn1|].
    simpl in Hrev. destruct (rev l); discriminate. }
  destruct (frag_content other) as [|first rest] eqn:Hsecond.
  { now elim Hn2. }
  destruct (rev_last_split _ _ _ Hrev) as [Hsplit Hinit].
  cbn [hd_error].
  assert (Hlast : nodeOk last = true).
  { rewrite forallb_forall in Hok1. apply Hok1. rewrite Hsplit.
    apply in_or_app. right. now left. }
  destruct (nodeOk_parts _ Hlast) as [_ Hltyped].
  assert (Htest : sameMarkupText last first = isText last && sameMarkup last first).
  { unfold sameMarkupText. destruct (sameMarkup last first) eqn:Hsame.
    - rewrite <- (sameMarkup_isText _ _ Hsame). now destruct (isText last).
    - now rewrite !andb_false_r. }
  rewrite Htest.
  destruct (isText last && sameMarkup last first) eqn:Hmerge.
  - apply andb_prop in Hmerge as [Htext _].
    rewrite (withText_joins_after last (textOf first) Htext Hltyped). cbn [bind].
    eexists. split; [reflexivity|].
    cbn [Fragment_new frag_content tl]. now rewrite Hinit.
  - eexists. split; [reflexivity|]. reflexivity.
Qed.

(** [fromArray] on three text nodes of which the first two have one markup:
    the two become the text node ["ab"]. *)
Lemma joinNeighbours_of_three_texts :
  joinNeighbours [textOf_ "a" []; textOf_ "b" []; textOf_ "c" [emMark]]
  = [textOf_ "ab" []; textOf_ "c" [emMark]].
Proof. vm_compute. reflexivity. Qed.

(** C8, amended. A fragment built by [Fragment.fromArray], by
    [Fragment.from] or by [append] has no two adjacent text nodes with the
    same markup, and its children are those it was given with the
    neighbours joined ([joinedContent]): [fromArray] and [from] on an array
    make every run of neighbouring text nodes of one markup one text node
    that holds their texts in order, [from] on a single node, on nothing or
    on a fragment returns what it was given, and [append] joins the last
    node of the one fragment with the first of the other when they are text
    nodes of one markup, and changes no other node. [Fragment.fromJSON]
    joins nothing: the children of the fragment it returns for an array are
    the nodes that [Node.fromJSON] reads from the items, one for each item
    in their order, and it throws what reading an item throws. *)
Theorem construction_merges_text (c : Construction) (schema : Schema) (items : list JsValue) :
  inputsOk c = true ->
  (exists f,
     construct c = Ok f
     /\ frag_content f = joinedContent c
     /\ noAdjacentText (frag_content f) = true)
  /\ match Fragment_fromJSON schema (JArr items) with
     | Ok f => mapRes (Node_fromJSON schema) items = Ok (frag_content f)
     | Throw e => mapRes (Node_fromJSON schema) items = Throw e
     end.
Proof.
  intros H. split.
  - destruct c as [array | [| f | array | n] | this other]; simpl in *.
    + destruct (fromArray_joins array H) as (f & Hf & Hc).
      destruct (fromArray_merges array H) as (f' & Hf' & Hno).
      rewrite Hf in Hf'. injection Hf' as <-. eauto.
    + exists Fragment_empty. repeat split.
    + exists f. repeat split. exact H.
    + destruct (fromArray_joins array H) as (f & Hf & Hc).
      destruct (fromArray_merges array H) as (f' & Hf' & Hno).
      rewrite Hf in Hf'. injection Hf' as <-. eauto.
    + eexists. repeat split.
    + apply andb_prop in H as [H1 H2].
      destruct (append_joins this other H1 H2) as (f & Hf & Hc).
      destruct (append_merges this other H1 H2) as (f' & Hf' & Hno).
      rewrite Hf in Hf'. injection Hf' as <-. eauto.
  - unfold Fragment_fromJSON. simpl.
    destruct (mapRes (Node_fromJSON schema) items); reflexivity.
Qed.

Lemma construction_merges_text_witness :
  inputsOk (ByFromArray [textOf_ "a" []; textOf_ "b" []; textOf_ "c" [emMark]]) = true
  /\ (exists f,
        construct (ByFromArray [textOf_ "a" []; textOf_ "b" []; textOf_ "c" [emMark]]) = Ok f
        /\ frag_content f
           = joinedContent (ByFromArray [textOf_ "a" []; textOf_ "b" []; textOf_ "c" [emMark]])
        /\ noAdjacentText (frag_content f) = true)
  /\ match Fragment_fromJSON exampleSchema (JArr [JObj [("type", JStr "text"); ("text", JStr "a")]])
     with
     | Ok f =>
         mapRes (Node_fromJSON exampleSchema) [JObj [("type", JStr "text"); ("text", JStr "a")]]
         = Ok (frag_content f)
     | Throw e =>
         mapRes (Node_fromJSON exampleSchema) [JObj [("type", JStr "text"); ("text", JStr "a")]]
         = Throw e
     end.
Proof.
  assert (Hin : inputsOk (ByFromArray [textOf_ "a" []; textOf_ "b" []; textOf_ "c" [emMark]])
                = true)
    by (vm_compute; reflexivity).
  exact (conj Hin (construction_merges_text _ exampleSchema
                     [JObj [("type", JStr "text"); ("text", JStr "a")]] Hin)).
Defined.

(** ** A document is read back from its JSON *)

Lemma builtFromSchema_children (schema : Schema) (cs : list Node) :
  (fix each (children : list Node) : Prop :=
     match children with
     | [] => True
     | c :: rest => builtFromSchema schema c /\ each rest
     end) cs <-> Forall (builtFromSchema schema) cs.
Proof.
  induction cs as [|c cs IH]; split; intros H; auto.
  - destruct H as [Hc H]. constructor; [assumption | now apply IH].
  - inversion H; subst. split; [assumption | now apply IH].
Qed.

Lemma compareDeep_refl (v : JsValue) : JsValue_ok v = true -> compareDeep v v = true.
Proof.
  induction v as [| | x | x | x | la IH | fa IH] using JsValue_nested_ind; intros Hok; simpl; auto.
  - apply Bool.eqb_reflx.
  - apply Z.eqb_refl.
  - apply String.eqb_refl.
  - simpl in Hok. induction IH as [|x la Hx _ IHla]; [reflexivity|].
    simpl in Hok. apply andb_prop in Hok as [Hx' Hla].
    rewrite (Hx Hx'). simpl. now apply IHla.
  - fold (propsEach fa fa). simpl in Hok. apply andb_prop in Hok as [Hd Hall].
    apply andb_true_intro. split.
    + apply propsEach_true. intros p x Hin. exists x. split.
      * now apply In_lookup.
      * rewrite Forall_forall in IH. apply (IH (p, x) Hin).
        rewrite forallb_forall in Hall. apply (Hall (p, x) Hin).
    + apply forallb_forall. intros [q y] Hin. simpl. unfold hasKey.
      now rewrite (In_lookup q fa y Hd Hin).
Qed.

Lemma Mark_eq_refl (m : Mark) : Mark_ok m = true -> Mark_eq m m = true.
Proof.
  intros Hok. unfold Mark_eq, MarkType_same, compareAttrs.
  rewrite String.eqb_refl. cbn [andb]. now apply compareDeep_refl.
Qed.

Lemma sameSet_refl (marks : list Mark) :
  forallb Mark_ok marks = true -> sameSet marks marks = true.
Proof.
  induction marks as [|m marks IH]; simpl; [reflexivity|].
  intros H. apply andb_prop in H as [Hm H]. now rewrite (Mark_eq_refl m Hm), IH.
Qed.

Lemma sameMarkup_refl (n : Node) : valuesOk n = true -> sameMarkup n n = true.
Proof.
  unfold valuesOk, sameMarkup, NodeType_same, compareAttrs. intros H.
  apply andb_prop in H as [Ha Hm].
  now rewrite String.eqb_refl, (compareDeep_refl _ Ha), (sameSet_refl _ Hm).
Qed.

Lemma marksFrom_ok (schema : Schema) (marks : list Mark) :
  marksFrom schema marks -> forallb Mark_ok marks = true.
Proof.
  intros [Hall _]. apply forallb_forall. intros m Hin.
  rewrite Forall_forall in Hall. now destruct (Hall m Hin) as (_ & _ & Hok).
Qed.

Lemma builtFromSchema_valuesOk (schema : Schema) (n : Node) :
  builtFromSchema schema n -> valuesOk n = true.
Proof.
  unfold valuesOk.
  destruct n as [type attrs content marks | type attrs text marks]; simpl.
  - intros (_ & _ & _ & Ha & Hm & _). rewrite (marksFrom_ok _ _ Hm). now rewrite Ha.
  - intros (_ & _ & _ & Ha & _ & Hm). rewrite (marksFrom_ok _ _ Hm). now rewrite Ha.
Qed.

Lemma allNodes_here (test : Node -> bool) (n : Node) :
  allNodes test n = true ->
  test n = true /\ Forall (fun c => allNodes test c = true) (frag_content (n_content n)).
Proof.
  destruct n as [type attrs content marks | type attrs text marks];
    cbn [allNodes]; intros H; apply andb_prop in H as [Hn Hcs].
  - split; [assumption|]. apply Forall_forall. now apply forallb_forall.
  - split; [assumption | constructor].
Qed.

Lemma Node_eq_same (n : Node) : allNodes valuesOk n = true -> Node_eq n n = true.
Proof.
  induction n as [type attrs content marks IH | type attrs text marks]
    using Node_nested_ind; intros Hv;
    destruct (allNodes_here _ _ Hv) as [Hn Hcs];
    cbn [Node_eq]; rewrite (sameMarkup_refl _ Hn); cbn [andb n_content n_text].
  - cbn [n_content] in Hcs. induction IH as [|c cs Hc _ IHcs]; [reflexivity|].
    inversion Hcs; subst. rewrite (Hc H1). cbn [andb]. now apply IHcs.
  - apply String.eqb_refl.
Qed.

Lemma builtFromSchema_allValues (schema : Schema) (n : Node) :
  builtFromSchema schema n -> allNodes valuesOk n = true.
Proof.
  induction n as [type attrs content marks IH | type attrs text marks]
    using Node_nested_ind; intros Hb;
    cbn [allNodes]; rewrite (builtFromSchema_valuesOk _ _ Hb); cbn [andb]; [|reflexivity].
  destruct Hb as (_ & _ & _ & _ & _ & _ & Hcs). apply builtFromSchema_children in Hcs.
  apply forallb_forall. intros c Hin. rewrite Forall_forall in IH, Hcs. auto.
Qed.

(** *** Attributes *)

Lemma bind_ok {A B : Type} (m : Res A) (k : A -> Res B) (r : B) :
  bind m k = Ok r -> exists x, m = Ok x /\ k x = Ok r.
Proof. destruct m as [x|e]; simpl; [eauto | discriminate]. Qed.

Lemma computeAttrs_keys (table : AttrTable) (value : JsValue) (attrs : Attrs) :
  computeAttrs table value = Ok attrs -> map fst attrs = map fst table.
Proof.
  revert attrs. induction table as [|[name attr] table IH]; intros attrs; simpl.
  - intros H. now inversion H.
  - intros H. apply bind_ok in H as (given & _ & H).
    apply bind_ok in H as (built & Hb & H). inversion H; subst. simpl.
    now rewrite (IH built Hb).
Qed.

(** The attributes that [computeAttrs] built are what it builds again from
    an object that holds them. *)
Lemma computeAttrs_again (table : AttrTable) (value : JsValue) (attrs full : Attrs) :
  computeAttrs table value = Ok attrs ->
  (forall name x, In (name, x) attrs -> lookup name full = Some x) ->
  computeAttrs table (JObj full) = Ok attrs.
Proof.
  revert attrs. induction table as [|[name attr] table IH]; intros attrs; simpl.
  - auto.
  - intros H Hfull. apply bind_ok in H as (given & Hg & H).
    apply bind_ok in H as (built & Hb & H). inversion H; subst. clear H.
    rewrite (Hfull name given (or_introl eq_refl)).
    rewrite (IH built Hb) by (intros n x Hin; apply Hfull; now right).
    destruct given; try reflexivity.
    destruct (if truthy value then getProp value name else value); try discriminate.
    destruct (hasDefault attr); [|discriminate]. simpl in Hg. inversion Hg as [Hd].
    now rewrite Hd.
Qed.

Lemma computeAttrs_idempotent (table : AttrTable) (attrs : Attrs) :
  attrsFrom table attrs -> JsValue_ok (JObj attrs) = true ->
  computeAttrs table (JObj attrs) = Ok attrs.
Proof.
  intros [value Hv] Hok. apply (computeAttrs_again table value attrs attrs Hv).
  intros name x Hin. apply In_lookup; [|assumption].
  simpl in Hok. now apply andb_prop in Hok as [Hd _].
Qed.

Lemma attrsFrom_empty (table : AttrTable) : attrsFrom table [] -> table = [].
Proof.
  intros [value Hv]. apply computeAttrs_keys in Hv.
  destruct table; [reflexivity | discriminate].
Qed.

(** *** Mark sets *)

Lemma insertByRank_last (m : Mark) (sorted : list Mark) :
  forallb (fun x => rank x <=? rank m) sorted = true ->
  insertByRank m sorted = sorted ++ [m].
Proof.
  induction sorted as [|x sorted IH]; simpl; [reflexivity|].
  intros H. apply andb_prop in H as [Hx H]. unfold rank in Hx. apply Z.leb_le in Hx.
  destruct (Z.ltb_spec (mt_rank (m_type m)) (mt_rank (m_type x))); [lia|].
  now rewrite IH.
Qed.

Lemma sortByRank_from (marks acc : list Mark) :
  rankSorted (acc ++ marks) = true ->
  fold_left (fun acc m => insertByRank m acc) marks acc = acc ++ marks.
Proof.
  revert acc. induction marks as [|m marks IH]; intros acc Hs; simpl.
  - now rewrite app_nil_r.
  - assert (Hle : forallb (fun x => rank x <=? rank m) acc = true).
    { clear IH. induction acc as [|a acc IHa]; [reflexivity|].
      simpl in Hs. apply andb_prop in Hs as [Ha Hs]. simpl.
      rewrite IHa by assumption. rewrite andb_true_r.
      rewrite forallb_forall in Ha. apply Ha. apply in_or_app. right. now left. }
    rewrite (insertByRank_last m acc Hle).
    rewrite IH; rewrite <- app_assoc; [reflexivity | exact Hs].
Qed.

Lemma setFrom_sorted (marks : list Mark) :
  rankSorted marks = true -> setFrom (Some marks) = marks.
Proof.
  intros Hs. destruct marks as [|m marks]; [reflexivity|].
  unfold setFrom, sortByRank. now rewrite (sortByRank_from (m :: marks) [] Hs).
Qed.

(** *** Marks through JSON *)

Lemma Mark_round_trip (schema : Schema) (m : Mark) :
  markFrom schema m ->
  checkAttrs (mt_attrs (m_type m)) (m_attrs m) = Ok tt ->
  Mark_fromJSON schema (Mark_toJSON m) = Ok m.
Proof.
  intros (Hfound & Hattrs & Hok) Hcheck. destruct m as [type attrs]. simpl in *.
  unfold Mark_fromJSON, Mark_toJSON. cbn [truthy negb m_type m_attrs].
  destruct attrs as [|a attrs].
  - pose proof (attrsFrom_empty _ Hattrs) as Hnone.
    cbn [getProp lookup String.eqb Ascii.eqb Bool.eqb toStr]. rewrite Hfound.
    unfold MarkType_create. rewrite Hnone. reflexivity.
  - cbn [getProp lookup String.eqb Ascii.eqb Bool.eqb toStr]. rewrite Hfound.
    unfold MarkType_create. cbn [truthy].
    rewrite (computeAttrs_idempotent _ _ Hattrs Hok). cbn [bind m_attrs].
    now rewrite Hcheck.
Qed.

Lemma marks_round_trip (schema : Schema) (marks : list Mark) :
  Forall (markFrom schema) marks ->
  Forall (fun m => checkAttrs (mt_attrs (m_type m)) (m_attrs m) = Ok tt) marks ->
  mapRes (Mark_fromJSON schema) (map Mark_toJSON marks) = Ok marks.
Proof.
  induction 1 as [|m marks Hm _ IH]; intros Hc; [reflexivity|].
  inversion Hc; subst. simpl. rewrite (Mark_round_trip schema m Hm) by assumption.
  simpl. now rewrite IH.
Qed.

(** *** What [check] has tested *)

Lemma check_marks_loop (marks : list Mark) :
  forall copy result,
    (fix each (marks : list Mark) (copy : list Mark) : Res (list Mark) :=
       match marks with
       | [] => Ok copy
       | mark :: rest =>
           _ <- checkAttrs (mt_attrs (m_type mark)) (m_attrs mark) ;;
           each rest (addToSet mark copy)
       end) marks copy = Ok result ->
    Forall (fun m => checkAttrs (mt_attrs (m_type m)) (m_attrs m) = Ok tt) marks.
Proof.
  induction marks as [|m marks IH]; intros copy result H; [constructor|].
  apply bind_ok in H as ([] & Hm & H). constructor; [assumption | eauto].
Qed.

Lemma check_children_loop (children : list Node) :
  (fix each (children : list Node) : Res unit :=
     match children with
     | [] => Ok tt
     | c :: rest => _ <- Node_check c ;; each rest
     end) children = Ok tt ->
  Forall (fun c => Node_check c = Ok tt) children.
Proof.
  induction children as [|c children IH]; intros H; [constructor|].
  apply bind_ok in H as ([] & Hc & H). constructor; [assumption | auto].
Qed.

Lemma Node_check_parts (n : Node) :
  Node_check n = Ok tt ->
  checkAttrs (nt_attrs (ty_base (n_type n))) (n_attrs n) = Ok tt
  /\ Forall (fun m => checkAttrs (mt_attrs (m_type m)) (m_attrs m) = Ok tt) (n_marks n)
  /\ Forall (fun c => Node_check c = Ok tt) (frag_content (n_content n)).
Proof.
  intros H. destruct n as [type attrs content marks | type attrs text marks];
    cbn [Node_check] in H;
    apply bind_ok in H as ([] & _ & H);
    apply bind_ok in H as ([] & Hattrs & H);
    apply bind_ok in H as (copy & Hmarks & H);
    apply check_marks_loop in Hmarks;
    (split; [exact Hattrs | split; [exact Hmarks|]]).
  - destruct (negb (sameSet copy (n_marks (mkNode type attrs content marks))));
      [discriminate|].
    now apply check_children_loop.
  - constructor.
Qed.

(** *** The object [toJSON] returns *)

Lemma toJSON_children (cs : list Node) :
  (fix each (cs : list Node) : list JsValue :=
     match cs with
     | [] => []
     | c :: rest => Node_toJSON c :: each rest
     end) cs = map Node_toJSON cs.
Proof. induction cs as [|c cs IH]; [reflexivity|]. simpl. now rewrite IH. Qed.

Lemma toJSON_truthy (n : Node) : truthy (Node_toJSON n) = true.
Proof. destruct n; reflexivity. Qed.

Lemma toJSON_type (n : Node) : getProp (Node_toJSON n) "type" = JStr (ty_name (n_type n)).
Proof. destruct n; reflexivity. Qed.

Lemma toJSON_attrs (n : Node) :
  getProp (Node_toJSON n) "attrs"
  = match n_attrs n with [] => JUndefined | a => JObj a end.
Proof.
  destruct n as [type attrs content marks | type attrs text marks];
    cbn [Node_toJSON n_attrs n_marks].
  - destruct attrs; [|reflexivity].
    destruct (negb (frag_size content =? 0)); destruct marks; reflexivity.
  - destruct attrs; [|reflexivity]. destruct marks; reflexivity.
Qed.

Lemma toJSON_marks (n : Node) :
  getProp (Node_toJSON n) "marks"
  = match n_marks n with [] => JUndefined | ms => JArr (map Mark_toJSON ms) end.
Proof.
  destruct n as [type attrs content marks | type attrs text marks];
    cbn [Node_toJSON n_attrs n_marks].
  - destruct attrs; destruct (negb (frag_size content =? 0)); destruct marks; reflexivity.
  - destruct attrs; destruct marks; reflexivity.
Qed.

Lemma toJSON_content (type : NodeType) (attrs : Attrs) (content : Fragment) (marks : list Mark) :
  getProp (Node_toJSON (mkNode type attrs content marks)) "content"
  = if frag_size content =? 0 then JUndefined
    else match frag_content content with
         | [] => JNull
         | cs => JArr (map Node_toJSON cs)
         end.
Proof.
  cbn [Node_toJSON n_attrs n_marks].
  destruct attrs; destruct (frag_size content =? 0); destruct marks; try reflexivity;
    destruct (frag_content content); rewrite ?toJSON_children; reflexivity.
Qed.

Lemma toJSON_text (type : NodeType) (attrs : Attrs) (text : string) (marks : list Mark) :
  getProp (Node_toJSON (mkTextNode type attrs text marks)) "text" = JStr text.
Proof.
  cbn [Node_toJSON n_attrs n_marks]. destruct attrs; destruct marks; reflexivity.
Qed.

(** The nesting of a child's value is below that of the parent's. *)
Lemma nesting_items (items : list JsValue) (x : JsValue) :
  In x items -> (S (nesting x) <= nesting (JArr items))%nat.
Proof.
  simpl. induction items as [|y items IH]; [contradiction|].
  intros [-> | Hin]; [lia|]. specialize (IH Hin). lia.
Qed.

Lemma nesting_field (fields : list (string * JsValue)) (k : string) (x : JsValue) :
  In (k, x) fields -> (S (nesting x) <= nesting (JObj fields))%nat.
Proof.
  simpl. induction fields as [|[k' y] fields IH]; [contradiction|].
  intros [H | Hin]; [inversion H; subst; lia|]. specialize (IH Hin). lia.
Qed.

Lemma nesting_content (type : NodeType) (attrs : Attrs) (content : Fragment)
    (marks : list Mark) (c : Node) :
  (frag_size content =? 0) = false ->
  In c (frag_content content) ->
  (2 + nesting (Node_toJSON c) <= nesting (Node_toJSON (mkNode type attrs content marks)))%nat.
Proof.
  intros Hsize Hin.
  assert (Hfield : In ("content", JArr (map Node_toJSON (frag_content content)))
                      match Node_toJSON (mkNode type attrs content marks) with
                      | JObj fields => fields
                      | _ => []
                      end).
  { cbn [Node_toJSON n_attrs n_marks]. rewrite Hsize. cbn [negb].
    apply in_or_app. right. apply in_or_app. left.
    destruct (frag_content content) as [|x cs]; [contradiction|].
    left. do 2 f_equal. }
  pose proof (nesting_items (map Node_toJSON (frag_content content)) (Node_toJSON c)
                (in_map Node_toJSON _ _ Hin)) as H1.
  destruct (Node_toJSON (mkNode type attrs content marks)) eqn:E; try contradiction.
  pose proof (nesting_field _ _ _ Hfield) as H2. lia.
Qed.

Lemma Node_fromJSON_levels_step (levels : nat) (schema : Schema) (json : JsValue) :
  Node_fromJSON_levels levels schema json =
  if negb (truthy json) then Throw (RangeError "Invalid input for Node.fromJSON")
  else
    marks <- (if truthy (getProp json "marks") then
                match getProp json "marks" with
                | JArr items => ms <- mapRes (Mark_fromJSON schema) items ;; Ok (Some ms)
                | _ => Throw (RangeError "Invalid mark data for Node.fromJSON")
                end
              else Ok None) ;;
    if looseEqString (getProp json "type") "text" then
      match getProp json "text" with
      | JStr text => Schema_text schema text marks
      | _ => Throw (RangeError "Invalid text node in JSON")
      end
    else
      content <- (let value := getProp json "content" in
                  if negb (truthy value) then Ok Fragment_empty
                  else
                    match value with
                    | JArr items =>
                        match levels with
                        | O => Throw (Error "Node.fromJSON: below the nesting of the value")
                        | S levels' =>
                            children <- mapRes (Node_fromJSON_levels levels' schema) items ;;
                            Ok (Fragment_new children None)
                        end
                    | _ => Throw (RangeError "Invalid input for Fragment.fromJSON")
                    end) ;;
      type <- Schema_nodeType schema (toStr (getProp json "type")) ;;
      node <- NodeType_create type (getProp json "attrs") (OfFragment content) marks ;;
      _ <- checkAttrs (nt_attrs (ty_base (n_type node))) (n_attrs node) ;;
      Ok node.
Proof. destruct levels; reflexivity. Qed.

Lemma marks_from_json (schema : Schema) (n : Node) :
  marksFrom schema (n_marks n) ->
  Forall (fun m => checkAttrs (mt_attrs (m_type m)) (m_attrs m) = Ok tt) (n_marks n) ->
  exists given,
    (if truthy (getProp (Node_toJSON n) "marks") then
       match getProp (Node_toJSON n) "marks" with
       | JArr items => ms <- mapRes (Mark_fromJSON schema) items ;; Ok (Some ms)
       | _ => Throw (RangeError "Invalid mark data for Node.fromJSON")
       end
     else Ok None) = Ok given
    /\ setFrom given = n_marks n.
Proof.
  intros [Hfrom Hsorted] Hchecked. rewrite toJSON_marks.
  destruct (n_marks n) as [|m marks] eqn:Hm.
  - exists None. split; reflexivity.
  - exists (Some (m :: marks)). cbn [truthy].
    rewrite (marks_round_trip schema _ Hfrom Hchecked). split; [reflexivity|].
    now apply setFrom_sorted.
Qed.

Lemma builtFromSchema_size (schema : Schema) (n : Node) :
  builtFromSchema schema n -> 1 <= nodeSize n.
Proof.
  induction n as [type attrs content marks IH | type attrs text marks]
    using Node_nested_ind; intros Hb.
  - destruct Hb as (_ & _ & _ & _ & _ & Hsize & Hcs).
    apply builtFromSchema_children in Hcs. unfold nodeSize.
    destruct (isLeaf (mkNode type attrs content marks)); [lia|].
    rewrite Hsize. enough (0 <= sumSizes (frag_content content)) by lia.
    apply sumSizes_nonneg. rewrite Forall_forall in *. intros c Hin.
    specialize (IH c Hin (Hcs c Hin)). lia.
  - destruct Hb as (_ & _ & _ & _ & Htext & _). unfold nodeSize, strlen.
    destruct text; [contradiction | simpl; lia].
Qed.

Lemma builtFromSchema_no_children (schema : Schema) (content : Fragment) :
  Forall (builtFromSchema schema) (frag_content content) ->
  frag_size content = sumSizes (frag_content content) ->
  (frag_size content =? 0) = true -> content = Fragment_empty.
Proof.
  intros Hcs Hsize Hzero. apply Z.eqb_eq in Hzero. destruct content as [cs size].
  simpl in *. subst size. destruct cs as [|c cs]; [now rewrite Hzero|].
  exfalso. rewrite sumSizes_cons in Hzero. inversion Hcs; subst.
  pose proof (builtFromSchema_size _ _ H1).
  assert (0 <= sumSizes cs).
  { apply sumSizes_nonneg. rewrite Forall_forall in *. intros x Hin.
    pose proof (builtFromSchema_size _ _ (H2 x Hin)). lia. }
  lia.
Qed.

Lemma mapRes_round_trip (f : JsValue -> Res Node) (cs : list Node) :
  Forall (fun c => f (Node_toJSON c) = Ok c) cs ->
  mapRes f (map Node_toJSON cs) = Ok cs.
Proof.
  induction 1 as [|c cs Hc _ IH]; [reflexivity|].
  simpl. rewrite Hc. simpl. now rewrite IH.
Qed.

Lemma fromJSON_toJSON_levels (schema : Schema) (n : Node) :
  forall levels,
    (nesting (Node_toJSON n) <= levels)%nat ->
    builtFromSchema schema n ->
    Node_check n = Ok tt ->
    Node_fromJSON_levels levels schema (Node_toJSON n) = Ok n.
Proof.
  induction n as [type attrs content marks IH | type attrs text marks]
    using Node_nested_ind; intros levels Hlevels Hb Hcheck.
  - destruct (Node_check_parts _ Hcheck) as (Hattrs & Hmarks & Hchildren).
    pose proof Hb as (Hfound & Htext & Hfrom & Hok & Hset & Hsize & Hcs).
    apply builtFromSchema_children in Hcs.
    destruct (marks_from_json schema (mkNode type attrs content marks) Hset Hmarks)
      as (given & Hgiven & Hsame).
    rewrite Node_fromJSON_levels_step, toJSON_truthy. cbn [negb].
    rewrite Hgiven. cbn [bind].
    rewrite toJSON_type, toJSON_attrs, toJSON_content.
    cbn [n_type n_attrs n_marks n_content] in *.
    change (looseEqString (JStr (ty_name type)) "text") with (ty_isText type).
    rewrite Htext. cbn [toStr]. unfold Schema_nodeType. rewrite Hfound.
    match goal with
    | |- bind ?read _ = _ => assert (Hcontent : read = Ok content)
    end.
    { destruct (frag_size content =? 0) eqn:Hzero.
      - cbn. now rewrite (builtFromSchema_no_children schema content Hcs Hsize Hzero).
      - destruct (frag_content content) as [|c cs] eqn:Hcontent.
        { rewrite Hsize in Hzero. discriminate. }
        cbn [truthy negb].
        assert (Hdeep : forall x, In x (c :: cs) ->
                                  (2 + nesting (Node_toJSON x) <= levels)%nat).
        { intros x Hin. rewrite <- Hcontent in Hin.
          pose proof (nesting_content type attrs content marks x Hzero Hin). lia. }
        destruct levels as [|levels'].
        { specialize (Hdeep c (or_introl eq_refl)). lia. }
        rewrite (mapRes_round_trip (Node_fromJSON_levels levels' schema) (c :: cs)).
        + cbn [bind]. unfold Fragment_new. destruct content as [cs' size].
          simpl in *. now subst.
        + rewrite Forall_forall in *. intros x Hin.
          apply (IH x Hin); auto. specialize (Hdeep x Hin). lia. }
    rewrite Hcontent. cbn [bind].
    unfold NodeType_create. rewrite Htext.
    match goal with
    | |- context [NodeType_computeAttrs type ?given] =>
        assert (Hcomputed : NodeType_computeAttrs type given = Ok attrs)
    end.
    { unfold NodeType_computeAttrs, ty_defaultAttrs. destruct attrs as [|a attrs].
      - rewrite (attrsFrom_empty _ Hfrom). reflexivity.
      - cbn [truthy]. now apply computeAttrs_idempotent. }
    rewrite Hcomputed. cbn [bind Fragment_from n_type n_attrs].
    rewrite Hattrs. cbn [bind]. now rewrite Hsame.
  - destruct (Node_check_parts _ Hcheck) as (_ & Hmarks & _).
    pose proof Hb as (Hfound & Htext & Hattrs & Hok & Hnonempty & Hset).
    destruct (marks_from_json schema (mkTextNode type attrs text marks) Hset Hmarks)
      as (given & Hgiven & Hsame).
    rewrite Node_fromJSON_levels_step, toJSON_truthy. cbn [negb].
    rewrite Hgiven. cbn [bind].
    rewrite toJSON_type, toJSON_text.
    cbn [n_type n_attrs n_marks n_content] in *.
    change (looseEqString (JStr (ty_name type)) "text") with (ty_isText type).
    rewrite Htext. unfold Schema_text.
    unfold ty_isText, nt_isText in Htext. apply String.eqb_eq in Htext.
    unfold ty_name in Hfound. rewrite Htext in Hfound. rewrite Hfound.
    unfold TextNode_new. apply String.eqb_neq in Hnonempty. rewrite Hnonempty.
    now rewrite Hsame, <- Hattrs.
Qed.

(** C6, at the document [doc(paragraph(t))] where [t] is the node that
    [schema.node("text")] returns. [NodeType.create] refuses to build a node
    of the text type; [createChecked], which [schema.node] calls and which
    is documented as being like [create], has no such test and returns a
    plain node of the text type, without a text. The document is built by
    the schema and passes [check]; [toJSON] writes the node as
    [{type: "text"}], and [Node.fromJSON] throws on it. *)
Theorem text_type_node_is_not_read_back :
  exists inner paragraph d,
    Schema_node exampleSchema "text" JUndefined NoNodes None = Ok inner
    /\ Schema_node exampleSchema "paragraph" JUndefined (OfNode inner) None = Ok paragraph
    /\ Schema_node exampleSchema "doc" JUndefined (OfNode paragraph) None = Ok d
    /\ inner = mkNode textType [] Fragment_empty []
    /\ NodeType_create textType JUndefined NoNodes None
       = Throw (Error "NodeType.create can't construct text nodes")
    /\ Node_check d = Ok tt
    /\ Node_toJSON d
       = JObj [("type", JStr "doc");
               ("content",
                JArr [JObj [("type", JStr "paragraph");
                            ("content", JArr [JObj [("type", JStr "text")]])]])]
    /\ Node_fromJSON exampleSchema (Node_toJSON d)
       = Throw (RangeError "Invalid text node in JSON").
Proof.
  eexists. eexists. eexists.
  split; [vm_compute; reflexivity|].
  split; [vm_compute; reflexivity|].
  split; [vm_compute; reflexivity|].
  split; [reflexivity|].
  split; [vm_compute; reflexivity|].
  split; [vm_compute; reflexivity|].
  split; vm_compute; reflexivity.
Qed.

(** Where every node of the text type is a [TextNode], as [schema.text]
    makes it, the round trip holds. A node that was built from the schema in
    that way and passes [check] is read back from its JSON: [Node.fromJSON]
    of the value [toJSON] returns succeeds, and the node it returns is [eq]
    to the first. *)
Theorem fromJSON_after_toJSON (schema : Schema) (d : Node) :
  builtFromSchema schema d ->
  Node_check d = Ok tt ->
  exists d',
    Node_fromJSON schema (Node_toJSON d) = Ok d'
    /\ Node_eq d' d = true.
Proof.
  intros Hb Hcheck. exists d. split.
  - apply fromJSON_toJSON_levels; auto.
  - apply Node_eq_same. now apply (builtFromSchema_allValues schema).
Qed.

Lemma fromJSON_after_toJSON_witness :
  builtFromSchema exampleSchema linkDoc
  /\ Node_check linkDoc = Ok tt
  /\ exists d',
      Node_fromJSON exampleSchema (Node_toJSON linkDoc) = Ok d'
      /\ Node_eq d' linkDoc = true.
Proof.
  assert (Hbuilt : builtFromSchema exampleSchema linkDoc).
  { repeat match goal with
           | |- _ /\ _ => split
           | |- True => exact I
           | |- Forall _ _ => constructor
           | |- attrsFrom _ ?attrs => exists (JObj attrs); reflexivity
           | |- markFrom _ _ => unfold markFrom
           | |- marksFrom _ _ => unfold marksFrom
           | |- _ <> _ => discriminate
           | |- _ = _ => reflexivity
           | |- builtFromSchema _ _ => cbn [builtFromSchema linkDoc paragraphOf textOf_
                                            Fragment_new frag_content]
           end. }
  assert (Hcheck : Node_check linkDoc = Ok tt) by (vm_compute; reflexivity).
  exact (conj Hbuilt (conj Hcheck (fromJSON_after_toJSON exampleSchema linkDoc Hbuilt Hcheck))).
Defined.

(** ** Replacing nothing by nothing *)

Lemma arr_get_app_right {A : Type} (pre l : list A) (i j : Z) :
  0 <= j -> i = len pre + j -> arr_get (pre ++ l) i = arr_get l j.
Proof.
  intros Hj ->. unfold arr_get, len.
  destruct (Z.ltb_spec (Z.of_nat (List.length pre) + j) 0); [lia|].
  destruct (Z.ltb_spec j 0); [lia|].
  replace (Z.to_nat (Z.of_nat (List.length pre) + j))
    with (List.length pre + Z.to_nat j)%nat by lia.
  now rewrite nth_error_app2, Nat.add_comm, Nat.add_sub by lia.
Qed.

Lemma findIndex_loop_found (cs : list Node) :
  forall i curPos pos index offset,
    curPos < pos ->
    findIndex_loop cs i curPos pos (-1) = Ok (index, offset) ->
    i <= index <= i + len cs
    /\ (offset = pos
        \/ exists c, nth_error cs (Z.to_nat (index - i)) = Some c
                     /\ offset < pos < offset + nodeSize c).
Proof.
  induction cs as [|c cs IH]; intros i curPos pos index offset Hlo; simpl; [discriminate|].
  assert (Hlen : len (c :: cs) = 1 + len cs) by (unfold len; cbn [List.length]; lia).
  destruct (Z.geb_spec (curPos + nodeSize c) pos) as [Hge | Hlt].
  - destruct (Z.eqb_spec (curPos + nodeSize c) pos) as [Heq | Hne]; simpl;
      intros H; inversion H; subst.
    + pose proof (Nat2Z.is_nonneg (List.length cs)). unfold len in *. split; [lia | now left].
    + pose proof (Nat2Z.is_nonneg (List.length cs)). unfold len in *.
      split; [lia|]. right. exists c. rewrite Z.sub_diag. simpl.
      split; [reflexivity | lia].
  - intros H. destruct (IH (i + 1) (curPos + nodeSize c) pos index offset) as [Hi Hcase];
      [lia | assumption |].
    split; [unfold len in *; lia|].
    destruct Hcase as [-> | (c' & Hn & Hin)]; [now left | right].
    exists c'. split; [|assumption].
    replace (Z.to_nat (index - i)) with (S (Z.to_nat (index - (i + 1)))) by lia.
    exact Hn.
Qed.

Lemma findIndex_found (f : Fragment) (pos index offset : Z) :
  findIndex f pos (-1) = Ok (index, offset) ->
  0 <= index <= childCount f
  /\ (offset = pos
      \/ exists c, arr_get (frag_content f) index = Some c
                   /\ offset < pos < offset + nodeSize c).
Proof.
  unfold findIndex, childCount.
  destruct (Z.eqb_spec pos 0) as [-> | Hnz].
  { intros H. inversion H; subst. split; [unfold len; lia | now left]. }
  destruct (Z.eqb_spec pos (frag_size f)) as [-> | Hns].
  { intros H. inversion H; subst. split; [unfold len; lia | now left]. }
  destruct (Z.gtb_spec pos (frag_size f)); [discriminate|].
  destruct (Z.ltb_spec pos 0); [discriminate|]. simpl. intros Hloop.
  destruct (findIndex_loop_found (frag_content f) 0 0 pos index offset) as [Hi Hcase];
    [lia | exact Hloop |].
  split; [lia|]. destruct Hcase as [-> | (c & Hn & Hin)]; [now left | right].
  exists c. split; [|assumption].
  unfold arr_get. destruct (Z.ltb_spec index 0); [lia|].
  now rewrite Z.sub_0_r in Hn.
Qed.

Lemma resolve_loop_descent (turns : nat) :
  forall node start parentOffset path path' parentOffset',
    resolve_loop turns node start parentOffset path = Ok (path', parentOffset') ->
    exists suffix, path' = path ++ suffix /\ Descent node start parentOffset suffix.
Proof.
  induction turns as [|turns IH]; intros node start po path path' po'; [discriminate|].
  cbn [resolve_loop]. intros H.
  apply bind_ok in H as ([index offset] & Hf & H).
  destruct (Z.eqb_spec (po - offset) 0) as [Hz | Hnz].
  - inversion H; subst. eexists. split; [reflexivity|].
    apply (Descent_stop node start po' index offset Hf). now left.
  - apply bind_ok in H as (c & Hc & H).
    destruct (isText c) eqn:Htext.
    + inversion H; subst. eexists. split; [reflexivity|].
      apply (Descent_stop node start po' index offset Hf). right. eauto.
    + apply IH in H as (rest & -> & Hd). eexists. split.
      * rewrite <- app_assoc. reflexivity.
      * now apply (Descent_enter node start po index offset c rest).
Qed.

Lemma Descent_len (node : Node) (start parentOffset : Z) (suffix : list PathElem) :
  Descent node start parentOffset suffix -> exists k, 1 <= k /\ len suffix = 3 * k.
Proof.
  induction 1 as [| node start po index offset c rest _ _ _ _ _ (k & Hk & IH)].
  - exists 1. split; [lia | reflexivity].
  - exists (k + 1). split; [lia|]. rewrite len_app, len_triple, IH. lia.
Qed.

(** *** [addNode] on neighbours that are apart *)

Lemma addNode_push (x : Node) (target : list Node) :
  forallb valuesOk (target ++ [x]) = true ->
  noAdjacentText (target ++ [x]) = true ->
  addNode x target = Ok (target ++ [x]).
Proof.
  intros Hok Hno. unfold addNode.
  destruct (rev target) as [|last r] eqn:Hrev; [reflexivity|].
  rewrite noAdjacentText_app in Hno. apply andb_prop in Hno as [_ Hjoint].
  unfold apartAtJoint in Hjoint. rewrite Hrev in Hjoint.
  apply negb_true_iff in Hjoint.
  rewrite forallb_app in Hok. apply andb_prop in Hok as [Htarget Hx].
  simpl in Hx. rewrite andb_true_r in Hx.
  assert (Hlast : valuesOk last = true).
  { rewrite forallb_forall in Htarget. apply Htarget.
    destruct (rev_last_split _ _ _ Hrev) as [-> _]. apply in_or_app. right. now left. }
  destruct (isText x) eqn:Tx; [|reflexivity].
  destruct (sameMarkup x last) eqn:Hsame; [|reflexivity].
  exfalso. unfold sameMarkupText in Hjoint.
  rewrite <- (sameMarkup_isText _ _ Hsame), Tx in Hjoint.
  rewrite (sameMarkup_sym last x Hlast Hx), Hsame in Hjoint. discriminate.
Qed.

Lemma arr_get_middle {A : Type} (a : list A) (x : A) (b : list A) :
  arr_get (a ++ x :: b) (len a) = Some x.
Proof.
  rewrite (arr_get_app_right a (x :: b) (len a) 0); [reflexivity | lia | lia].
Qed.

Lemma addChildren_prefix (parent : Node) (b : list Node) :
  forall a c,
    frag_content (n_content parent) = a ++ b ++ c ->
    forallb valuesOk (a ++ b) = true ->
    noAdjacentText (a ++ b) = true ->
    addChildren (Some parent) (len a) (List.length b) a = Ok (a ++ b).
Proof.
  induction b as [|x b IH]; intros a c Hall Hok Hno.
  - simpl. now rewrite app_nil_r.
  - cbn [addChildren List.length needNode bind]. unfold child.
    rewrite Hall. cbn [app]. rewrite arr_get_middle. cbn [bind].
    assert (Hsplit : a ++ x :: b = (a ++ [x]) ++ b) by (now rewrite <- app_assoc).
    rewrite Hsplit in Hok, Hno.
    rewrite addNode_push.
    + cbn [bind]. replace (len a + 1) with (len (a ++ [x])) by (rewrite len_app; reflexivity).
      rewrite (IH (a ++ [x]) c); [now rewrite <- app_assoc | | assumption | assumption].
      rewrite Hall. now rewrite <- app_assoc.
    + rewrite forallb_app in Hok. now apply andb_prop in Hok as [Hok _].
    + rewrite noAdjacentText_app in Hno. apply andb_prop in Hno as [Hno _].
      now apply andb_prop in Hno as [Hno _].
Qed.

(** *** A text cut in two and put together *)

Lemma substring_all (s : string) : String.substring 0 (String.length s) s = s.
Proof. induction s as [|c s IH]; simpl; [reflexivity | now rewrite IH]. Qed.

Lemma substring_split (s : string) :
  forall k, (k <= String.length s)%nat ->
            String.append (String.substring 0 k s) (String.substring k (String.length s - k) s)
            = s.
Proof.
  induction s as [|c s IH]; intros [|k] Hk; simpl in *; try reflexivity; try lia.
  - now rewrite substring_all.
  - rewrite IH by lia. reflexivity.
Qed.

Lemma substring_head_nonempty (s : string) (k : nat) :
  (0 < k)%nat -> (k <= String.length s)%nat -> String.substring 0 k s <> "".
Proof. destruct s; destruct k; simpl; intros; try lia; discriminate. Qed.

Lemma substring_tail_nonempty (s : string) :
  forall k, (k < String.length s)%nat ->
            String.substring k (String.length s - k) s <> "".
Proof.
  induction s as [|c s IH]; intros [|k] Hk; simpl in *; try lia; [discriminate|].
  apply IH. lia.
Qed.

Lemma str_slice_head (s : string) (off : Z) :
  0 < off < strlen s -> str_slice s 0 off = String.substring 0 (Z.to_nat off) s.
Proof.
  intros H. unfold str_slice. cbn [Z.ltb]. 
  destruct (Z.ltb_spec off 0); [lia|].
  rewrite !Z.min_l by lia. rewrite Z.sub_0_r. reflexivity.
Qed.

Lemma str_slice_tail (s : string) (off : Z) :
  0 < off < strlen s ->
  str_slice s off (strlen s)
  = String.substring (Z.to_nat off) (String.length s - Z.to_nat off) s.
Proof.
  intros H. unfold str_slice.
  destruct (Z.ltb_spec off 0); [lia|].
  destruct (Z.ltb_spec (strlen s) 0); [lia|].
  rewrite !Z.min_l by lia. unfold strlen. f_equal. lia.
Qed.

Lemma withText_text (type : NodeType) (attrs : Attrs) (old text : string) (marks : list Mark) :
  text <> "" ->
  withText (mkTextNode type attrs old marks) text = Ok (mkTextNode type attrs text marks).
Proof.
  intros Hne. unfold withText.
  destruct (String.eqb_spec text old) as [-> | _]; [reflexivity|].
  unfold TextNode_new. apply String.eqb_neq in Hne. now rewrite Hne.
Qed.

Lemma addNode_push_fields (x x' : Node) (target : list Node) :
  sameFields x' x ->
  forallb valuesOk (target ++ [x]) = true ->
  noAdjacentText (target ++ [x]) = true ->
  addNode x' target = Ok (target ++ [x']).
Proof.
  intros Hf Hok Hno. pose proof (addNode_push x target Hok Hno) as Hpush.
  unfold addNode in *. destruct (rev target) as [|last r] eqn:Hrev; [reflexivity|].
  rewrite (sameFields_isText _ _ Hf), (sameFields_markup x' x last last Hf (sameFields_refl last)).
  destruct (isText x && sameMarkup x last) eqn:Htest; [|reflexivity].
  exfalso. apply bind_ok in Hpush as (merged & _ & Hpush). inversion Hpush as [Hlen].
  apply (f_equal (@List.length Node)) in Hlen. rewrite !length_app in Hlen.
  destruct (rev_last_split _ _ _ Hrev) as [Hsplit Hinit]. rewrite Hinit, Hsplit in Hlen.
  rewrite length_app in Hlen. simpl in Hlen. lia.
Qed.

Lemma addChildren_first (parent : Node) (b c : list Node) :
  frag_content (n_content parent) = b ++ c ->
  forallb valuesOk (b ++ c) = true ->
  noAdjacentText (b ++ c) = true ->
  addChildren (Some parent) 0 (List.length b) [] = Ok b.
Proof.
  intros Hall Hok Hno. apply (addChildren_prefix parent b [] c Hall).
  - rewrite forallb_app in Hok. now apply andb_prop in Hok as [Hok _].
  - rewrite noAdjacentText_app in Hno. apply andb_prop in Hno as [Hno _].
    now apply andb_prop in Hno as [Hno _].
Qed.

Section AtTheDepthOfThePosition.
Variable rp : ResolvedPos.
Variable d : Z.
Variable node : Node.
Variables l1 l2 : list Node.
Hypothesis Hnode : rp_node rp d = Some node.
Hypothesis Hindex : rp_index rp d = Some (len l1).
Hypothesis Hdepth : rp_depth rp = d.

Lemma replaceTwoWay_between :
  textOffset rp = 0 ->
  frag_content (n_content node) = l1 ++ l2 ->
  forallb valuesOk (l1 ++ l2) = true ->
  noAdjacentText (l1 ++ l2) = true ->
  replaceTwoWay rp rp d = Ok (Fragment_new (l1 ++ l2) None).
Proof.
  intros Hoff Hall Hok Hno.
  unfold replaceTwoWay. rewrite Hdepth, Z.sub_diag. cbn [Z.to_nat replaceTwoWay_levels].
  assert (Hbefore : addRange None (Some rp) d [] = Ok l1).
  { unfold addRange. rewrite Hnode, Hindex, Hdepth, Hoff. cbn [bind].
    rewrite Z.sub_0_r.
    replace (Z.to_nat (len l1)) with (List.length l1) by (unfold len; lia).
    rewrite (addChildren_first node l1 l2 Hall Hok Hno).
    cbn [bind]. rewrite Z.eqb_refl. reflexivity. }
  rewrite Hbefore. cbn [bind]. rewrite Hdepth.
  destruct (Z.gtb_spec d d); [lia|]. cbn [bind].
  assert (Hafter : addRange (Some rp) None d l1 = Ok (l1 ++ l2)).
  { unfold addRange. rewrite Hnode, Hindex, Hdepth, Hoff. cbn [bind needNode].
    destruct (Z.gtb_spec d d); [lia|]. cbn [negb Z.eqb bind].
    unfold childCount. rewrite Hall, len_app.
    replace (Z.to_nat (len l1 + len l2 - len l1)) with (List.length l2) by (unfold len; lia).
    rewrite (addChildren_prefix node l2 l1 []); [reflexivity | | assumption | assumption].
    now rewrite app_nil_r. }
  rewrite Hafter. reflexivity.
Qed.

Lemma replaceTwoWay_inside (type : NodeType) (attrs : Attrs) (text : string) (marks : list Mark) :
  let c := mkTextNode type attrs text marks in
  0 < textOffset rp < strlen text ->
  isText c = true ->
  frag_content (n_content node) = l1 ++ c :: l2 ->
  forallb valuesOk (l1 ++ c :: l2) = true ->
  noAdjacentText (l1 ++ c :: l2) = true ->
  replaceTwoWay rp rp d = Ok (Fragment_new (l1 ++ c :: l2) None).
Proof.
  intros c Hoff Htext Hall Hok Hno.
  set (off := textOffset rp) in *.
  assert (Hnat : (0 < Z.to_nat off < String.length text)%nat) by (unfold strlen in Hoff; lia).
  set (c1 := mkTextNode type attrs (str_slice text 0 off) marks).
  set (c2 := mkTextNode type attrs (str_slice text off (strlen text)) marks).
  assert (Hc1 : Node_cut c 0 off = Ok c1).
  { unfold c. cbn [Node_cut]. destruct (Z.eqb_spec off (strlen text)); [lia|].
    cbn [Z.eqb andb]. apply withText_text. rewrite str_slice_head by assumption.
    apply substring_head_nonempty; lia. }
  assert (Hc2 : Node_cutFrom c off = Ok c2).
  { unfold c. cbn [Node_cutFrom Node_cut]. destruct (Z.eqb_spec off 0); [lia|].
    cbn [andb]. apply withText_text. rewrite str_slice_tail by assumption.
    apply substring_tail_nonempty. lia. }
  assert (Hjoin : String.append (str_slice text 0 off) (str_slice text off (strlen text)) = text).
  { rewrite str_slice_head, str_slice_tail by assumption. apply substring_split. lia. }
  assert (Hchild : child (n_content node) (len l1) = Ok c).
  { unfold child. now rewrite Hall, arr_get_middle. }
  assert (Hsplit : l1 ++ c :: l2 = (l1 ++ [c]) ++ l2) by (now rewrite <- app_assoc).
  assert (Hok1 : forallb valuesOk (l1 ++ [c]) = true).
  { rewrite Hsplit, forallb_app in Hok. now apply andb_prop in Hok as [Hok _]. }
  assert (Hno1 : noAdjacentText (l1 ++ [c]) = true).
  { rewrite Hsplit, noAdjacentText_app in Hno. apply andb_prop in Hno as [Hno _].
    now apply andb_prop in Hno as [Hno _]. }
  assert (Hcok : valuesOk c = true).
  { rewrite forallb_app in Hok1. apply andb_prop in Hok1 as [_ Hc]. simpl in Hc.
    now rewrite andb_true_r in Hc. }
  unfold replaceTwoWay. rewrite Hdepth, Z.sub_diag. cbn [Z.to_nat replaceTwoWay_levels].
  assert (Hbefore : addRange None (Some rp) d [] = Ok (l1 ++ [c1])).
  { unfold addRange. rewrite Hnode, Hindex, Hdepth. cbn [bind].
    rewrite Z.sub_0_r.
    replace (Z.to_nat (len l1)) with (List.length l1) by (unfold len; lia).
    rewrite (addChildren_first node l1 (c :: l2) Hall Hok Hno).
    cbn [bind]. rewrite Z.eqb_refl. fold off.
    destruct (Z.eqb_spec off 0); [lia|]. cbn [negb andb].
    unfold nodeBefore. rewrite Hdepth, Hindex, Hnode. fold off.
    destruct (Z.eqb_spec off 0); [lia|]. cbn [negb needNode bind].
    rewrite Hchild. cbn [bind]. rewrite Hc1. cbn [bind needNode].
    apply (addNode_push_fields c c1 l1); [unfold sameFields; auto | assumption | assumption]. }
  rewrite Hbefore. cbn [bind]. rewrite Hdepth.
  destruct (Z.gtb_spec d d); [lia|]. cbn [bind].
  assert (Hafter : addRange (Some rp) None d (l1 ++ [c1]) = Ok (l1 ++ c :: l2)).
  { unfold addRange. rewrite Hnode, Hindex, Hdepth. cbn [bind needNode].
    destruct (Z.gtb_spec d d); [lia|]. fold off.
    destruct (Z.eqb_spec off 0); [lia|]. cbn [negb].
    unfold nodeAfter. rewrite Hdepth, Hindex, Hnode. cbn [needNode bind]. fold off.
    unfold childCount. rewrite Hall, len_app.
    assert (Hlen : len (c :: l2) = 1 + len l2) by (unfold len; cbn [List.length]; lia).
    rewrite Hlen.
    destruct (Z.eqb_spec (len l1) (len l1 + (1 + len l2))); [unfold len in *; lia|].
    rewrite <- Hall. rewrite Hchild. cbn [bind].
    destruct (Z.eqb_spec off 0); [lia|]. cbn [negb].
    rewrite Hc2. cbn [bind needNode].
    assert (Hmerge : addNode c2 (l1 ++ [c1]) = Ok (l1 ++ [c])).
    { unfold addNode. rewrite rev_app_distr. cbn [rev app].
      change (isText c2) with (isText c). rewrite Htext.
      change (sameMarkup c2 c1) with (sameMarkup c c). rewrite (sameMarkup_refl c Hcok).
      cbn [andb]. change (textOf c1) with (str_slice text 0 off).
      change (textOf c2) with (str_slice text off (strlen text)). rewrite Hjoin.
      unfold c2. rewrite withText_text.
      - cbn [bind]. now rewrite removelast_last.
      - destruct text; [simpl in Hnat; lia | discriminate]. }
    rewrite Hmerge. cbn [bind option_map].
    replace (1 + len l1) with (len (l1 ++ [c])) by (rewrite len_app; unfold len; cbn [List.length]; lia).
    replace (Z.to_nat (len l1 + (1 + len l2) - len (l1 ++ [c]))) with (List.length l2)
      by (rewrite len_app; unfold len; cbn [List.length]; lia).
    rewrite (addChildren_prefix node l2 (l1 ++ [c]) []).
    - cbn [bind]. now rewrite Hall, Hsplit.
    - now rewrite app_nil_r, <- Hsplit.
    - now rewrite <- Hsplit.
    - now rewrite <- Hsplit. }
  rewrite Hafter. reflexivity.
Qed.

End AtTheDepthOfThePosition.

(** *** The position a path holds at a depth *)

Lemma path_at (rp : ResolvedPos) (pre rest : list PathElem) (node : Node) (index s d : Z) :
  rp_path rp = pre ++ [PNode node; PNum index; PNum s] ++ rest ->
  len pre = 3 * d -> 0 <= d ->
  rp_node rp d = Some node /\ rp_index rp d = Some index.
Proof.
  intros Hpath Hlen Hd. unfold rp_node, rp_index, resolveDepth.
  destruct (Z.ltb_spec d 0); [lia|]. rewrite Hpath.
  rewrite (arr_get_app_right pre _ (d * 3) 0) by lia.
  rewrite (arr_get_app_right pre _ (d * 3 + 1) 1) by lia.
  split; reflexivity.
Qed.

Lemma textOffset_at (rp : ResolvedPos) (pre : list PathElem) (node : Node) (index s : Z) :
  rp_path rp = pre ++ [PNode node; PNum index; PNum s] ->
  textOffset rp = rp_pos rp - s.
Proof.
  intros Hpath. unfold textOffset. rewrite Hpath.
  rewrite (arr_get_app_right pre _ _ 2); [reflexivity | lia |].
  rewrite len_app, len_triple. lia.
Qed.

Lemma arr_set_same {A : Type} (l : list A) :
  forall i x, nth_error l i = Some x -> arr_set l i x = l.
Proof.
  induction l as [|h l IH]; intros [|i] x H; simpl in *; try discriminate.
  - now inversion H.
  - now rewrite IH.
Qed.

Lemma replaceChild_same (f : Fragment) (index : Z) (c : Node) :
  child f index = Ok c -> replaceChild f index c = Ok f.
Proof.
  unfold child, replaceChild. destruct (arr_get (frag_content f) index) as [x|] eqn:Hget;
    [|discriminate].
  intros H. inversion H; subst. unfold arr_get in Hget.
  destruct (index <? 0); [discriminate|]. rewrite (arr_set_same _ _ _ Hget).
  destruct f as [content size]. unfold Fragment_new. simpl. f_equal. f_equal. lia.
Qed.

Lemma Node_check_content (n : Node) :
  Node_check n = Ok tt -> checkContent (n_type n) (n_content n) = Ok tt.
Proof.
  intros H. destruct n as [type attrs content marks | type attrs text marks];
    cbn [Node_check] in H; apply bind_ok in H as ([] & Hc & _); exact Hc.
Qed.

Lemma child_In (f : Fragment) (index : Z) (c : Node) :
  child f index = Ok c -> In c (frag_content f) /\ arr_get (frag_content f) index = Some c.
Proof.
  unfold child. destruct (arr_get (frag_content f) index) as [x|] eqn:Hget; [|discriminate].
  intros H. inversion H; subst. split; [now apply (arr_get_In _ index) | reflexivity].
Qed.

Lemma firstn_skipn_len {A : Type} (l : list A) (index : Z) :
  0 <= index <= len l ->
  l = firstn (Z.to_nat index) l ++ skipn (Z.to_nat index) l
  /\ len (firstn (Z.to_nat index) l) = index.
Proof.
  intros H. split; [now rewrite firstn_skipn|].
  unfold len in *. rewrite length_firstn. lia.
Qed.

Lemma arr_get_split {A : Type} (l : list A) (index : Z) (x : A) :
  arr_get l index = Some x ->
  exists l1 l2, l = l1 ++ x :: l2 /\ len l1 = index.
Proof.
  unfold arr_get. destruct (Z.ltb_spec index 0); [discriminate|]. intros Hnth.
  apply nth_error_split in Hnth as (l1 & l2 & Hl & Hlen).
  exists l1, l2. split; [assumption|]. unfold len. lia.
Qed.

Lemma allNodes_values (n : Node) :
  allNodes valuesOk n = true -> forallb valuesOk (frag_content (n_content n)) = true.
Proof.
  intros H. apply allNodes_here in H as [_ H]. apply forallb_forall. intros c Hin.
  rewrite Forall_forall in H. specialize (H c Hin). now apply allNodes_here in H as [H _].
Qed.

Lemma copy_same (n : Node) :
  isText n = false -> wellFormedNode n = true -> copy n (n_content n) = n.
Proof.
  destruct n as [type attrs content marks | type attrs text marks]; [reflexivity|].
  unfold isText. simpl. congruence.
Qed.

Lemma text_child (c : Node) :
  isText c = true -> wellFormedNode c = true ->
  exists type attrs text marks, c = mkTextNode type attrs text marks.
Proof.
  destruct c as [type attrs content marks | type attrs text marks]; [|eauto].
  unfold isText. simpl. intros Ht H. rewrite Ht in H. discriminate.
Qed.

(** [replaceOuter] with the empty slice between a position and itself
    rebuilds every node on the way to the position as it was. *)
Lemma replaceOuter_along (node : Node) (start po : Z) (suffix : list PathElem) :
  Descent node start po suffix ->
  forall rp pre d levels,
    wellFormedNode node = true ->
    allNodes valuesOk node = true ->
    textJoined node = true ->
    Node_check node = Ok tt ->
    rp_path rp = pre ++ suffix ->
    len pre = 3 * d -> 0 <= d ->
    len (rp_path rp) = 3 * (rp_depth rp + 1) ->
    rp_pos rp = start + po ->
    levels = Z.to_nat (rp_depth rp - d) ->
    replaceOuter_levels levels rp rp Slice_empty d = Ok (copy node (n_content node)).
Proof.
  induction 1 as [node start po index offset Hf Hcase
                 | node start po index offset c rest Hf Hnz Hc Htext Hd IH];
    intros rp pre d levels Hwf Hvals Hjoined Hcheck Hpath Hlen H0 Hdepth Hpos Hlevels.
  - assert (Hhere : rp_depth rp = d).
    { rewrite Hpath, len_app, len_triple in Hdepth. lia. }
    destruct (path_at rp pre [] node index (start + offset) d Hpath Hlen H0)
      as [Hnode Hindex].
    destruct (wellFormed_content node Hwf) as [Hsize Hall].
    pose proof (allNodes_values node Hvals) as Hcvals.
    destruct (allNodes_here _ _ Hjoined) as [Hno _]. cbn beta in Hno.
    destruct (findIndex_found _ _ _ _ Hf) as [Hbound Hfound].
    assert (Hoff : textOffset rp = po - offset).
    { rewrite (textOffset_at rp pre node index (start + offset) Hpath), Hpos. lia. }
    assert (Htwo : replaceTwoWay rp rp d = Ok (n_content node)).
    { assert (Hwhole : Fragment_new (frag_content (n_content node)) None = n_content node).
      { unfold Fragment_new. rewrite <- Hsize. now destruct (n_content node). }
      destruct (Z.eq_dec (po - offset) 0) as [Hz | Hnz].
      - destruct (firstn_skipn_len (frag_content (n_content node)) index Hbound)
          as [Hsplit Hl1].
        rewrite <- Hl1 in Hindex. rewrite Hz in Hoff.
        rewrite (replaceTwoWay_between rp d node _ _ Hnode Hindex Hhere Hoff Hsplit).
        + now rewrite <- Hsplit, Hwhole.
        + now rewrite <- Hsplit.
        + now rewrite <- Hsplit.
      - destruct Hcase as [Hz | (c & Hc & Htext)]; [lia|].
        destruct Hfound as [-> | (c' & Hget & Hin)]; [lia|].
        apply child_In in Hc as [Hcin Hcget]. rewrite Hget in Hcget.
        inversion Hcget; subst c'. clear Hcget.
        assert (Hcwf : wellFormedNode c = true) by (rewrite Forall_forall in Hall; auto).
        destruct (text_child c Htext Hcwf) as (type & attrs & text & marks & ->).
        destruct (arr_get_split _ _ _ Hget) as (l1 & l2 & Hsplit & Hl1).
        rewrite <- Hl1 in Hindex. cbn [nodeSize] in Hin.
        rewrite (replaceTwoWay_inside rp d node l1 l2 Hnode Hindex Hhere type attrs text marks).
        + now rewrite <- Hsplit, Hwhole.
        + rewrite Hoff. lia.
        + exact Htext.
        + exact Hsplit.
        + now rewrite <- Hsplit.
        + now rewrite <- Hsplit. }
    subst levels. rewrite Hhere, Z.sub_diag. cbn [Z.to_nat replaceOuter_levels].
    rewrite Hindex, Hnode, Hhere. cbn [openStart Slice_empty sl_content frag_size Fragment_empty].
    rewrite Z.sub_0_r, Z.ltb_irrefl, andb_false_r. cbn [Z.eqb].
    rewrite Htwo. cbn [bind needNode]. unfold close.
    now rewrite (Node_check_content _ Hcheck).
  - destruct (Descent_len _ _ _ _ Hd) as (k & Hk & Hrest).
    assert (Hdeep : rp_depth rp = d + k).
    { rewrite Hpath, !len_app, len_triple, Hrest in Hdepth. lia. }
    destruct (path_at rp pre rest node index (start + offset) d Hpath Hlen H0)
      as [Hnode Hindex].
    destruct (wellFormed_content node Hwf) as [_ Hall].
    destruct (allNodes_here _ _ Hvals) as [_ Hcvals].
    destruct (allNodes_here _ _ Hjoined) as [_ Hcjoined].
    destruct (Node_check_parts _ Hcheck) as (_ & _ & Hcchecks).
    pose proof (child_In _ _ _ Hc) as [Hcin _].
    rewrite Forall_forall in Hall, Hcvals, Hcjoined, Hcchecks.
    subst levels.
    replace (Z.to_nat (rp_depth rp - d)) with (S (Z.to_nat (rp_depth rp - (d + 1)))) by lia.
    cbn [replaceOuter_levels]. rewrite Hindex, Hnode.
    cbn [openStart Slice_empty sameIndex]. rewrite Z.eqb_refl, Z.sub_0_r.
    destruct (Z.ltb_spec d (rp_depth rp)); [|lia]. cbn [andb].
    rewrite (IH rp (pre ++ [PNode node; PNum index; PNum (start + offset)]) (d + 1)
               (Z.to_nat (rp_depth rp - (d + 1))) (Hall c Hcin) (Hcvals c Hcin)
               (Hcjoined c Hcin) (Hcchecks c Hcin));
      [ | now rewrite <- app_assoc | rewrite len_app, len_triple; lia | lia
        | assumption | lia | reflexivity ].
    rewrite (copy_same c Htext (Hall c Hcin)).
    cbn [bind needNode]. now rewrite (replaceChild_same _ _ _ Hc).
Qed.

Lemma Node_eq_copy (n : Node) :
  allNodes valuesOk n = true -> Node_eq (copy n (n_content n)) n = true.
Proof.
  intros Hv. destruct n as [type attrs content marks | type attrs text marks].
  - now apply Node_eq_same.
  - destruct (allNodes_here _ _ Hv) as [Hn _].
    pose proof (sameMarkup_refl _ Hn) as Hsame.
    unfold copy. cbn [Node_eq]. unfold sameMarkup in *.
    cbn [n_type n_attrs n_marks n_content frag_content Fragment_empty] in *.
    now rewrite Hsame.
Qed.

(** C4, as stated. The document [Node.fromJSON] reads from the JSON of a
    paragraph with the text nodes ["a"] and ["b"] passes [check]; replacing
    the empty range at offset 1 by the empty slice joins the two text nodes
    into ["ab"], and the tree returned is not [eq] to the first. *)
Lemma replace_joins_adjacent_text :
  Node_fromJSON exampleSchema twoTextsDocJSON = Ok twoTextsDoc
  /\ Node_check twoTextsDoc = Ok tt
  /\ 0 <= 1 <= frag_size (n_content twoTextsDoc)
  /\ exists t',
      Node_replace twoTextsDoc 1 1 Slice_empty = Ok t'
      /\ frag_content (n_content t') = [paragraphOf [textOf_ "ab" []]]
      /\ Node_eq t' twoTextsDoc = false.
Proof.
  split; [vm_compute; reflexivity|]. split; [vm_compute; reflexivity|].
  split; [vm_compute; split; discriminate|].
  eexists. split; [vm_compute; reflexivity|]. split; vm_compute; reflexivity.
Qed.

(** C4, amended. In a tree whose nodes are well formed, whose neighbouring
    text nodes are joined and which passes [check], replacing the empty range
    at an offset inside the content by the empty slice gives a tree that is
    [eq] to the first. *)
Theorem replace_nothing_is_eq (t : Node) (p : Z) :
  wellFormedNode t = true ->
  allNodes valuesOk t = true ->
  textJoined t = true ->
  Node_check t = Ok tt ->
  0 <= p <= frag_size (n_content t) ->
  exists t',
    Node_replace t p p Slice_empty = Ok t'
    /\ Node_eq t' t = true.
Proof.
  intros Hwf Hvals Hjoined Hcheck Hp.
  exists (copy t (n_content t)). split; [|now apply Node_eq_copy].
  unfold Node_replace, resolve.
  destruct (Z.geb_spec p 0); [|lia].
  destruct (Z.leb_spec p (frag_size (n_content t))); [|lia]. cbn [andb negb].
  destruct (resolve_loop_inside (height t) t 0 p [] Hwf (Nat.le_refl _) Hp)
    as (path & po & k & Hloop & Hlen & Hk).
  rewrite Hloop. cbn [bind].
  destruct (resolve_loop_descent _ _ _ _ _ _ _ Hloop) as (suffix & Hpath & Hdescent).
  cbn [app] in Hpath. subst suffix.
  set (rp := ResolvedPos_new p path po).
  assert (Hdepth : rp_depth rp = k - 1).
  { unfold rp, ResolvedPos_new. cbn [rp_depth]. rewrite Hlen.
    change (len (@nil PathElem)) with 0. rewrite Z.add_0_l, Z.mul_comm, Z.div_mul; lia. }
  unfold replace. cbn [openStart openEnd Slice_empty].
  destruct (Z.gtb_spec 0 (rp_depth rp)); [lia|].
  rewrite Z.eqb_refl. cbn [negb]. unfold replaceOuter. cbn [openStart Slice_empty].
  apply (replaceOuter_along t 0 p path Hdescent rp [] 0); auto.
  - lia.
  - unfold rp at 1. unfold ResolvedPos_new. cbn [rp_path]. rewrite Hlen, Hdepth.
    change (len (@nil PathElem)) with 0. lia.
  - f_equal. lia.
Qed.

Lemma replace_nothing_is_eq_witness :
  wellFormedNode exampleDoc = true
  /\ allNodes valuesOk exampleDoc = true
  /\ textJoined exampleDoc = true
  /\ Node_check exampleDoc = Ok tt
  /\ 0 <= 2 <= frag_size (n_content exampleDoc)
  /\ exists t',
      Node_replace exampleDoc 2 2 Slice_empty = Ok t'
      /\ Node_eq t' exampleDoc = true.
Proof.
  assert (Hwf : wellFormedNode exampleDoc = true) by (vm_compute; reflexivity).
  assert (Hvals : allNodes valuesOk exampleDoc = true) by (vm_compute; reflexivity).
  assert (Hjoined : textJoined exampleDoc = true) by (vm_compute; reflexivity).
  assert (Hcheck : Node_check exampleDoc = Ok tt) by (vm_compute; reflexivity).
  assert (Hp : 0 <= 2 <= frag_size (n_content exampleDoc)) by (vm_compute; split; discriminate).
  exact (conj Hwf (conj Hvals (conj Hjoined (conj Hcheck (conj Hp
           (replace_nothing_is_eq exampleDoc 2 Hwf Hvals Hjoined Hcheck Hp)))))).
Defined.

(** * Further properties *)

(** ** Position maps (map.ts) *)

Lemma triples_ind (P : list Z -> Prop) :
  P [] -> (forall a, P [a]) -> (forall a b, P [a; b]) ->
  (forall a b c rest, P rest -> P (a :: b :: c :: rest)) ->
  forall l, P l.
Proof.
  intros H0 H1 H2 H3 l.
  assert (H : forall n l, (List.length l <= n)%nat -> P l).
  { induction n as [|n IH]; intros [|a [|b [|c rest]]] Hl; simpl in Hl; auto; try lia.
    apply H3, IH. lia. }
  apply (H (List.length l)). lia.
Qed.

Lemma map_loop_inverted (rest : list Z) :
  forall i diff pos assoc simple,
    map_loop true rest i diff pos assoc simple
    = map_loop false (inverseRanges (- diff) rest) i diff pos assoc simple.
Proof.
  induction rest as [| a | a b | r0 r1 r2 rest IH] using triples_ind;
    intros i diff pos assoc simple; try reflexivity.
  cbn [map_loop inverseRanges].
  replace (r0 + - diff - 0) with (r0 - diff) by lia.
  destruct (r0 - diff >? pos); [reflexivity|].
  destruct (pos <=? r0 - diff + r2); [reflexivity|].
  rewrite IH. do 2 f_equal. lia.
Qed.

(** X1. An inverted map whose array is made of whole triples maps every
    position as the plain map of the inverse change does: the ranges with
    their sizes swapped, each at its place in the new document. They give
    the same position, deletion info and recover value. *)
Theorem inverted_map_is_map_of_inverse (rs : list Z) (pos assoc : Z) (simple : bool) :
  triples rs = true ->
  StepMap__map (mkStepMap rs true) pos assoc simple
  = StepMap__map (mkStepMap (inverseRanges 0 rs) false) pos assoc simple.
Proof. intros _. unfold StepMap__map. cbn [inverted ranges]. apply map_loop_inverted. Qed.

Lemma inverted_map_is_map_of_inverse_witness :
  triples [2; 2; 3; 6; 1; 0] = true
  /\ StepMap__map (mkStepMap [2; 2; 3; 6; 1; 0] true) 7 1 false
     = StepMap__map (mkStepMap (inverseRanges 0 [2; 2; 3; 6; 1; 0]) false) 7 1 false.
Proof.
  assert (Htriples : triples [2; 2; 3; 6; 1; 0] = true) by reflexivity.
  exact (conj Htriples (inverted_map_is_map_of_inverse [2; 2; 3; 6; 1; 0] 7 1 false Htriples)).
Defined.

(** *** Order *)

Lemma map_loop_low (rest : list Z) :
  forall low i diff pos assoc,
    rangesOk low rest = true -> low <= pos ->
    match map_loop false rest i diff pos assoc true with
    | Position p => low + diff <= p
    | Result r => True
    end.
Proof.
  induction rest as [| a | a b | r0 r1 r2 rest IH] using triples_ind;
    intros low i diff pos assoc Hok Hlow; try discriminate.
  - simpl. lia.
  - cbn [rangesOk] in Hok. apply andb_prop in Hok as [Hok Hrest].
    apply andb_prop in Hok as [Hok Hn]. apply andb_prop in Hok as [Hs Ho].
    apply Z.leb_le in Hn, Hs, Ho. cbn [map_loop].
    rewrite Z.sub_0_r.
    destruct (Z.gtb_spec r0 pos); [lia|].
    destruct (Z.leb_spec pos (r0 + r1)).
    + repeat case_test; lia.
    + specialize (IH (r0 + r1) (i + 3) (diff + (r2 - r1)) pos assoc Hrest).
      destruct (map_loop false rest (i + 3) (diff + (r2 - r1)) pos assoc true); [|exact I].
      lia.
Qed.

Lemma map_loop_monotone (rest : list Z) :
  forall low i diff p q assoc,
    rangesOk low rest = true -> p <= q ->
    match map_loop false rest i diff p assoc true, map_loop false rest i diff q assoc true with
    | Position p', Position q' => p' <= q'
    | _, _ => True
    end.
Proof.
  induction rest as [| a | a b | r0 r1 r2 rest IH] using triples_ind;
    intros low i diff p q assoc Hok Hpq; try discriminate.
  - simpl. lia.
  - cbn [rangesOk] in Hok. apply andb_prop in Hok as [Hok Hrest].
    apply andb_prop in Hok as [Hok Hn]. apply andb_prop in Hok as [Hs Ho].
    apply Z.leb_le in Hn, Hs, Ho. cbn [map_loop].
    rewrite Z.sub_0_r.
    pose proof (map_loop_low rest (r0 + r1) (i + 3) (diff + (r2 - r1)) q assoc Hrest) as Hlow.
    specialize (IH (r0 + r1) (i + 3) (diff + (r2 - r1)) p q assoc Hrest Hpq).
    destruct (map_loop false rest (i + 3) (diff + (r2 - r1)) q assoc true) as [q' | ];
      destruct (map_loop false rest (i + 3) (diff + (r2 - r1)) p assoc true) as [p' | ];
      repeat (case_test; try lia; try exact I); try lia.
Qed.

Lemma inverseRanges_ok (ranges : list Z) :
  forall low shift,
    rangesOk low ranges = true -> rangesOk (low + shift) (inverseRanges shift ranges) = true.
Proof.
  induction ranges as [| a | a b | r0 r1 r2 rest IH] using triples_ind;
    intros low shift Hok; try discriminate; [reflexivity|].
  cbn [rangesOk inverseRanges] in *. apply andb_prop in Hok as [Hok Hrest].
  apply andb_prop in Hok as [Hok Hn]. apply andb_prop in Hok as [Hs Ho].
  apply Z.leb_le in Hn, Hs, Ho.
  specialize (IH (r0 + r1) (shift + (r2 - r1)) Hrest).
  replace (r0 + r1 + (shift + (r2 - r1))) with (r0 + shift + r2) in IH by lia.
  rewrite IH, andb_true_r.
  repeat (apply andb_true_intro; split); apply Z.leb_le; lia.
Qed.

Lemma map_loop_simple (inv : bool) (rest : list Z) :
  forall i diff pos assoc, exists p, map_loop inv rest i diff pos assoc true = Position p.
Proof.
  induction rest as [| a | a b | r0 r1 r2 rest IH] using triples_ind;
    intros i diff pos assoc; try (eexists; reflexivity).
  cbn [map_loop]. destruct (_ >? pos); [eexists; reflexivity|].
  destruct (pos <=? _); [eexists; reflexivity | apply IH].
Qed.

(** X2. A map whose ranges lie one after the other keeps the order of
    positions: of two positions the one that is not greater is mapped to a
    position that is not greater, by the map and by its inverse alike. *)
Theorem map_keeps_order (m : StepMap) (low p q assoc : Z) :
  rangesOk low (ranges m) = true ->
  p <= q ->
  StepMap_map m p assoc <= StepMap_map m q assoc.
Proof.
  intros Hok Hpq. unfold StepMap_map, StepMap__map.
  assert (H : exists low' rs,
             rangesOk low' rs = true
             /\ forall x, map_loop (inverted m) (ranges m) 0 0 x assoc true
                          = map_loop false rs 0 0 x assoc true).
  { destruct (inverted m).
    - exists (low + 0), (inverseRanges 0 (ranges m)). split.
      + now apply inverseRanges_ok.
      + intros x. apply (map_loop_inverted (ranges m) 0 0 x assoc true).
    - exists low, (ranges m). auto. }
  destruct H as (low' & rs & Hrs & Hsame). rewrite !Hsame.
  pose proof (map_loop_monotone rs low' 0 0 p q assoc Hrs Hpq) as H.
  destruct (map_loop_simple false rs 0 0 p assoc) as [p' Hp].
  destruct (map_loop_simple false rs 0 0 q assoc) as [q' Hq].
  rewrite Hp, Hq in *. exact H.
Qed.

Lemma map_keeps_order_witness :
  rangesOk 0 (ranges (getMap replaceByText)) = true
  /\ 1 <= 7
  /\ StepMap_map (getMap replaceByText) 1 1 <= StepMap_map (getMap replaceByText) 7 1.
Proof.
  assert (Hok : rangesOk 0 (ranges (getMap replaceByText)) = true) by (vm_compute; reflexivity).
  assert (Hpq : 1 <= 7) by lia.
  exact (conj Hok (conj Hpq (map_keeps_order (getMap replaceByText) 0 1 7 1 Hok Hpq))).
Defined.

(** *** Positions that are kept *)

Ltac case_test_in H :=
  match type of H with
  | context [if ?c then _ else _] =>
      lazymatch c with
      | context [if _ then _ else _] => fail
      | _ => idtac
      end;
      match c with
      | ?a >? ?b => destruct (Z.gtb_spec a b)
      | ?a <=? ?b => destruct (Z.leb_spec a b)
      | ?a <? ?b => destruct (Z.ltb_spec a b)
      | ?a =? ?b => destruct (Z.eqb_spec a b)
      | negb (?a =? ?b) => destruct (Z.eqb_spec a b); cbn [negb] in H
      end
  end.

Lemma single_range_kept (f o n p assoc : Z) :
  0 <= o -> 0 <= n ->
  deleted (StepMap_mapResult (mkStepMap [f; o; n] false) p assoc) = false ->
  StepMap_map (StepMap_invert (mkStepMap [f; o; n] false))
              (StepMap_map (mkStepMap [f; o; n] false) p assoc) assoc = p.
Proof.
  intros Ho Hn Hkept.
  unfold StepMap_map, StepMap_mapResult, StepMap__map, StepMap_invert, StepMap_new, deleted in *.
  cbn [map_loop inverted ranges negb] in *.
  repeat (case_test_in Hkept; cbn [mr_delInfo] in Hkept);
    try (vm_compute in Hkept; discriminate);
    repeat (case_test; cbn [mr_pos]); try lia.
Qed.

(** X3. For the map of a replace step, a position that [mapResult] does
    not report as deleted comes back: mapped through the map and then
    through the inverted map, on the same side, it is the position again.
    This covers an end of the replaced range when [assoc] points away from
    the deleted content. *)
Theorem kept_position_round_trip (s : ReplaceStep) (p assoc : Z) :
  rs_from s <= rs_to s ->
  0 <= Slice_size (rs_slice s) ->
  deleted (StepMap_mapResult (getMap (StepReplace s)) p assoc) = false ->
  StepMap_map (StepMap_invert (getMap (StepReplace s)))
              (StepMap_map (getMap (StepReplace s)) p assoc) assoc = p.
Proof.
  intros Hrange Hsize. cbn [getMap StepMap_new].
  apply single_range_kept; lia.
Qed.

Lemma kept_position_round_trip_witness :
  rs_from deleteParagraph <= rs_to deleteParagraph
  /\ 0 <= Slice_size (rs_slice deleteParagraph)
  /\ deleted (StepMap_mapResult (getMap (StepReplace deleteParagraph)) 3 1) = false
  /\ StepMap_map (StepMap_invert (getMap (StepReplace deleteParagraph)))
                 (StepMap_map (getMap (StepReplace deleteParagraph)) 3 1) 1 = 3.
Proof.
  assert (H1 : rs_from deleteParagraph <= rs_to deleteParagraph) by (vm_compute; discriminate).
  assert (H2 : 0 <= Slice_size (rs_slice deleteParagraph)) by (vm_compute; discriminate).
  assert (H3 : deleted (StepMap_mapResult (getMap (StepReplace deleteParagraph)) 3 1) = false)
    by (vm_compute; reflexivity).
  exact (conj H1 (conj H2 (conj H3 (kept_position_round_trip deleteParagraph 3 1 H1 H2 H3)))).
Defined.

(** *** Recovering a deleted position *)

Lemma recover_made (index offset : Z) :
  0 <= index < factor16 ->
  recoverIndex (makeRecover index offset) = index
  /\ recoverOffset (makeRecover index offset) = offset.
Proof.
  intros Hi. unfold recoverIndex, recoverOffset, makeRecover, lower16, factor16 in *.
  change 65535 with (Z.ones 16). rewrite Z.land_ones by lia.
  change (2 ^ 16) with 65536.
  rewrite Z.mod_add, Z.mod_small by lia.
  split; [reflexivity|]. replace (index + offset * 65536 - index) with (offset * 65536) by lia.
  apply Z.div_mul. lia.
Qed.

Lemma map_loop_recover (rest : list Z) :
  forall pre i pos assoc r value,
    len pre = i -> (exists k, i = 3 * k) ->
    forall diff,
      map_loop false rest i diff pos assoc false = Result r ->
      mr_recover r = Some value ->
      exists k offset,
        0 <= k /\ 3 * k < len (pre ++ rest)
        /\ value = makeRecover k offset
        /\ arr_get (pre ++ rest) (3 * k) = Some (pos - offset).
Proof.
  induction rest as [| a | a b | r0 r1 r2 rest IH] using triples_ind;
    intros pre i pos assoc r value Hlen [k0 Hk] diff Hr Hv;
    try (simpl in Hr; inversion Hr; subst; discriminate).
  cbn [map_loop] in Hr. rewrite Z.sub_0_r in Hr.
  destruct (Z.gtb_spec r0 pos); [inversion Hr; subst; discriminate|].
  destruct (Z.leb_spec pos (r0 + r1)).
  - inversion Hr; subst r. cbn [mr_recover] in Hv.
    destruct (pos =? (if assoc <? 0 then r0 else r0 + r1)); [discriminate|].
    inversion Hv; subst value. exists k0, (pos - r0).
    assert (Hdiv : i / 3 = k0) by (rewrite Hk, Z.mul_comm; apply Z.div_mul; lia).
    rewrite Hdiv. split; [unfold len in *; lia|].
    split; [rewrite len_app; unfold len in *; cbn [List.length]; lia|].
    split; [reflexivity|].
    rewrite (arr_get_app_right pre _ (3 * k0) 0) by lia.
    unfold arr_get. simpl. f_equal. lia.
  - assert (Hpre : r0 :: r1 :: r2 :: rest = [r0; r1; r2] ++ rest) by reflexivity.
    rewrite Hpre, app_assoc.
    apply (IH (pre ++ [r0; r1; r2]) (i + 3) pos assoc r value) with (diff := diff + (r2 - r1));
      auto.
    + rewrite len_app, len_triple. lia.
    + exists (k0 + 1). lia.
Qed.

Lemma recover_from_result (m : StepMap) (pos assoc value : Z) :
  inverted m = false ->
  len (ranges m) <= 3 * factor16 ->
  mr_recover (StepMap_mapResult m pos assoc) = Some value ->
  StepMap_recover (StepMap_invert m) value = Some pos.
Proof.
  intros Hinv Hlen Hrec. unfold StepMap_mapResult, StepMap__map in Hrec. rewrite Hinv in Hrec.
  destruct (map_loop false (ranges m) 0 0 pos assoc false) as [q | r] eqn:Hloop;
    [discriminate|].
  destruct (map_loop_recover (ranges m) [] 0 pos assoc r value eq_refl
              (ex_intro _ 0 eq_refl) 0 Hloop Hrec)
    as (k & offset & Hk & Hin & -> & Hget).
  cbn [app] in *.
  assert (Hsmall : 0 <= k < factor16) by lia.
  destruct (recover_made k offset Hsmall) as [Hi Ho].
  unfold StepMap_recover, StepMap_invert, StepMap_new. rewrite Hinv.
  destruct (ranges m) as [|r0 rest] eqn:Hranges.
  { unfold len in Hin. cbn [List.length] in Hin. lia. }
  cbn [inverted ranges negb]. rewrite Hi, Ho.
  replace (k * 3) with (3 * k) by lia. rewrite Hget. cbn [num_add]. f_equal. lia.
Qed.

(** X4. The value that [mapResult] gives to recover a position leads back
    to it: when a map with at most 65536 ranges maps a position and
    reports a recover value, [recover] of the inverted map with that value is
    the position. *)
Theorem recover_gives_position (m : StepMap) (pos assoc value : Z) :
  inverted m = false ->
  len (ranges m) <= 3 * factor16 ->
  mr_recover (StepMap_mapResult m pos assoc) = Some value ->
  StepMap_recover (StepMap_invert m) value = Some pos.
Proof. apply recover_from_result. Qed.

Lemma recover_gives_position_witness :
  inverted (getMap (StepReplace deleteParagraph)) = false
  /\ len (ranges (getMap (StepReplace deleteParagraph))) <= 3 * factor16
  /\ mr_recover (StepMap_mapResult (getMap (StepReplace deleteParagraph)) 2 1)
     = Some (makeRecover 0 2)
  /\ StepMap_recover (StepMap_invert (getMap (StepReplace deleteParagraph))) (makeRecover 0 2)
     = Some 2.
Proof.
  assert (H1 : inverted (getMap (StepReplace deleteParagraph)) = false) by reflexivity.
  assert (H2 : len (ranges (getMap (StepReplace deleteParagraph))) <= 3 * factor16)
    by (vm_compute; discriminate).
  assert (H3 : mr_recover (StepMap_mapResult (getMap (StepReplace deleteParagraph)) 2 1)
               = Some (makeRecover 0 2)) by (vm_compute; reflexivity).
  exact (conj H1 (conj H2 (conj H3
           (recover_gives_position (getMap (StepReplace deleteParagraph)) 2 1 _ H1 H2 H3)))).
Defined.

(** *** Mappings *)

Lemma Mapping_loop_step (m : Mapping) (turns : nat) (i : Z) (pos : Num) (assoc delInfo : Z) :
  Mapping_loop m (S turns) i pos assoc delInfo =
  if i <? mp_to m then
    match arr_get (mp_maps m) i with
    | None => Throw (TypeError "Cannot read properties of undefined (reading 'mapResult')")
    | Some map =>
        let '(mapped, del, recover) := mapResult_num map pos assoc in
        let mirror := match recover with
                      | Some value =>
                          match Mapping_getMirror m i with
                          | Some corr =>
                              if (corr >? i) && (corr <? mp_to m) then Some (corr, value)
                              else None
                          | None => None
                          end
                      | None => None
                      end in
        match mirror with
        | Some (corr, value) =>
            match arr_get (mp_maps m) corr with
            | None =>
                Throw (TypeError "Cannot read properties of undefined (reading 'recover')")
            | Some other =>
                Mapping_loop m turns (corr + 1) (StepMap_recover other value) assoc delInfo
            end
        | None => Mapping_loop m turns (i + 1) mapped assoc (Z.lor delInfo del)
        end
    end
  else Ok (pos, delInfo).
Proof. reflexivity. Qed.

Lemma single_range_not_recovered (f o n pos assoc : Z) :
  0 <= o -> 0 <= n ->
  mr_recover (StepMap_mapResult (mkStepMap [f; o; n] false) pos assoc) = None ->
  mr_pos (StepMap_mapResult (mkStepMap [f; o; n] true)
            (mr_pos (StepMap_mapResult (mkStepMap [f; o; n] false) pos assoc)) assoc) = pos.
Proof.
  intros Ho Hn Hnone.
  unfold StepMap_mapResult, StepMap__map in *. cbn [map_loop inverted ranges] in *.
  repeat (case_test_in Hnone; cbn [mr_recover] in Hnone); try discriminate;
    cbn [mr_pos]; repeat (case_test; cbn [mr_pos] in *); try lia.
Qed.

Lemma mirrored_single_range (f o n pos assoc : Z) :
  0 <= o -> 0 <= n ->
  Mapping_map
    (Mapping_appendMap
       (Mapping_appendMap (Mapping_new None None) (mkStepMap [f; o; n] false) None)
       (StepMap_invert (mkStepMap [f; o; n] false)) (Some 0))
    pos assoc = Ok (Some pos).
Proof.
  intros Ho Hn.
  set (forth := mkStepMap [f; o; n] false). set (back := mkStepMap [f; o; n] true).
  change (Mapping_appendMap (Mapping_appendMap (Mapping_new None None) forth None)
                            (StepMap_invert forth) (Some 0))
    with (mkMapping [forth; back] (Some [1; 0]) 0 2).
  unfold Mapping_map, Mapping__map. cbn [mp_mirror mp_to mp_from].
  change (Z.to_nat (2 - 0)) with 2%nat.
  rewrite Mapping_loop_step. cbn [mp_to mp_maps].
  change (0 <? 2) with true. cbv iota.
  change (arr_get [forth; back] 0) with (Some forth). cbv iota.
  unfold mapResult_num at 1.
  change (Mapping_getMirror (mkMapping [forth; back] (Some [1; 0]) 0 2) 0) with (Some 1).
  destruct (mr_recover (StepMap_mapResult forth pos assoc)) as [value|] eqn:Hrec.
  - change ((1 >? 0) && (1 <? 2)) with true. cbv iota.
    change (arr_get [forth; back] 1) with (Some back). cbv iota.
    rewrite Mapping_loop_step. cbn [mp_to]. change (1 + 1 <? 2) with false. cbv iota.
    cbn [bind fst]. f_equal.
    apply (recover_from_result forth pos assoc value); [reflexivity | | exact Hrec].
    unfold forth, len, factor16. simpl. lia.
  - cbv iota. rewrite Mapping_loop_step. cbn [mp_to mp_maps].
    change (0 + 1 <? 2) with true. cbv iota.
    change (arr_get [forth; back] (0 + 1)) with (Some back). cbv iota.
    unfold mapResult_num.
    change (Mapping_getMirror (mkMapping [forth; back] (Some [1; 0]) 0 2) (0 + 1))
      with (Some 0).
    destruct (mr_recover (StepMap_mapResult back _ assoc)); cbv iota beta;
      try change ((0 >? 0 + 1) && (0 <? 2)) with false; cbv iota;
      cbn [Mapping_loop bind fst]; do 2 f_equal;
      now apply single_range_not_recovered.
Qed.

(** X5. A mapping that holds the map of a replace step and, as its mirror,
    the inverted map gives every position back, whether the step deleted it
    or not: where the map reports a recover value the mapping jumps to the
    mirror and recovers the position. *)
Theorem mirrored_mapping_is_identity (s : ReplaceStep) (pos assoc : Z) :
  rs_from s <= rs_to s ->
  0 <= Slice_size (rs_slice s) ->
  Mapping_map
    (Mapping_appendMap
       (Mapping_appendMap (Mapping_new None None) (getMap (StepReplace s)) None)
       (StepMap_invert (getMap (StepReplace s))) (Some 0))
    pos assoc = Ok (Some pos).
Proof.
  intros Hrange Hsize. cbn [getMap StepMap_new]. apply mirrored_single_range; lia.
Qed.

Lemma mirrored_mapping_is_identity_witness :
  rs_from deleteParagraph <= rs_to deleteParagraph
  /\ 0 <= Slice_size (rs_slice deleteParagraph)
  /\ Mapping_map
       (Mapping_appendMap
          (Mapping_appendMap (Mapping_new None None) (getMap (StepReplace deleteParagraph)) None)
          (StepMap_invert (getMap (StepReplace deleteParagraph))) (Some 0))
       2 1 = Ok (Some 2).
Proof.
  assert (H1 : rs_from deleteParagraph <= rs_to deleteParagraph) by (vm_compute; discriminate).
  assert (H2 : 0 <= Slice_size (rs_slice deleteParagraph)) by (vm_compute; discriminate).
  exact (conj H1 (conj H2 (mirrored_mapping_is_identity deleteParagraph 2 1 H1 H2))).
Defined.

Lemma Mapping_plain_appended (maps : list StepMap) (map : StepMap) (mirror : option (list Z))
    (from to from' to' assoc : Z) (turns : nat) :
  forall i pos,
    0 <= i -> i + Z.of_nat turns = len maps ->
    exists q,
      Mapping_plain (mkMapping maps mirror from to) turns i pos assoc = Ok q
      /\ Mapping_plain (mkMapping (maps ++ [map]) mirror from' to') (S turns) i pos assoc
         = Ok (StepMap_map map q assoc).
Proof.
  induction turns as [|turns IH]; intros i pos Hi Hlen.
  - exists pos. split; [reflexivity|]. cbn [Mapping_plain mp_maps].
    rewrite (arr_get_app_right maps [map] i 0) by lia. reflexivity.
  - assert (Hin : exists found, arr_get maps i = Some found).
    { unfold arr_get. destruct (Z.ltb_spec i 0); [lia|].
      destruct (nth_error maps (Z.to_nat i)) eqn:Hn; [eauto|].
      apply nth_error_None in Hn. unfold len in Hlen. lia. }
    destruct Hin as [found Hfound].
    destruct (IH (i + 1) (StepMap_map found pos assoc)) as (q & Hq & Happ); [lia | lia |].
    exists q. split.
    + cbn [Mapping_plain mp_maps]. rewrite Hfound. exact Hq.
    + change (Mapping_plain (mkMapping (maps ++ [map]) mirror from' to') (S (S turns)) i pos assoc)
        with (match arr_get (maps ++ [map]) i with
              | None => Throw (TypeError "Cannot read properties of undefined (reading 'map')")
              | Some m =>
                  Mapping_plain (mkMapping (maps ++ [map]) mirror from' to') (S turns) (i + 1)
                                (StepMap_map m pos assoc) assoc
              end).
      assert (Hleft : arr_get (maps ++ [map]) i = Some found).
      { unfold arr_get in *. destruct (Z.ltb_spec i 0); [lia|].
        rewrite nth_error_app1; [assumption|]. apply nth_error_Some. congruence. }
      rewrite Hleft. exact Happ.
Qed.

(** X6. Appending a map to a mapping without mirrors composes: the longer
    mapping maps a position to what the appended map makes of the position
    the shorter mapping gives. *)
Theorem appendMap_composes (m : Mapping) (map : StepMap) (pos assoc : Z) :
  mp_mirror m = None ->
  0 <= mp_from m <= mp_to m ->
  mp_to m = len (mp_maps m) ->
  exists q,
    Mapping_map m pos assoc = Ok (Some q)
    /\ Mapping_map (Mapping_appendMap m map None) pos assoc
       = Ok (Some (StepMap_map map q assoc)).
Proof.
  intros Hmirror Hfrom Hto. destruct m as [maps mirror from to]. cbn in *. subst mirror to.
  unfold Mapping_map, Mapping_appendMap. cbn [mp_mirror mp_from mp_to mp_maps].
  destruct (Mapping_plain_appended maps map None from (len maps) from (len (maps ++ [map]))
              assoc (Z.to_nat (len maps - from)) from pos) as (q & Hq & Happ); [lia | lia |].
  exists q. rewrite Hq. split; [reflexivity|].
  replace (Z.to_nat (len (maps ++ [map]) - from)) with (S (Z.to_nat (len maps - from))).
  - now rewrite Happ.
  - rewrite len_app. unfold len in *. cbn [List.length]. lia.
Qed.

Lemma appendMap_composes_witness :
  mp_mirror (Mapping_new (Some [getMap replaceByText]) None) = None
  /\ 0 <= mp_from (Mapping_new (Some [getMap replaceByText]) None)
          <= mp_to (Mapping_new (Some [getMap replaceByText]) None)
  /\ mp_to (Mapping_new (Some [getMap replaceByText]) None)
     = len (mp_maps (Mapping_new (Some [getMap replaceByText]) None))
  /\ exists q,
      Mapping_map (Mapping_new (Some [getMap replaceByText]) None) 7 1 = Ok (Some q)
      /\ Mapping_map (Mapping_appendMap (Mapping_new (Some [getMap replaceByText]) None)
                                        (StepMap_offset 2) None) 7 1
         = Ok (Some (StepMap_map (StepMap_offset 2) q 1)).
Proof.
  assert (H1 : mp_mirror (Mapping_new (Some [getMap replaceByText]) None) = None)
    by reflexivity.
  assert (H2 : 0 <= mp_from (Mapping_new (Some [getMap replaceByText]) None)
                  <= mp_to (Mapping_new (Some [getMap replaceByText]) None))
    by (vm_compute; split; discriminate).
  assert (H3 : mp_to (Mapping_new (Some [getMap replaceByText]) None)
               = len (mp_maps (Mapping_new (Some [getMap replaceByText]) None)))
    by reflexivity.
  exact (conj H1 (conj H2 (conj H3
           (appendMap_composes (Mapping_new (Some [getMap replaceByText]) None)
                               (StepMap_offset 2) 7 1 H1 H2 H3)))).
Defined.

(** X7. [StepMap.offset(n)] moves positions by [n]: with a side that is
    not negative, a position that is not negative is mapped to itself plus
    [n], and to 0 where that would be negative. *)
Theorem offset_moves_positions (n pos assoc : Z) :
  0 <= pos -> 0 <= assoc ->
  StepMap_map (StepMap_offset n) pos assoc = Z.max (pos + n) 0.
Proof.
  intros Hpos Hassoc. unfold StepMap_offset, StepMap_map, StepMap__map, StepMap_new.
  destruct (Z.eqb_spec n 0) as [-> | Hn].
  - simpl. lia.
  - destruct (Z.ltb_spec n 0); cbn [map_loop inverted ranges];
      repeat (case_test; cbn [mr_pos]); lia.
Qed.

Lemma offset_moves_positions_witness :
  0 <= 5 /\ 0 <= 1 /\ StepMap_map (StepMap_offset (-2)) 5 1 = Z.max (5 + -2) 0.
Proof.
  assert (H1 : 0 <= 5) by lia. assert (H2 : 0 <= 1) by lia.
  exact (conj H1 (conj H2 (offset_moves_positions (-2) 5 1 H1 H2))).
Defined.

(** ** Fragments (fragment.ts) *)

Lemma findIndex_loop_returns (cs : list Node) :
  forall i curPos pos round,
    Forall (fun c => 0 <= nodeSize c) cs ->
    curPos < pos -> pos <= curPos + sumSizes cs ->
    exists index offset, findIndex_loop cs i curPos pos round = Ok (index, offset).
Proof.
  induction cs as [|c cs IH]; intros i curPos pos round Hall Hlo Hhi.
  - change (sumSizes []) with 0 in Hhi. lia.
  - inversion Hall as [|? ? Hc Hcs]; subst. rewrite sumSizes_cons in Hhi.
    cbn [findIndex_loop].
    destruct (Z.geb_spec (curPos + nodeSize c) pos).
    + destruct ((curPos + nodeSize c =? pos) || (round >? 0)); eauto.
    + apply IH; auto; lia.
Qed.

Lemma findIndex_loop_offset (cs : list Node) :
  forall pre i curPos pos round index offset,
    i = len pre -> curPos = sumSizes pre ->
    findIndex_loop cs i curPos pos round = Ok (index, offset) ->
    i <= index <= i + len cs
    /\ offset = sumSizes (firstn (Z.to_nat index) (pre ++ cs))
    /\ (if round >? 0 then pos <= offset else curPos < pos -> offset <= pos).
Proof.
  induction cs as [|c cs IH]; intros pre i curPos pos round index offset Hi Hcur;
    cbn [findIndex_loop]; [discriminate|].
  assert (Hlen : len (c :: cs) = 1 + len cs) by (unfold len; cbn [List.length]; lia).
  assert (Hnn : 0 <= len cs) by (unfold len; lia).
  destruct (Z.geb_spec (curPos + nodeSize c) pos) as [Hge | Hlt].
  - destruct ((curPos + nodeSize c =? pos) || (round >? 0)) eqn:Hround;
      intros H; inversion H; subst index offset; clear H.
    + split; [lia|]. split.
      * replace (Z.to_nat (i + 1)) with (List.length (pre ++ [c]))
          by (rewrite length_app; unfold len in Hi; cbn [List.length]; lia).
        replace (pre ++ c :: cs) with ((pre ++ [c]) ++ cs) by (now rewrite <- app_assoc).
        rewrite firstn_length_app, sumSizes_app, sumSizes_cons. subst curPos.
        change (sumSizes []) with 0. lia.
      * destruct (Z.gtb_spec round 0); [lia|].
        rewrite orb_false_r in Hround. apply Z.eqb_eq in Hround. lia.
    + split; [lia|]. split.
      * replace (Z.to_nat i) with (List.length pre) by (unfold len in Hi; lia).
        rewrite firstn_length_app. now subst curPos.
      * apply orb_false_elim in Hround as [_ Hr]. rewrite Hr. lia.
  - intros H.
    destruct (IH (pre ++ [c]) (i + 1) (curPos + nodeSize c) pos round index offset) as
      (Hidx & Hoff & Hside).
    + rewrite len_app. unfold len in *. cbn [List.length]. lia.
    + rewrite sumSizes_app, sumSizes_cons. subst curPos. change (sumSizes []) with 0. lia.
    + exact H.
    + split; [lia|]. split.
      * now rewrite <- app_assoc in Hoff.
      * destruct (round >? 0); [exact Hside | intros _; apply Hside; lia].
Qed.

(** X8. [findIndex] on a fragment that holds its size, whose children have
    sizes that are not negative: for a position outside [0, size] it throws
    a [RangeError]; for a position inside it returns an index into the
    children, or their number, with the offset at which that child starts,
    the sum of the sizes of the children before it. The offset is not after
    the position when rounding down and not before it when rounding up. *)
Theorem findIndex_finds_child (f : Fragment) (pos round : Z) :
  frag_size f = sumSizes (frag_content f) ->
  Forall (fun c => 0 <= nodeSize c) (frag_content f) ->
  if (0 <=? pos) && (pos <=? frag_size f) then
    exists index offset,
      findIndex f pos round = Ok (index, offset)
      /\ 0 <= index <= childCount f
      /\ offset = sumSizes (firstn (Z.to_nat index) (frag_content f))
      /\ if round >? 0 then pos <= offset else offset <= pos
  else exists message, findIndex f pos round = Throw (RangeError message).
Proof.
  intros Hsize Hall. unfold findIndex, childCount.
  assert (Hnn : 0 <= sumSizes (frag_content f)) by (now apply sumSizes_nonneg).
  destruct (Z.leb_spec 0 pos) as [H0 | H0]; cbn [andb].
  - destruct (Z.leb_spec pos (frag_size f)) as [H1 | H1].
    + destruct (Z.eqb_spec pos 0) as [-> | Hnz].
      { exists 0, 0. split; [reflexivity|]. split; [unfold len; lia|].
        split; [reflexivity|]. destruct (round >? 0); lia. }
      destruct (Z.eqb_spec pos (frag_size f)) as [-> | Hns].
      { exists (len (frag_content f)), (frag_size f). split; [reflexivity|].
        split; [unfold len; lia|]. split.
        - unfold len. rewrite Nat2Z.id, firstn_all. exact Hsize.
        - destruct (round >? 0); lia. }
      destruct (Z.gtb_spec pos (frag_size f)); [lia|].
      destruct (Z.ltb_spec pos 0); [lia|]. cbn [orb].
      destruct (findIndex_loop_returns (frag_content f) 0 0 pos round Hall) as
        (index & offset & Hloop); try lia.
      destruct (findIndex_loop_offset (frag_content f) [] 0 0 pos round index offset
                  eq_refl eq_refl Hloop) as (Hidx & Hoff & Hside).
      exists index, offset. split; [exact Hloop|]. split; [lia|]. split; [exact Hoff|].
      destruct (round >? 0); [exact Hside | apply Hside; lia].
    + destruct (Z.eqb_spec pos 0); [lia|]. destruct (Z.eqb_spec pos (frag_size f)); [lia|].
      destruct (Z.gtb_spec pos (frag_size f)); [|lia]. cbn [orb]. eauto.
  - destruct (Z.eqb_spec pos 0); [lia|].
    destruct (Z.eqb_spec pos (frag_size f)); [lia|].
    destruct (Z.ltb_spec pos 0); [|lia]. rewrite orb_true_r. eauto.
Qed.

Lemma findIndex_finds_child_witness :
  frag_size (n_content exampleDoc) = sumSizes (frag_content (n_content exampleDoc))
  /\ Forall (fun c => 0 <= nodeSize c) (frag_content (n_content exampleDoc))
  /\ if (0 <=? 5) && (5 <=? frag_size (n_content exampleDoc)) then
       exists index offset,
         findIndex (n_content exampleDoc) 5 1 = Ok (index, offset)
         /\ 0 <= index <= childCount (n_content exampleDoc)
         /\ offset = sumSizes (firstn (Z.to_nat index) (frag_content (n_content exampleDoc)))
         /\ if 1 >? 0 then 5 <= offset else offset <= 5
     else exists message, findIndex (n_content exampleDoc) 5 1 = Throw (RangeError message).
Proof.
  assert (Hsize : frag_size (n_content exampleDoc)
                  = sumSizes (frag_content (n_content exampleDoc)))
    by (vm_compute; reflexivity).
  assert (Hall : Forall (fun c => 0 <= nodeSize c) (frag_content (n_content exampleDoc)))
    by (repeat constructor; vm_compute; discriminate).
  exact (conj Hsize (conj Hall (findIndex_finds_child (n_content exampleDoc) 5 1 Hsize Hall))).
Defined.

(** ** Values and attributes (comparedeep.ts, schema.ts) *)



(** X10. [computeAttrs] on an object of given values: when every attribute
    of the table that the object leaves undefined has a default, the result
    has the attributes of the table in their order, each with the given
    value or else its default; otherwise it throws a [RangeError] that names
    an attribute without default that was not given. *)
Theorem computeAttrs_given_or_default (table : AttrTable) (given : Attrs) :
  if forallb (fun na => match getProp (JObj given) (fst na) with
                        | JUndefined => hasDefault (snd na)
                        | _ => true
                        end) table
  then computeAttrs table (JObj given)
       = Ok (map (fun na => (fst na, match getProp (JObj given) (fst na) with
                                     | JUndefined => default (snd na)
                                     | value => value
                                     end)) table)
  else exists name attr,
      In (name, attr) table /\ hasDefault attr = false
      /\ getProp (JObj given) name = JUndefined
      /\ computeAttrs table (JObj given)
         = Throw (RangeError (String.append "No value supplied for attribute " name)).
Proof.
  induction table as [|[name attr] table IH]; [reflexivity|].
  cbn [forallb computeAttrs map fst snd truthy].
  destruct (getProp (JObj given) name) eqn:Hgiven;
    try (destruct (forallb _ table);
         [ rewrite IH; reflexivity
         | destruct IH as (name' & attr' & Hin & Hd & Hu & Hthrow);
           exists name', attr'; rewrite Hthrow; repeat split; auto; now right ]).
  destruct (hasDefault attr) eqn:Hdefault; cbn [andb].
  - destruct (forallb _ table).
    + rewrite IH. reflexivity.
    + destruct IH as (name' & attr' & Hin & Hd & Hu & Hthrow).
      exists name', attr'. rewrite Hthrow. repeat split; auto. now right.
  - exists name, attr. repeat split; auto. now left.
Qed.

(** X11. [computeAttrs] without an object of values. On [null] it never
    throws: [null && null[name]] is [null], not [undefined], so every
    attribute gets the value [null], also one without default. On
    [undefined] and on an object without properties it gives what
    [defaultAttrs] gives when every attribute has a default; when
    [defaultAttrs] gives [null], an attribute has no default and
    [computeAttrs] throws a [RangeError]. *)
Theorem computeAttrs_without_values (table : AttrTable) :
  computeAttrs table JNull = Ok (map (fun na => (fst na, JNull)) table)
  /\ match defaultAttrs table with
     | Some defaults =>
         computeAttrs table JUndefined = Ok defaults
         /\ computeAttrs table (JObj []) = Ok defaults
         /\ forallb (fun na => hasDefault (snd na)) table = true
     | None =>
         exists name attr message,
           In (name, attr) table /\ hasDefault attr = false
           /\ computeAttrs table JUndefined = Throw (RangeError message)
           /\ computeAttrs table (JObj []) = Throw (RangeError message)
     end.
Proof.
  split.
  - induction table as [|[name attr] table IH]; [reflexivity|].
    cbn [computeAttrs truthy map fst]. now rewrite IH.
  - induction table as [|[name attr] table IH]; [repeat split|].
    cbn [defaultAttrs computeAttrs truthy getProp lookup forallb snd].
    destruct (hasDefault attr) eqn:Hdefault.
    + destruct (defaultAttrs table) as [defaults|].
      * destruct IH as (H1 & H2 & H3). rewrite H1, H2, H3. repeat split.
      * destruct IH as (name' & attr' & message & Hin & Hd & H1 & H2).
        exists name', attr', message. rewrite H1, H2. repeat split; auto. now right.
    + exists name, attr. eexists. repeat split; auto. now left.
Qed.

(** ** Mark sets (mark.ts) *)

Lemma insertByRank_sorted (m : Mark) (sorted : list Mark) :
  rankSorted sorted = true -> rankSorted (insertByRank m sorted) = true.
Proof.
  induction sorted as [|x sorted IH]; [reflexivity|].
  cbn [insertByRank rankSorted]. intros H. apply andb_prop in H as [Hx Hs].
  fold (rank m). fold (rank x).
  destruct (Z.ltb_spec (rank m) (rank x)) as [Hlt | Hge].
  - cbn [rankSorted forallb]. rewrite Hx, Hs, !andb_true_r.
    apply andb_true_intro. split; [apply Z.leb_le; lia|].
    rewrite forallb_forall in *. intros y Hy. specialize (Hx y Hy).
    apply Z.leb_le in Hx. apply Z.leb_le. lia.
  - cbn [rankSorted]. rewrite (IH Hs), andb_true_r.
    rewrite forallb_forall in *. intros y Hy.
    assert (Hcases : y = m \/ In y sorted).
    { clear - Hy. induction sorted as [|z sorted IHs]; cbn [insertByRank] in Hy.
      - destruct Hy as [-> | []]. now left.
      - destruct (mt_rank (m_type m) <? mt_rank (m_type z)).
        + destruct Hy as [-> | Hy]; [now left | now right].
        + destruct Hy as [-> | Hy]; [right; now left|].
          destruct (IHs Hy) as [-> | Hin]; [now left | right; now right]. }
    destruct Hcases as [-> | Hin]; [apply Z.leb_le; lia | now apply Hx].
Qed.

Lemma insertByRank_permutation (m : Mark) (sorted : list Mark) :
  Permutation (m :: sorted) (insertByRank m sorted).
Proof.
  induction sorted as [|x sorted IH]; [apply Permutation_refl|].
  cbn [insertByRank]. destruct (mt_rank (m_type m) <? mt_rank (m_type x)).
  - apply Permutation_refl.
  - eapply Permutation_trans; [apply perm_swap|]. now apply perm_skip.
Qed.

Lemma sortByRank_loop (marks : list Mark) :
  forall acc, rankSorted acc = true ->
    rankSorted (fold_left (fun acc m => insertByRank m acc) marks acc) = true
    /\ Permutation (acc ++ marks) (fold_left (fun acc m => insertByRank m acc) marks acc).
Proof.
  induction marks as [|m marks IH]; intros acc Hacc; cbn [fold_left].
  - split; [exact Hacc|]. rewrite app_nil_r. apply Permutation_refl.
  - destruct (IH (insertByRank m acc) (insertByRank_sorted m acc Hacc)) as [Hs Hp].
    split; [exact Hs|]. eapply Permutation_trans; [|exact Hp].
    pose proof (Permutation_app_tail marks (insertByRank_permutation m acc)) as Hins.
    eapply Permutation_trans; [|exact Hins].
    change (acc ++ m :: marks) with (acc ++ [m] ++ marks). rewrite app_assoc.
    apply Permutation_app_tail. apply Permutation_sym, Permutation_cons_append.
Qed.

(** X12. [Mark.setFrom] on an array of marks gives the same marks ordered by
    rank, whatever their order in the array; an array that is ordered
    already comes back as it is. *)
Theorem setFrom_orders_by_rank (marks : list Mark) :
  rankSorted (setFrom (Some marks)) = true
  /\ Permutation marks (setFrom (Some marks))
  /\ if rankSorted marks then setFrom (Some marks) = marks else True.
Proof.
  assert (Hloop := sortByRank_loop marks [] eq_refl).
  destruct marks as [|m marks]; [repeat split; constructor|].
  unfold setFrom. fold (sortByRank (m :: marks)). unfold sortByRank.
  destruct Hloop as [Hs Hp]. split; [exact Hs|]. split; [exact Hp|].
  destruct (rankSorted (m :: marks)) eqn:Hsorted; [|exact I].
  now apply (sortByRank_from (m :: marks) []).
Qed.

Lemma removeFromSet_loop (m : Mark) (set : list Mark) :
  forall rest pre,
    (fix go (pre rest : list Mark) : list Mark :=
       match rest with
       | [] => set
       | x :: rest' => if Mark_eq m x then pre ++ rest' else go (pre ++ [x]) rest'
       end) pre rest
    = if Mark_isInSet m rest
      then pre ++ (fix without (rest : list Mark) : list Mark :=
                     match rest with
                     | [] => []
                     | x :: rest' => if Mark_eq m x then rest' else x :: without rest'
                     end) rest
      else set.
Proof.
  induction rest as [|x rest IH]; intros pre; [reflexivity|].
  unfold Mark_isInSet. cbn [existsb]. destruct (Mark_eq m x); [reflexivity|].
  cbn [orb]. rewrite IH. unfold Mark_isInSet.
  destruct (existsb (Mark_eq m) rest); [|reflexivity]. now rewrite <- app_assoc.
Qed.

(** X13. [removeFromSet] takes the first member that is equal to the mark
    out of the set and leaves the others in their order; a set without such
    a member comes back as it is. From a set without duplicates the result
    has no member equal to the mark. *)
Theorem removeFromSet_takes_first_equal (m : Mark) (set : list Mark) :
  forallb Mark_ok (m :: set) = true ->
  if Mark_isInSet m set then
    exists pre x post,
      set = pre ++ x :: post
      /\ Mark_isInSet m pre = false
      /\ Mark_eq m x = true
      /\ Mark_removeFromSet m set = pre ++ post
      /\ if deduplicated set then Mark_isInSet m (Mark_removeFromSet m set) = false else True
  else Mark_removeFromSet m set = set.
Proof.
  intros Hok. unfold Mark_removeFromSet. rewrite (removeFromSet_loop m set set []).
  destruct (Mark_isInSet m set) eqn:Hin; [|reflexivity].
  cbn [forallb] in Hok. apply andb_prop in Hok as [Hm Hset].
  cbn [app]. clear - Hin Hm Hset. induction set as [|y set IH]; [discriminate|].
  unfold Mark_isInSet in Hin. cbn [existsb] in Hin.
  cbn [forallb] in Hset. apply andb_prop in Hset as [Hy Hset].
  destruct (Mark_eq m y) eqn:Hmy.
  - exists [], y, set. repeat split; auto.
    destruct (deduplicated (y :: set)) eqn:Hd; [|exact I].
    cbn [deduplicated] in Hd. apply andb_prop in Hd as [Hothers _].
    unfold Mark_isInSet. destruct (existsb (Mark_eq m) set) eqn:Hex; [|reflexivity].
    apply existsb_exists in Hex as (z & Hz & Hmz).
    rewrite forallb_forall in Hothers, Hset. specialize (Hothers z Hz).
    apply andb_prop in Hothers as [Hyz _].
    rewrite (Mark_eq_sym m y) in Hmy by auto.
    now rewrite (Mark_eq_trans y m z Hmy Hmz) in Hyz.
  - cbn [orb] in Hin. destruct (IH Hset Hin) as (pre & x & post & Hsplit & Hpre & Hx & Hres & Hdd).
    exists (y :: pre), x, post. rewrite Hres. repeat split.
    + now rewrite Hsplit.
    + unfold Mark_isInSet in *. cbn [existsb]. now rewrite Hmy, Hpre.
    + exact Hx.
    + destruct (deduplicated (y :: set)) eqn:Hd; [|exact I].
      cbn [deduplicated] in Hd. apply andb_prop in Hd as [_ Hd]. rewrite Hd, Hres in Hdd.
      unfold Mark_isInSet in *. cbn [app existsb]. now rewrite Hmy, Hdd.
Qed.

Lemma removeFromSet_takes_first_equal_witness :
  forallb Mark_ok [strongMark; emMark; strongMark] = true
  /\ if Mark_isInSet strongMark [emMark; strongMark] then
       exists pre x post,
         [emMark; strongMark] = pre ++ x :: post
         /\ Mark_isInSet strongMark pre = false
         /\ Mark_eq strongMark x = true
         /\ Mark_removeFromSet strongMark [emMark; strongMark] = pre ++ post
         /\ if deduplicated [emMark; strongMark]
            then Mark_isInSet strongMark (Mark_removeFromSet strongMark [emMark; strongMark])
                 = false
            else True
     else Mark_removeFromSet strongMark [emMark; strongMark] = [emMark; strongMark].
Proof.
  assert (Hok : forallb Mark_ok [strongMark; emMark; strongMark] = true)
    by (vm_compute; reflexivity).
  exact (conj Hok (removeFromSet_takes_first_equal strongMark [emMark; strongMark] Hok)).
Defined.

(** ** JSON (mark.ts, fragment.ts) *)

(** X14. A mark of the schema, with attributes that pass the checks of its
    type, is read back from its JSON: [Mark.fromJSON] of what [toJSON]
    returns is the mark. *)
Theorem Mark_fromJSON_after_toJSON (schema : Schema) (m : Mark) :
  markFrom schema m ->
  checkAttrs (mt_attrs (m_type m)) (m_attrs m) = Ok tt ->
  Mark_fromJSON schema (Mark_toJSON m) = Ok m.
Proof. apply Mark_round_trip. Qed.

Lemma Mark_fromJSON_after_toJSON_witness :
  markFrom exampleSchema linkMark
  /\ checkAttrs (mt_attrs (m_type linkMark)) (m_attrs linkMark) = Ok tt
  /\ Mark_fromJSON exampleSchema (Mark_toJSON linkMark) = Ok linkMark.
Proof.
  assert (Hfrom : markFrom exampleSchema linkMark).
  { split; [reflexivity|]. split; [|reflexivity].
    exists (JObj (m_attrs linkMark)). reflexivity. }
  assert (Hcheck : checkAttrs (mt_attrs (m_type linkMark)) (m_attrs linkMark) = Ok tt)
    by (vm_compute; reflexivity).
  exact (conj Hfrom (conj Hcheck (Mark_fromJSON_after_toJSON exampleSchema linkMark Hfrom Hcheck))).
Defined.

Lemma Fragment_read_back (schema : Schema) (f : Fragment) :
  sizeHeld f = true ->
  Forall (builtFromSchema schema) (frag_content f) ->
  Forall (fun c => Node_check c = Ok tt) (frag_content f) ->
  Fragment_fromJSON schema (Fragment_toJSON f) = Ok f.
Proof.
  destruct f as [cs size]. unfold sizeHeld. cbn [frag_content frag_size].
  intros Hsize Hbuilt Hcheck. apply Z.eqb_eq in Hsize. subst size.
  unfold Fragment_fromJSON, Fragment_toJSON. cbn [frag_content].
  destruct cs as [|c cs]; [reflexivity|].
  cbn [truthy negb]. rewrite mapRes_round_trip; [reflexivity|].
  rewrite Forall_forall in *. intros x Hx.
  apply fromJSON_toJSON_levels; auto.
Qed.

(** X15. A fragment that holds its size, whose children pass [check] and
    are built from the schema with every node of the text type a [TextNode]
    ([schema.text] makes the text nodes, [NodeType.create] the others), is
    read back from its JSON: [Fragment.fromJSON] of what [toJSON] returns is
    the fragment. The plain node of the text type that [schema.node("text")]
    returns is left out: [Node.fromJSON] throws on its JSON. *)
Theorem Fragment_fromJSON_after_toJSON (schema : Schema) (f : Fragment) :
  sizeHeld f = true ->
  Forall (builtFromSchema schema) (frag_content f) ->
  Forall (fun c => Node_check c = Ok tt) (frag_content f) ->
  Fragment_fromJSON schema (Fragment_toJSON f) = Ok f.
Proof. apply Fragment_read_back. Qed.

Lemma Fragment_fromJSON_after_toJSON_witness :
  sizeHeld (n_content linkDoc) = true
  /\ Forall (builtFromSchema exampleSchema) (frag_content (n_content linkDoc))
  /\ Forall (fun c => Node_check c = Ok tt) (frag_content (n_content linkDoc))
  /\ Fragment_fromJSON exampleSchema (Fragment_toJSON (n_content linkDoc))
     = Ok (n_content linkDoc).
Proof.
  assert (Hsize : sizeHeld (n_content linkDoc) = true) by (vm_compute; reflexivity).
  assert (Hbuilt : Forall (builtFromSchema exampleSchema) (frag_content (n_content linkDoc))).
  { repeat match goal with
           | |- _ /\ _ => split
           | |- True => exact I
           | |- Forall _ _ => constructor
           | |- attrsFrom _ ?attrs => exists (JObj attrs); reflexivity
           | |- markFrom _ _ => unfold markFrom
           | |- marksFrom _ _ => unfold marksFrom
           | |- _ <> _ => discriminate
           | |- _ = _ => reflexivity
           | |- builtFromSchema _ _ => cbn [builtFromSchema linkDoc paragraphOf textOf_
                                            Fragment_new frag_content n_content]
           end. }
  assert (Hcheck : Forall (fun c => Node_check c = Ok tt) (frag_content (n_content linkDoc)))
    by (repeat constructor).
  exact (conj Hsize (conj Hbuilt (conj Hcheck
           (Fragment_fromJSON_after_toJSON exampleSchema (n_content linkDoc)
              Hsize Hbuilt Hcheck)))).
Defined.

(** ** Resolved positions (resolvedpos.ts) *)

Lemma findIndex_offset (f : Fragment) (pos round index offset : Z) :
  frag_size f = sumSizes (frag_content f) ->
  findIndex f pos round = Ok (index, offset) ->
  0 <= index <= childCount f
  /\ offset = sumSizes (firstn (Z.to_nat index) (frag_content f)).
Proof.
  intros Hsize. unfold findIndex, childCount.
  destruct (Z.eqb_spec pos 0) as [-> | _].
  - intros H; inversion H; subst. split; [unfold len; lia | reflexivity].
  - destruct (Z.eqb_spec pos (frag_size f)) as [-> | _].
    + intros H; inversion H; subst. split; [unfold len; lia|].
      unfold len. now rewrite Nat2Z.id, firstn_all.
    + destruct ((pos >? frag_size f) || (pos <? 0)); [discriminate|]. intros H.
      destruct (findIndex_loop_offset (frag_content f) [] 0 0 pos round index offset
                  eq_refl eq_refl H) as (Hi & Ho & _).
      split; [lia | exact Ho].
Qed.

Lemma entered_child_size (c : Node) (offset po : Z) :
  isText c = false -> wellFormedNode c = true ->
  offset < po < offset + nodeSize c ->
  nodeSize c = 2 + frag_size (n_content c).
Proof.
  destruct c as [type attrs content marks | type attrs text marks]; intros Htext Hwf Hin.
  - unfold nodeSize in *. cbn [n_content]. destruct (isLeaf _); lia.
  - unfold isText in Htext. simpl in *. congruence.
Qed.

Lemma resolve_loop_path (turns : nat) :
  forall node start po path path' po',
    wellFormedNode node = true ->
    0 <= po <= frag_size (n_content node) ->
    resolve_loop turns node start po path = Ok (path', po') ->
    exists suffix, path' = path ++ suffix /\ PathFrom (start + po) po' node start suffix.
Proof.
  induction turns as [|turns IH]; intros node start po path path' po' Hwf Hpo;
    [discriminate|].
  cbn [resolve_loop]. intros H.
  destruct (wellFormed_content node Hwf) as [Hsize Hall].
  assert (Hnn : Forall (fun c => 0 <= nodeSize c) (frag_content (n_content node))).
  { rewrite Forall_forall in *. intros c Hc. apply nodeSize_nonneg. auto. }
  destruct (findIndex_inside (n_content node) po Hsize Hnn Hpo) as
    (index & offset & Hf & Hi & Ho & Hcase).
  rewrite Hf in H. cbn [bind] in H.
  destruct (findIndex_offset _ _ _ _ _ Hsize Hf) as [Hidx Hoff].
  destruct (Z.eqb_spec (po - offset) 0) as [Hz | Hnz].
  - inversion H; subst path' po'. eexists. split; [reflexivity|]. rewrite Hoff.
    apply PathFrom_last; auto; lia.
  - destruct Hcase as [-> | (c & Hget & Hin)]; [lia|].
    unfold child in H. rewrite Hget in H. cbn [bind] in H.
    assert (Hcwf : wellFormedNode c = true).
    { rewrite Forall_forall in Hall. apply Hall. now apply (arr_get_In _ index). }
    destruct (isText c) eqn:Htext.
    + inversion H; subst path' po'. eexists. split; [reflexivity|]. rewrite Hoff.
      apply PathFrom_last; auto; try lia. right. exists c. unfold child. rewrite Hget.
      split; [reflexivity|]. split; [assumption|]. lia.
    + pose proof (entered_child_size c offset po Htext Hcwf Hin) as Hcsize.
      apply IH in H as (rest & -> & Hrest); [|assumption|lia].
      eexists. split; [now rewrite <- app_assoc|].
      replace (start + offset + 1 + (po - offset - 1)) with (start + po) in Hrest by lia.
      rewrite Hoff in *.
      apply (PathFrom_enter _ _ node start index c rest); auto; try lia.
      unfold child. now rewrite Hget.
Qed.

Lemma PathFrom_head (pos po : Z) (node : Node) (start : Z) (suffix : list PathElem) :
  PathFrom pos po node start suffix ->
  exists index s rest, suffix = PNode node :: PNum index :: PNum s :: rest.
Proof. intros H. destruct H; cbn [app]; do 3 eexists; reflexivity. Qed.

Lemma PathFrom_len (pos po : Z) (node : Node) (start : Z) (suffix : list PathElem) :
  PathFrom pos po node start suffix -> exists k, 1 <= k /\ len suffix = 3 * k.
Proof.
  induction 1 as [| node start index c rest _ _ _ _ _ _ _ (k & Hk & IH)].
  - exists 1. split; [lia | reflexivity].
  - exists (k + 1). split; [lia|]. rewrite len_app, len_triple, IH. lia.
Qed.

Lemma path_at_num (rp : ResolvedPos) (pre rest : list PathElem) (a b : PathElem) (s d : Z) :
  rp_path rp = pre ++ [a; b; PNum s] ++ rest ->
  len pre = 3 * d -> 0 <= d ->
  path_num rp (d * 3 + 2) = Some s.
Proof.
  intros Hpath Hlen Hd. unfold path_num. rewrite Hpath.
  now rewrite (arr_get_app_right pre _ (d * 3 + 2) 2) by lia.
Qed.

Lemma start_below (rp : ResolvedPos) (d s : Z) :
  0 <= d -> path_num rp (d * 3 + 2) = Some s -> rp_start rp (d + 1) = Some (s + 1).
Proof.
  intros Hd Hs. unfold rp_start, resolveDepth.
  destruct (Z.ltb_spec (d + 1) 0); [lia|]. destruct (Z.eqb_spec (d + 1) 0); [lia|].
  replace ((d + 1) * 3 - 1) with (d * 3 + 2) by lia. now rewrite Hs.
Qed.

Lemma depth_of_triples (n : Z) : 3 * n / 3 - 1 = n - 1.
Proof. rewrite Z.mul_comm, Z.div_mul; lia. Qed.

Ltac conjuncts := repeat match goal with |- _ /\ _ => split end.

Lemma PathFrom_levels (pos po : Z) (node : Node) (start : Z) (suffix : list PathElem) :
  PathFrom pos po node start suffix ->
  forall rp pre k,
    rp_path rp = pre ++ suffix -> rp_depth rp = len (rp_path rp) / 3 - 1 ->
    len pre = 3 * k -> 0 <= k -> rp_start rp k = Some start ->
    forall d, k <= d <= rp_depth rp ->
      exists n index s,
        rp_node rp d = Some n /\ rp_index rp d = Some index /\ rp_start rp d = Some s
        /\ path_num rp (d * 3 + 2)
           = Some (s + sumSizes (firstn (Z.to_nat index) (frag_content (n_content n))))
        /\ wellFormedNode n = true
        /\ s <= pos <= s + frag_size (n_content n)
        /\ 0 <= index <= childCount (n_content n)
        /\ (d = k -> n = node)
        /\ (d < rp_depth rp ->
            exists c, child (n_content n) index = Ok c /\ isText c = false
                      /\ nodeSize c = 2 + frag_size (n_content c)
                      /\ rp_node rp (d + 1) = Some c)
        /\ (d = rp_depth rp ->
            po = pos - s
            /\ (pos = s + sumSizes (firstn (Z.to_nat index) (frag_content (n_content n)))
                \/ exists c,
                    child (n_content n) index = Ok c /\ isText c = true
                    /\ s + sumSizes (firstn (Z.to_nat index) (frag_content (n_content n)))
                       < pos
                       < s + sumSizes (firstn (Z.to_nat index) (frag_content (n_content n)))
                         + nodeSize c)).
Proof.
  induction 1 as [node start index Hwf Hin Hpo Hidx Hcase
                 | node start index c rest Hwf Hin Hidx Hchild Htext Hsize Hrest IH];
    intros rp pre k Hpath Hdepth Hlen Hk Hstart d Hd.
  - assert (Hdk : rp_depth rp = k).
    { rewrite Hdepth, Hpath, len_app, Hlen, len_triple.
      replace (3 * k + 3) with (3 * (k + 1)) by lia.
      rewrite depth_of_triples. lia. }
    assert (d = k) by lia. subst d.
    rewrite <- (app_nil_r [PNode node; PNum index; PNum _]) in Hpath.
    destruct (path_at rp pre [] node index _ k Hpath Hlen Hk) as [Hnode Hindex].
    exists node, index, start. conjuncts; auto; try lia.
    + exact (path_at_num rp pre [] _ _ _ k Hpath Hlen Hk).
  - destruct (PathFrom_len _ _ _ _ _ Hrest) as (j & Hj & Hrlen).
    assert (Hdk : rp_depth rp = k + j).
    { rewrite Hdepth, Hpath, !len_app, Hlen, len_triple, Hrlen.
      replace (3 * k + (3 + 3 * j)) with (3 * (k + j + 1)) by lia.
      rewrite depth_of_triples. lia. }
    destruct (path_at rp pre rest node index _ k Hpath Hlen Hk) as [Hnode Hindex].
    pose proof (path_at_num rp pre rest _ _ _ k Hpath Hlen Hk) as Hnum.
    assert (Hpath' : rp_path rp
                     = (pre ++ [PNode node; PNum index;
                                PNum (start + sumSizes (firstn (Z.to_nat index)
                                                          (frag_content (n_content node))))])
                         ++ rest)
      by (now rewrite <- app_assoc).
    assert (Hlen' : len (pre ++ [PNode node; PNum index;
                                 PNum (start + sumSizes (firstn (Z.to_nat index)
                                                           (frag_content (n_content node))))])
                    = 3 * (k + 1))
      by (rewrite len_app, len_triple; lia).
    destruct (Z.eq_dec d k) as [-> | Hne].
    + exists node, index, start. conjuncts; auto; try lia.
      intros _. exists c. repeat split; auto.
      destruct (PathFrom_head _ _ _ _ _ Hrest) as (i & s' & tl & Hr).
      rewrite Hr in Hpath'.
      change (PNode c :: PNum i :: PNum s' :: tl) with ([PNode c; PNum i; PNum s'] ++ tl)
        in Hpath'.
      now destruct (path_at rp _ tl c i s' (k + 1) Hpath' Hlen' ltac:(lia)).
    + destruct (IH rp _ (k + 1) Hpath' Hdepth Hlen' ltac:(lia)
                  (start_below rp k _ Hk Hnum) d ltac:(lia))
        as (n & i & s & H1 & H2 & H3 & H4 & H5 & H6 & H7 & _ & H8 & H9).
      exists n, i, s. conjuncts; auto; lia.
Qed.

Lemma resolve_path (doc : Node) (pos : Z) (rp : ResolvedPos) :
  wellFormedNode doc = true -> resolve doc pos = Ok rp ->
  PathFrom pos (rp_parentOffset rp) doc 0 (rp_path rp)
  /\ rp_pos rp = pos /\ rp_depth rp = len (rp_path rp) / 3 - 1
  /\ 0 <= pos <= frag_size (n_content doc).
Proof.
  intros Hwf. unfold resolve.
  destruct (Z.geb_spec pos 0) as [H0 | H0]; cbn [andb negb]; [|discriminate].
  destruct (Z.leb_spec pos (frag_size (n_content doc))) as [H1 | H1]; cbn [negb];
    [|discriminate].
  intros H. apply bind_ok in H as ([path po] & Hloop & H). inversion H; subst rp. clear H.
  apply resolve_loop_path in Hloop as (suffix & -> & Hpath); [|assumption|lia].
  cbn [rp_parentOffset rp_path rp_pos rp_depth ResolvedPos_new app]. repeat split; auto; lia.
Qed.

(** Every level of a resolved position, from the document down to the
    parent of the position. *)
Lemma resolved_levels (doc : Node) (pos : Z) (rp : ResolvedPos) :
  wellFormedNode doc = true -> resolve doc pos = Ok rp ->
  forall d, 0 <= d <= rp_depth rp ->
    exists n index s,
      rp_node rp d = Some n /\ rp_index rp d = Some index /\ rp_start rp d = Some s
      /\ path_num rp (d * 3 + 2)
         = Some (s + sumSizes (firstn (Z.to_nat index) (frag_content (n_content n))))
      /\ wellFormedNode n = true
      /\ s <= pos <= s + frag_size (n_content n)
      /\ 0 <= index <= childCount (n_content n)
      /\ (d = 0 -> n = doc)
      /\ (d < rp_depth rp ->
          exists c, child (n_content n) index = Ok c /\ isText c = false
                    /\ nodeSize c = 2 + frag_size (n_content c)
                    /\ rp_node rp (d + 1) = Some c)
      /\ (d = rp_depth rp ->
          rp_parentOffset rp = pos - s
          /\ (pos = s + sumSizes (firstn (Z.to_nat index) (frag_content (n_content n)))
              \/ exists c,
                  child (n_content n) index = Ok c /\ isText c = true
                  /\ s + sumSizes (firstn (Z.to_nat index) (frag_content (n_content n)))
                     < pos
                     < s + sumSizes (firstn (Z.to_nat index) (frag_content (n_content n)))
                       + nodeSize c)).
Proof.
  intros Hwf Hres d Hd.
  destruct (resolve_path doc pos rp Hwf Hres) as (Hpath & _ & Hdepth & _).
  apply (PathFrom_levels pos (rp_parentOffset rp) doc 0 (rp_path rp) Hpath rp [] 0);
    auto; try lia; reflexivity.
Qed.

Lemma end_at (rp : ResolvedPos) (d : Z) (n : Node) (s : Z) :
  0 <= d -> rp_node rp d = Some n -> rp_start rp d = Some s ->
  rp_end rp d = Ok (Some (s + frag_size (n_content n))).
Proof.
  intros Hd Hn Hs. unfold rp_end.
  assert (Hr : resolveDepth rp d = d) by (unfold resolveDepth; destruct (Z.ltb_spec d 0); lia).
  rewrite Hr, Hn. cbn [needNode bind]. now rewrite Hs.
Qed.

(** X16. At every depth from 0 to its own, a position resolved in a
    well-formed document has an ancestor node whose content contains the
    position: [start(depth) <= pos <= end(depth)], and [end(depth)] is
    [start(depth)] plus the size of the content of [node(depth)]. The
    ancestor at depth 0 is the document, and [start] at the depth of the
    position plus [parentOffset] is the position. *)
Theorem resolved_position_inside_ancestors (doc : Node) (pos : Z) (rp : ResolvedPos) (d : Z) :
  wellFormedNode doc = true -> resolve doc pos = Ok rp -> 0 <= d <= rp_depth rp ->
  exists n s,
    rp_node rp d = Some n /\ rp_start rp d = Some s
    /\ rp_end rp d = Ok (Some (s + frag_size (n_content n)))
    /\ s <= pos <= s + frag_size (n_content n)
    /\ rp_node rp 0 = Some doc
    /\ rp_start rp (rp_depth rp) = Some (pos - rp_parentOffset rp).
Proof.
  intros Hwf Hres Hd.
  destruct (resolved_levels doc pos rp Hwf Hres d Hd)
    as (n & index & s & Hn & _ & Hs & _ & _ & Hin & _).
  exists n, s. repeat split; auto; try lia.
  - apply end_at; auto; lia.
  - destruct (resolved_levels doc pos rp Hwf Hres 0 ltac:(lia))
      as (n0 & i0 & s0 & Hn0 & _ & _ & _ & _ & _ & _ & Hdoc & _).
    now rewrite <- (Hdoc eq_refl).
  - destruct (resolved_levels doc pos rp Hwf Hres (rp_depth rp) ltac:(lia))
      as (n1 & i1 & s1 & _ & _ & Hs1 & _ & _ & _ & _ & _ & _ & Hlast).
    destruct (Hlast eq_refl) as [Hpo _]. rewrite Hs1. f_equal. lia.
Qed.

Lemma resolved_position_inside_ancestors_witness :
  wellFormedNode exampleDoc = true
  /\ resolve exampleDoc 7 = Ok (posAt exampleDoc 7)
  /\ 0 <= 1 <= rp_depth (posAt exampleDoc 7)
  /\ exists n s,
      rp_node (posAt exampleDoc 7) 1 = Some n /\ rp_start (posAt exampleDoc 7) 1 = Some s
      /\ rp_end (posAt exampleDoc 7) 1 = Ok (Some (s + frag_size (n_content n)))
      /\ s <= 7 <= s + frag_size (n_content n)
      /\ rp_node (posAt exampleDoc 7) 0 = Some exampleDoc
      /\ rp_start (posAt exampleDoc 7) (rp_depth (posAt exampleDoc 7))
         = Some (7 - rp_parentOffset (posAt exampleDoc 7)).
Proof.
  assert (Hwf : wellFormedNode exampleDoc = true) by (vm_compute; reflexivity).
  assert (Hres : resolve exampleDoc 7 = Ok (posAt exampleDoc 7)) by (vm_compute; reflexivity).
  assert (Hd : 0 <= 1 <= rp_depth (posAt exampleDoc 7)) by (vm_compute; split; discriminate).
  exact (conj Hwf (conj Hres (conj Hd
           (resolved_position_inside_ancestors exampleDoc 7 _ 1 Hwf Hres Hd)))).
Defined.

Lemma resolveDepth_same (rp : ResolvedPos) (d : Z) : 0 <= d -> resolveDepth rp d = d.
Proof. intros Hd. unfold resolveDepth. destruct (Z.ltb_spec d 0); lia. Qed.

Lemma node_in_path (rp : ResolvedPos) (d : Z) (n : Node) :
  0 <= d -> rp_node rp d = Some n -> arr_get (rp_path rp) (d * 3) = Some (PNode n).
Proof.
  intros Hd. unfold rp_node. rewrite (resolveDepth_same rp d Hd).
  destruct (arr_get (rp_path rp) (d * 3)) as [[x | z] |]; try discriminate.
  now intros [= ->].
Qed.

Lemma arr_get_inside {A : Type} (l : list A) (i : Z) :
  0 <= i < len l -> exists x, arr_get l i = Some x.
Proof.
  intros Hi. unfold arr_get, len in *. destruct (Z.ltb_spec i 0); [lia|].
  destruct (nth_error l (Z.to_nat i)) as [x|] eqn:Hnth; [eauto|].
  apply nth_error_None in Hnth. lia.
Qed.

Lemma sumSizes_around (cs : list Node) (index : Z) (c : Node) :
  arr_get cs index = Some c ->
  sumSizes (firstn (Z.to_nat (index + 1)) cs)
  = sumSizes (firstn (Z.to_nat index) cs) + nodeSize c
  /\ sumSizes cs
     = sumSizes (firstn (Z.to_nat (index + 1)) cs) + sumSizes (skipn (Z.to_nat (index + 1)) cs)
  /\ 0 <= index < len cs.
Proof.
  intros Hget. destruct (arr_get_split cs index c Hget) as (l1 & l2 & -> & Hlen).
  assert (H1 : Z.to_nat index = List.length l1) by (unfold len in Hlen; lia).
  assert (H2 : Z.to_nat (index + 1) = List.length (l1 ++ [c]))
    by (rewrite length_app; unfold len in Hlen; cbn [List.length]; lia).
  split; [|split].
  - rewrite H1, firstn_length_app.
    replace (l1 ++ c :: l2) with ((l1 ++ [c]) ++ l2) by (now rewrite <- app_assoc).
    rewrite H2, firstn_length_app, sumSizes_app, sumSizes_cons.
    change (sumSizes []) with 0. lia.
  - now rewrite <- sumSizes_app, firstn_skipn.
  - rewrite len_app. unfold len in *. cbn [List.length]. lia.
Qed.


Lemma posAtIndex_loop_sum (parent : Node) :
  forall turns i pos,
    0 <= i -> i + Z.of_nat turns <= childCount (n_content parent) ->
    posAtIndex_loop (Some parent) turns i (Some pos)
    = Ok (Some (pos + sumSizes (firstn (Z.to_nat (i + Z.of_nat turns))
                                       (frag_content (n_content parent)))
                - sumSizes (firstn (Z.to_nat i) (frag_content (n_content parent))))).
Proof.
  induction turns as [|turns IH]; intros i pos Hi Hle.
  - cbn [posAtIndex_loop]. do 2 f_equal. rewrite Z.add_0_r. lia.
  - cbn [posAtIndex_loop needNode bind]. unfold childCount in Hle.
    destruct (arr_get_inside (frag_content (n_content parent)) i) as [c Hc]; [lia|].
    unfold child. rewrite Hc. cbn [bind num_add].
    rewrite IH by (unfold childCount; lia).
    destruct (sumSizes_around _ _ _ Hc) as (Hnext & _ & _). rewrite Hnext.
    do 2 f_equal. replace (i + Z.of_nat (S turns)) with (i + 1 + Z.of_nat turns) by lia. lia.
Qed.

Lemma posAtIndex_at (rp : ResolvedPos) (d index s : Z) (parent : Node) :
  0 <= d -> rp_node rp d = Some parent -> rp_start rp d = Some s ->
  0 <= index <= childCount (n_content parent) ->
  posAtIndex rp index d
  = Ok (Some (s + sumSizes (firstn (Z.to_nat index) (frag_content (n_content parent))))).
Proof.
  intros Hd Hnode Hstart Hindex. unfold posAtIndex.
  unfold rp_start in Hstart. rewrite (resolveDepth_same rp d Hd) in *.
  rewrite (node_in_path rp d parent Hd Hnode), Hstart.
  rewrite posAtIndex_loop_sum by lia.
  do 2 f_equal. rewrite Z.add_0_l, Z2Nat.id by lia. change (firstn (Z.to_nat 0) _) with (@nil Node).
  change (sumSizes []) with 0. lia.
Qed.

(** X17. The ancestors of a resolved position are nested: the node at a
    depth from 1 on is the child, at [index(depth - 1)], of the node one
    level up. [before(depth)] is the position of that child in its parent,
    which [posAtIndex] computes from the index; [after(depth)] is
    [before(depth)] plus the size of the node, [start(depth)] and
    [end(depth)] are one inside them, and the resolved position lies
    strictly between [before] and [after]. *)
Theorem resolved_ancestor_is_child (doc : Node) (pos : Z) (rp : ResolvedPos) (d : Z) :
  wellFormedNode doc = true -> resolve doc pos = Ok rp -> 1 <= d <= rp_depth rp ->
  exists parent index n b,
    rp_node rp (d - 1) = Some parent /\ rp_index rp (d - 1) = Some index
    /\ child (n_content parent) index = Ok n
    /\ rp_node rp d = Some n
    /\ rp_before rp d = Ok (Some b)
    /\ posAtIndex rp index (d - 1) = Ok (Some b)
    /\ rp_after rp d = Ok (Some (b + nodeSize n))
    /\ rp_start rp d = Some (b + 1)
    /\ rp_end rp d = Ok (Some (b + nodeSize n - 1))
    /\ b < pos < b + nodeSize n.
Proof.
  intros Hwf Hres Hd.
  destruct (resolved_levels doc pos rp Hwf Hres (d - 1) ltac:(lia))
    as (parent & index & s & Hparent & Hindex & Hs & Hnum & _ & _ & Hidx & _ & Hbelow & _).
  destruct (Hbelow ltac:(lia)) as (c & Hchild & Htext & Hsize & Hnode).
  replace (d - 1 + 1) with d in Hnode by lia.
  destruct (resolved_levels doc pos rp Hwf Hres d ltac:(lia))
    as (n & i' & s' & Hn & _ & Hs' & _ & _ & Hin & _).
  rewrite Hnode in Hn. inversion Hn; subst n. clear Hn.
  pose proof (start_below rp (d - 1) _ ltac:(lia) Hnum) as Hstart.
  replace (d - 1 + 1) with d in Hstart by lia.
  rewrite Hstart in Hs'. inversion Hs'; subst s'. clear Hs'.
  set (b := s + sumSizes (firstn (Z.to_nat index) (frag_content (n_content parent)))) in *.
  assert (Hb : path_num rp (d * 3 - 1) = Some b)
    by (replace (d * 3 - 1) with ((d - 1) * 3 + 2) by lia; exact Hnum).
  exists parent, index, c, b. conjuncts; auto; try lia.
  - unfold rp_before. rewrite (resolveDepth_same rp d) by lia.
    destruct (Z.eqb_spec d 0); [lia|]. destruct (Z.eqb_spec d (rp_depth rp + 1)); [lia|].
    now rewrite Hb.
  - apply posAtIndex_at; auto; lia.
  - unfold rp_after. rewrite (resolveDepth_same rp d) by lia.
    destruct (Z.eqb_spec d 0); [lia|]. destruct (Z.eqb_spec d (rp_depth rp + 1)); [lia|].
    rewrite (node_in_path rp d c) by (auto; lia). now rewrite Hb.
  - rewrite (end_at rp d c (b + 1)) by (auto; lia). do 2 f_equal. lia.
Qed.

Lemma resolved_ancestor_is_child_witness :
  wellFormedNode exampleDoc = true
  /\ resolve exampleDoc 7 = Ok (posAt exampleDoc 7)
  /\ 1 <= 1 <= rp_depth (posAt exampleDoc 7)
  /\ exists parent index n b,
      rp_node (posAt exampleDoc 7) (1 - 1) = Some parent
      /\ rp_index (posAt exampleDoc 7) (1 - 1) = Some index
      /\ child (n_content parent) index = Ok n
      /\ rp_node (posAt exampleDoc 7) 1 = Some n
      /\ rp_before (posAt exampleDoc 7) 1 = Ok (Some b)
      /\ posAtIndex (posAt exampleDoc 7) index (1 - 1) = Ok (Some b)
      /\ rp_after (posAt exampleDoc 7) 1 = Ok (Some (b + nodeSize n))
      /\ rp_start (posAt exampleDoc 7) 1 = Some (b + 1)
      /\ rp_end (posAt exampleDoc 7) 1 = Ok (Some (b + nodeSize n - 1))
      /\ b < 7 < b + nodeSize n.
Proof.
  assert (Hwf : wellFormedNode exampleDoc = true) by (vm_compute; reflexivity).
  assert (Hres : resolve exampleDoc 7 = Ok (posAt exampleDoc 7)) by (vm_compute; reflexivity).
  assert (Hd : 1 <= 1 <= rp_depth (posAt exampleDoc 7)) by (vm_compute; split; discriminate).
  exact (conj Hwf (conj Hres (conj Hd
           (resolved_ancestor_is_child exampleDoc 7 _ 1 Hwf Hres Hd)))).
Defined.

Lemma textOffset_last (doc : Node) (pos : Z) (rp : ResolvedPos) (t : Z) :
  wellFormedNode doc = true -> resolve doc pos = Ok rp ->
  path_num rp (rp_depth rp * 3 + 2) = Some t -> textOffset rp = pos - t.
Proof.
  intros Hwf Hres Hnum.
  destruct (resolve_path doc pos rp Hwf Hres) as (Hpath & Hpos & Hdepth & _).
  destruct (PathFrom_len _ _ _ _ _ Hpath) as (j & Hj & Hlen).
  assert (Hd : rp_depth rp = j - 1) by (rewrite Hdepth, Hlen; apply depth_of_triples).
  unfold textOffset. unfold path_num in Hnum.
  replace (len (rp_path rp) - 1) with (rp_depth rp * 3 + 2) by lia.
  destruct (arr_get (rp_path rp) (rp_depth rp * 3 + 2)) as [[x | z] |]; try discriminate.
  injection Hnum as ->. now rewrite Hpos.
Qed.









(** ** Children around a position (node.ts) *)

Lemma nodeAt_loop_resolved (turns : nat) :
  forall node start po path path' po',
    resolve_loop turns node start po path = Ok (path', po') ->
    exists pre parent index s,
      path' = pre ++ [PNode parent; PNum index; PNum s]
      /\ nodeAt_loop turns node po = Ok (maybeChild (n_content parent) index).
Proof.
  induction turns as [|turns IH]; intros node start po path path' po'; [discriminate|].
  cbn [resolve_loop nodeAt_loop]. intros H.
  apply bind_ok in H as ([index offset] & Hf & H). rewrite Hf. cbn [bind].
  destruct (Z.eqb_spec (po - offset) 0) as [Hz | Hnz].
  - inversion H; subst path' po'. exists path, node, index, (start + offset).
    split; [reflexivity|]. destruct (maybeChild (n_content node) index); [|reflexivity].
    destruct (Z.eqb_spec offset po); [reflexivity | lia].
  - apply bind_ok in H as (c & Hc & H). destruct (child_In _ _ _ Hc) as [_ Hget].
    unfold maybeChild at 1. rewrite Hget.
    destruct (Z.eqb_spec offset po); [lia|]. cbn [orb].
    destruct (isText c).
    + inversion H; subst path' po'. exists path, node, index, (start + offset).
      split; [reflexivity|]. unfold maybeChild. now rewrite Hget.
    + replace (po - (offset + 1)) with (po - offset - 1) by lia.
      exact (IH _ _ _ _ _ _ H).
Qed.

(** X20. [nodeAt(pos)] on a well-formed document: for a position outside
    [0, content size] it throws a [RangeError]; for a position inside it
    returns the child that the parent of the resolved position has at the
    index of the resolved position, [null] when the index is the number of
    children. *)
Theorem nodeAt_is_child_at_resolved_index (doc : Node) (pos : Z) :
  wellFormedNode doc = true ->
  if (0 <=? pos) && (pos <=? frag_size (n_content doc)) then
    exists rp parent index,
      resolve doc pos = Ok rp
      /\ rp_node rp (rp_depth rp) = Some parent
      /\ rp_index rp (rp_depth rp) = Some index
      /\ nodeAt doc pos = Ok (maybeChild (n_content parent) index)
  else exists message, nodeAt doc pos = Throw (RangeError message).
Proof.
  intros Hwf.
  destruct ((0 <=? pos) && (pos <=? frag_size (n_content doc))) eqn:Hin.
  - apply andb_prop in Hin as [H0 H1]. apply Z.leb_le in H0, H1.
    destruct (resolve_loop_inside (height doc) doc 0 pos [] Hwf (Nat.le_refl _))
      as (path & po & k & Hloop & Hlen & Hk); [lia|].
    assert (Hres : resolve doc pos = Ok (ResolvedPos_new pos path po)).
    { unfold resolve. destruct (Z.geb_spec pos 0); [|lia].
      destruct (Z.leb_spec pos (frag_size (n_content doc))); [|lia].
      cbn [andb negb]. now rewrite Hloop. }
    destruct (nodeAt_loop_resolved _ _ _ _ _ _ _ Hloop) as (pre & parent & index & s & Hpath & Hat).
    exists (ResolvedPos_new pos path po), parent, index.
    split; [exact Hres|].
    change (len (@nil PathElem)) with 0 in Hlen.
    assert (Hdepth : rp_depth (ResolvedPos_new pos path po) = k - 1).
    { unfold ResolvedPos_new. cbn [rp_depth]. rewrite Hlen, Z.add_0_l. apply depth_of_triples. }
    assert (Hpre : len pre = 3 * (k - 1)).
    { rewrite Hpath, len_app, len_triple in Hlen. lia. }
    rewrite Hdepth.
    destruct (path_at (ResolvedPos_new pos path po) pre [] parent index s (k - 1))
      as [Hn Hi]; [now rewrite app_nil_r | exact Hpre | lia |].
    split; [exact Hn|]. split; [exact Hi | exact Hat].
  - unfold nodeAt. destruct (wellFormed_content doc Hwf) as [Hheld Hall].
    assert (Hnn : 0 <= frag_size (n_content doc)).
    { rewrite Hheld. apply sumSizes_nonneg. rewrite Forall_forall in *.
      intros x Hx. apply nodeSize_nonneg. auto. }
    assert (Hout : pos < 0 \/ frag_size (n_content doc) < pos).
    { apply andb_false_iff in Hin as [H | H]; apply Z.leb_gt in H; lia. }
    destruct (height doc) as [|turns] eqn:Hheight; [destruct doc; discriminate|].
    cbn [nodeAt_loop]. unfold findIndex.
    destruct (Z.eqb_spec pos 0); [lia|].
    destruct (Z.eqb_spec pos (frag_size (n_content doc))); [lia|].
    assert (Htest : (pos >? frag_size (n_content doc)) || (pos <? 0) = true).
    { apply orb_true_iff. destruct Hout; [right; apply Z.ltb_lt | left; apply Z.gtb_lt]; lia. }
    rewrite Htest. cbn [bind]. eauto.
Qed.

Lemma nodeAt_is_child_at_resolved_index_witness :
  wellFormedNode exampleDoc = true
  /\ if (0 <=? 4) && (4 <=? frag_size (n_content exampleDoc)) then
       exists rp parent index,
         resolve exampleDoc 4 = Ok rp
         /\ rp_node rp (rp_depth rp) = Some parent
         /\ rp_index rp (rp_depth rp) = Some index
         /\ nodeAt exampleDoc 4 = Ok (maybeChild (n_content parent) index)
     else exists message, nodeAt exampleDoc 4 = Throw (RangeError message).
Proof.
  assert (Hwf : wellFormedNode exampleDoc = true) by (vm_compute; reflexivity).
  exact (conj Hwf (nodeAt_is_child_at_resolved_index exampleDoc 4 Hwf)).
Defined.

(** X21. [childAfter] and [childBefore] on a well-formed node, for an
    offset inside its content. [childAfter] gives the index and the start
    offset of the child that begins at the offset or contains it, and no
    node at the end of the content. [childBefore] gives no node at offset 0,
    and otherwise the child that ends at the offset or contains it. The
    offset returned is the sum of the sizes of the children before the
    index. *)
Theorem childAfter_childBefore_around (n : Node) (pos : Z) :
  wellFormedNode n = true -> 0 <= pos <= frag_size (n_content n) ->
  (exists index offset,
      childAfter n pos = Ok (maybeChild (n_content n) index, index, offset)
      /\ 0 <= index <= childCount (n_content n)
      /\ offset = sumSizes (firstn (Z.to_nat index) (frag_content (n_content n)))
      /\ match maybeChild (n_content n) index with
         | Some c => offset = pos \/ offset < pos < offset + nodeSize c
         | None => offset = pos /\ pos = frag_size (n_content n)
         end)
  /\ if pos =? 0 then childBefore n pos = Ok (None, 0, 0)
     else exists c index offset,
         childBefore n pos = Ok (Some c, index, offset)
         /\ maybeChild (n_content n) index = Some c
         /\ offset = sumSizes (firstn (Z.to_nat index) (frag_content (n_content n)))
         /\ (offset + nodeSize c = pos \/ offset < pos < offset + nodeSize c).
Proof.
  intros Hwf Hpos.
  destruct (wellFormed_content n Hwf) as [Hheld Hall].
  assert (Hnn : Forall (fun c => 0 <= nodeSize c) (frag_content (n_content n))).
  { rewrite Forall_forall in *. intros x Hx. apply nodeSize_nonneg. auto. }
  destruct (findIndex_inside (n_content n) pos Hheld Hnn Hpos)
    as (index & offset & Hf & _ & Ho & Hcase).
  destruct (findIndex_offset _ _ _ _ _ Hheld Hf) as [Hidx Hoff].
  split.
  - exists index, offset. unfold childAfter. rewrite Hf. cbn [bind].
    split; [reflexivity|]. split; [exact Hidx|]. split; [exact Hoff|].
    unfold maybeChild. destruct Hcase as [Heq | (c & Hget & Hin)].
    + destruct (arr_get (frag_content (n_content n)) index) as [c|] eqn:Hget; [now left|].
      split; [exact Heq|].
      assert (Hend : index = childCount (n_content n)).
      { unfold childCount in *.
        destruct (Z.eq_dec index (len (frag_content (n_content n)))) as [|Hne]; [assumption|].
        destruct (arr_get_inside (frag_content (n_content n)) index) as [x Hx]; [lia|].
        congruence. }
      rewrite Hheld, <- Heq, Hoff, Hend. unfold childCount, len.
      now rewrite Nat2Z.id, firstn_all.
    + rewrite Hget. now right.
  - unfold childBefore. destruct (Z.eqb_spec pos 0) as [Hz | Hnz]; [reflexivity|].
    rewrite Hf. cbn [bind]. destruct Hcase as [Heq | (c & Hget & Hin)].
    + destruct (Z.ltb_spec offset pos); [lia|].
      assert (Hpositive : 0 < index).
      { destruct (Z.eq_dec index 0) as [Hi0 | Hi0]; [|lia].
        rewrite Hi0 in Hoff. change (sumSizes (firstn (Z.to_nat 0) _)) with 0 in Hoff. lia. }
      unfold childCount in Hidx.
      destruct (arr_get_inside (frag_content (n_content n)) (index - 1)) as [c Hget]; [lia|].
      unfold child. rewrite Hget. cbn [bind].
      destruct (sumSizes_around _ _ _ Hget) as (Hnext & _ & _).
      replace (index - 1 + 1) with index in Hnext by lia.
      exists c, (index - 1), (offset - nodeSize c). split; [reflexivity|].
      split; [exact Hget|]. split; [lia|]. left. lia.
    + destruct (Z.ltb_spec offset pos); [|lia].
      unfold child. rewrite Hget. cbn [bind].
      exists c, index, offset. split; [reflexivity|]. split; [exact Hget|].
      split; [exact Hoff|]. now right.
Qed.

Lemma childAfter_childBefore_around_witness :
  wellFormedNode exampleDoc = true
  /\ 0 <= 4 <= frag_size (n_content exampleDoc)
  /\ (exists index offset,
         childAfter exampleDoc 4 = Ok (maybeChild (n_content exampleDoc) index, index, offset)
         /\ 0 <= index <= childCount (n_content exampleDoc)
         /\ offset = sumSizes (firstn (Z.to_nat index) (frag_content (n_content exampleDoc)))
         /\ match maybeChild (n_content exampleDoc) index with
            | Some c => offset = 4 \/ offset < 4 < offset + nodeSize c
            | None => offset = 4 /\ 4 = frag_size (n_content exampleDoc)
            end)
  /\ if 4 =? 0 then childBefore exampleDoc 4 = Ok (None, 0, 0)
     else exists c index offset,
         childBefore exampleDoc 4 = Ok (Some c, index, offset)
         /\ maybeChild (n_content exampleDoc) index = Some c
         /\ offset = sumSizes (firstn (Z.to_nat index) (frag_content (n_content exampleDoc)))
         /\ (offset + nodeSize c = 4 \/ offset < 4 < offset + nodeSize c).
Proof.
  assert (Hwf : wellFormedNode exampleDoc = true) by (vm_compute; reflexivity).
  assert (Hpos : 0 <= 4 <= frag_size (n_content exampleDoc))
    by (vm_compute; split; discriminate).
  exact (conj Hwf (conj Hpos (childAfter_childBefore_around exampleDoc 4 Hwf Hpos))).
Defined.

(** ** The schema constructor (schema.ts) *)






(** ** Slices through JSON (replace.ts) *)

(** X23. A slice with open depths that are not negative, whose content
    holds its size, passes [check] and is built from the schema with every
    node of the text type a [TextNode] ([schema.text] makes the text nodes,
    [NodeType.create] the others), is read back from its JSON:
    [Slice.fromJSON] of what [toJSON] returns is the slice. A slice whose
    content has size 0 is written as [null] and read back as the empty
    slice. The plain node of the text type that [schema.node("text")]
    returns is left out: [Node.fromJSON] throws on its JSON. *)
Theorem Slice_fromJSON_after_toJSON (schema : Schema) (s : Slice) :
  sizeHeld (sl_content s) = true ->
  Forall (builtFromSchema schema) (frag_content (sl_content s)) ->
  Forall (fun c => Node_check c = Ok tt) (frag_content (sl_content s)) ->
  0 <= openStart s -> 0 <= openEnd s ->
  Slice_fromJSON schema (Slice_toJSON s)
  = Ok (if frag_size (sl_content s) =? 0 then Slice_empty else s).
Proof.
  intros Hsize Hbuilt Hcheck Hstart Hend. unfold Slice_toJSON, Slice_fromJSON.
  destruct (Z.eqb_spec (frag_size (sl_content s)) 0) as [Hz | Hnz]; [reflexivity|].
  cbn [truthy negb app getProp lookup String.eqb Ascii.eqb Bool.eqb].
  rewrite (Fragment_read_back schema (sl_content s) Hsize Hbuilt Hcheck).
  destruct s as [content start stop]. cbn [openStart openEnd sl_content bind] in *.
  destruct (Z.gtb_spec start 0) as [Hs | Hs], (Z.gtb_spec stop 0) as [He | He];
    cbn [app lookup String.eqb Ascii.eqb Bool.eqb truthy negb].
  - destruct (Z.eqb_spec start 0); [lia|]. destruct (Z.eqb_spec stop 0); [lia|]. reflexivity.
  - destruct (Z.eqb_spec start 0); [lia|]. cbn [negb].
    replace stop with 0 by lia. reflexivity.
  - destruct (Z.eqb_spec stop 0); [lia|]. cbn [negb].
    replace start with 0 by lia. reflexivity.
  - replace start with 0 by lia. replace stop with 0 by lia. reflexivity.
Qed.

Lemma Slice_fromJSON_after_toJSON_witness :
  sizeHeld (sl_content (mkSlice (n_content linkDoc) 1 1)) = true
  /\ Forall (builtFromSchema exampleSchema)
            (frag_content (sl_content (mkSlice (n_content linkDoc) 1 1)))
  /\ Forall (fun c => Node_check c = Ok tt)
            (frag_content (sl_content (mkSlice (n_content linkDoc) 1 1)))
  /\ 0 <= openStart (mkSlice (n_content linkDoc) 1 1)
  /\ 0 <= openEnd (mkSlice (n_content linkDoc) 1 1)
  /\ Slice_fromJSON exampleSchema (Slice_toJSON (mkSlice (n_content linkDoc) 1 1))
     = Ok (if frag_size (sl_content (mkSlice (n_content linkDoc) 1 1)) =? 0
           then Slice_empty else mkSlice (n_content linkDoc) 1 1).
Proof.
  assert (Hsize : sizeHeld (sl_content (mkSlice (n_content linkDoc) 1 1)) = true)
    by (vm_compute; reflexivity).
  assert (Hbuilt : Forall (builtFromSchema exampleSchema)
                          (frag_content (sl_content (mkSlice (n_content linkDoc) 1 1)))).
  { repeat match goal with
           | |- _ /\ _ => split
           | |- True => exact I
           | |- Forall _ _ => constructor
           | |- attrsFrom _ ?attrs => exists (JObj attrs); reflexivity
           | |- markFrom _ _ => unfold markFrom
           | |- marksFrom _ _ => unfold marksFrom
           | |- _ <> _ => discriminate
           | |- _ = _ => reflexivity
           | |- builtFromSchema _ _ => cbn [builtFromSchema linkDoc paragraphOf textOf_
                                            Fragment_new frag_content n_content sl_content]
           end. }
  assert (Hcheck : Forall (fun c => Node_check c = Ok tt)
                          (frag_content (sl_content (mkSlice (n_content linkDoc) 1 1))))
    by (repeat constructor).
  assert (Hstart : 0 <= openStart (mkSlice (n_content linkDoc) 1 1))
    by (vm_compute; discriminate).
  assert (Hend : 0 <= openEnd (mkSlice (n_content linkDoc) 1 1))
    by (vm_compute; discriminate).
  exact (conj Hsize (conj Hbuilt (conj Hcheck (conj Hstart (conj Hend
           (Slice_fromJSON_after_toJSON exampleSchema _ Hsize Hbuilt Hcheck Hstart Hend)))))).
Defined.

(** ** Attribute steps on the document (attr_step.ts) *)

Lemma lookup_setAttr (attrs : Attrs) (attr name : string) (value : JsValue) :
  lookup name (setAttr attrs attr value)
  = if String.eqb name attr then Some value else lookup name attrs.
Proof.
  induction attrs as [|[k v] attrs IH]; cbn [setAttr lookup].
  - now destruct (String.eqb name attr).
  - destruct (String.eqb_spec k attr) as [-> | Hk]; cbn [lookup].
    + now destruct (String.eqb name attr).
    + rewrite IH. destruct (String.eqb_spec name k) as [-> | Hn]; [|reflexivity].
      destruct (String.eqb_spec k attr); [contradiction | reflexivity].
Qed.

Lemma computeAttrs_ext (table : AttrTable) (f1 f2 : Attrs) :
  (forall name, In name (map fst table) -> lookup name f1 = lookup name f2) ->
  computeAttrs table (JObj f1) = computeAttrs table (JObj f2).
Proof.
  induction table as [|[name attr] table IH]; intros Hsame; [reflexivity|].
  cbn [computeAttrs truthy getProp]. rewrite (Hsame name) by now left.
  rewrite IH; [reflexivity|]. intros n Hn. apply Hsame. now right.
Qed.

Lemma computeAttrs_at (table : AttrTable) (f r : Attrs) (name : string) (a : Attribute) :
  computeAttrs table (JObj f) = Ok r -> lookup name table = Some a ->
  lookup name r = Some (match getProp (JObj f) name with
                        | JUndefined => default a
                        | v => v
                        end).
Proof.
  revert r. induction table as [|[k attr] table IH]; intros r; [discriminate|].
  cbn [computeAttrs truthy lookup]. intros H Hfind.
  apply bind_ok in H as (given & Hgiven & H). apply bind_ok in H as (built & Hbuilt & H).
  inversion H; subst r. cbn [lookup].
  destruct (String.eqb_spec name k) as [-> | Hne].
  - inversion Hfind; subst a. f_equal.
    destruct (getProp (JObj f) k); try (now inversion Hgiven).
    destruct (hasDefault attr); [now inversion Hgiven | discriminate].
  - now apply IH.
Qed.

Lemma lookup_key {A : Type} (name : string) (l : list (string * A)) :
  In name (map fst l) -> exists x, lookup name l = Some x.
Proof.
  induction l as [|[k v] l IH]; [intros []|]. cbn [map fst lookup].
  destruct (String.eqb_spec name k) as [-> | Hne]; [eauto|].
  intros [Hk | Hin]; [congruence | auto].
Qed.

Lemma lookup_no_key {A : Type} (name : string) (l : list (string * A)) :
  lookup name l = None -> ~ In name (map fst l).
Proof.
  intros Hnone Hin. destruct (lookup_key name l Hin) as [x Hx]. congruence.
Qed.

(** X24. A [DocAttrStep] and its inverse. When the step applies to a
    document whose attributes were computed by its type, the result is the
    document with the same type, content and marks; the attribute of the
    step gets the value of the step, or its default when the value is
    undefined, the other attributes keep their values, and a step on an
    attribute that the type does not have changes nothing. Applying the
    step that [invert] returns to the result gives the first document
    back. *)
Theorem DocAttrStep_inverse_restores (step : DocAttrStep) (doc : Node) (result : StepResult) :
  n_text doc = None ->
  attrsFrom (nt_attrs (ty_base (n_type doc))) (n_attrs doc) ->
  JsValue_ok (JObj (n_attrs doc)) = true ->
  rankSorted (n_marks doc) = true ->
  DocAttrStep_apply step doc = Ok result ->
  exists doc',
    result = StepResult_ok doc'
    /\ n_type doc' = n_type doc /\ n_content doc' = n_content doc
    /\ n_marks doc' = n_marks doc
    /\ match lookup (da_attr step) (nt_attrs (ty_base (n_type doc))) with
       | Some a =>
           lookup (da_attr step) (n_attrs doc')
           = Some (match da_value step with JUndefined => default a | v => v end)
       | None => n_attrs doc' = n_attrs doc
       end
    /\ (forall name, name <> da_attr step ->
                     lookup name (n_attrs doc') = lookup name (n_attrs doc))
    /\ DocAttrStep_apply (DocAttrStep_invert step doc) doc' = Ok (StepResult_ok doc).
Proof.
  destruct doc as [type attrs content marks | type attrs text marks]; [|discriminate].
  destruct step as [attr value].
  cbn [n_text n_type n_attrs n_content n_marks da_attr da_value].
  intros _ Hfrom Hok Hsorted. set (table := nt_attrs (ty_base type)) in *.
  pose proof (computeAttrs_idempotent table attrs Hfrom Hok) as Hsame.
  assert (Hkeys : map fst attrs = map fst table).
  { destruct Hfrom as [v Hv]. exact (computeAttrs_keys table v attrs Hv). }
  unfold DocAttrStep_apply, DocAttrStep_invert, NodeType_create, NodeType_computeAttrs.
  cbn [n_type n_attrs n_content n_marks da_attr da_value truthy Fragment_from].
  destruct (ty_isText type) eqn:Htext; [discriminate|]. fold table.
  destruct (computeAttrs table (JObj (setAttr attrs attr value))) as [attrs'|e] eqn:Hset;
    [|discriminate].
  cbn [bind]. rewrite (setFrom_sorted marks Hsorted). intros H. inversion H; subst result.
  exists (mkNode type attrs' content marks).
  cbn [n_type n_attrs n_content n_marks].
  assert (Hothers : forall name, name <> attr -> lookup name attrs' = lookup name attrs).
  { intros name Hne.
    destruct (lookup name table) as [a|] eqn:Hfind.
    - rewrite (computeAttrs_at table _ attrs' name a Hset Hfind).
      rewrite (computeAttrs_at table _ attrs name a Hsame Hfind).
      cbn [getProp]. rewrite lookup_setAttr.
      destruct (String.eqb_spec name attr); [contradiction | reflexivity].
    - assert (Hno : forall r : Attrs, map fst r = map fst table -> lookup name r = None).
      { intros r Hr. destruct (lookup name r) eqn:Hl; [|reflexivity].
        apply lookup_In in Hl. apply (in_map fst) in Hl. rewrite Hr in Hl.
        apply lookup_no_key in Hfind. contradiction. }
      rewrite (Hno attrs Hkeys). apply Hno. exact (computeAttrs_keys _ _ _ Hset). }
  split; [reflexivity|]. split; [reflexivity|]. split; [reflexivity|]. split; [reflexivity|].
  split; [|split; [exact Hothers|]].
  - destruct (lookup attr table) as [a|] eqn:Hfind.
    + rewrite (computeAttrs_at table _ attrs' attr a Hset Hfind).
      cbn [getProp]. now rewrite lookup_setAttr, String.eqb_refl.
    + rewrite (computeAttrs_ext table (setAttr attrs attr value) attrs) in Hset; [congruence|].
      intros name Hin. rewrite lookup_setAttr.
      destruct (String.eqb_spec name attr) as [-> | Hne]; [|reflexivity].
      apply lookup_no_key in Hfind. contradiction.
  - rewrite (computeAttrs_ext table _ attrs); [rewrite Hsame; cbn [bind]|].
    + now rewrite Htext, (setFrom_sorted marks Hsorted).
    + intros name Hin. rewrite lookup_setAttr.
      destruct (String.eqb_spec name attr) as [-> | Hne]; [|now apply Hothers].
      cbn [getProp]. rewrite <- Hkeys in Hin.
      destruct (lookup_key attr attrs Hin) as [x Hx]. now rewrite Hx.
Qed.

Lemma DocAttrStep_inverse_restores_witness :
  n_text titledDoc = None
  /\ attrsFrom (nt_attrs (ty_base (n_type titledDoc))) (n_attrs titledDoc)
  /\ JsValue_ok (JObj (n_attrs titledDoc)) = true
  /\ rankSorted (n_marks titledDoc) = true
  /\ DocAttrStep_apply (mkDocAttrStep "title" (JStr "Final")) titledDoc
     = Ok (StepResult_ok (mkNode titledDocType [("title", JStr "Final")]
                                 (n_content exampleDoc) []))
  /\ exists doc',
      StepResult_ok (mkNode titledDocType [("title", JStr "Final")] (n_content exampleDoc) [])
      = StepResult_ok doc'
      /\ n_type doc' = n_type titledDoc /\ n_content doc' = n_content titledDoc
      /\ n_marks doc' = n_marks titledDoc
      /\ match lookup (da_attr (mkDocAttrStep "title" (JStr "Final")))
                      (nt_attrs (ty_base (n_type titledDoc))) with
         | Some a =>
             lookup (da_attr (mkDocAttrStep "title" (JStr "Final"))) (n_attrs doc')
             = Some (match da_value (mkDocAttrStep "title" (JStr "Final")) with
                     | JUndefined => default a
                     | v => v
                     end)
         | None => n_attrs doc' = n_attrs titledDoc
         end
      /\ (forall name, name <> da_attr (mkDocAttrStep "title" (JStr "Final")) ->
                       lookup name (n_attrs doc') = lookup name (n_attrs titledDoc))
      /\ DocAttrStep_apply (DocAttrStep_invert (mkDocAttrStep "title" (JStr "Final")) titledDoc)
                           doc'
         = Ok (StepResult_ok titledDoc).
Proof.
  assert (Htext : n_text titledDoc = None) by reflexivity.
  assert (Hfrom : attrsFrom (nt_attrs (ty_base (n_type titledDoc))) (n_attrs titledDoc))
    by (exists (JObj (n_attrs titledDoc)); reflexivity).
  assert (Hok : JsValue_ok (JObj (n_attrs titledDoc)) = true) by (vm_compute; reflexivity).
  assert (Hsorted : rankSorted (n_marks titledDoc) = true) by reflexivity.
  assert (Happly : DocAttrStep_apply (mkDocAttrStep "title" (JStr "Final")) titledDoc
                   = Ok (StepResult_ok (mkNode titledDocType [("title", JStr "Final")]
                                               (n_content exampleDoc) [])))
    by (vm_compute; reflexivity).
  exact (conj Htext (conj Hfrom (conj Hok (conj Hsorted (conj Happly
           (DocAttrStep_inverse_restores _ _ _ Htext Hfrom Hok Hsorted Happly)))))).
Defined.


(** ** What is before and after a resolved position (resolvedpos.ts) *)

(** X25. [nodeBefore] and [nodeAfter] of a position resolved in a
    well-formed document. When [textOffset] is 0 they are the children of
    the parent on both sides of the index, [null] at the start and at the
    end of the parent. Otherwise the child at the index is a text node and
    they are its two parts: text nodes with its type, attributes and marks
    that hold the text before and from [textOffset] on, which together give
    the text of the child. *)
Theorem nodeBefore_nodeAfter_split (doc : Node) (pos : Z) (rp : ResolvedPos) :
  wellFormedNode doc = true -> resolve doc pos = Ok rp ->
  exists parent index,
    rp_node rp (rp_depth rp) = Some parent
    /\ rp_index rp (rp_depth rp) = Some index
    /\ if textOffset rp =? 0 then
         nodeAfter rp = Ok (maybeChild (n_content parent) index)
         /\ nodeBefore rp
            = Ok (if index =? 0 then None else maybeChild (n_content parent) (index - 1))
       else exists type attrs text marks,
           child (n_content parent) index = Ok (mkTextNode type attrs text marks)
           /\ nodeBefore rp
              = Ok (Some (mkTextNode type attrs
                            (String.substring 0 (Z.to_nat (textOffset rp)) text) marks))
           /\ nodeAfter rp
              = Ok (Some (mkTextNode type attrs
                            (String.substring (Z.to_nat (textOffset rp))
                               (String.length text - Z.to_nat (textOffset rp)) text) marks))
           /\ String.append
                (String.substring 0 (Z.to_nat (textOffset rp)) text)
                (String.substring (Z.to_nat (textOffset rp))
                   (String.length text - Z.to_nat (textOffset rp)) text)
              = text.
Proof.
  intros Hwf Hres.
  destruct (resolve_path doc pos rp Hwf Hres) as (Hpath & _ & Hdepth & _).
  destruct (PathFrom_len _ _ _ _ _ Hpath) as (j & Hj & Hlen).
  assert (Hd : 0 <= rp_depth rp) by (rewrite Hdepth, Hlen, depth_of_triples; lia).
  destruct (resolved_levels doc pos rp Hwf Hres (rp_depth rp) ltac:(lia))
    as (parent & index & s & Hparent & Hindex & Hs & Hnum & Hpwf & _ & Hidx & _ & _ & Hlast).
  destruct (Hlast eq_refl) as [_ Hcase].
  pose proof (textOffset_last doc pos rp _ Hwf Hres Hnum) as Hoff.
  exists parent, index. split; [exact Hparent|]. split; [exact Hindex|].
  unfold nodeAfter, nodeBefore. rewrite Hparent, Hindex. cbn [needNode bind].
  unfold childCount in *.
  destruct Hcase as [Hat | (c & Hc & Htext & Hin)].
  - destruct (Z.eqb_spec (textOffset rp) 0) as [_ | Hne]; [|lia]. cbn [negb]. split.
    + unfold maybeChild, child.
      destruct (Z.eqb_spec index (len (frag_content (n_content parent)))) as [Hend | Hmid].
      * destruct (arr_get (frag_content (n_content parent)) index) as [x|] eqn:Hget;
          [|reflexivity].
        apply sumSizes_around in Hget. lia.
      * destruct (arr_get_inside (frag_content (n_content parent)) index) as [x Hx]; [lia|].
        now rewrite Hx.
    + destruct (Z.eqb_spec index 0) as [-> | Hpositive]; [reflexivity|].
      destruct (arr_get_inside (frag_content (n_content parent)) (index - 1)) as [x Hx];
        [lia|].
      unfold child, maybeChild. rewrite Hx. cbn [bind].
      destruct index; try reflexivity; lia.
  - destruct (Z.eqb_spec (textOffset rp) 0) as [Hz | Hnz]; [lia|]. cbn [negb].
    destruct (child_In _ _ _ Hc) as [Hmember Hget].
    destruct (wellFormed_content parent Hpwf) as [_ Hall].
    assert (Hcwf : wellFormedNode c = true) by (rewrite Forall_forall in Hall; auto).
    destruct (text_child c Htext Hcwf) as (type & attrs & text & marks & ->).
    cbn [nodeSize] in Hin.
    assert (Hrange : 0 < textOffset rp < strlen text) by lia.
    exists type, attrs, text, marks. split; [exact Hc|].
    rewrite Hc. cbn [bind].
    assert (Hinside : (index =? len (frag_content (n_content parent))) = false).
    { apply Z.eqb_neq. apply sumSizes_around in Hget. lia. }
    rewrite Hinside.
    unfold Node_cutFrom. cbn [Node_cut].
    destruct (Z.eqb_spec (textOffset rp) 0); [lia|]. cbn [andb].
    destruct (Z.eqb_spec (textOffset rp) (strlen text)); [lia|]. cbn [andb].
    rewrite (str_slice_head text _ Hrange), (str_slice_tail text _ Hrange).
    unfold strlen in Hrange.
    rewrite !withText_text;
      [ | apply substring_tail_nonempty; lia | apply substring_head_nonempty; lia ].
    cbn [bind]. split; [reflexivity|]. split; [reflexivity|].
    apply substring_split. lia.
Qed.

Lemma nodeBefore_nodeAfter_split_witness :
  wellFormedNode exampleDoc = true
  /\ resolve exampleDoc 2 = Ok (posAt exampleDoc 2)
  /\ exists parent index,
      rp_node (posAt exampleDoc 2) (rp_depth (posAt exampleDoc 2)) = Some parent
      /\ rp_index (posAt exampleDoc 2) (rp_depth (posAt exampleDoc 2)) = Some index
      /\ if textOffset (posAt exampleDoc 2) =? 0 then
           nodeAfter (posAt exampleDoc 2) = Ok (maybeChild (n_content parent) index)
           /\ nodeBefore (posAt exampleDoc 2)
              = Ok (if index =? 0 then None else maybeChild (n_content parent) (index - 1))
         else exists type attrs text marks,
             child (n_content parent) index = Ok (mkTextNode type attrs text marks)
             /\ nodeBefore (posAt exampleDoc 2)
                = Ok (Some (mkTextNode type attrs
                              (String.substring 0 (Z.to_nat (textOffset (posAt exampleDoc 2)))
                                 text) marks))
             /\ nodeAfter (posAt exampleDoc 2)
                = Ok (Some (mkTextNode type attrs
                              (String.substring (Z.to_nat (textOffset (posAt exampleDoc 2)))
                                 (String.length text
                                  - Z.to_nat (textOffset (posAt exampleDoc 2))) text) marks))
             /\ String.append
                  (String.substring 0 (Z.to_nat (textOffset (posAt exampleDoc 2))) text)
                  (String.substring (Z.to_nat (textOffset (posAt exampleDoc 2)))
                     (String.length text - Z.to_nat (textOffset (posAt exampleDoc 2))) text)
                = text.
Proof.
  assert (Hwf : wellFormedNode exampleDoc = true) by (vm_compute; reflexivity).
  assert (Hres : resolve exampleDoc 2 = Ok (posAt exampleDoc 2)) by (vm_compute; reflexivity).
  exact (conj Hwf (conj Hres (nodeBefore_nodeAfter_split exampleDoc 2 _ Hwf Hres))).
Defined.

(** ** Children of a fragment (fragment.ts) *)

Lemma arr_set_get {A : Type} (l : list A) :
  forall (i : nat) (x : A) (j : nat),
    (i < List.length l)%nat ->
    nth_error (arr_set l i x) j = if Nat.eqb j i then Some x else nth_error l j.
Proof.
  induction l as [|h l IH]; intros [|i] x [|j] Hi; cbn [List.length] in Hi; try lia;
    cbn [arr_set nth_error Nat.eqb]; try reflexivity.
  apply IH. lia.
Qed.

Lemma arr_set_length {A : Type} (l : list A) :
  forall (i : nat) (x : A), List.length (arr_set l i x) = List.length l.
Proof.
  induction l as [|h l IH]; intros [|i] x; cbn [arr_set List.length]; try reflexivity.
  now rewrite IH.
Qed.

Lemma arr_set_sizes (l : list Node) :
  forall (i : nat) (x old : Node),
    nth_error l i = Some old ->
    sumSizes (arr_set l i x) = sumSizes l + nodeSize x - nodeSize old.
Proof.
  induction l as [|h l IH]; intros [|i] x old Hget; cbn [nth_error] in Hget;
    try discriminate; cbn [arr_set]; rewrite !sumSizes_cons.
  - inversion Hget; subst. lia.
  - rewrite (IH i x old Hget). lia.
Qed.

(** X26. [replaceChild] puts a node at an index that the fragment has:
    reading that index from the result gives the node, the other indices
    read as before, the number of children is the same, and the result
    holds its size exactly when the fragment did. For an index outside the
    fragment it throws a [TypeError]. *)
Theorem replaceChild_sets_child (f : Fragment) (index : Z) (node : Node) :
  match replaceChild f index node with
  | Ok f' =>
      0 <= index < childCount f
      /\ child f' index = Ok node
      /\ childCount f' = childCount f
      /\ (forall j, j <> index -> maybeChild f' j = maybeChild f j)
      /\ sizeHeld f' = sizeHeld f
  | Throw e =>
      (index < 0 \/ childCount f <= index) /\ exists message, e = TypeError message
  end.
Proof.
  unfold replaceChild. destruct (arr_get (frag_content f) index) as [current|] eqn:Hget.
  - destruct (sumSizes_around _ _ _ Hget) as (_ & _ & Hrange).
    unfold arr_get in Hget. destruct (Z.ltb_spec index 0) as [|H0]; [discriminate|].
    assert (Hlt : (Z.to_nat index < List.length (frag_content f))%nat)
      by (unfold len in Hrange; lia).
    unfold child, maybeChild, childCount, sizeHeld, Fragment_new, arr_get.
    cbn [frag_content frag_size].
    split; [exact Hrange|]. split; [|split; [|split]].
    + destruct (Z.ltb_spec index 0); [lia|].
      now rewrite (arr_set_get _ _ _ _ Hlt), Nat.eqb_refl.
    + unfold len. now rewrite arr_set_length.
    + intros j Hj. destruct (Z.ltb_spec j 0); [reflexivity|].
      rewrite (arr_set_get _ _ _ _ Hlt).
      destruct (Nat.eqb_spec (Z.to_nat j) (Z.to_nat index)); [lia | reflexivity].
    + rewrite (arr_set_sizes _ _ _ _ Hget).
      destruct (Z.eqb_spec (frag_size f) (sumSizes (frag_content f)));
        [apply Z.eqb_eq | apply Z.eqb_neq]; lia.
  - split; [|eauto]. unfold childCount.
    destruct (Z.ltb_spec index 0); [now left | right].
    destruct (Z.leb_spec (len (frag_content f)) index); [assumption|].
    destruct (arr_get_inside (frag_content f) index) as [x Hx]; [lia | congruence].
Qed.


(** ** Equality of nodes (node.ts, fragment.ts) *)

Lemma Node_eq_node (type : NodeType) (attrs : Attrs) (content : Fragment) (marks : list Mark)
    (other : Node) :
  Node_eq (mkNode type attrs content marks) other
  = sameMarkup (mkNode type attrs content marks) other
    && eachEq (frag_content content) (frag_content (n_content other)).
Proof. reflexivity. Qed.

Lemma eachEq_nil (children : list Node) : eachEq children [] = true -> children = [].
Proof. destruct children; [reflexivity | discriminate]. Qed.

Lemma Node_eq_trans (a : Node) :
  forall b c, Node_eq a b = true -> Node_eq b c = true -> Node_eq a c = true.
Proof.
  induction a as [type attrs content marks IH | type attrs text marks]
    using Node_nested_ind; intros b c.
  - rewrite !Node_eq_node. intros Hab Hbc.
    apply andb_prop in Hab as [Hm1 He1].
    destruct b as [tb ab cb mb | tb ab textb mb].
    + rewrite Node_eq_node in Hbc. apply andb_prop in Hbc as [Hm2 He2].
      rewrite (sameMarkup_trans _ _ _ Hm1 Hm2). cbn [andb n_content] in *.
      revert He1 He2. generalize (frag_content cb) as bs.
      generalize (frag_content (n_content c)) as cs.
      induction IH as [|x xs Hx _ IHxs]; intros cs [|y ys]; try discriminate.
      * intros _ H. now destruct cs.
      * destruct cs as [|z zs]; cbn [eachEq]; intros H1 H2; try discriminate.
        apply andb_prop in H1 as [H1 H1'], H2 as [H2 H2'].
        now rewrite (Hx y z H1 H2), (IHxs zs ys H1' H2').
    + cbn [Node_eq] in Hbc. apply andb_prop in Hbc as [Hm2 Ht].
      rewrite (sameMarkup_trans _ _ _ Hm1 Hm2).
      cbn [n_content Fragment_empty frag_content] in He1. apply eachEq_nil in He1.
      rewrite He1. destruct c as [tc ac cc mc | tc ac textc mc]; [discriminate|].
      reflexivity.
  - cbn [Node_eq]. intros Hab Hbc. apply andb_prop in Hab as [Hm1 Ht1].
    destruct b as [tb ab cb mb | tb ab textb mb]; [discriminate|].
    cbn [n_text] in Ht1. cbn [Node_eq] in Hbc. apply andb_prop in Hbc as [Hm2 Ht2].
    rewrite (sameMarkup_trans _ _ _ Hm1 Hm2).
    destruct c as [tc ac cc mc | tc ac textc mc]; [discriminate|].
    cbn [n_text andb] in *. apply String.eqb_eq in Ht1, Ht2. subst.
    apply String.eqb_refl.
Qed.

Lemma Node_eq_sym_true (a : Node) :
  forall b,
    allNodes valuesOk a = true -> allNodes valuesOk b = true ->
    wellFormedNode a = true -> wellFormedNode b = true ->
    Node_eq a b = true -> Node_eq b a = true.
Proof.
  induction a as [type attrs content marks IH | type attrs text marks]
    using Node_nested_ind; intros b Hva Hvb Hwa Hwb.
  - rewrite Node_eq_node. intros Hab. apply andb_prop in Hab as [Hm He].
    destruct (allNodes_here _ _ Hva) as [Hav Havs].
    destruct (allNodes_here _ _ Hvb) as [Hbv Hbvs].
    pose proof (sameMarkup_isText _ _ Hm) as Htext.
    destruct (wellFormed_children _ _ _ _ Hwa) as (Hnot & _ & Hwas).
    destruct b as [tb ab cb mb | tb ab textb mb].
    + destruct (wellFormed_children _ _ _ _ Hwb) as (_ & _ & Hwbs).
      rewrite Node_eq_node, <- (sameMarkup_sym _ _ Hav Hbv), Hm. cbn [andb n_content] in *.
      revert He Hbvs Hwbs. generalize (frag_content cb) as bs.
      induction IH as [|x xs Hx _ IHxs]; intros [|y ys]; try discriminate; [reflexivity|].
      cbn [eachEq]. intros H Hbvs Hwbs. apply andb_prop in H as [H1 H2].
      inversion Havs; subst. inversion Hwas; subst. inversion Hbvs; subst.
      inversion Hwbs; subst.
      rewrite (Hx y); auto. cbn [andb]. apply IHxs; auto.
    + unfold isText in Htext. cbn [n_type] in Htext. cbn [wellFormedNode] in Hwb. congruence.
  - cbn [Node_eq]. intros Hab. apply andb_prop in Hab as [Hm Ht].
    destruct (allNodes_here _ _ Hva) as [Hav _].
    destruct (allNodes_here _ _ Hvb) as [Hbv _].
    destruct b as [tb ab cb mb | tb ab textb mb]; [discriminate|].
    cbn [Node_eq n_text] in *.
    now rewrite <- (sameMarkup_sym _ _ Hav Hbv), Hm, String.eqb_sym, Ht.
Qed.

(** X27. [Node.eq] is an equivalence on well-formed trees whose attribute
    objects have distinct keys: every node is [eq] to itself, [a.eq(b)] and
    [b.eq(a)] agree, and a node that is [eq] to a second one that is [eq]
    to a third is [eq] to the third. *)
Theorem Node_eq_is_equivalence (a b c : Node) :
  allNodes valuesOk a = true -> allNodes valuesOk b = true ->
  wellFormedNode a = true -> wellFormedNode b = true ->
  Node_eq a a = true
  /\ Node_eq a b = Node_eq b a
  /\ if Node_eq a b && Node_eq b c then Node_eq a c = true else True.
Proof.
  intros Hva Hvb Hwa Hwb. split; [now apply Node_eq_same|]. split.
  - destruct (Node_eq a b) eqn:Hab, (Node_eq b a) eqn:Hba; try reflexivity.
    + apply Node_eq_sym_true in Hab; auto. congruence.
    + apply Node_eq_sym_true in Hba; auto. congruence.
  - destruct (Node_eq a b) eqn:Hab; [|exact I].
    destruct (Node_eq b c) eqn:Hbc; [|exact I].
    exact (Node_eq_trans a b c Hab Hbc).
Qed.

Lemma Node_eq_is_equivalence_witness :
  allNodes valuesOk exampleDoc = true /\ allNodes valuesOk linkDoc = true
  /\ wellFormedNode exampleDoc = true /\ wellFormedNode linkDoc = true
  /\ Node_eq exampleDoc exampleDoc = true
  /\ Node_eq exampleDoc linkDoc = Node_eq linkDoc exampleDoc
  /\ if Node_eq exampleDoc linkDoc && Node_eq linkDoc exampleDoc
     then Node_eq exampleDoc exampleDoc = true else True.
Proof.
  assert (Hva : allNodes valuesOk exampleDoc = true) by (vm_compute; reflexivity).
  assert (Hvb : allNodes valuesOk linkDoc = true) by (vm_compute; reflexivity).
  assert (Hwa : wellFormedNode exampleDoc = true) by (vm_compute; reflexivity).
  assert (Hwb : wellFormedNode linkDoc = true) by (vm_compute; reflexivity).
  exact (conj Hva (conj Hvb (conj Hwa (conj Hwb
           (Node_eq_is_equivalence exampleDoc linkDoc exampleDoc Hva Hvb Hwa Hwb))))).
Defined.


(** ** The size a fragment holds (fragment.ts) *)













(** ** Cutting a fragment (fragment.ts) *)

Lemma substring_length (s : string) :
  forall n m, (n + m <= String.length s)%nat -> String.length (String.substring n m s) = m.
Proof.
  induction s as [|c s IH]; intros [|n] [|m] H; cbn [String.length String.substring] in *;
    try reflexivity; try lia.
  - rewrite (IH 0%nat m); lia.
  - apply IH. lia.
  - apply IH. lia.
Qed.

Lemma str_slice_inside (s : string) (a b : Z) :
  0 <= a <= b -> b <= strlen s ->
  str_slice s a b = String.substring (Z.to_nat a) (Z.to_nat (b - a)) s
  /\ strlen (str_slice s a b) = b - a.
Proof.
  intros Ha Hb. unfold str_slice.
  destruct (Z.ltb_spec a 0); [lia|]. destruct (Z.ltb_spec b 0); [lia|].
  rewrite !Z.min_l by lia. split; [reflexivity|].
  unfold strlen in *. rewrite substring_length; lia.
Qed.

Lemma wellFormed_sizes (cs : list Node) :
  Forall (fun c => wellFormedNode c = true) cs -> Forall (fun c => 0 <= nodeSize c) cs.
Proof.
  intros H. rewrite Forall_forall in *. intros c Hc. apply nodeSize_nonneg. auto.
Qed.

Lemma flatIn_nonpos (cs : list Node) :
  Forall (fun c => 0 <= nodeSize c) cs -> forall p, p <= 0 -> flatIn cs p = true.
Proof.
  induction 1 as [|c cs Hc _ IH]; intros p Hp; [reflexivity|]. cbn [flatIn].
  destruct (Z.ltb_spec 0 p); [lia|]. cbn [andb]. apply IH. lia.
Qed.

Lemma flatIn_tail (c : Node) (cs : list Node) (p : Z) :
  0 <= nodeSize c -> Forall (fun c => 0 <= nodeSize c) cs ->
  flatIn (c :: cs) p = true -> flatIn cs (p - nodeSize c) = true.
Proof.
  intros Hc Hcs. cbn [flatIn].
  destruct (Z.ltb_spec 0 p); cbn [andb]; [|auto].
  destruct (Z.ltb_spec p (nodeSize c)); [|auto].
  intros _. apply flatIn_nonpos; [assumption | lia].
Qed.

Lemma flatIn_head (c : Node) (cs : list Node) (p : Z) :
  flatIn (c :: cs) p = true -> 0 < p < nodeSize c -> isText c = true.
Proof.
  cbn [flatIn]. intros H Hp.
  destruct (Z.ltb_spec 0 p); [|lia]. destruct (Z.ltb_spec p (nodeSize c)); [|lia].
  exact H.
Qed.

Lemma cutLoop_nil (childCut : Node -> Z -> Z -> Res Node) (from to pos : Z)
    (result : list Node) (size : Z) :
  cutLoop childCut from to [] pos result size
  = if pos <? to
    then Throw (TypeError "Cannot read properties of undefined (reading 'nodeSize')")
    else Ok (result, size).
Proof. reflexivity. Qed.

Lemma cutLoop_whole (childCut : Node -> Z -> Z -> Res Node) (from to pos : Z) (c : Node)
    (rest result : list Node) (size : Z) :
  pos < to -> from <= pos -> from < pos + nodeSize c -> pos + nodeSize c <= to ->
  cutLoop childCut from to (c :: rest) pos result size
  = cutLoop childCut from to rest (pos + nodeSize c) (result ++ [c]) (size + nodeSize c).
Proof.
  intros H1 H2 H3 H4. cbn [cutLoop].
  destruct (Z.ltb_spec pos to); [|lia].
  destruct (Z.gtb_spec (pos + nodeSize c) from); [|lia].
  destruct (Z.ltb_spec pos from); [lia|].
  destruct (Z.gtb_spec (pos + nodeSize c) to); [lia|]. reflexivity.
Qed.

Lemma cutLoop_skip (childCut : Node -> Z -> Z -> Res Node) (from to pos : Z) (c : Node)
    (rest result : list Node) (size : Z) :
  pos < to -> pos + nodeSize c <= from ->
  cutLoop childCut from to (c :: rest) pos result size
  = cutLoop childCut from to rest (pos + nodeSize c) result size.
Proof.
  intros H1 H2. cbn [cutLoop].
  destruct (Z.ltb_spec pos to); [|lia].
  destruct (Z.gtb_spec (pos + nodeSize c) from); [lia | reflexivity].
Qed.

Lemma cutLoop_text (from to pos : Z) (type : NodeType) (attrs : Attrs) (text : string)
    (marks : list Mark) (rest result : list Node) (size : Z) :
  ty_isText type = true ->
  from < to -> pos < to -> from < pos + strlen text ->
  pos < from \/ to < pos + strlen text ->
  exists part,
    part = mkTextNode type attrs
             (str_slice text (Z.max 0 (from - pos)) (Z.min (strlen text) (to - pos))) marks
    /\ nodeSize part = Z.min (pos + strlen text) to - Z.max pos from
    /\ cutLoop Node_cut from to (mkTextNode type attrs text marks :: rest) pos result size
       = cutLoop Node_cut from to rest (pos + strlen text) (result ++ [part])
           (size + nodeSize part).
Proof.
  intros Htext Horder Hpos Hstop Hpartial. eexists. split; [reflexivity|].
  destruct (str_slice_inside text (Z.max 0 (from - pos)) (Z.min (strlen text) (to - pos)))
    as [Hslice Hlen]; [lia | lia |].
  split; [cbn [nodeSize]; rewrite Hlen; lia|].
  cbn [cutLoop nodeSize]. destruct (Z.ltb_spec pos to); [|lia].
  destruct (Z.gtb_spec (pos + strlen text) from); [|lia].
  assert (Htest : (pos <? from) || (pos + strlen text >? to) = true).
  { apply orb_true_iff. destruct Hpartial; [left; apply Z.ltb_lt | right; apply Z.gtb_lt]; lia. }
  rewrite Htest. unfold isText. cbn [n_type n_text Node_cut]. rewrite Htext.
  assert (Hnot : (Z.max 0 (from - pos) =? 0) && (Z.min (strlen text) (to - pos) =? strlen text)
                 = false).
  { apply andb_false_iff. destruct Hpartial; [left | right]; apply Z.eqb_neq; lia. }
  rewrite Hnot. rewrite withText_text; [reflexivity|].
  intros Hempty. rewrite Hempty in Hlen. unfold strlen in Hlen at 1. cbn in Hlen. lia.
Qed.

Lemma cutLoop_flat (from to : Z) (cs : list Node) :
  from < to ->
  forall pos result size,
    Forall (fun c => wellFormedNode c = true) cs ->
    to <= pos + sumSizes cs ->
    flatIn cs (from - pos) = true -> flatIn cs (to - pos) = true ->
    exists mid,
      cutLoop Node_cut from to cs pos result size = Ok (result ++ mid, size + sumSizes mid)
      /\ sumSizes mid = Z.max 0 (Z.min to (pos + sumSizes cs) - Z.max from pos)
      /\ Forall (fun c => wellFormedNode c = true) mid.
Proof.
  intros Horder. induction cs as [|c cs IH]; intros pos result size Hwf Hend Hfrom Hto.
  - rewrite cutLoop_nil. change (sumSizes []) with 0 in *.
    destruct (Z.ltb_spec pos to); [lia|]. exists []. rewrite app_nil_r.
    change (sumSizes []) with 0. split; [do 2 f_equal; lia|]. split; [lia | constructor].
  - inversion Hwf as [|? ? Hc Hcs]; subst. rewrite sumSizes_cons in *.
    pose proof (nodeSize_nonneg c Hc) as Hsize.
    pose proof (wellFormed_sizes cs Hcs) as Hsizes.
    pose proof (sumSizes_nonneg cs Hsizes) as Hsum.
    pose proof (flatIn_tail c cs _ Hsize Hsizes Hfrom) as Hfrom'.
    pose proof (flatIn_tail c cs _ Hsize Hsizes Hto) as Hto'.
    replace (from - pos - nodeSize c) with (from - (pos + nodeSize c)) in Hfrom' by lia.
    replace (to - pos - nodeSize c) with (to - (pos + nodeSize c)) in Hto' by lia.
    destruct (Z.lt_ge_cases pos to) as [Hpos | Hpos].
    2:{ exists []. cbn [cutLoop]. destruct (Z.ltb_spec pos to); [lia|]. rewrite app_nil_r.
        change (sumSizes []) with 0. split; [do 2 f_equal; lia|]. split; [lia | constructor]. }
    destruct (Z.le_gt_cases (pos + nodeSize c) from) as [Hskip | Hover].
    + rewrite cutLoop_skip by lia.
      destruct (IH (pos + nodeSize c) result size Hcs ltac:(lia) Hfrom' Hto')
        as (mid & Hloop & Hmid & Hall).
      exists mid. split; [exact Hloop|]. split; [lia | exact Hall].
    + destruct (Z.lt_ge_cases pos from) as [Hinside | Hstart];
        [|destruct (Z.lt_ge_cases to (pos + nodeSize c)) as [Hinside | Hstop]].
      * assert (Htext : isText c = true) by (apply (flatIn_head c cs (from - pos)); auto; lia).
        destruct (text_child c Htext Hc) as (type & attrs & text & marks & ->).
        cbn [nodeSize] in *.
        destruct (cutLoop_text from to pos type attrs text marks cs result size)
          as (part & Hpart & Hpsize & Hstep); auto.
        rewrite Hstep.
        destruct (IH (pos + strlen text) (result ++ [part]) (size + nodeSize part) Hcs
                     ltac:(lia) Hfrom' Hto') as (mid & Hloop & Hmid & Hall).
        exists (part :: mid). rewrite Hloop, <- app_assoc, sumSizes_cons. cbn [app].
        split; [do 2 f_equal; lia|]. split; [lia|]. constructor; [|exact Hall].
        subst part. exact Hc.
      * assert (Htext : isText c = true) by (apply (flatIn_head c cs (to - pos)); auto; lia).
        destruct (text_child c Htext Hc) as (type & attrs & text & marks & ->).
        cbn [nodeSize] in *.
        destruct (cutLoop_text from to pos type attrs text marks cs result size)
          as (part & Hpart & Hpsize & Hstep); auto.
        rewrite Hstep.
        destruct (IH (pos + strlen text) (result ++ [part]) (size + nodeSize part) Hcs
                     ltac:(lia) Hfrom' Hto') as (mid & Hloop & Hmid & Hall).
        exists (part :: mid). rewrite Hloop, <- app_assoc, sumSizes_cons. cbn [app].
        split; [do 2 f_equal; lia|]. split; [lia|]. constructor; [|exact Hall].
        subst part. exact Hc.
      * rewrite cutLoop_whole by lia.
        destruct (IH (pos + nodeSize c) (result ++ [c]) (size + nodeSize c) Hcs
                     ltac:(lia) Hfrom' Hto') as (mid & Hloop & Hmid & Hall).
        exists (c :: mid). rewrite Hloop, <- app_assoc, sumSizes_cons. cbn [app].
        split; [do 2 f_equal; lia|]. split; [lia|]. now constructor.
Qed.

Lemma Fragment_cut_flat (f : Fragment) (from to : Z) :
  wellFormedFragment f = true ->
  0 <= from <= to -> to <= frag_size f ->
  flatIn (frag_content f) from = true -> flatIn (frag_content f) to = true ->
  exists f',
    Fragment_cut f from to = Ok f'
    /\ frag_size f' = to - from
    /\ wellFormedFragment f' = true.
Proof.
  unfold wellFormedFragment. intros Hwf Hfrom Hto Hflat1 Hflat2.
  apply andb_prop in Hwf as [Hheld Hall]. apply Z.eqb_eq in Hheld.
  unfold Fragment_cut, Fragment_cut_with.
  destruct ((from =? 0) && (to =? frag_size f)) eqn:Hwhole.
  - apply andb_prop in Hwhole as [H0 H1]. apply Z.eqb_eq in H0, H1.
    exists f. split; [reflexivity|]. split; [lia|].
    apply andb_true_intro. split; [now apply Z.eqb_eq | exact Hall].
  - destruct (Z.gtb_spec to from) as [Hgt | Hle].
    + assert (Hwfs : Forall (fun c => wellFormedNode c = true) (frag_content f))
        by (rewrite Forall_forall; now apply forallb_forall).
      destruct (cutLoop_flat from to (frag_content f) ltac:(lia) 0 [] 0 Hwfs)
        as (mid & Hloop & Hmid & Hmwf); try lia.
      { now rewrite Z.sub_0_r. }
      { now rewrite Z.sub_0_r. }
      rewrite Hloop. cbn [bind app]. eexists. split; [reflexivity|].
      unfold Fragment_new. cbn [frag_size frag_content]. split; [lia|].
      apply andb_true_intro. split; [apply Z.eqb_eq; lia|].
      apply forallb_forall. now rewrite Forall_forall in Hmwf.
    + cbn [bind]. eexists. split; [reflexivity|].
      unfold Fragment_new. cbn [frag_size frag_content]. split; [lia | reflexivity].
Qed.

(** X29. [Fragment.cut(from, to)] between flat positions. On a well-formed
    fragment, for [0 <= from <= to <= size] where both offsets lie between
    two children or inside a text child, [cut] returns a well-formed
    fragment of size [to - from]: whole children and the parts of the text
    nodes at the two ends. *)
Theorem cut_between_flat_positions (f : Fragment) (from to : Z) :
  wellFormedFragment f = true ->
  0 <= from <= to -> to <= frag_size f ->
  flatIn (frag_content f) from = true -> flatIn (frag_content f) to = true ->
  exists f',
    Fragment_cut f from to = Ok f'
    /\ frag_size f' = to - from
    /\ wellFormedFragment f' = true.
Proof. apply Fragment_cut_flat. Qed.

Lemma cut_between_flat_positions_witness :
  wellFormedFragment (n_content (paragraphOf [textOf_ "abc" []; textOf_ "de" [emMark]])) = true
  /\ 0 <= 1 <= 4
  /\ 4 <= frag_size (n_content (paragraphOf [textOf_ "abc" []; textOf_ "de" [emMark]]))
  /\ flatIn (frag_content (n_content (paragraphOf [textOf_ "abc" []; textOf_ "de" [emMark]]))) 1
     = true
  /\ flatIn (frag_content (n_content (paragraphOf [textOf_ "abc" []; textOf_ "de" [emMark]]))) 4
     = true
  /\ exists f',
      Fragment_cut (n_content (paragraphOf [textOf_ "abc" []; textOf_ "de" [emMark]])) 1 4
      = Ok f'
      /\ frag_size f' = 4 - 1
      /\ wellFormedFragment f' = true.
Proof.
  assert (H1 : wellFormedFragment
                 (n_content (paragraphOf [textOf_ "abc" []; textOf_ "de" [emMark]])) = true)
    by (vm_compute; reflexivity).
  assert (H2 : 0 <= 1 <= 4) by lia.
  assert (H3 : 4 <= frag_size
                      (n_content (paragraphOf [textOf_ "abc" []; textOf_ "de" [emMark]])))
    by (vm_compute; discriminate).
  assert (H4 : flatIn (frag_content
                         (n_content (paragraphOf [textOf_ "abc" []; textOf_ "de" [emMark]]))) 1
               = true) by (vm_compute; reflexivity).
  assert (H5 : flatIn (frag_content
                         (n_content (paragraphOf [textOf_ "abc" []; textOf_ "de" [emMark]]))) 4
               = true) by (vm_compute; reflexivity).
  exact (conj H1 (conj H2 (conj H3 (conj H4 (conj H5
           (cut_between_flat_positions _ 1 4 H1 H2 H3 H4 H5)))))).
Defined.


(** ** Replacing a range inside one parent (replace.ts) *)










Section ReplaceInOneParent.
Variables (doc : Node) (from to : Z) (rfrom rto : ResolvedPos) (slice : Slice).
Hypothesis Hwf : wellFormedNode doc = true.
Hypothesis Hfrom : resolve doc from = Ok rfrom.
Hypothesis Hto : resolve doc to = Ok rto.
Hypothesis Hdepth : rp_depth rfrom = rp_depth rto.
Hypothesis Hindex : forall d, 0 <= d < rp_depth rfrom -> rp_index rfrom d = rp_index rto d.
Hypothesis HopenStart : openStart slice = 0.
Hypothesis HopenEnd : openEnd slice = 0.
Hypothesis Hslice : wellFormedFragment (sl_content slice) = true.
Hypothesis Hnonempty : frag_size (sl_content slice) <> 0.




End ReplaceInOneParent.


